(** * A shallow embedding of the open-addressing hash table of [hashtable.h]

    The table is an index array of buckets probed linearly, an entries array
    addressed through the buckets' [loc] field, and a header.  The embedding
    follows the C source function by function.

    Platform conventions (LP64, little-endian, as on x86-64 Linux):
    - [size_t] and [unsigned long] are 64-bit; their arithmetic wraps modulo
      [2^64], written out with [wrap64];
    - [HT_BUCKET_T] occupies 24 bytes and [HT_ENTRY_T] 48 bytes; in an entry
      the key buffer [k] lies at offsets 0..31 and the [int k_len] at offsets
      32..35;
    - [calloc (nmemb, size)] yields NULL when [nmemb * size] does not fit in a
      [size_t]; apart from that an allocation succeeds or fails as the
      environment decides, which the operations take as a parameter;
    - the loops whose counter is declared [int i] are run with an unbounded
      counter;
    - [float] is IEEE 754 binary32 and [double] binary64, rounding to the
      nearest value, ties to even; [char] is signed.

    The fields of the three structs carry a prefix ([b_], [e_], [ht_]), the
    names of the source being shared between them.

    A key is the sequence of [char] values found behind the [key] pointer up
    to its terminating zero; reading past the end of the list reads that
    terminator.  A value handle is an address, [NULL] being 0. *)

From Stdlib Require Import ZArith Zdiv QArith Qround Qpower Lia List Bool String
  Ascii DecimalString Permutation.
From Stdlib Require Import Floats.SpecFloat.
From stdpp Require Import base list.

Local Open Scope Z_scope.

(** ** Constants *)

Definition HT_MAX_KEY_LEN : Z := 32.
Definition HT_DEFAULT_CAPACITY : Z := 16.
Definition HT_MAX_CAPACITY : Z := Z.shiftl 1 30.

(** ** Floating point *)

(** A C [float]: a binary32 value, which has 24 bits of precision and
    exponents below 128.  The operations on it are those of [SpecFloat]. *)
Definition FLT_MANT_DIG : Z := 24.
Definition FLT_MAX_EXP : Z := 128.

Record float : Type := mkFloat {
  f_val : spec_float;
  f_valid : valid_binary FLT_MANT_DIG FLT_MAX_EXP f_val = true
}.

(** The number a zero or a finite float stands for. *)
Definition float_value (x : spec_float) : Q :=
  match x with
  | S754_finite s m e =>
      ((if s then - inject_Z (Zpos m) else inject_Z (Zpos m)) * (2 # 1) ^ e)%Q
  | _ => 0%Q
  end.

(** [0.75], which [float] represents exactly: [12582912 * 2^-24]. *)
Definition HT_DEFAULT_LOAD_FACTOR : float :=
  mkFloat (S754_finite false 12582912 (-24)) eq_refl.

(** The [double] constants [0.1] and [1.0] the load factor is compared
    with, by their values. *)
Definition DOUBLE_0_1 : Q := 3602879701896397 # 36028797018963968.
Definition DOUBLE_1_0 : Q := 1.

(** [x < d] and [x > d] for a [float x] and a [double] constant [d]: [x] is
    converted to [double], which keeps its value, and the values are
    compared; a NaN compares false either way. *)
Definition float_lt (x : float) (d : Q) : bool :=
  match f_val x with
  | S754_nan => false
  | S754_infinity s => s
  | v => negb (Qle_bool d (float_value v))
  end.

Definition float_gt (x : float) (d : Q) : bool :=
  match f_val x with
  | S754_nan => false
  | S754_infinity s => negb s
  | v => negb (Qle_bool (float_value v) d)
  end.

(** [(float) v] for a [size_t v]: the nearest binary32 value. *)
Definition float_of_size_t (v : Z) : spec_float :=
  binary_normalize FLT_MANT_DIG FLT_MAX_EXP v 0 false.

(** [(size_t) x] drops the fraction.  Where the integer part does not fit a
    [size_t], which includes the NaN and the infinities, C leaves the result
    undefined; x86-64 makes [2^63] of a NaN, and the model takes that value
    in all these cases.  The table meets the case of the NaN only, see
    [HT_new_ex]. *)
Definition size_t_of_float (x : spec_float) : Z :=
  match x with
  | S754_zero _ => 0
  | S754_finite s m e =>
      let i := Qfloor (float_value (S754_finite false m e)) in
      if s then (if i =? 0 then 0 else 2 ^ 63)
      else if i <? 2 ^ 64 then i else 2 ^ 63
  | _ => 2 ^ 63
  end.

Definition wrap64 (x : Z) : Z := x mod 2 ^ 64.

Definition ptr := Z.
Definition NULL : ptr := 0.

Definition sizeof_HT_BUCKET_T : Z := 24.
Definition sizeof_HT_ENTRY_T : Z := 48.

(** ** Data model *)

(** [HT_BUCKET_OCCUPIED] is 0, [HT_EMPTY_BUCKET] is -1 and
    [HT_DELETED_BUCKET] is -2 in the source; no other value is ever stored
    in a bucket's [state]. *)
Inductive bucket_state : Type :=
  | HT_BUCKET_OCCUPIED
  | HT_EMPTY_BUCKET
  | HT_DELETED_BUCKET.

Record HT_BUCKET_T : Type := mkBucket {
  b_hashcode : Z;
  b_loc : Z;
  b_state : bucket_state
}.

Record HT_ENTRY_T : Type := mkEntry {
  e_k : list Z;
  e_k_len : Z;
  e_v : ptr
}.

(** The deallocator is an external procedure: the table only remembers which
    one it was given, and [HT_free] reports the calls it makes to it. *)
Inductive dealloc_fn : Type :=
  | libc_free
  | user_dealloc (id : Z).

Record HT_T : Type := mkTable {
  ht_index : list HT_BUCKET_T;
  ht_values : list HT_ENTRY_T;
  ht_n : Z;
  ht_cap : Z;
  ht_expand : Z;
  ht_max_probe : Z;
  ht_ins_loc : Z;
  ht_load_factor : float;
  ht_cmp : list Z -> list Z -> Z -> Z;
  ht_hashcode : list Z -> Z -> Z;
  ht_dealloc : dealloc_fn
}.

(** Outcome of the allocations an operation may attempt. *)
Record alloc : Type := mkAlloc {
  a_index : bool;
  a_values : bool;
  a_table : bool
}.

Definition alloc_ok : alloc := mkAlloc true true true.

Definition calloc_ok (granted : bool) (nmemb size : Z) : bool :=
  granted && (nmemb * size <? 2 ^ 64).

Definition empty_bucket : HT_BUCKET_T := mkBucket 0 0 HT_EMPTY_BUCKET.
Definition empty_entry : HT_ENTRY_T :=
  mkEntry (replicate (Z.to_nat HT_MAX_KEY_LEN) 0) 0 NULL.

Definition is_occupied (b : HT_BUCKET_T) : bool :=
  match b_state b with HT_BUCKET_OCCUPIED => true | _ => false end.
Definition is_empty (b : HT_BUCKET_T) : bool :=
  match b_state b with HT_EMPTY_BUCKET => true | _ => false end.
Definition is_deleted (b : HT_BUCKET_T) : bool :=
  match b_state b with HT_DELETED_BUCKET => true | _ => false end.

(** Array access by a C index. *)
Definition bucket_at (index : list HT_BUCKET_T) (i : Z) : HT_BUCKET_T :=
  default empty_bucket (index !! Z.to_nat i).
Definition entry_at (values : list HT_ENTRY_T) (i : Z) : HT_ENTRY_T :=
  default empty_entry (values !! Z.to_nat i).
Definition array_set {A : Type} (l : list A) (i : Z) (x : A) : list A :=
  <[Z.to_nat i := x]> l.

(** The first [len] cells of an array, as [for (i = 0; i < len; i++)] visits
    them. *)
Definition buckets_upto (index : list HT_BUCKET_T) (len : Z) : list HT_BUCKET_T :=
  map (fun i => bucket_at index (Z.of_nat i)) (seq 0 (Z.to_nat len)).

(** ** libc string functions *)

(** The [n] bytes [strncpy (dst, src, n)] writes: the bytes of [src] up to
    its terminator, then zeros. *)
Fixpoint strncpy_bytes (src : list Z) (n : nat) : list Z :=
  match n with
  | O => []
  | S n' =>
      match src with
      | [] => replicate n 0
      | c :: src' => if c =? 0 then replicate n 0 else c :: strncpy_bytes src' n'
      end
  end.

Fixpoint strncmp_loop (s1 s2 : list Z) (n : nat) : Z :=
  match n with
  | O => 0
  | S n' =>
      let c1 := hd 0 s1 mod 256 in
      let c2 := hd 0 s2 mod 256 in
      if negb (c1 =? c2) then c1 - c2
      else if c1 =? 0 then 0
      else strncmp_loop (tl s1) (tl s2) n'
  end.

Definition strncmp (s1 s2 : list Z) (n : Z) : Z := strncmp_loop s1 s2 (Z.to_nat n).

(** ** Helpers of the table *)

(** [load_factor * capacity] is a product of two [float]s. *)
Definition _HT_calc_expansion (load_factor : float) (capacity : Z) : Z :=
  size_t_of_float
    (SFmul FLT_MANT_DIG FLT_MAX_EXP (f_val load_factor) (float_of_size_t capacity)).

Definition _HT_round_up (v : Z) : Z :=
  let v := wrap64 (v - 1) in
  let v := Z.lor v (Z.shiftr v 1) in
  let v := Z.lor v (Z.shiftr v 2) in
  let v := Z.lor v (Z.shiftr v 4) in
  let v := Z.lor v (Z.shiftr v 8) in
  let v := Z.lor v (Z.shiftr v 16) in
  wrap64 (v + 1).

Fixpoint _HT_hash_loop (key : list Z) (key_len n hash : Z) : Z :=
  match key with
  | [] => hash
  | c :: key' =>
      if c =? 0 then hash
      else if n <=? key_len then
        _HT_hash_loop key' key_len (n + 1)
          (wrap64 (wrap64 (wrap64 (Z.shiftl hash 5) + hash) + c))
      else hash
  end.

Definition _HT_hash (key : list Z) (key_len : Z) : Z :=
  _HT_hash_loop key key_len 0 5381.

Definition HT_CALC_LOC (ht : HT_T) (hashcode : Z) : Z :=
  Z.land hashcode (ht_cap ht - 1).

(** ** Construction *)

(** A NaN load factor passes the range test, both comparisons being false,
    and stays in the table. *)
Definition HT_new_ex (a : alloc) (requested_capacity : Z) (load_factor : float)
    (hashcode : list Z -> Z -> Z) (cmp : list Z -> list Z -> Z -> Z)
    (dealloc : dealloc_fn) : option HT_T :=
  let requested_capacity :=
    if requested_capacity <? HT_DEFAULT_CAPACITY then HT_DEFAULT_CAPACITY
    else requested_capacity in
  let requested_capacity :=
    if requested_capacity >? HT_MAX_CAPACITY then HT_MAX_CAPACITY
    else requested_capacity in
  let load_factor :=
    if float_lt load_factor DOUBLE_0_1 || float_gt load_factor DOUBLE_1_0
    then HT_DEFAULT_LOAD_FACTOR else load_factor in
  let capacity := _HT_round_up requested_capacity in
  let expand := _HT_calc_expansion load_factor capacity in
  if negb (calloc_ok (a_index a) capacity sizeof_HT_BUCKET_T) then None else
  let index := replicate (Z.to_nat capacity) empty_bucket in
  if negb (calloc_ok (a_values a) capacity sizeof_HT_ENTRY_T) then None else
  let values := replicate (Z.to_nat capacity) empty_entry in
  if negb (a_table a) then None else
  Some {| ht_index := index; ht_values := values; ht_n := 0;
          ht_cap := capacity; ht_expand := expand; ht_max_probe := 0;
          ht_ins_loc := 0; ht_load_factor := load_factor; ht_cmp := cmp;
          ht_hashcode := hashcode; ht_dealloc := dealloc |}.

Definition HT_new (a : alloc) (requested_capacity : Z) : option HT_T :=
  HT_new_ex a requested_capacity HT_DEFAULT_LOAD_FACTOR _HT_hash strncmp libc_free.

(** ** Resize *)

(** [values[i] = existing_values[i]] for [i < existing_capacity]. *)
Definition copy_values (values existing_values : list HT_ENTRY_T)
    (existing_capacity : Z) : list HT_ENTRY_T :=
  fold_left
    (fun vals i => array_set vals (Z.of_nat i) (entry_at existing_values (Z.of_nat i)))
    (seq 0 (Z.to_nat existing_capacity)) values.

(** The inner probe loop of the index rebuild; the boolean is [added]. *)
Fixpoint _HT_expand_probe (fuel : nat) (table : HT_T) (existing_b : HT_BUCKET_T)
    (hashcode probe_len : Z) : HT_T * bool :=
  match fuel with
  | O => (table, false)
  | S fuel' =>
      let index_loc := HT_CALC_LOC table (wrap64 (hashcode + probe_len)) in
      let new_b := bucket_at (ht_index table) index_loc in
      if negb (is_occupied new_b) then
        ({| ht_index := array_set (ht_index table) index_loc existing_b;
            ht_values := ht_values table; ht_n := ht_n table;
            ht_cap := ht_cap table; ht_expand := ht_expand table;
            ht_max_probe :=
              if probe_len >? ht_max_probe table then probe_len
              else ht_max_probe table;
            ht_ins_loc := ht_ins_loc table;
            ht_load_factor := ht_load_factor table; ht_cmp := ht_cmp table;
            ht_hashcode := ht_hashcode table; ht_dealloc := ht_dealloc table |},
         true)
      else _HT_expand_probe fuel' table existing_b hashcode (probe_len + 1)
  end.

(** One turn of the loop that copies the old index: a bucket that finds no
    place is dropped, the source only prints a message. *)
Definition _HT_expand_bucket (table : HT_T) (existing_b : HT_BUCKET_T) : HT_T :=
  if is_occupied existing_b then
    fst (_HT_expand_probe (Z.to_nat (ht_cap table + 1)) table existing_b
           (b_hashcode existing_b) 0)
  else table.

(** [None] is the NULL result: the table was not touched. *)
Definition _HT_expand (a : alloc) (table : HT_T) : option HT_T :=
  let existing_capacity := ht_cap table in
  let existing_index := ht_index table in
  let existing_values := ht_values table in
  let capacity := _HT_round_up (wrap64 (ht_cap table * 2)) in
  let expand := _HT_calc_expansion (ht_load_factor table) capacity in
  if negb (calloc_ok (a_index a) capacity sizeof_HT_BUCKET_T) then None else
  let index := replicate (Z.to_nat capacity) empty_bucket in
  if negb (calloc_ok (a_values a) capacity sizeof_HT_ENTRY_T) then None else
  let values := replicate (Z.to_nat capacity) empty_entry in
  let values := copy_values values existing_values existing_capacity in
  let table :=
    {| ht_index := index; ht_values := values; ht_n := ht_n table;
       ht_cap := capacity; ht_expand := expand; ht_max_probe := 0;
       ht_ins_loc := ht_ins_loc table;
       ht_load_factor := ht_load_factor table; ht_cmp := ht_cmp table;
       ht_hashcode := ht_hashcode table; ht_dealloc := ht_dealloc table |} in
  Some (fold_left _HT_expand_bucket
          (buckets_upto existing_index existing_capacity) table).

(** ** Insert / update *)

(** A store [e->k[i] = c].  Index 32..35 is past the key buffer and falls on
    the bytes of [k_len], lowest byte first; [HT_put] never stores further. *)
Definition store_k (e : HT_ENTRY_T) (i c : Z) : HT_ENTRY_T :=
  if i <? HT_MAX_KEY_LEN then
    mkEntry (array_set (e_k e) i c) (e_k_len e) (e_v e)
  else if i <? HT_MAX_KEY_LEN + 4 then
    let sh := 8 * (i - HT_MAX_KEY_LEN) in
    mkEntry (e_k e)
      (Z.lor (Z.land (e_k_len e) (Z.lnot (Z.shiftl 255 sh)))
             (Z.shiftl (c mod 256) sh))
      (e_v e)
  else e.

(** The stores into [e->k] made by
    [strncpy (e->k, key, key_len); e->k[key_len + 1] = '\0';]
    as (index, byte) pairs, in order. *)
Definition key_stores (key : list Z) (key_len : Z) : list (Z * Z) :=
  combine (map Z.of_nat (seq 0 (Z.to_nat key_len)))
          (strncpy_bytes key (Z.to_nat key_len))
  ++ [(wrap64 (key_len + 1), 0)].

Definition write_key (e : HT_ENTRY_T) (key : list Z) (key_len : Z) : HT_ENTRY_T :=
  fold_left (fun e ic => store_k e (fst ic) (snd ic)) (key_stores key key_len) e.

Definition needs_expand (table : HT_T) : bool :=
  (ht_n table >? ht_expand table) || (ht_n table =? ht_cap table)
  || (ht_ins_loc table =? ht_cap table).

Fixpoint HT_put_loop (fuel : nat) (table : HT_T) (key : list Z) (key_len : Z)
    (value : ptr) (hashcode probe_len : Z) : HT_T * ptr :=
  match fuel with
  | O => (table, NULL)
  | S fuel' =>
      let index_loc := HT_CALC_LOC table (wrap64 (hashcode + probe_len)) in
      let b := bucket_at (ht_index table) index_loc in
      if is_occupied b && (b_hashcode b =? hashcode) then
        let e := entry_at (ht_values table) (b_loc b) in
        if (e_k_len e =? key_len) && (ht_cmp table key (e_k e) key_len =? 0) then
          ({| ht_index := ht_index table;
              ht_values :=
                array_set (ht_values table) (b_loc b)
                  (mkEntry (e_k e) (e_k_len e) value);
              ht_n := ht_n table; ht_cap := ht_cap table;
              ht_expand := ht_expand table; ht_max_probe := ht_max_probe table;
              ht_ins_loc := ht_ins_loc table;
              ht_load_factor := ht_load_factor table; ht_cmp := ht_cmp table;
              ht_hashcode := ht_hashcode table; ht_dealloc := ht_dealloc table |},
           value)
        else HT_put_loop fuel' table key key_len value hashcode (probe_len + 1)
      else if negb (is_occupied b) then
        let ins_loc := if is_empty b then ht_ins_loc table else b_loc b in
        let e := entry_at (ht_values table) ins_loc in
        let e := write_key (mkEntry (e_k e) key_len value) key key_len in
        ({| ht_index :=
              array_set (ht_index table) index_loc
                (mkBucket hashcode ins_loc HT_BUCKET_OCCUPIED);
            ht_values := array_set (ht_values table) ins_loc e;
            ht_n := wrap64 (ht_n table + 1); ht_cap := ht_cap table;
            ht_expand := ht_expand table;
            ht_max_probe :=
              if probe_len >? ht_max_probe table then probe_len
              else ht_max_probe table;
            ht_ins_loc :=
              if is_empty b then wrap64 (ht_ins_loc table + 1)
              else ht_ins_loc table;
            ht_load_factor := ht_load_factor table; ht_cmp := ht_cmp table;
            ht_hashcode := ht_hashcode table; ht_dealloc := ht_dealloc table |},
         value)
      else HT_put_loop fuel' table key key_len value hashcode (probe_len + 1)
  end.

(** A NULL table or key is [None].  The result pairs the table after the call
    with the returned pointer. *)
Definition HT_put (a : alloc) (table : option HT_T) (key : option (list Z))
    (key_len : Z) (value : ptr) : option HT_T * ptr :=
  match table with
  | None => (None, NULL)
  | Some t =>
      match key with
      | None => (Some t, NULL)
      | Some key =>
          if key_len >? HT_MAX_KEY_LEN - 1 then (Some t, NULL) else
          match (if needs_expand t then _HT_expand a t else Some t) with
          | None => (Some t, NULL)
          | Some t =>
              let hashcode := wrap64 (ht_hashcode t key key_len) in
              let r := HT_put_loop (Z.to_nat (ht_cap t + 1)) t key key_len value
                         hashcode 0 in
              (Some (fst r), snd r)
          end
      end
  end.

(** ** Lookup, existence, removal *)

Fixpoint HT_get_loop (fuel : nat) (table : HT_T) (key : list Z) (key_len : Z)
    (hashcode probe_len : Z) : ptr :=
  match fuel with
  | O => NULL
  | S fuel' =>
      let index_loc := HT_CALC_LOC table (wrap64 (hashcode + probe_len)) in
      let b := bucket_at (ht_index table) index_loc in
      if is_occupied b && (b_hashcode b =? hashcode) then
        let e := entry_at (ht_values table) (b_loc b) in
        if (e_k_len e =? key_len) && (ht_cmp table key (e_k e) key_len =? 0)
        then e_v e
        else HT_get_loop fuel' table key key_len hashcode (probe_len + 1)
      else if is_empty b then NULL
      else HT_get_loop fuel' table key key_len hashcode (probe_len + 1)
  end.

Definition HT_get (table : option HT_T) (key : option (list Z)) (key_len : Z) : ptr :=
  match table with
  | None => NULL
  | Some t =>
      match key with
      | None => NULL
      | Some key =>
          if key_len >? HT_MAX_KEY_LEN - 1 then NULL else
          let hashcode := wrap64 (ht_hashcode t key key_len) in
          HT_get_loop (Z.to_nat (ht_max_probe t + 1)) t key key_len hashcode 0
      end
  end.

Fixpoint HT_exists_loop (fuel : nat) (table : HT_T) (key : list Z) (key_len : Z)
    (hashcode probe_len : Z) : bool :=
  match fuel with
  | O => false
  | S fuel' =>
      let index_loc := HT_CALC_LOC table (wrap64 (hashcode + probe_len)) in
      let b := bucket_at (ht_index table) index_loc in
      if is_occupied b && (b_hashcode b =? hashcode) then
        let e := entry_at (ht_values table) (b_loc b) in
        if (e_k_len e =? key_len) && (ht_cmp table key (e_k e) key_len =? 0)
        then true
        else HT_exists_loop fuel' table key key_len hashcode (probe_len + 1)
      else if is_empty b then false
      else HT_exists_loop fuel' table key key_len hashcode (probe_len + 1)
  end.

Definition HT_exists (table : option HT_T) (key : option (list Z)) (key_len : Z) : bool :=
  match table with
  | None => false
  | Some t =>
      match key with
      | None => false
      | Some key =>
          if key_len >? HT_MAX_KEY_LEN - 1 then false else
          let hashcode := wrap64 (ht_hashcode t key key_len) in
          HT_exists_loop (Z.to_nat (ht_max_probe t + 1)) t key key_len hashcode 0
      end
  end.

Fixpoint HT_remove_loop (fuel : nat) (table : HT_T) (key : list Z) (key_len : Z)
    (hashcode probe_len : Z) : HT_T * ptr :=
  match fuel with
  | O => (table, NULL)
  | S fuel' =>
      let index_loc := HT_CALC_LOC table (wrap64 (hashcode + probe_len)) in
      let b := bucket_at (ht_index table) index_loc in
      if is_occupied b && (b_hashcode b =? hashcode) then
        let e := entry_at (ht_values table) (b_loc b) in
        if (e_k_len e =? key_len) && (ht_cmp table key (e_k e) key_len =? 0) then
          let found_value := e_v e in
          ({| ht_index :=
                array_set (ht_index table) index_loc
                  (mkBucket 0 (b_loc b) HT_DELETED_BUCKET);
              ht_values :=
                array_set (ht_values table) (b_loc b)
                  (mkEntry (array_set (e_k e) 0 0) 0 NULL);
              ht_n := wrap64 (ht_n table - 1); ht_cap := ht_cap table;
              ht_expand := ht_expand table; ht_max_probe := ht_max_probe table;
              ht_ins_loc := ht_ins_loc table;
              ht_load_factor := ht_load_factor table; ht_cmp := ht_cmp table;
              ht_hashcode := ht_hashcode table; ht_dealloc := ht_dealloc table |},
           found_value)
        else HT_remove_loop fuel' table key key_len hashcode (probe_len + 1)
      else if is_empty b then (table, NULL)
      else HT_remove_loop fuel' table key key_len hashcode (probe_len + 1)
  end.

Definition HT_remove (table : option HT_T) (key : option (list Z)) (key_len : Z)
    : option HT_T * ptr :=
  match table with
  | None => (None, NULL)
  | Some t =>
      match key with
      | None => (Some t, NULL)
      | Some key =>
          if key_len >? HT_MAX_KEY_LEN - 1 then (Some t, NULL) else
          let hashcode := wrap64 (ht_hashcode t key key_len) in
          let r := HT_remove_loop (Z.to_nat (ht_max_probe t + 1)) t key key_len
                     hashcode 0 in
          (Some (fst r), snd r)
      end
  end.

(** ** Destruction *)

(** The arguments of the successive calls [table->dealloc (value)]. *)
Definition HT_free (table : option HT_T) : list ptr :=
  match table with
  | None => []
  | Some t =>
      flat_map
        (fun b =>
           if is_occupied b then
             let value := e_v (entry_at (ht_values t) (b_loc b)) in
             if negb (value =? NULL) then [value] else []
           else [])
        (buckets_upto (ht_index t) (ht_cap t))
  end.

(** ** Operation sequences *)

Inductive op : Type :=
  | OpPut (a : alloc) (key : option (list Z)) (key_len : Z) (value : ptr)
  | OpGet (key : option (list Z)) (key_len : Z)
  | OpExists (key : option (list Z)) (key_len : Z)
  | OpRemove (key : option (list Z)) (key_len : Z).

Definition apply_op (t : HT_T) (o : op) : HT_T :=
  match o with
  | OpPut a key key_len value =>
      default t (fst (HT_put a (Some t) key key_len value))
  | OpGet _ _ => t
  | OpExists _ _ => t
  | OpRemove key key_len => default t (fst (HT_remove (Some t) key key_len))
  end.

Definition run (t : HT_T) (ops : list op) : HT_T := fold_left apply_op ops t.

(** A table state is reachable when a construction followed by operations
    produces it. *)
Inductive reachable : HT_T -> Prop :=
  | reachable_new a requested_capacity load_factor hashcode cmp dealloc t :
      HT_new_ex a requested_capacity load_factor hashcode cmp dealloc = Some t ->
      reachable t
  | reachable_op t o : reachable t -> reachable (apply_op t o).

(** Keys written as string literals: the [char] values of the bytes, a byte
    above 127 being a negative [char]. *)
Definition char_of_ascii (c : ascii) : Z :=
  let n := Z.of_N (N_of_ascii c) in
  if n <? 128 then n else n - 256.

Definition cstr (s : string) : list Z :=
  map char_of_ascii (list_ascii_of_string s).

Definition put_str (k : string) (value : ptr) : op :=
  OpPut alloc_ok (Some (cstr k)) (Z.of_nat (String.length k)) value.
Definition remove_str (k : string) : op :=
  OpRemove (Some (cstr k)) (Z.of_nat (String.length k)).
Definition get_str (t : HT_T) (k : string) : ptr :=
  HT_get (Some t) (Some (cstr k)) (Z.of_nat (String.length k)).
Definition exists_str (t : HT_T) (k : string) : bool :=
  HT_exists (Some t) (Some (cstr k)) (Z.of_nat (String.length k)).


(** * Specification vocabulary *)

(** ** Bit smearing *)

Definition smear (x s : Z) : Z := Z.lor x (Z.shiftr x s).

(** [run_of m w x]: the bits of [x] at the [w] positions ending at [m] are
    set. *)
Definition run_of (m w x : Z) : Prop :=
  forall i, 0 <= i -> m - w < i <= m -> Z.testbit x i = true.

(** ** The structural invariant *)

Definition occupied_buckets (index : list HT_BUCKET_T) : list HT_BUCKET_T :=
  filter (fun b => is_occupied b) index.
Definition used_buckets (index : list HT_BUCKET_T) : list HT_BUCKET_T :=
  filter (fun b => negb (is_empty b)) index.

(** The entries slots referenced by the buckets that are not EMPTY. *)
Definition used_locs (index : list HT_BUCKET_T) : list Z :=
  b_loc <$> used_buckets index.

Record HT_inv (t : HT_T) : Prop := mkInv {
  inv_cap : exists k, 4 <= k <= 58 /\ ht_cap t = 2 ^ k;
  inv_index_len : Z.of_nat (length (ht_index t)) = ht_cap t;
  inv_values_len : Z.of_nat (length (ht_values t)) = ht_cap t;
  inv_n : ht_n t = Z.of_nat (length (occupied_buckets (ht_index t)));
  inv_used :
    Z.of_nat (length (used_locs (ht_index t))) <= ht_ins_loc t <= ht_cap t;
  inv_loc : Forall (fun l => 0 <= l < ht_ins_loc t) (used_locs (ht_index t));
  inv_nodup : NoDup (used_locs (ht_index t))
}.

(** State of the rebuild once the buckets [processed] have been copied. *)
Record rebuild_inv (t0 t : HT_T) (processed : list HT_BUCKET_T) : Prop := mkRebuild {
  rb_cap : ht_cap t = ht_cap t0;
  rb_values : ht_values t = ht_values t0;
  rb_n : ht_n t = ht_n t0;
  rb_ins_loc : ht_ins_loc t = ht_ins_loc t0;
  rb_len : Z.of_nat (length (ht_index t)) = ht_cap t0;
  rb_no_deleted : Forall (fun b => is_deleted b = false) (ht_index t);
  rb_occupied : occupied_buckets (ht_index t) ≡ₚ occupied_buckets processed
}.

Arguments wrap64 : simpl never.
Arguments HT_CALC_LOC : simpl never.
Arguments write_key : simpl never.
Arguments array_set : simpl never.
Arguments bucket_at : simpl never.
Arguments entry_at : simpl never.


(** ** Lookup vocabulary *)

(** The test the four probe loops apply to a bucket: OCCUPIED, same cached
    hash, same key length, comparator reports equal. *)
Definition key_matches (t : HT_T) (key : list Z) (key_len hashcode : Z)
    (b : HT_BUCKET_T) : bool :=
  is_occupied b && (b_hashcode b =? hashcode)
  && ((e_k_len (entry_at (ht_values t) (b_loc b)) =? key_len)
      && (ht_cmp t key (e_k (entry_at (ht_values t) (b_loc b))) key_len =? 0)).

(** The slot at which a lookup of [key] stops with a match, if any. *)
Fixpoint probe_find (fuel : nat) (t : HT_T) (key : list Z) (key_len : Z)
    (hashcode probe_len : Z) : option Z :=
  match fuel with
  | O => None
  | S fuel' =>
      let index_loc := HT_CALC_LOC t (wrap64 (hashcode + probe_len)) in
      let b := bucket_at (ht_index t) index_loc in
      if key_matches t key key_len hashcode b then Some index_loc
      else if is_empty b then None
      else probe_find fuel' t key key_len hashcode (probe_len + 1)
  end.

(** Bucket [i] holds a binding of [key]. *)
Definition holds (t : HT_T) (key : list Z) (key_len : Z) (i : Z) : bool :=
  key_matches t key key_len (wrap64 (ht_hashcode t key key_len))
    (bucket_at (ht_index t) i).

(** The slots of the index array, and those that hold a binding of [key]. *)
Definition slots (t : HT_T) : list Z := Z.of_nat <$> seq 0 (Z.to_nat (ht_cap t)).
Definition holders (t : HT_T) (key : list Z) (key_len : Z) : list Z :=
  filter (fun i => holds t key key_len i) (slots t).

(** [key] is bound in at most one bucket. *)
Definition single_binding (t : HT_T) (key : list Z) (key_len : Z) : Prop :=
  (length (holders t key key_len) <= 1)%nat.

(** The table after the removal of the binding in bucket [i]. *)
Definition remove_at (t : HT_T) (i : Z) : HT_T :=
  let b := bucket_at (ht_index t) i in
  let e := entry_at (ht_values t) (b_loc b) in
  {| ht_index := array_set (ht_index t) i (mkBucket 0 (b_loc b) HT_DELETED_BUCKET);
     ht_values :=
       array_set (ht_values t) (b_loc b) (mkEntry (array_set (e_k e) 0 0) 0 NULL);
     ht_n := wrap64 (ht_n t - 1); ht_cap := ht_cap t;
     ht_expand := ht_expand t; ht_max_probe := ht_max_probe t;
     ht_ins_loc := ht_ins_loc t;
     ht_load_factor := ht_load_factor t; ht_cmp := ht_cmp t;
     ht_hashcode := ht_hashcode t; ht_dealloc := ht_dealloc t |}.

(** ** Concrete tables *)

(** The table [HT_new] returns for a capacity that is already a power of
    two. *)
Definition fresh_table (capacity : Z) : HT_T :=
  {| ht_index := replicate (Z.to_nat capacity) empty_bucket;
     ht_values := replicate (Z.to_nat capacity) empty_entry;
     ht_n := 0; ht_cap := capacity;
     ht_expand := _HT_calc_expansion HT_DEFAULT_LOAD_FACTOR capacity;
     ht_max_probe := 0; ht_ins_loc := 0;
     ht_load_factor := HT_DEFAULT_LOAD_FACTOR; ht_cmp := strncmp;
     ht_hashcode := _HT_hash; ht_dealloc := libc_free |}.

(** The NaN as a load factor. *)
Definition float_nan : float := mkFloat S754_nan eq_refl.

(** ** Counting *)

(** The OCCUPIED buckets whose entry carries a NULL value handle. *)
Definition null_valued (t : HT_T) : list HT_BUCKET_T :=
  filter (fun b => e_v (entry_at (ht_values t) (b_loc b)) =? NULL)
    (occupied_buckets (ht_index t)).

(** Some bucket of the index array is EMPTY. *)
Definition has_empty_bucket (t : HT_T) : Prop :=
  exists i, 0 <= i < ht_cap t /\ is_empty (bucket_at (ht_index t) i) = true.

(** ** Allocation failure *)

(** One of the two allocations of a resize of [t] yields NULL. *)
Definition resize_allocation_fails (a : alloc) (t : HT_T) : Prop :=
  let capacity := _HT_round_up (wrap64 (ht_cap t * 2)) in
  calloc_ok (a_index a) capacity sizeof_HT_BUCKET_T = false \/
  calloc_ok (a_values a) capacity sizeof_HT_ENTRY_T = false.

(** ** The hasher the specification describes *)

(** DJB2 as the specification words it: from 5381, for each of the first
    [key_len] bytes, stopping early on a zero byte, [h <- h * 33 + byte]. *)
Fixpoint DJB2_spec_loop (key : list Z) (n : nat) (h : Z) : Z :=
  match n with
  | O => h
  | S n' =>
      match key with
      | [] => h
      | c :: key' => if c =? 0 then h else DJB2_spec_loop key' n' (wrap64 (h * 33 + c))
      end
  end.

Definition DJB2_spec (key : list Z) (key_len : Z) : Z :=
  DJB2_spec_loop key (Z.to_nat key_len) 5381.

(** ** Stores into the key buffer *)

(** Every store of [HT_put] into [e->k] falls inside the buffer. *)
Definition stores_in_key_buffer (key : list Z) (key_len : Z) : Prop :=
  Forall (fun ic => 0 <= fst ic < HT_MAX_KEY_LEN) (key_stores key key_len).

(** A key of 31 characters, the longest [HT_put] accepts. *)
Definition key31 : list Z := cstr "abcdefghijklmnopqrstuvwxyz01234".

(** ** Probe paths *)

(** The slot a probe of [key] visits at distance [d]. *)
Definition probe_slot (t : HT_T) (key : list Z) (key_len d : Z) : Z :=
  HT_CALC_LOC t (wrap64 (wrap64 (ht_hashcode t key key_len) + d)).

(** ** A table filled up to its maximum capacity *)

(** A caller's hasher that reads a four-character key as a number in base
    255, each character being a digit plus one. *)
Definition digits_hash (key : list Z) (key_len : Z) : Z :=
  match key with
  | [a; b; c; d] =>
      (a - 1) + 255 * (b - 1) + 255 * 255 * (c - 1) + 255 * 255 * 255 * (d - 1)
  | _ => 0
  end.

(** The four-character key whose [digits_hash] is [i]. *)
Definition digits_key (i : Z) : list Z :=
  [1 + i mod 255; 1 + (i / 255) mod 255; 1 + (i / (255 * 255)) mod 255;
   1 + i / (255 * 255 * 255)].

Definition put_digits (i : nat) : op :=
  OpPut alloc_ok (Some (digits_key (Z.of_nat i))) 4 1.

(** The entry [HT_put] writes for [digits_key i]. *)
Definition digits_entry (i : nat) : HT_ENTRY_T :=
  write_key (mkEntry (e_k empty_entry) 4 1) (digits_key (Z.of_nat i)) 4.

(** The table of capacity [capacity] after the keys [digits_key 0] ..
    [digits_key (m - 1)] have been put: key [i] sits in bucket [i]. *)
Definition digits_table (capacity : Z) (m : nat) : HT_T :=
  {| ht_index :=
       ((fun i => mkBucket (Z.of_nat i) (Z.of_nat i) HT_BUCKET_OCCUPIED) <$> seq 0 m)
       ++ replicate (Z.to_nat capacity - m) empty_bucket;
     ht_values :=
       (digits_entry <$> seq 0 m) ++ replicate (Z.to_nat capacity - m) empty_entry;
     ht_n := Z.of_nat m; ht_cap := capacity;
     ht_expand := _HT_calc_expansion HT_DEFAULT_LOAD_FACTOR capacity;
     ht_max_probe := 0; ht_ins_loc := Z.of_nat m;
     ht_load_factor := HT_DEFAULT_LOAD_FACTOR; ht_cmp := strncmp;
     ht_hashcode := digits_hash; ht_dealloc := libc_free |}.

(** The number of puts after which a table of maximum capacity holds more
    elements than its threshold. *)
Definition puts_to_threshold : nat :=
  Z.to_nat (_HT_calc_expansion HT_DEFAULT_LOAD_FACTOR HT_MAX_CAPACITY + 1).

(** ** Round-trip vocabulary *)

(** A key as a C string whose characters lie in a window of 256 values that
    starts at [lo] ([lo = -128] where [char] is signed, [lo = 0] where it is
    unsigned), none of them the terminator. *)
Definition wf_key (lo : Z) (key : list Z) : Prop :=
  Forall (fun c => lo <= c < lo + 256 /\ c <> 0) key.

(** The entry records [key]: its length, and its characters at the front of
    the buffer. *)
Definition stores_key (e : HT_ENTRY_T) (key : list Z) : Prop :=
  e_k_len e = Z.of_nat (length key) /\ take (length key) (e_k e) = key.

(** Bucket [i] binds [key] to [value]. *)
Definition binds (t : HT_T) (i : Z) (key : list Z) (value : ptr) : Prop :=
  is_occupied (bucket_at (ht_index t) i) = true /\
  b_hashcode (bucket_at (ht_index t) i)
    = wrap64 (_HT_hash key (Z.of_nat (length key))) /\
  stores_key (entry_at (ht_values t) (b_loc (bucket_at (ht_index t) i))) key /\
  e_v (entry_at (ht_values t) (b_loc (bucket_at (ht_index t) i))) = value.

(** The bucket in slot [s] lies on the probe path of its own cached hash,
    within [max_probe] steps, behind OCCUPIED buckets only. *)
Definition path_ok (t : HT_T) (s : Z) : Prop :=
  exists d, 0 <= d <= ht_max_probe t /\
    s = HT_CALC_LOC t (wrap64 (b_hashcode (bucket_at (ht_index t) s) + d)) /\
    forall d', 0 <= d' < d ->
      is_occupied
        (bucket_at (ht_index t)
           (HT_CALC_LOC t (wrap64 (b_hashcode (bucket_at (ht_index t) s) + d'))))
      = true /\
      HT_CALC_LOC t (wrap64 (b_hashcode (bucket_at (ht_index t) s) + d')) <> s.

Definition paths_ok (t : HT_T) : Prop :=
  forall s, 0 <= s < ht_cap t ->
    is_occupied (bucket_at (ht_index t) s) = true -> path_ok t s.

(** The table after a new binding has been written over the bucket in slot
    [s], reached at probe distance [d]. *)
Definition insert_at (t : HT_T) (s : Z) (hashcode : Z) (key : list Z)
    (key_len : Z) (value : ptr) (d : Z) : HT_T :=
  let b := bucket_at (ht_index t) s in
  let ins_loc := if is_empty b then ht_ins_loc t else b_loc b in
  let e := entry_at (ht_values t) ins_loc in
  {| ht_index :=
       array_set (ht_index t) s (mkBucket hashcode ins_loc HT_BUCKET_OCCUPIED);
     ht_values :=
       array_set (ht_values t) ins_loc
         (write_key (mkEntry (e_k e) key_len value) key key_len);
     ht_n := wrap64 (ht_n t + 1); ht_cap := ht_cap t;
     ht_expand := ht_expand t;
     ht_max_probe := if d >? ht_max_probe t then d else ht_max_probe t;
     ht_ins_loc :=
       if is_empty b then wrap64 (ht_ins_loc t + 1) else ht_ins_loc t;
     ht_load_factor := ht_load_factor t; ht_cmp := ht_cmp t;
     ht_hashcode := ht_hashcode t; ht_dealloc := ht_dealloc t |}.

(** The keys of a sequence of bindings are well formed, of at most 30
    characters, and pairwise distinct. *)
Definition wf_contents (lo : Z) (m : list (list Z * ptr)) : Prop :=
  Forall (fun kv => wf_key lo (fst kv)
                    /\ Z.of_nat (length (fst kv)) <= HT_MAX_KEY_LEN - 2) m
  /\ NoDup (fst <$> m).

(** The round-trip invariant: a table with the default strategies and no
    tombstone whose OCCUPIED buckets bind exactly the bindings [m], one
    bucket per key, each bucket on its own probe path. *)
Record RT (t : HT_T) (m : list (list Z * ptr)) : Prop := mkRT {
  rt_inv : HT_inv t;
  rt_cmp : ht_cmp t = strncmp;
  rt_hash : ht_hashcode t = _HT_hash;
  rt_no_deleted : Forall (fun b => is_deleted b = false) (ht_index t);
  rt_bufs :
    Forall (fun e => length (e_k e) = Z.to_nat HT_MAX_KEY_LEN) (ht_values t);
  rt_paths : paths_ok t;
  rt_occupied :
    forall i, 0 <= i < ht_cap t ->
      is_occupied (bucket_at (ht_index t) i) = true ->
      exists k v, (k, v) ∈ m /\ binds t i k v;
  rt_unique :
    forall i j k v v', 0 <= i < ht_cap t -> 0 <= j < ht_cap t ->
      binds t i k v -> binds t j k v' -> i = j;
  rt_bound :
    forall k v, (k, v) ∈ m -> exists i, 0 <= i < ht_cap t /\ binds t i k v
}.

(** The table [_HT_expand] starts the index rebuild from: new empty index,
    entries copied, capacity [capacity]. *)
Definition resized_empty (t : HT_T) (capacity : Z) : HT_T :=
  {| ht_index := replicate (Z.to_nat capacity) empty_bucket;
     ht_values :=
       copy_values (replicate (Z.to_nat capacity) empty_entry) (ht_values t)
         (ht_cap t);
     ht_n := ht_n t; ht_cap := capacity;
     ht_expand := _HT_calc_expansion (ht_load_factor t) capacity;
     ht_max_probe := 0; ht_ins_loc := ht_ins_loc t;
     ht_load_factor := ht_load_factor t; ht_cmp := ht_cmp t;
     ht_hashcode := ht_hashcode t; ht_dealloc := ht_dealloc t |}.

(** The puts of a sequence of bindings, every allocation being granted. *)
Definition puts_of (kvs : list (list Z * ptr)) : list op :=
  map (fun kv => OpPut alloc_ok (Some (fst kv)) (Z.of_nat (length (fst kv))) (snd kv))
    kvs.

(** No resize attempted along [ops] fails. *)
Fixpoint resizes_succeed (t : HT_T) (ops : list op) : bool :=
  match ops with
  | [] => true
  | o :: ops' =>
      match o with
      | OpPut a (Some _) key_len _ =>
          if (key_len <=? HT_MAX_KEY_LEN - 1) && needs_expand t
          then match _HT_expand a t with Some _ => true | None => false end
          else true
      | _ => true
      end
      && resizes_succeed (apply_op t o) ops'
  end.

#[local] Instance wf_key_dec lo key : Decision (wf_key lo key).
Proof. unfold wf_key. apply _. Defined.

#[local] Instance wf_contents_dec lo m : Decision (wf_contents lo m).
Proof. unfold wf_contents. apply _. Defined.

(** Twenty keys, more than a table of capacity 16 holds without a resize. *)
Definition twenty_bindings : list (list Z * ptr) :=
  map (fun i => (cstr "key" ++ [48 + i / 10; 48 + i mod 10], 100 + i))
    (map Z.of_nat (seq 0 20)).

(** ** The table as a finite map *)

(** The bucket in slot [s] lies on the probe path of its own cached hash,
    within [max_probe] steps, behind buckets none of which is EMPTY: a lookup
    walks over tombstones. *)
Definition probe_path_ok (t : HT_T) (s : Z) : Prop :=
  exists d, 0 <= d <= ht_max_probe t /\
    s = HT_CALC_LOC t (wrap64 (b_hashcode (bucket_at (ht_index t) s) + d)) /\
    forall d', 0 <= d' < d ->
      is_empty
        (bucket_at (ht_index t)
           (HT_CALC_LOC t (wrap64 (b_hashcode (bucket_at (ht_index t) s) + d'))))
      = false /\
      HT_CALC_LOC t (wrap64 (b_hashcode (bucket_at (ht_index t) s) + d')) <> s.

Definition probe_paths_ok (t : HT_T) : Prop :=
  forall s, 0 <= s < ht_cap t ->
    is_occupied (bucket_at (ht_index t) s) = true -> probe_path_ok t s.

(** The table holds the bindings [m]: a table with the default strategies
    whose OCCUPIED buckets bind exactly the bindings [m], one bucket per key,
    each bucket found by a probe for its hash.  Tombstones are allowed. *)
Record MAP (t : HT_T) (m : list (list Z * ptr)) : Prop := mkMAP {
  mp_inv : HT_inv t;
  mp_cmp : ht_cmp t = strncmp;
  mp_hash : ht_hashcode t = _HT_hash;
  mp_bufs :
    Forall (fun e => length (e_k e) = Z.to_nat HT_MAX_KEY_LEN) (ht_values t);
  mp_paths : probe_paths_ok t;
  mp_occupied :
    forall i, 0 <= i < ht_cap t ->
      is_occupied (bucket_at (ht_index t) i) = true ->
      exists k v, (k, v) ∈ m /\ binds t i k v;
  mp_unique :
    forall i j k v v', 0 <= i < ht_cap t -> 0 <= j < ht_cap t ->
      binds t i k v -> binds t j k v' -> i = j;
  mp_bound :
    forall k v, (k, v) ∈ m -> exists i, 0 <= i < ht_cap t /\ binds t i k v
}.

(** The calls of a client that passes each key with its own length and
    whose allocations are granted. *)
Inductive call : Type :=
  | Put (key : list Z) (value : ptr)
  | Remove (key : list Z).

Definition op_of_call (c : call) : op :=
  match c with
  | Put key value => OpPut alloc_ok (Some key) (Z.of_nat (length key)) value
  | Remove key => OpRemove (Some key) (Z.of_nat (length key))
  end.

(** Association lists as the reference map. *)
Fixpoint m_get (m : list (list Z * ptr)) (k : list Z) : option ptr :=
  match m with
  | [] => None
  | (k', v) :: m' => if decide (k' = k) then Some v else m_get m' k
  end.

Definition m_remove (m : list (list Z * ptr)) (k : list Z) : list (list Z * ptr) :=
  filter (fun kv => fst kv <> k) m.

Definition m_put (m : list (list Z * ptr)) (k : list Z) (v : ptr)
    : list (list Z * ptr) :=
  m_remove m k ++ [(k, v)].

Definition model_step (m : list (list Z * ptr)) (c : call) : list (list Z * ptr) :=
  match c with
  | Put k v => m_put m k v
  | Remove k => m_remove m k
  end.

Definition model_run (m : list (list Z * ptr)) (cs : list call)
    : list (list Z * ptr) :=
  fold_left model_step cs m.

(** The keys of a call are terminated strings, those put of at most 30
    characters. *)
Definition wf_call (lo : Z) (c : call) : Prop :=
  match c with
  | Put k _ => wf_key lo k /\ Z.of_nat (length k) <= HT_MAX_KEY_LEN - 2
  | Remove k => wf_key lo k
  end.

(** No call puts a key that the map holds at that point. *)
Fixpoint puts_absent (m : list (list Z * ptr)) (cs : list call) : Prop :=
  match cs with
  | [] => True
  | c :: cs' =>
      match c with
      | Put k _ => k ∉ (fst <$> m)
      | Remove _ => True
      end /\ puts_absent (model_step m c) cs'
  end.

#[local] Instance wf_call_dec lo c : Decision (wf_call lo c).
Proof. destruct c; unfold wf_call; apply _. Defined.

#[local] Instance puts_absent_dec m cs : Decision (puts_absent m cs).
Proof.
  revert m. induction cs as [|c cs IH]; intros m; simpl; [apply _|].
  destruct c; apply and_dec; try apply _; apply IH.
Defined.

(** The bindings read off the OCCUPIED buckets of a table. *)
Definition binding_of (t : HT_T) (b : HT_BUCKET_T) : list Z * ptr :=
  let e := entry_at (ht_values t) (b_loc b) in
  (take (Z.to_nat (e_k_len e)) (e_k e), e_v e).

Definition contents (t : HT_T) : list (list Z * ptr) :=
  binding_of t <$> occupied_buckets (ht_index t).

(** The value of the last pair with key [k]. *)
Definition last_value (kvs : list (list Z * ptr)) (k : list Z) : ptr :=
  default NULL (m_get (reverse kvs) k).

(** The map a sequence of puts builds. *)
Definition model_of_puts (kvs : list (list Z * ptr)) : list (list Z * ptr) :=
  fold_left (fun m kv => m_put m (fst kv) (snd kv)) kvs [].

(** No bucket of the index is a tombstone. *)
Definition no_tombstone (t : HT_T) : Prop :=
  Forall (fun b => is_deleted b = false) (ht_index t).

(** A sequence of calls with a collision ("a" and "q" share a home slot), a
    removal, a put over the tombstone, the removal of a key that was never
    put, and a NULL value. *)
Definition sample_calls : list call :=
  [Put (cstr "a") 1; Put (cstr "q") 2; Remove (cstr "a"); Put (cstr "b") 3;
   Put (cstr "a") 4; Remove (cstr "zz"); Put (cstr "null") NULL].

(** A sequence of puts in which "a" and "q" are put twice. *)
Definition sample_puts : list (list Z * ptr) :=
  [(cstr "a", 1); (cstr "q", 2); (cstr "a", 3); (cstr "b", 4); (cstr "q", 5)].

(** ** The shape of every reachable table *)

(** The table after the value of the entry of bucket [i] has been
    replaced, as the update branch of [HT_put] does. *)
Definition set_value (t : HT_T) (i : Z) (value : ptr) : HT_T :=
  let b := bucket_at (ht_index t) i in
  let e := entry_at (ht_values t) (b_loc b) in
  {| ht_index := ht_index t;
     ht_values :=
       array_set (ht_values t) (b_loc b) (mkEntry (e_k e) (e_k_len e) value);
     ht_n := ht_n t; ht_cap := ht_cap t;
     ht_expand := ht_expand t; ht_max_probe := ht_max_probe t;
     ht_ins_loc := ht_ins_loc t;
     ht_load_factor := ht_load_factor t; ht_cmp := ht_cmp t;
     ht_hashcode := ht_hashcode t; ht_dealloc := ht_dealloc t |}.

(** What holds of a table whatever keys it was given and whatever its
    strategies: the structural invariant, every OCCUPIED bucket within reach
    of a probe for its cached hash, every key buffer of 32 cells. *)
Record HT_shape (t : HT_T) : Prop := mkShape {
  sh_inv : HT_inv t;
  sh_paths : probe_paths_ok t;
  sh_bufs :
    Forall (fun e => length (e_k e) = Z.to_nat HT_MAX_KEY_LEN) (ht_values t)
}.

(** * The driver of [main.c]

    The calls the driver makes and the tests it applies to their results are
    modelled, with the exit status of [main] and the messages of
    [do_sample]; the formatted dumps [main] prints are left out.  [malloc] is
    taken to succeed in [main], which stores through its result at once. *)

Open Scope string_scope.

Definition nl : string := String (ascii_of_nat 10) EmptyString.
Definition tab : string := String (ascii_of_nat 9) EmptyString.

(** [do_sample]: the messages printed, in order, and the calls [HT_free]
    makes to the deallocator.  [value] is what [malloc] returned. *)
Definition do_sample (a : alloc) (value : ptr) : list string * list ptr :=
  let ht := HT_new a 30 in
  let key := cstr "key1" in
  let key_len := 4%Z in
  let put := HT_put a ht (Some key) key_len value in
  let ht := fst put in
  let found := HT_exists ht (Some key) key_len in
  let new_v := HT_get ht (Some key) key_len in
  let removed := HT_remove ht (Some key) key_len in
  let removed_v := snd removed in
  (concat
     [["Sample usage" ++ nl;
       tab ++ "Create a new table with an initial capacity of 30" ++ nl];
      match HT_new a 30 with
      | None => ["Could not create hash table"]
      | Some _ => []
      end;
      [tab ++ "Create a Value to be added to the table" ++ nl;
       tab ++ "Add a value to the table" ++ nl];
      if (snd put =? NULL)%Z then ["Put failed" ++ nl] else [];
      [tab ++ "Check if the key is in the table - ";
       if found then "Key exists" ++ nl else "Key does not exists" ++ nl;
       tab ++ "Retrieve a Value - ";
       if negb (new_v =? NULL)%Z then "Got the value" ++ nl
       else "Value not found or is NULL" ++ nl;
       tab ++ "Remove an item - ";
       if negb (removed_v =? NULL)%Z then "Value was removed from the table" ++ nl
       else "Value not found or is NULL" ++ nl;
       tab ++ "Free the table" ++ nl]],
   HT_free (fst removed)).

(** [sprintf (key, "key%d", i)] for [i >= 0]; its result, the length written,
    is the length of the key. *)
Definition sprintf_key (i : nat) : list Z :=
  cstr ("key" ++ NilEmpty.string_of_uint (Nat.to_uint i)).

Close Scope string_scope.

(** The state [main] threads through its tests: the table [t] and the number
    of objects obtained from [malloc]. *)
Record driver_state : Type := mkDriver {
  d_table : HT_T;
  d_allocated : nat
}.

(** A step of [main] makes it return a status or goes on. *)
Inductive outcome (A : Type) : Type :=
  | Return (status : Z)
  | Next (x : A) (s : driver_state).

Arguments Return {A} status.
Arguments Next {A} x s.

Definition step (A : Type) : Type := driver_state -> outcome A.

Definition d_ret {A : Type} (x : A) : step A := fun s => Next x s.

Definition d_bind {A B : Type} (m : step A) (f : A -> step B) : step B :=
  fun s =>
    match m s with
    | Return status => Return status
    | Next x s' => f x s'
    end.

Definition return_status {A : Type} (status : Z) : step A := fun _ => Return status.

Notation "'do' x <- m ; f" := (d_bind m (fun x => f))
  (at level 10, x name, m at level 100, f at level 200).

(** [for (...) { body }] over the values the counter takes. *)
Fixpoint for_each (l : list nat) (body : nat -> step unit) : step unit :=
  match l with
  | [] => d_ret tt
  | i :: l' => do _ <- body i; for_each l' body
  end.

(** [malloc]: the address of the [n]-th object is [Z.pos (heap n)]. *)
Definition call_malloc (heap : nat -> positive) : step ptr :=
  fun s => Next (Z.pos (heap (d_allocated s)))
             (mkDriver (d_table s) (S (d_allocated s))).

Definition call_put (a : alloc) (key : option (list Z)) (key_len : Z) (value : ptr)
    : step ptr :=
  fun s =>
    let r := HT_put a (Some (d_table s)) key key_len value in
    Next (snd r) (mkDriver (default (d_table s) (fst r)) (d_allocated s)).

Definition call_get (key : option (list Z)) (key_len : Z) : step ptr :=
  fun s => Next (HT_get (Some (d_table s)) key key_len) s.

Definition call_exists (key : option (list Z)) (key_len : Z) : step bool :=
  fun s => Next (HT_exists (Some (d_table s)) key key_len) s.

Definition call_remove (key : option (list Z)) (key_len : Z) : step ptr :=
  fun s =>
    let r := HT_remove (Some (d_table s)) key key_len in
    Next (snd r) (mkDriver (default (d_table s) (fst r)) (d_allocated s)).

(** The loops of [main] that put, get and test keys ["key<i>"]. *)
Definition put_things (a : alloc) (heap : nat -> positive) (l : list nat) : step unit :=
  for_each l (fun i =>
    let key := sprintf_key i in
    do athing <- call_malloc heap;
    do r <- call_put a (Some key) (Z.of_nat (length key)) athing;
    if r =? NULL then return_status 1 else d_ret tt).

Definition get_things (l : list nat) : step unit :=
  for_each l (fun i =>
    let key := sprintf_key i in
    do athing <- call_get (Some key) (Z.of_nat (length key));
    if athing =? NULL then return_status 1 else d_ret tt).

Definition get_nothing (l : list nat) : step unit :=
  for_each l (fun i =>
    let key := sprintf_key i in
    do athing <- call_get (Some key) (Z.of_nat (length key));
    if negb (athing =? NULL) then return_status 1 else d_ret tt).

Definition check_present (l : list nat) : step unit :=
  for_each l (fun i =>
    let key := sprintf_key i in
    do found <- call_exists (Some key) (Z.of_nat (length key));
    if negb found then return_status 1 else d_ret tt).

Definition check_absent (l : list nat) : step unit :=
  for_each l (fun i =>
    let key := sprintf_key i in
    do found <- call_exists (Some key) (Z.of_nat (length key));
    if found then return_status 1 else d_ret tt).

Definition remove_things (l : list nat) : step unit :=
  for_each l (fun i =>
    let key := sprintf_key i in
    do _ <- call_remove (Some key) (Z.of_nat (length key));
    d_ret tt).

Definition evens : list nat := [0; 2; 4; 6; 8; 10]%nat.
Definition odds : list nat := [1; 3; 5; 7; 9; 11]%nat.

(** The body of [main] after the table has been made. *)
Definition main_tests (a : alloc) (heap : nat -> positive) : step unit :=
  do _ <- put_things a heap (seq 0 12);
  do _ <- check_absent (seq 100 2);
  do _ <- get_things (seq 0 12);
  do _ <- get_nothing (seq 100 2);
  do _ <- remove_things evens;
  do _ <- check_absent evens;
  do _ <- check_present odds;
  do _ <- put_things a heap (seq 100 6);
  do _ <- get_things odds;
  do _ <- get_things (seq 100 6);
  do _ <- put_things a heap (seq 200 30);
  do _ <- get_things odds;
  do _ <- get_things (seq 100 6);
  do _ <- get_things (seq 200 30);
  do athing <- call_malloc heap;
  do r <- call_put a (Some []) 0 athing;
  if r =? NULL then return_status 1 else
  do found <- call_exists (Some []) 0;
  if negb found then return_status 1 else
  do _ <- call_put a (Some (cstr "null")) 4 NULL;
  do found <- call_exists (Some (cstr "null")) 4;
  if negb found then return_status 1 else
  do athing <- call_get (Some (cstr "null")) 4;
  if negb (athing =? NULL) then return_status 1 else
  do athing <- call_malloc heap;
  do r <- call_put a None 0 athing;
  if negb (r =? NULL) then return_status 1 else
  d_ret tt.

(** The exit status of [main]; [do_sample] has taken the first object of the
    heap. *)
Definition main (a : alloc) (heap : nat -> positive) : Z :=
  match HT_new a HT_DEFAULT_CAPACITY with
  | None => 1
  | Some t =>
      match main_tests a heap (mkDriver t 1) with
      | Return status => status
      | Next _ _ => 0
      end
  end.

(** * Properties *)

(** ** Bit-level facts: rounding to a power of two, slot computation *)

Lemma wrap64_small x : 0 <= x < 2 ^ 64 -> wrap64 x = x.
Proof. intros H. unfold wrap64. apply Z.mod_small. exact H. Qed.

Lemma land_pow2_mod h k : 0 <= k -> Z.land h (2 ^ k - 1) = h mod 2 ^ k.
Proof.
  intros Hk. rewrite <- Z.land_ones by exact Hk.
  f_equal. rewrite Z.ones_equiv. lia.
Qed.

Lemma smear_testbit x s i :
  0 <= i -> 0 <= s ->
  Z.testbit (smear x s) i = Z.testbit x i || Z.testbit x (i + s).
Proof.
  intros Hi Hs. unfold smear.
  rewrite Z.lor_spec, Z.shiftr_spec by exact Hi. reflexivity.
Qed.

Lemma smear_bound x s m :
  0 <= s -> 0 <= x < 2 ^ m -> 0 <= m -> 0 <= smear x s < 2 ^ m.
Proof.
  intros Hs [Hx0 Hx] Hm. unfold smear.
  assert (Hsh : 0 <= Z.shiftr x s) by (apply Z.shiftr_nonneg; exact Hx0).
  split; [apply Z.lor_nonneg; split; assumption|].
  destruct (Z.eq_dec (Z.lor x (Z.shiftr x s)) 0) as [->|Hne].
  - apply Z.pow_pos_nonneg; lia.
  - apply Z.log2_lt_pow2.
    + assert (0 <= Z.lor x (Z.shiftr x s))
        by (apply Z.lor_nonneg; split; assumption).
      lia.
    + rewrite Z.log2_lor by assumption.
      assert (Hlx : Z.log2 x < m).
      { destruct (Z.eq_dec x 0) as [->|].
        - exfalso. apply Hne. rewrite Z.shiftr_0_l. reflexivity.
        - apply Z.log2_lt_pow2; lia. }
      assert (Hls : Z.log2 (Z.shiftr x s) <= Z.log2 x).
      { apply Z.log2_le_mono. rewrite Z.shiftr_div_pow2 by exact Hs.
        apply Z.div_le_upper_bound; [apply Z.pow_pos_nonneg; lia|].
        assert (0 < 2 ^ s) by (apply Z.pow_pos_nonneg; lia). nia. }
      lia.
Qed.

Lemma smear_run m w s x :
  0 <= s <= w -> run_of m w x -> run_of m (w + s) (smear x s).
Proof.
  intros Hs Hrun i Hi Hrange.
  rewrite smear_testbit by lia.
  destruct (Z_lt_dec (m - w) i) as [Hin|Hout].
  - rewrite (Hrun i) by lia. reflexivity.
  - rewrite (Hrun (i + s)) by lia. apply orb_true_r.
Qed.

Lemma ones_of_run x m :
  0 <= m -> 0 <= x < 2 ^ (m + 1) -> run_of m (m + 1) x -> x = 2 ^ (m + 1) - 1.
Proof.
  intros Hm Hx Hrun.
  replace (2 ^ (m + 1) - 1) with (Z.ones (m + 1)) by (rewrite Z.ones_equiv; lia).
  apply Z.bits_inj'. intros i Hi.
  destruct (Z_le_dec i m) as [Hle|Hgt].
  - rewrite Z.ones_spec_low by lia. apply Hrun; lia.
  - rewrite Z.ones_spec_high by lia.
    destruct (Z.eq_dec x 0) as [->|Hne]; [apply Z.bits_0|].
    apply Z.bits_above_log2; [lia|].
    assert (Z.log2 x < m + 1) by (apply Z.log2_lt_pow2; lia). lia.
Qed.

Lemma run_of_weaken m w w' x : w' <= w -> run_of m w x -> run_of m w' x.
Proof. intros Hw Hrun i Hi Hr. apply Hrun; lia. Qed.

(** Smearing a number below [2^32] whose top bit is [m] sets every bit below
    [m]. *)
Lemma smear5_ones x m :
  0 <= m < 32 -> 2 ^ m <= x < 2 ^ (m + 1) ->
  smear (smear (smear (smear (smear x 1) 2) 4) 8) 16 = 2 ^ (m + 1) - 1.
Proof.
  intros Hm Hx.
  assert (Hpos : 0 < 2 ^ m) by (apply Z.pow_pos_nonneg; lia).
  assert (Hlog : Z.log2 x = m) by (apply Z.log2_unique; lia).
  assert (H1 : run_of m 1 x).
  { intros i Hi Hr. replace i with (Z.log2 x) by lia.
    apply Z.bit_log2. lia. }
  apply ones_of_run; [lia| |].
  - repeat (apply smear_bound; [lia| |lia]). lia.
  - apply (run_of_weaken m 32); [lia|].
    change 32 with (16 + 16). apply smear_run; [lia|].
    change 16 with (8 + 8) at 1. apply smear_run; [lia|].
    change 8 with (4 + 4) at 1. apply smear_run; [lia|].
    change 4 with (2 + 2) at 1. apply smear_run; [lia|].
    change 2 with (1 + 1) at 1. apply smear_run; [lia|].
    exact H1.
Qed.

(** A number all of whose low bits are set is a fixed point of smearing. *)
Lemma smear_ones n s : 0 <= n -> 0 <= s -> smear (2 ^ n - 1) s = 2 ^ n - 1.
Proof.
  intros Hn Hs.
  replace (2 ^ n - 1) with (Z.ones n) by (rewrite Z.ones_equiv; lia).
  apply Z.bits_inj'. intros i Hi.
  rewrite smear_testbit by lia.
  destruct (Z_lt_dec i n).
  - rewrite Z.ones_spec_low by lia. reflexivity.
  - rewrite !Z.ones_spec_high by lia. reflexivity.
Qed.

Lemma _HT_round_up_smear v :
  _HT_round_up v =
  wrap64 (smear (smear (smear (smear (smear (wrap64 (v - 1)) 1) 2) 4) 8) 16 + 1).
Proof. reflexivity. Qed.

Lemma _HT_round_up_pow2 n : 0 <= n < 64 -> _HT_round_up (2 ^ n) = 2 ^ n.
Proof.
  intros Hn. rewrite _HT_round_up_smear.
  assert (Hlt : 0 < 2 ^ n < 2 ^ 64).
  { split; [apply Z.pow_pos_nonneg; lia|apply Z.pow_lt_mono_r; lia]. }
  rewrite (wrap64_small (2 ^ n - 1)) by lia.
  rewrite !smear_ones by lia.
  replace (2 ^ n - 1 + 1) with (2 ^ n) by lia.
  apply wrap64_small. lia.
Qed.

(** Rounding a requested capacity: the result is the least power of two not
    below it. *)
Lemma _HT_round_up_spec v :
  2 <= v <= 2 ^ 32 ->
  exists k, 1 <= k <= 32 /\ _HT_round_up v = 2 ^ k /\ 2 ^ (k - 1) < v <= 2 ^ k.
Proof.
  intros Hv. rewrite _HT_round_up_smear.
  rewrite (wrap64_small (v - 1)) by lia.
  set (m := Z.log2 (v - 1)).
  assert (Hm0 : 0 <= m) by apply Z.log2_nonneg.
  destruct (Z.log2_spec (v - 1)) as [Hlo Hhi]; [lia|]. fold m in Hlo, Hhi.
  assert (Hm : m < 32).
  { apply Z.log2_lt_pow2; lia. }
  replace (Z.succ m) with (m + 1) in Hhi by lia.
  rewrite (smear5_ones (v - 1) m) by lia.
  exists (m + 1). split; [lia|]. split.
  - replace (2 ^ (m + 1) - 1 + 1) with (2 ^ (m + 1)) by lia.
    apply wrap64_small. split; [apply Z.pow_nonneg; lia|].
    apply Z.pow_lt_mono_r; lia.
  - replace (m + 1 - 1) with m by lia. lia.
Qed.

(** ** Lists of buckets *)

Lemma filter_insert_perm {A} (P : A -> Prop) `{forall x, Decision (P x)}
    (l : list A) (i : nat) (x0 x : A) :
  l !! i = Some x0 ->
  (if decide (P x0) then [x0] else []) ++ filter P (<[i:=x]> l) ≡ₚ
  (if decide (P x) then [x] else []) ++ filter P l.
Proof.
  intros Hi.
  assert (Hlt : (i < length l)%nat) by (eapply lookup_lt_Some; exact Hi).
  rewrite insert_take_drop by exact Hlt.
  rewrite <- (take_drop_middle l i x0 Hi) at 3.
  rewrite !filter_app, !filter_cons.
  destruct (decide (P x0)), (decide (P x)); simpl.
  - rewrite <- !Permutation_middle. apply perm_swap.
  - rewrite <- Permutation_middle. reflexivity.
  - rewrite <- Permutation_middle. reflexivity.
  - reflexivity.
Qed.

Lemma pow2_range k : 4 <= k <= 58 -> 16 <= 2 ^ k <= 2 ^ 58.
Proof.
  intros Hk. split.
  - change 16 with (2 ^ 4). apply Z.pow_le_mono_r; lia.
  - apply Z.pow_le_mono_r; lia.
Qed.

Lemma inv_cap_range t : HT_inv t -> 16 <= ht_cap t <= 2 ^ 58.
Proof. intros [[k [Hk ->]] _ _ _ _ _ _]. apply pow2_range. exact Hk. Qed.

Lemma calc_loc_range_pow2 t h k :
  0 <= k -> ht_cap t = 2 ^ k -> 0 <= HT_CALC_LOC t h < ht_cap t.
Proof.
  intros Hk Hcap. unfold HT_CALC_LOC. rewrite Hcap.
  rewrite land_pow2_mod by lia. apply Z.mod_pos_bound.
  apply Z.pow_pos_nonneg; lia.
Qed.

Lemma calc_loc_range t h : HT_inv t -> 0 <= HT_CALC_LOC t h < ht_cap t.
Proof.
  intros [[k [Hk Hcap]] _ _ _ _ _ _]. apply (calc_loc_range_pow2 t h k); [lia|exact Hcap].
Qed.

Lemma bucket_at_lookup index i :
  0 <= i < Z.of_nat (length index) ->
  index !! Z.to_nat i = Some (bucket_at index i).
Proof.
  intros Hi. unfold bucket_at.
  destruct (lookup_lt_is_Some_2 index (Z.to_nat i)) as [b Hb]; [lia|].
  rewrite Hb. reflexivity.
Qed.

Lemma entry_at_lookup values i :
  0 <= i < Z.of_nat (length values) ->
  values !! Z.to_nat i = Some (entry_at values i).
Proof.
  intros Hi. unfold entry_at.
  destruct (lookup_lt_is_Some_2 values (Z.to_nat i)) as [b Hb]; [lia|].
  rewrite Hb. reflexivity.
Qed.

Lemma array_set_length {A} (l : list A) i x : length (array_set l i x) = length l.
Proof. apply length_insert. Qed.

Lemma is_occupied_used b : is_occupied b = true -> negb (is_empty b) = true.
Proof. unfold is_occupied, is_empty. destruct (b_state b); simpl; congruence. Qed.

Lemma occupied_le_length index :
  (length (occupied_buckets index) <= length index)%nat.
Proof. apply length_filter. Qed.

(** Effect on the filtered lists of overwriting one bucket. *)
Lemma occupied_set index i b :
  0 <= i < Z.of_nat (length index) ->
  (if is_occupied (bucket_at index i) then [bucket_at index i] else [])
    ++ occupied_buckets (array_set index i b) ≡ₚ
  (if is_occupied b then [b] else []) ++ occupied_buckets index.
Proof.
  intros Hi. unfold occupied_buckets, array_set.
  pose proof (filter_insert_perm (fun b => is_occupied b) index (Z.to_nat i)
                (bucket_at index i) b (bucket_at_lookup index i Hi)) as Hp.
  cbv beta in Hp.
  destruct (is_occupied (bucket_at index i)), (is_occupied b); exact Hp.
Qed.

Lemma used_set index i b :
  0 <= i < Z.of_nat (length index) ->
  (if negb (is_empty (bucket_at index i)) then [bucket_at index i] else [])
    ++ used_buckets (array_set index i b) ≡ₚ
  (if negb (is_empty b) then [b] else []) ++ used_buckets index.
Proof.
  intros Hi. unfold used_buckets, array_set.
  pose proof (filter_insert_perm (fun b => negb (is_empty b)) index (Z.to_nat i)
                (bucket_at index i) b (bucket_at_lookup index i Hi)) as Hp.
  cbv beta in Hp.
  destruct (negb (is_empty (bucket_at index i))), (negb (is_empty b)); exact Hp.
Qed.

(** The invariant reads the arrays' lengths, the index and three counters. *)
Lemma HT_inv_frame t t' :
  HT_inv t ->
  ht_index t' = ht_index t ->
  length (ht_values t') = length (ht_values t) ->
  ht_n t' = ht_n t -> ht_cap t' = ht_cap t -> ht_ins_loc t' = ht_ins_loc t ->
  HT_inv t'.
Proof.
  intros [H1 H2 H3 H4 H5 H6 H7] Hi Hv Hn Hc Hl.
  constructor; rewrite ?Hi, ?Hv, ?Hn, ?Hc, ?Hl; assumption.
Qed.

Lemma used_locs_same index i nb :
  0 <= i < Z.of_nat (length index) ->
  is_empty (bucket_at index i) = false -> is_empty nb = false ->
  b_loc nb = b_loc (bucket_at index i) ->
  used_locs (array_set index i nb) ≡ₚ used_locs index.
Proof.
  intros Hi Hb Hnb Hloc.
  pose proof (used_set index i nb Hi) as Hp.
  rewrite Hb, Hnb in Hp. simpl in Hp.
  apply (fmap_Permutation b_loc) in Hp. simpl in Hp.
  rewrite Hloc in Hp. apply Permutation_cons_inv in Hp. exact Hp.
Qed.

Lemma used_locs_fresh index i nb :
  0 <= i < Z.of_nat (length index) ->
  is_empty (bucket_at index i) = true -> is_empty nb = false ->
  used_locs (array_set index i nb) ≡ₚ b_loc nb :: used_locs index.
Proof.
  intros Hi Hb Hnb.
  pose proof (used_set index i nb Hi) as Hp.
  rewrite Hb, Hnb in Hp. simpl in Hp.
  apply (fmap_Permutation b_loc) in Hp. exact Hp.
Qed.

Lemma occupied_gain index i nb :
  0 <= i < Z.of_nat (length index) ->
  is_occupied (bucket_at index i) = false -> is_occupied nb = true ->
  occupied_buckets (array_set index i nb) ≡ₚ nb :: occupied_buckets index.
Proof.
  intros Hi Hb Hnb. pose proof (occupied_set index i nb Hi) as Hp.
  rewrite Hb, Hnb in Hp. exact Hp.
Qed.

Lemma occupied_loss index i nb :
  0 <= i < Z.of_nat (length index) ->
  is_occupied (bucket_at index i) = true -> is_occupied nb = false ->
  bucket_at index i :: occupied_buckets (array_set index i nb) ≡ₚ
  occupied_buckets index.
Proof.
  intros Hi Hb Hnb. pose proof (occupied_set index i nb Hi) as Hp.
  rewrite Hb, Hnb in Hp. exact Hp.
Qed.

(** A new binding written over a bucket that is not OCCUPIED. *)
Lemma HT_inv_insert t t' i h :
  HT_inv t -> 0 <= i < ht_cap t ->
  is_occupied (bucket_at (ht_index t) i) = false ->
  ht_ins_loc t < ht_cap t ->
  ht_index t' =
    array_set (ht_index t) i
      (mkBucket h
         (if is_empty (bucket_at (ht_index t) i) then ht_ins_loc t
          else b_loc (bucket_at (ht_index t) i))
         HT_BUCKET_OCCUPIED) ->
  length (ht_values t') = length (ht_values t) ->
  ht_n t' = wrap64 (ht_n t + 1) ->
  ht_cap t' = ht_cap t ->
  ht_ins_loc t' =
    (if is_empty (bucket_at (ht_index t) i) then wrap64 (ht_ins_loc t + 1)
     else ht_ins_loc t) ->
  HT_inv t' /\ ht_n t' = ht_n t + 1.
Proof.
  intros Hinv Hi Hocc Hins Hidx Hvals Hn Hcap Hloc.
  pose proof (inv_cap_range t Hinv) as Hrange.
  destruct Hinv as [Hk Hil Hvl Hcount Hused Hlocs Hnodup].
  assert (Hi' : 0 <= i < Z.of_nat (length (ht_index t))) by lia.
  set (b := bucket_at (ht_index t) i) in *.
  set (nb := mkBucket h (if is_empty b then ht_ins_loc t else b_loc b)
               HT_BUCKET_OCCUPIED) in *.
  pose proof (occupied_gain (ht_index t) i nb Hi' Hocc eq_refl) as Hgain.
  apply Permutation_length in Hgain. simpl in Hgain.
  pose proof (occupied_le_length (array_set (ht_index t) i nb)) as Hle.
  rewrite array_set_length in Hle.
  assert (Hn' : ht_n t' = ht_n t + 1).
  { rewrite Hn. apply wrap64_small. lia. }
  split; [|exact Hn'].
  constructor; rewrite ?Hidx, ?Hvals, ?Hcap, ?array_set_length; try assumption.
  - rewrite Hn', Hcount, Hgain. lia.
  - rewrite Hloc. destruct (is_empty b) eqn:Hb.
    + rewrite (used_locs_fresh _ _ nb Hi' Hb eq_refl). simpl.
      rewrite wrap64_small by lia. lia.
    + rewrite (used_locs_same _ _ nb Hi' Hb eq_refl) by (subst nb; simpl; rewrite ?Hb; reflexivity).
      lia.
  - rewrite Hloc. destruct (is_empty b) eqn:Hb.
    + rewrite (used_locs_fresh _ _ nb Hi' Hb eq_refl).
      rewrite wrap64_small by lia. constructor.
      * subst nb. simpl. rewrite ?Hb. lia.
      * eapply Forall_impl; [exact Hlocs|]. simpl. intros; lia.
    + rewrite (used_locs_same _ _ nb Hi' Hb eq_refl) by (subst nb; simpl; rewrite ?Hb; reflexivity).
      exact Hlocs.
  - destruct (is_empty b) eqn:Hb.
    + rewrite (used_locs_fresh _ _ nb Hi' Hb eq_refl).
      constructor; [|exact Hnodup].
      subst nb. simpl. rewrite ?Hb. intros Hin.
      rewrite Forall_forall in Hlocs. apply Hlocs in Hin. lia.
    + rewrite (used_locs_same _ _ nb Hi' Hb eq_refl) by (subst nb; simpl; rewrite ?Hb; reflexivity).
      exact Hnodup.
Qed.

(** An OCCUPIED bucket turned into a tombstone that keeps its [loc]. *)
Lemma HT_inv_remove t t' i :
  HT_inv t -> 0 <= i < ht_cap t ->
  is_occupied (bucket_at (ht_index t) i) = true ->
  ht_index t' =
    array_set (ht_index t) i
      (mkBucket 0 (b_loc (bucket_at (ht_index t) i)) HT_DELETED_BUCKET) ->
  length (ht_values t') = length (ht_values t) ->
  ht_n t' = wrap64 (ht_n t - 1) ->
  ht_cap t' = ht_cap t ->
  ht_ins_loc t' = ht_ins_loc t ->
  HT_inv t' /\ ht_n t' = ht_n t - 1.
Proof.
  intros Hinv Hi Hocc Hidx Hvals Hn Hcap Hloc.
  pose proof (inv_cap_range t Hinv) as Hrange.
  destruct Hinv as [Hk Hil Hvl Hcount Hused Hlocs Hnodup].
  assert (Hi' : 0 <= i < Z.of_nat (length (ht_index t))) by lia.
  set (b := bucket_at (ht_index t) i) in *.
  set (nb := mkBucket 0 (b_loc b) HT_DELETED_BUCKET) in *.
  pose proof (occupied_loss (ht_index t) i nb Hi' Hocc eq_refl) as Hloss.
  apply Permutation_length in Hloss. simpl in Hloss.
  pose proof (occupied_le_length (ht_index t)) as Hle.
  assert (Hn' : ht_n t' = ht_n t - 1).
  { rewrite Hn. apply wrap64_small. lia. }
  assert (Hb : is_empty b = false).
  { apply is_occupied_used in Hocc. destruct (is_empty b); simpl in Hocc; congruence. }
  pose proof (used_locs_same (ht_index t) i nb Hi' Hb eq_refl eq_refl) as Hsame.
  split; [|exact Hn'].
  constructor;
    rewrite ?Hidx, ?Hvals, ?Hcap, ?Hloc, ?array_set_length, ?Hsame; try assumption.
  rewrite Hn', Hcount. lia.
Qed.

(** ** The probe loops keep the invariant *)

Lemma HT_put_loop_cap fuel : forall t key key_len value h d,
  ht_cap (fst (HT_put_loop fuel t key key_len value h d)) = ht_cap t.
Proof.
  induction fuel as [|fuel IH]; intros; simpl; [reflexivity|].
  repeat match goal with
         | |- context [if ?c then _ else _] => destruct c; simpl; auto
         end.
Qed.

Lemma HT_put_loop_inv fuel : forall t key key_len value h d,
  HT_inv t -> ht_ins_loc t < ht_cap t ->
  HT_inv (fst (HT_put_loop fuel t key key_len value h d)).
Proof.
  induction fuel as [|fuel IH]; intros t key key_len value h d Hinv Hins;
    simpl; [exact Hinv|].
  pose proof (calc_loc_range t (wrap64 (h + d)) Hinv) as Hrange.
  set (i := HT_CALC_LOC t (wrap64 (h + d))) in *.
  destruct (is_occupied (bucket_at (ht_index t) i)) eqn:Hocc; simpl.
  - destruct (b_hashcode (bucket_at (ht_index t) i) =? h); simpl.
    + match goal with
      | |- context [if ?c then _ else _] => destruct c; simpl
      end.
      * eapply HT_inv_frame; [exact Hinv|reflexivity|..]; simpl;
          rewrite ?array_set_length; reflexivity.
      * apply IH; assumption.
    + apply IH; assumption.
  - eapply (HT_inv_insert t _ i h Hinv Hrange Hocc Hins); simpl;
      rewrite ?array_set_length; reflexivity.
Qed.

Lemma HT_remove_loop_cap fuel : forall t key key_len h d,
  ht_cap (fst (HT_remove_loop fuel t key key_len h d)) = ht_cap t.
Proof.
  induction fuel as [|fuel IH]; intros; simpl; [reflexivity|].
  repeat match goal with
         | |- context [if ?c then _ else _] => destruct c; simpl; auto
         end.
Qed.

Lemma HT_remove_loop_inv fuel : forall t key key_len h d,
  HT_inv t -> HT_inv (fst (HT_remove_loop fuel t key key_len h d)).
Proof.
  induction fuel as [|fuel IH]; intros t key key_len h d Hinv;
    simpl; [exact Hinv|].
  pose proof (calc_loc_range t (wrap64 (h + d)) Hinv) as Hrange.
  set (i := HT_CALC_LOC t (wrap64 (h + d))) in *.
  destruct (is_occupied (bucket_at (ht_index t) i)) eqn:Hocc; simpl.
  - destruct (b_hashcode (bucket_at (ht_index t) i) =? h); simpl.
    + match goal with
      | |- context [if ?c then _ else _] => destruct c; simpl
      end.
      * eapply (HT_inv_remove t _ i Hinv Hrange Hocc); simpl;
          rewrite ?array_set_length; reflexivity.
      * apply IH; assumption.
    + destruct (is_empty (bucket_at (ht_index t) i)); simpl;
        [exact Hinv|apply IH; assumption].
  - destruct (is_empty (bucket_at (ht_index t) i)); simpl;
      [exact Hinv|apply IH; assumption].
Qed.

(** ** Resize keeps the invariant *)

Lemma copy_values_length existing_values n : forall values,
  length (copy_values values existing_values n) = length values.
Proof.
  unfold copy_values. generalize (seq 0 (Z.to_nat n)) as l.
  induction l as [|i l IH]; intros values; simpl; [reflexivity|].
  rewrite IH. apply array_set_length.
Qed.

Lemma buckets_upto_all index :
  buckets_upto index (Z.of_nat (length index)) = index.
Proof.
  unfold buckets_upto. rewrite Nat2Z.id.
  apply list_eq. intros i.
  rewrite list_lookup_fmap.
  destruct (decide (i < length index)%nat) as [Hlt|Hge].
  - rewrite lookup_seq_lt by exact Hlt. simpl.
    unfold bucket_at. rewrite Nat2Z.id.
    destruct (lookup_lt_is_Some_2 index i Hlt) as [b Hb]. rewrite Hb. reflexivity.
  - rewrite lookup_seq_ge by lia. simpl.
    symmetry. apply lookup_ge_None. lia.
Qed.

(** Linear probing visits every slot of a power-of-two table. *)
Lemma probe_cover k h j :
  0 <= k <= 64 -> 0 <= j < 2 ^ k ->
  exists d, 0 <= d < 2 ^ k /\ Z.land (wrap64 (h + d)) (2 ^ k - 1) = j.
Proof.
  intros Hk Hj.
  assert (Hpos : 0 < 2 ^ k) by (apply Z.pow_pos_nonneg; lia).
  exists ((j - h) mod 2 ^ k). split; [apply Z.mod_pos_bound; exact Hpos|].
  rewrite land_pow2_mod by lia. unfold wrap64.
  rewrite Z.mod_mod_divide.
  - rewrite Zplus_mod_idemp_r. replace (h + (j - h)) with j by lia.
    apply Z.mod_small. exact Hj.
  - exists (2 ^ (64 - k)). rewrite <- Z.pow_add_r by lia. f_equal. lia.
Qed.

Lemma not_all_occupied index :
  (length (occupied_buckets index) < length index)%nat ->
  exists j, (j < length index)%nat /\
            is_occupied (bucket_at index (Z.of_nat j)) = false.
Proof.
  unfold occupied_buckets, bucket_at.
  induction index as [|b index IH]; simpl; intros Hlt; [lia|].
  rewrite filter_cons in Hlt.
  destruct (is_occupied b) eqn:Hb.
  - simpl in Hlt.
    destruct IH as [j [Hj Hocc]]; [lia|].
    exists (S j). split; [lia|].
    rewrite Nat2Z.id in *. simpl. exact Hocc.
  - exists 0%nat. split; [lia|]. simpl. exact Hb.
Qed.

(** What the inner loop of the rebuild does. *)
Lemma _HT_expand_probe_spec fuel : forall t eb h d,
  let r := _HT_expand_probe fuel t eb h d in
  (snd r = true /\
   exists d', d <= d' < d + Z.of_nat fuel /\
     is_occupied (bucket_at (ht_index t) (HT_CALC_LOC t (wrap64 (h + d')))) = false /\
     ht_index (fst r) =
       array_set (ht_index t) (HT_CALC_LOC t (wrap64 (h + d'))) eb /\
     ht_values (fst r) = ht_values t /\ ht_n (fst r) = ht_n t /\
     ht_cap (fst r) = ht_cap t /\ ht_ins_loc (fst r) = ht_ins_loc t)
  \/
  (snd r = false /\ fst r = t /\
   forall d', d <= d' < d + Z.of_nat fuel ->
     is_occupied (bucket_at (ht_index t) (HT_CALC_LOC t (wrap64 (h + d')))) = true).
Proof.
  induction fuel as [|fuel IH]; intros t eb h d; simpl.
  - right. repeat split. intros d' Hd'. lia.
  - destruct (is_occupied (bucket_at (ht_index t) (HT_CALC_LOC t (wrap64 (h + d)))))
      eqn:Hocc; simpl.
    + destruct (IH t eb h (d + 1)) as [[Hadd [d' [Hd' Hrest]]]|[Hadd [Heq Hall]]].
      * left. split; [exact Hadd|]. exists d'. split; [lia|exact Hrest].
      * right. split; [exact Hadd|]. split; [exact Heq|].
        intros d' Hd'. destruct (Z.eq_dec d' d) as [->|Hne]; [exact Hocc|].
        apply Hall. lia.
    + left. split; [reflexivity|]. exists d. split; [lia|].
      repeat split. exact Hocc.
Qed.

Lemma occupied_of_used index :
  occupied_buckets index = filter (fun b => is_occupied b) (used_buckets index).
Proof.
  unfold occupied_buckets, used_buckets.
  induction index as [|b index IH]; [reflexivity|].
  rewrite !filter_cons.
  destruct (is_occupied b) eqn:Hocc.
  - pose proof (is_occupied_used b Hocc) as Hne. rewrite Hne. simpl.
    rewrite filter_cons, Hocc. simpl. f_equal. exact IH.
  - simpl. destruct (negb (is_empty b)); simpl; [|exact IH].
    rewrite filter_cons, Hocc. simpl. exact IH.
Qed.

Lemma occupied_locs_sublist index :
  (b_loc <$> occupied_buckets index) `sublist_of` used_locs index.
Proof.
  unfold used_locs. rewrite occupied_of_used.
  apply fmap_sublist. apply sublist_filter.
Qed.

Lemma used_no_deleted index :
  Forall (fun b => is_deleted b = false) index ->
  used_buckets index = occupied_buckets index.
Proof.
  unfold occupied_buckets, used_buckets.
  induction 1 as [|b index Hb _ IH]; [reflexivity|].
  rewrite !filter_cons, IH.
  unfold is_deleted, is_occupied, is_empty in *.
  destruct (b_state b); simpl; congruence.
Qed.

Lemma _HT_expand_bucket_inv t0 t processed eb k :
  0 <= k <= 64 -> ht_cap t0 = 2 ^ k ->
  rebuild_inv t0 t processed ->
  Z.of_nat (length processed) < ht_cap t0 ->
  rebuild_inv t0 (_HT_expand_bucket t eb) (processed ++ [eb]).
Proof.
  intros Hk Hcap0 [Hcap Hvals Hn Hins Hlen Hdel Hocc] Hproc.
  unfold _HT_expand_bucket.
  destruct (is_occupied eb) eqn:Heb.
  - assert (Hfree : (length (occupied_buckets (ht_index t)) < length (ht_index t))%nat).
    { rewrite (Permutation_length Hocc).
      pose proof (occupied_le_length processed). lia. }
    destruct (not_all_occupied _ Hfree) as [j [Hj Hjfree]].
    destruct (probe_cover k (b_hashcode eb) (Z.of_nat j) Hk) as [d [Hd Hdj]]; [lia|].
    destruct (_HT_expand_probe_spec (Z.to_nat (ht_cap t + 1)) t eb (b_hashcode eb) 0)
      as [[_ [d' [Hd' [Hfree' [Hidx [Hv [Hn' [Hc Hi]]]]]]]]|[_ [_ Hall]]].
    + pose proof (calc_loc_range_pow2 t (wrap64 (b_hashcode eb + d')) k
                    ltac:(lia) ltac:(congruence)) as Hrange.
      constructor; try congruence.
      * rewrite Hidx, array_set_length. exact Hlen.
      * rewrite Hidx. apply Forall_insert; [exact Hdel|].
        unfold is_deleted, is_occupied in *. destruct (b_state eb); congruence.
      * rewrite Hidx.
        rewrite occupied_gain by (try assumption; lia).
        unfold occupied_buckets at 2. rewrite filter_app, filter_cons, Heb. simpl.
        rewrite Hocc. apply Permutation_cons_append.
    + exfalso. specialize (Hall d ltac:(lia)).
      unfold HT_CALC_LOC in Hall. rewrite Hcap, Hcap0, Hdj in Hall. congruence.
  - constructor; try assumption.
    unfold occupied_buckets at 2. rewrite filter_app, filter_cons, Heb. simpl.
    rewrite app_nil_r. exact Hocc.
Qed.

Lemma rebuild_fold t0 k : forall olds t processed,
  0 <= k <= 64 -> ht_cap t0 = 2 ^ k ->
  rebuild_inv t0 t processed ->
  Z.of_nat (length processed + length olds) <= ht_cap t0 ->
  rebuild_inv t0 (fold_left _HT_expand_bucket olds t) (processed ++ olds).
Proof.
  induction olds as [|eb olds IH]; intros t processed Hk Hcap Hinv Hlen; simpl.
  - rewrite app_nil_r. exact Hinv.
  - replace (processed ++ eb :: olds) with ((processed ++ [eb]) ++ olds)
      by (rewrite <- app_assoc; reflexivity).
    apply IH; try assumption.
    + apply (_HT_expand_bucket_inv t0 t processed eb k); try assumption.
      simpl in Hlen. lia.
    + rewrite length_app. simpl in *. lia.
Qed.

Lemma occupied_replicate_empty n :
  occupied_buckets (replicate n empty_bucket) = [].
Proof.
  unfold occupied_buckets. induction n as [|n IH]; [reflexivity|].
  simpl. rewrite filter_cons. simpl. exact IH.
Qed.

Lemma used_replicate_empty n : used_buckets (replicate n empty_bucket) = [].
Proof.
  unfold used_buckets. induction n as [|n IH]; [reflexivity|].
  simpl. rewrite filter_cons. simpl. exact IH.
Qed.

Lemma calloc_entries_bound granted k :
  0 <= k -> calloc_ok granted (2 ^ k) sizeof_HT_ENTRY_T = true -> k <= 58.
Proof.
  intros Hk Hok. unfold calloc_ok, sizeof_HT_ENTRY_T in Hok.
  apply andb_true_iff in Hok. destruct Hok as [_ Hok].
  apply Z.ltb_lt in Hok.
  destruct (Z_le_dec k 58) as [|Hgt]; [assumption|exfalso].
  assert (2 ^ 59 <= 2 ^ k) by (apply Z.pow_le_mono_r; lia).
  change (2 ^ 59) with 576460752303423488 in *.
  change (2 ^ 64) with 18446744073709551616 in *. lia.
Qed.

(** A successful resize doubles the capacity and keeps the invariant. *)
Lemma _HT_expand_inv a t t' :
  HT_inv t -> _HT_expand a t = Some t' ->
  HT_inv t' /\ ht_cap t' = 2 * ht_cap t /\ ht_n t' = ht_n t /\
  ht_ins_loc t' = ht_ins_loc t.
Proof.
  intros Hinv Hexp.
  pose proof (inv_cap_range t Hinv) as Hrange.
  destruct Hinv as [[k [Hk Hcap]] Hil Hvl Hcount Hused Hlocs Hnodup].
  unfold _HT_expand in Hexp.
  assert (Hnew : _HT_round_up (wrap64 (ht_cap t * 2)) = 2 ^ (k + 1)).
  { rewrite wrap64_small by lia. rewrite Hcap.
    replace (2 ^ k * 2) with (2 ^ (k + 1)) by (rewrite Z.pow_add_r by lia; lia).
    apply _HT_round_up_pow2. lia. }
  rewrite Hnew in Hexp.
  destruct (calloc_ok (a_index a) (2 ^ (k + 1)) sizeof_HT_BUCKET_T); simpl in Hexp;
    [|discriminate].
  destruct (calloc_ok (a_values a) (2 ^ (k + 1)) sizeof_HT_ENTRY_T) eqn:Hcalloc;
    simpl in Hexp; [|discriminate].
  apply calloc_entries_bound in Hcalloc; [|lia].
  injection Hexp as Hexp.
  set (t0 := {| ht_index := replicate (Z.to_nat (2 ^ (k + 1))) empty_bucket;
                ht_values := copy_values
                               (replicate (Z.to_nat (2 ^ (k + 1))) empty_entry)
                               (ht_values t) (ht_cap t);
                ht_n := ht_n t; ht_cap := 2 ^ (k + 1);
                ht_expand := _HT_calc_expansion (ht_load_factor t) (2 ^ (k + 1));
                ht_max_probe := 0; ht_ins_loc := ht_ins_loc t;
                ht_load_factor := ht_load_factor t; ht_cmp := ht_cmp t;
                ht_hashcode := ht_hashcode t; ht_dealloc := ht_dealloc t |}) in *.
  assert (Hpow : 2 ^ (k + 1) = 2 * 2 ^ k) by (rewrite Z.pow_add_r by lia; lia).
  assert (Hinit : rebuild_inv t0 t0 []).
  { constructor; try reflexivity.
    - simpl. rewrite length_replicate. lia.
    - simpl. apply Forall_replicate. reflexivity.
    - simpl. rewrite occupied_replicate_empty. reflexivity. }
  pose proof (rebuild_fold t0 (k + 1) (ht_index t) t0 [] ltac:(lia) eq_refl Hinit)
    as Hfold.
  rewrite <- Hil, buckets_upto_all in Hexp. rewrite Hexp in Hfold.
  destruct Hfold as [Hc Hv Hn Hi Hl Hdel Hocc]; [simpl; lia|].
  simpl in Hc, Hv, Hn, Hi, Hl, Hocc.
  assert (Hlocs_eq : used_locs (ht_index t') ≡ₚ b_loc <$> occupied_buckets (ht_index t)).
  { unfold used_locs. rewrite (used_no_deleted _ Hdel). rewrite Hocc. reflexivity. }
  pose proof (occupied_locs_sublist (ht_index t)) as Hsub.
  split; [|repeat split; lia].
  constructor.
  - exists (k + 1). split; [lia|exact Hc].
  - lia.
  - rewrite Hv, copy_values_length, length_replicate. lia.
  - rewrite Hn, Hcount. f_equal. symmetry. apply Permutation_length. exact Hocc.
  - rewrite Hlocs_eq, Hi, Hc. apply sublist_length in Hsub. lia.
  - rewrite Hlocs_eq, Hi.
    rewrite Forall_forall in Hlocs |- *. intros l Hl'. apply Hlocs.
    eapply elem_of_sublist; [exact Hl'|exact Hsub].
  - rewrite Hlocs_eq. eapply sublist_NoDup; [exact Hnodup|exact Hsub].
Qed.

Lemma HT_new_ex_inv a requested_capacity load_factor hashcode cmp dealloc t :
  HT_new_ex a requested_capacity load_factor hashcode cmp dealloc = Some t ->
  HT_inv t /\ ht_n t = 0 /\ HT_DEFAULT_CAPACITY <= ht_cap t <= HT_MAX_CAPACITY.
Proof.
  unfold HT_new_ex. intros Hnew.
  set (r1 := if requested_capacity <? HT_DEFAULT_CAPACITY then HT_DEFAULT_CAPACITY
             else requested_capacity) in *.
  set (r2 := if r1 >? HT_MAX_CAPACITY then HT_MAX_CAPACITY else r1) in *.
  assert (Hr2 : 16 <= r2 <= 2 ^ 30).
  { subst r2 r1. unfold HT_DEFAULT_CAPACITY, HT_MAX_CAPACITY.
    change (Z.shiftl 1 30) with (2 ^ 30).
    destruct (requested_capacity <? 16) eqn:H1;
      [|apply Z.ltb_ge in H1];
      match goal with |- context [?x >? ?y] => destruct (Z.gtb_spec x y) end; lia. }
  destruct (_HT_round_up_spec r2) as [k [Hk [Hround Hbounds]]]; [lia|].
  rewrite Hround in Hnew.
  assert (Hk4 : 4 <= k <= 30).
  { split.
    - destruct (Z_le_dec 4 k); [assumption|exfalso].
      assert (2 ^ k <= 2 ^ 3) by (apply Z.pow_le_mono_r; lia).
      change (2 ^ 3) with 8 in *. lia.
    - destruct (Z_le_dec k 30); [assumption|exfalso].
      assert (2 ^ 30 <= 2 ^ (k - 1)) by (apply Z.pow_le_mono_r; lia). lia. }
  destruct (calloc_ok (a_index a) (2 ^ k) sizeof_HT_BUCKET_T); simpl in Hnew;
    [|discriminate].
  destruct (calloc_ok (a_values a) (2 ^ k) sizeof_HT_ENTRY_T); simpl in Hnew;
    [|discriminate].
  destruct (a_table a); simpl in Hnew; [|discriminate].
  injection Hnew as <-.
  pose proof (pow2_range k ltac:(lia)) as Hrange.
  split; [|split; [reflexivity|]].
  - constructor; simpl; unfold used_locs;
      rewrite ?length_replicate, ?occupied_replicate_empty, ?used_replicate_empty;
      simpl; try lia.
    + exists k. split; [lia|reflexivity].
    + constructor.
    + constructor.
  - simpl. unfold HT_DEFAULT_CAPACITY, HT_MAX_CAPACITY.
    change (Z.shiftl 1 30) with (2 ^ 30). split; [lia|].
    apply Z.pow_le_mono_r; lia.
Qed.

(** [HT_put] either resizes and probes, or leaves the table as it was. *)
Lemma HT_put_inv a t key key_len value t' r :
  HT_inv t -> HT_put a (Some t) key key_len value = (Some t', r) ->
  HT_inv t' /\ (ht_cap t' = ht_cap t \/ ht_cap t' = 2 * ht_cap t).
Proof.
  intros Hinv Hput. unfold HT_put in Hput.
  destruct key as [key|]; [|injection Hput as <- _; auto].
  destruct (key_len >? HT_MAX_KEY_LEN - 1); [injection Hput as <- _; auto|].
  destruct (needs_expand t) eqn:Hneed.
  - destruct (_HT_expand a t) as [t1|] eqn:Hexp; [|injection Hput as <- _; auto].
    destruct (_HT_expand_inv a t t1 Hinv Hexp) as [Hinv1 [Hcap1 [Hn1 Hins1]]].
    injection Hput as <- _.
    pose proof (inv_cap_range t Hinv) as Hrange.
    pose proof (inv_used t Hinv) as Hused.
    split; [apply HT_put_loop_inv; [exact Hinv1|lia]|].
    right. rewrite HT_put_loop_cap. exact Hcap1.
  - injection Hput as <- _.
    unfold needs_expand in Hneed.
    apply orb_false_iff in Hneed. destruct Hneed as [_ Hneed].
    apply Z.eqb_neq in Hneed.
    pose proof (inv_used t Hinv) as Hused.
    split; [apply HT_put_loop_inv; [exact Hinv|lia]|].
    left. apply HT_put_loop_cap.
Qed.

Lemma HT_remove_inv t key key_len t' r :
  HT_inv t -> HT_remove (Some t) key key_len = (Some t', r) ->
  HT_inv t' /\ ht_cap t' = ht_cap t.
Proof.
  intros Hinv Hrem. unfold HT_remove in Hrem.
  destruct key as [key|]; [|injection Hrem as <- _; auto].
  destruct (key_len >? HT_MAX_KEY_LEN - 1); [injection Hrem as <- _; auto|].
  injection Hrem as <- _.
  split; [apply HT_remove_loop_inv; exact Hinv|apply HT_remove_loop_cap].
Qed.

Lemma HT_put_Some a t key key_len value :
  exists t', fst (HT_put a (Some t) key key_len value) = Some t'.
Proof.
  unfold HT_put. destruct key; [|eauto].
  destruct (key_len >? _); [eauto|].
  destruct (if needs_expand t then _ else _); simpl; eauto.
Qed.

Lemma HT_remove_Some t key key_len :
  exists t', fst (HT_remove (Some t) key key_len) = Some t'.
Proof.
  unfold HT_remove. destruct key; [|eauto].
  destruct (key_len >? _); simpl; eauto.
Qed.

Lemma apply_op_inv t o :
  HT_inv t ->
  HT_inv (apply_op t o) /\
  (ht_cap (apply_op t o) = ht_cap t \/ ht_cap (apply_op t o) = 2 * ht_cap t).
Proof.
  intros Hinv.
  destruct o as [a key key_len value| | |key key_len]; unfold apply_op; auto.
  - destruct (HT_put_Some a t key key_len value) as [t' Ht'].
    rewrite Ht'. cbn [default].
    apply (HT_put_inv a t key key_len value t'
             (snd (HT_put a (Some t) key key_len value)) Hinv).
    rewrite <- Ht'. apply surjective_pairing.
  - destruct (HT_remove_Some t key key_len) as [t' Ht'].
    rewrite Ht'. cbn [default].
    destruct (HT_remove_inv t key key_len t'
                (snd (HT_remove (Some t) key key_len)) Hinv) as [H1 H2].
    + rewrite <- Ht'. apply surjective_pairing.
    + auto.
Qed.

Lemma reachable_inv t : reachable t -> HT_inv t.
Proof.
  induction 1 as [a rc lf h c d t Hnew|t o _ IH].
  - apply (HT_new_ex_inv _ _ _ _ _ _ _ Hnew).
  - apply apply_op_inv. exact IH.
Qed.

(** ** The three lookup loops share one search *)

Ltac case_bucket :=
  unfold key_matches, is_occupied, is_empty;
  match goal with
  | |- context [b_state ?b] => destruct (b_state b) eqn:?; simpl
  end;
  repeat match goal with
         | |- context [if ?c then _ else _] => destruct c eqn:?; simpl
         end.

Lemma HT_get_loop_find fuel : forall t key key_len h d,
  HT_get_loop fuel t key key_len h d =
  match probe_find fuel t key key_len h d with
  | Some i => e_v (entry_at (ht_values t) (b_loc (bucket_at (ht_index t) i)))
  | None => NULL
  end.
Proof.
  induction fuel as [|fuel IH]; intros; simpl; [reflexivity|].
  rewrite !IH. case_bucket; reflexivity.
Qed.

Lemma HT_exists_loop_find fuel : forall t key key_len h d,
  HT_exists_loop fuel t key key_len h d =
  match probe_find fuel t key key_len h d with
  | Some _ => true
  | None => false
  end.
Proof.
  induction fuel as [|fuel IH]; intros; simpl; [reflexivity|].
  rewrite !IH. case_bucket; reflexivity.
Qed.

Lemma HT_remove_loop_find fuel : forall t key key_len h d,
  HT_remove_loop fuel t key key_len h d =
  match probe_find fuel t key key_len h d with
  | Some i =>
      (remove_at t i,
       e_v (entry_at (ht_values t) (b_loc (bucket_at (ht_index t) i))))
  | None => (t, NULL)
  end.
Proof.
  induction fuel as [|fuel IH]; intros; simpl; [reflexivity|].
  rewrite !IH. case_bucket; reflexivity.
Qed.

Lemma probe_find_Some fuel : forall t key key_len h d i,
  probe_find fuel t key key_len h d = Some i ->
  key_matches t key key_len h (bucket_at (ht_index t) i) = true /\
  exists d', i = HT_CALC_LOC t (wrap64 (h + d')).
Proof.
  induction fuel as [|fuel IH]; intros t key key_len h d i; simpl; [discriminate|].
  destruct (key_matches _ _ _ _ _) eqn:Hm.
  - intros [= <-]. split; [exact Hm|eauto].
  - destruct (is_empty _); [discriminate|]. apply IH.
Qed.

(** A search finds nothing in a table where no bucket matches. *)
Lemma probe_find_None fuel : forall t key key_len h d,
  (forall d', key_matches t key key_len h
                (bucket_at (ht_index t) (HT_CALC_LOC t (wrap64 (h + d')))) = false) ->
  probe_find fuel t key key_len h d = None.
Proof.
  induction fuel as [|fuel IH]; intros t key key_len h d Hno; simpl; [reflexivity|].
  rewrite Hno. destruct (is_empty _); [reflexivity|]. apply IH. exact Hno.
Qed.

(** Distinct buckets that are not EMPTY reference distinct entries. *)
Lemma used_locs_inj (index : list HT_BUCKET_T) : forall (i j : nat) bi bj,
  NoDup (used_locs index) ->
  index !! i = Some bi -> index !! j = Some bj ->
  is_empty bi = false -> is_empty bj = false ->
  b_loc bi = b_loc bj -> i = j.
Proof.
  assert (Hin : forall (l : list HT_BUCKET_T) (j : nat) b,
             l !! j = Some b -> is_empty b = false -> b_loc b ∈ used_locs l).
  { intros l j b Hb He. unfold used_locs, used_buckets.
    apply list_elem_of_fmap_2. apply list_elem_of_filter. split.
    - rewrite He. exact I.
    - eapply list_elem_of_lookup_2. exact Hb. }
  induction index as [|b index IH]; intros i j bi bj Hnd Hi Hj Hei Hej Hloc.
  - rewrite lookup_nil in Hi. discriminate.
  - unfold used_locs, used_buckets in Hnd. rewrite filter_cons in Hnd.
    destruct i as [|i], j as [|j]; simpl in Hi, Hj.
    + reflexivity.
    + injection Hi as ->. rewrite Hei in Hnd. simpl in Hnd.
      apply NoDup_cons in Hnd. destruct Hnd as [Hnotin _].
      exfalso. apply Hnotin. rewrite Hloc. eapply Hin; eassumption.
    + injection Hj as ->. rewrite Hej in Hnd. simpl in Hnd.
      apply NoDup_cons in Hnd. destruct Hnd as [Hnotin _].
      exfalso. apply Hnotin. rewrite <- Hloc. eapply Hin; eassumption.
    + f_equal. apply (IH i j bi bj); try assumption.
      destruct (negb (is_empty b)); simpl in Hnd; [|exact Hnd].
      apply NoDup_cons in Hnd. apply Hnd.
Qed.

Lemma bucket_at_set_eq index i b :
  0 <= i < Z.of_nat (length index) -> bucket_at (array_set index i b) i = b.
Proof.
  intros Hi. unfold bucket_at, array_set.
  rewrite list_lookup_insert_eq by lia. reflexivity.
Qed.

Lemma bucket_at_set_ne index i j b :
  0 <= i -> 0 <= j -> i <> j -> bucket_at (array_set index i b) j = bucket_at index j.
Proof.
  intros Hi Hj Hne. unfold bucket_at, array_set.
  rewrite list_lookup_insert_ne by lia. reflexivity.
Qed.

Lemma entry_at_set_ne values i j e :
  0 <= i -> 0 <= j -> i <> j -> entry_at (array_set values i e) j = entry_at values j.
Proof.
  intros Hi Hj Hne. unfold entry_at, array_set.
  rewrite list_lookup_insert_ne by lia. reflexivity.
Qed.

Lemma used_loc_range t i :
  HT_inv t -> 0 <= i < ht_cap t ->
  is_empty (bucket_at (ht_index t) i) = false ->
  0 <= b_loc (bucket_at (ht_index t) i) < ht_ins_loc t.
Proof.
  intros Hinv Hi He.
  pose proof (inv_loc t Hinv) as Hlocs. rewrite Forall_forall in Hlocs.
  apply Hlocs. unfold used_locs, used_buckets.
  apply list_elem_of_fmap_2. apply list_elem_of_filter. split.
  - rewrite He. exact I.
  - eapply list_elem_of_lookup_2. apply bucket_at_lookup.
    rewrite (inv_index_len t Hinv). exact Hi.
Qed.

Lemma used_loc_distinct t i j :
  HT_inv t -> 0 <= i < ht_cap t -> 0 <= j < ht_cap t ->
  is_empty (bucket_at (ht_index t) i) = false ->
  is_empty (bucket_at (ht_index t) j) = false ->
  i <> j ->
  b_loc (bucket_at (ht_index t) i) <> b_loc (bucket_at (ht_index t) j).
Proof.
  intros Hinv Hi Hj Hei Hej Hne Hloc.
  pose proof (inv_index_len t Hinv) as Hlen.
  assert (Z.to_nat i = Z.to_nat j); [|lia].
  eapply (used_locs_inj (ht_index t)); [apply (inv_nodup t Hinv)| | | | |exact Hloc];
    try assumption; apply bucket_at_lookup; lia.
Qed.

Lemma key_matches_occupied t key key_len h b :
  key_matches t key key_len h b = true -> is_occupied b = true.
Proof.
  unfold key_matches. intros H.
  apply andb_true_iff in H. destruct H as [H _].
  apply andb_true_iff in H. apply H.
Qed.

Lemma is_occupied_not_empty b : is_occupied b = true -> is_empty b = false.
Proof. unfold is_occupied, is_empty. destruct (b_state b); congruence. Qed.

Lemma two_elements (l : list Z) i j : i ∈ l -> j ∈ l -> i <> j -> (2 <= length l)%nat.
Proof.
  intros Hi Hj Hne.
  apply elem_of_Permutation in Hi. destruct Hi as [k Hk].
  rewrite Hk in Hj |- *. apply elem_of_cons in Hj.
  destruct Hj as [->|Hj]; [congruence|].
  destruct k; [inversion Hj|simpl; lia].
Qed.

Lemma elem_of_slots t i : 0 <= i < ht_cap t -> i ∈ slots t.
Proof.
  intros Hi. unfold slots. apply list_elem_of_fmap.
  exists (Z.to_nat i). split; [lia|]. apply elem_of_seq. lia.
Qed.

Lemma single_binding_inj t key key_len i j :
  single_binding t key key_len ->
  0 <= i < ht_cap t -> 0 <= j < ht_cap t ->
  holds t key key_len i = true -> holds t key key_len j = true -> i = j.
Proof.
  intros Hsingle Hi Hj Hhi Hhj.
  destruct (Z.eq_dec i j) as [|Hne]; [assumption|exfalso].
  unfold single_binding in Hsingle.
  assert (2 <= length (holders t key key_len))%nat; [|lia].
  apply (two_elements _ i j); [| |exact Hne];
    apply list_elem_of_filter; split;
    try (apply elem_of_slots; assumption);
    [rewrite Hhi|rewrite Hhj]; exact I.
Qed.

(** After the removal of the only binding of a key, no bucket matches it. *)
Lemma remove_at_no_match t key key_len i0 j :
  HT_inv t -> 0 <= i0 < ht_cap t -> 0 <= j < ht_cap t ->
  single_binding t key key_len ->
  holds t key key_len i0 = true ->
  key_matches (remove_at t i0) key key_len (wrap64 (ht_hashcode t key key_len))
    (bucket_at (ht_index (remove_at t i0)) j) = false.
Proof.
  intros Hinv Hi0 Hj Hsingle Hholds.
  pose proof (inv_index_len t Hinv) as Hlen.
  destruct (Z.eq_dec j i0) as [->|Hne].
  - simpl. rewrite bucket_at_set_eq by lia. reflexivity.
  - destruct (key_matches (remove_at t i0) _ _ _ _) eqn:Hm; [exfalso|reflexivity].
    simpl in Hm. rewrite bucket_at_set_ne in Hm by lia.
    pose proof (key_matches_occupied _ _ _ _ _ Hm) as Hoccj.
    pose proof (key_matches_occupied _ _ _ _ _ Hholds) as Hocc0.
    apply is_occupied_not_empty in Hoccj, Hocc0.
    pose proof (used_loc_distinct t j i0 Hinv Hj Hi0 Hoccj Hocc0 Hne) as Hloc.
    pose proof (used_loc_range t j Hinv Hj Hoccj).
    pose proof (used_loc_range t i0 Hinv Hi0 Hocc0).
    unfold key_matches in Hm. simpl in Hm.
    rewrite entry_at_set_ne in Hm by lia.
    apply Hne. apply (single_binding_inj t key key_len); assumption.
Qed.

Lemma reachable_run t ops : reachable t -> reachable (run t ops).
Proof.
  revert t. induction ops as [|o ops IH]; intros t Hr; simpl; [exact Hr|].
  apply IH. apply reachable_op. exact Hr.
Qed.

Lemma reachable_fresh_16 : reachable (fresh_table 16).
Proof. apply (reachable_new alloc_ok 16 HT_DEFAULT_LOAD_FACTOR _HT_hash strncmp libc_free). reflexivity. Qed.

(** The removal property where the key has a single binding.  In a reachable
    table where [key] is present and bound in one bucket only, [HT_remove]
    returns the stored value, after which [HT_exists] is false, [HT_get] is
    NULL and [n] has decreased by one. *)
Theorem remove_single_binding t key key_len :
  reachable t ->
  HT_exists (Some t) (Some key) key_len = true ->
  single_binding t key key_len ->
  snd (HT_remove (Some t) (Some key) key_len) = HT_get (Some t) (Some key) key_len /\
  HT_exists (fst (HT_remove (Some t) (Some key) key_len)) (Some key) key_len = false /\
  HT_get (fst (HT_remove (Some t) (Some key) key_len)) (Some key) key_len = NULL /\
  exists t', fst (HT_remove (Some t) (Some key) key_len) = Some t' /\
             ht_n t' = ht_n t - 1.
Proof.
  intros Hreach Hex Hsingle.
  pose proof (reachable_inv t Hreach) as Hinv.
  unfold HT_exists, HT_remove, HT_get in *.
  destruct (key_len >? HT_MAX_KEY_LEN - 1); [discriminate|].
  set (h := wrap64 (ht_hashcode t key key_len)) in *.
  rewrite HT_exists_loop_find in Hex.
  rewrite HT_remove_loop_find, HT_get_loop_find.
  destruct (probe_find _ t key key_len h 0) as [i0|] eqn:Hfind; [|discriminate].
  destruct (probe_find_Some _ _ _ _ _ _ _ Hfind) as [Hm [d0 Hd0]].
  assert (Hi0 : 0 <= i0 < ht_cap t) by (rewrite Hd0; apply calc_loc_range; exact Hinv).
  cbn [fst snd].
  destruct (HT_inv_remove t (remove_at t i0) i0 Hinv Hi0
              (key_matches_occupied _ _ _ _ _ Hm))
    as [Hinv' Hn']; try reflexivity.
  { simpl. rewrite !array_set_length. reflexivity. }
  assert (Hnone : probe_find (Z.to_nat (ht_max_probe (remove_at t i0) + 1))
                    (remove_at t i0) key key_len h 0 = None).
  { apply probe_find_None. intros d'.
    apply remove_at_no_match; try assumption.
    apply (calc_loc_range (remove_at t i0)). exact Hinv'. }
  split; [reflexivity|].
  change (wrap64 (ht_hashcode (remove_at t i0) key key_len)) with h.
  rewrite HT_exists_loop_find, HT_get_loop_find, Hnone.
  repeat split. exists (remove_at t i0). split; [reflexivity|exact Hn'].
Qed.

Open Scope string_scope.

Example remove_single_binding_key1 :
  let t := run (fresh_table 16) [put_str "key1" 100] in
  HT_exists (Some t) (Some (cstr "key1")) 4 = true /\
  snd (HT_remove (Some t) (Some (cstr "key1")) 4) = 100 /\
  HT_exists (fst (HT_remove (Some t) (Some (cstr "key1")) 4)) (Some (cstr "key1")) 4 = false.
Proof.
  intros t.
  assert (Hex : HT_exists (Some t) (Some (cstr "key1")) 4 = true)
    by (vm_compute; reflexivity).
  assert (Hsingle : single_binding t (cstr "key1") 4) by (vm_compute; lia).
  destruct (remove_single_binding t (cstr "key1") 4
              (reachable_run _ _ reachable_fresh_16) Hex Hsingle)
    as [Hret [Hgone _]].
  split; [exact Hex|]. split; [vm_compute; reflexivity|exact Hgone].
Qed.

(** C2 at the failing input.  Put "a", put "q" (same home slot, so one slot
    further), remove "a", put "q" again: the second put writes over the
    tombstone without looking further, and "q" is bound twice.  The removal
    of "q" returns the value of the first binding; the key is still found,
    with the value of the second. *)
Theorem remove_leaves_second_binding :
  let t := run (fresh_table 16)
             [put_str "a" 1; put_str "q" 2; remove_str "a"; put_str "q" 3] in
  reachable t /\
  HT_exists (Some t) (Some (cstr "q")) 1 = true /\
  snd (HT_remove (Some t) (Some (cstr "q")) 1) = 3 /\
  HT_exists (fst (HT_remove (Some t) (Some (cstr "q")) 1)) (Some (cstr "q")) 1 = true /\
  HT_get (fst (HT_remove (Some t) (Some (cstr "q")) 1)) (Some (cstr "q")) 1 = 2.
Proof.
  split; [apply reachable_run; exact reachable_fresh_16|].
  vm_compute. repeat split.
Qed.

Close Scope string_scope.

(** ** Counting buckets *)

(** C10.  In every reachable table state the count [n] is the number of
    OCCUPIED buckets of the index array. *)
Theorem count_is_occupied_buckets t :
  reachable t -> ht_n t = Z.of_nat (length (occupied_buckets (ht_index t))).
Proof. intros Hreach. apply inv_n. apply reachable_inv. exact Hreach. Qed.

Open Scope string_scope.

Lemma count_is_occupied_buckets_witness :
  let t := run (fresh_table 16)
             [put_str "a" 1; put_str "q" 2; remove_str "a"; put_str "b" 3] in
  ht_n t = 2 /\ Z.of_nat (length (occupied_buckets (ht_index t))) = 2.
Proof.
  pose proof (count_is_occupied_buckets _
                (reachable_run (fresh_table 16)
                   [put_str "a" 1; put_str "q" 2; remove_str "a"; put_str "b" 3]
                   reachable_fresh_16)) as H.
  split; [vm_compute; reflexivity|]. rewrite <- H. vm_compute. reflexivity.
Defined.

Lemma not_all_used index :
  (length (used_buckets index) < length index)%nat ->
  exists j, (j < length index)%nat /\
            is_empty (bucket_at index (Z.of_nat j)) = true.
Proof.
  unfold used_buckets, bucket_at.
  induction index as [|b index IH]; simpl; intros Hlt; [lia|].
  rewrite filter_cons in Hlt.
  destruct (is_empty b) eqn:Hb.
  - exists 0%nat. split; [lia|]. simpl. exact Hb.
  - simpl in Hlt.
    destruct IH as [j [Hj He]]; [lia|].
    exists (S j). split; [lia|].
    rewrite Nat2Z.id in *. simpl. exact He.
Qed.

(** C3, as amended.  In every reachable table state, if [ins_loc < cap] then
    some bucket of the index array is EMPTY. *)
Theorem empty_bucket_while_cursor_below_cap t :
  reachable t -> ht_ins_loc t < ht_cap t -> has_empty_bucket t.
Proof.
  intros Hreach Hins. pose proof (reachable_inv t Hreach) as Hinv.
  pose proof (inv_used t Hinv) as Hused.
  pose proof (inv_index_len t Hinv) as Hlen.
  unfold used_locs in Hused. rewrite length_fmap in Hused.
  destruct (not_all_used (ht_index t)) as [j [Hj He]]; [lia|].
  exists (Z.of_nat j). split; [lia|exact He].
Qed.

Lemma empty_bucket_while_cursor_below_cap_witness :
  let t := run (fresh_table 16) [put_str "a" 1; remove_str "a"] in
  ht_ins_loc t < ht_cap t /\ has_empty_bucket t.
Proof.
  assert (Hins : ht_ins_loc (run (fresh_table 16) [put_str "a" 1; remove_str "a"])
                 < ht_cap (run (fresh_table 16) [put_str "a" 1; remove_str "a"]))
    by (vm_compute; reflexivity).
  split; [exact Hins|].
  exact (empty_bucket_while_cursor_below_cap _
           (reachable_run _ _ reachable_fresh_16) Hins).
Defined.

Lemma no_empty_bucket_by_scan t :
  forallb (fun b => negb (is_empty b)) (ht_index t) = true ->
  Z.of_nat (length (ht_index t)) = ht_cap t ->
  ~ has_empty_bucket t.
Proof.
  intros Hall Hlen [i [Hi He]].
  rewrite forallb_forall in Hall.
  specialize (Hall (bucket_at (ht_index t) i)).
  rewrite He in Hall. change (negb true) with false in Hall.
  assert (true = false); [|discriminate]. symmetry. apply Hall.
  apply list_elem_of_In. eapply list_elem_of_lookup_2. apply bucket_at_lookup. lia.
Qed.

(** C3 fails once every bucket has been used: sixteen keys with sixteen home
    slots, each put and removed, leave sixteen tombstones and [n = 0]. *)
Lemma tombstones_fill_the_index :
  let t := run (fresh_table 16)
             (flat_map (fun k => [put_str k 7; remove_str k])
                ["a"; "b"; "c"; "d"; "e"; "f"; "g"; "h";
                 "i"; "j"; "k"; "l"; "m"; "n"; "o"; "p"]) in
  reachable t /\ ht_n t < ht_cap t /\ ~ has_empty_bucket t.
Proof.
  split; [apply reachable_run; exact reachable_fresh_16|].
  split; [vm_compute; reflexivity|].
  apply no_empty_bucket_by_scan; vm_compute; reflexivity.
Qed.

Close Scope string_scope.

(** ** Destruction *)

Lemma free_calls_length (values : list HT_ENTRY_T) (index : list HT_BUCKET_T) :
  Nat.add
    (length
       (flat_map
          (fun b =>
             if is_occupied b then
               if negb (e_v (entry_at values (b_loc b)) =? NULL)
               then [e_v (entry_at values (b_loc b))] else []
             else []) index))
    (length (filter (fun b => e_v (entry_at values (b_loc b)) =? NULL)
               (occupied_buckets index)))
  = length (occupied_buckets index).
Proof.
  unfold occupied_buckets.
  induction index as [|b index IH]; [reflexivity|].
  cbn [flat_map]. rewrite length_app, filter_cons.
  destruct (is_occupied b); simpl.
  - rewrite filter_cons.
    destruct (e_v (entry_at values (b_loc b)) =? NULL); simpl; lia.
  - exact IH.
Qed.

(** C9, as amended.  Destroying a reachable table calls the deallocator once
    for each OCCUPIED bucket whose value handle is not NULL: [n] minus the
    number of live NULL handles, hence [n] times when no live handle is
    NULL. *)
Theorem free_calls_dealloc_per_non_null_value t :
  reachable t ->
  Z.of_nat (length (HT_free (Some t))) = ht_n t - Z.of_nat (length (null_valued t)) /\
  (null_valued t = [] -> Z.of_nat (length (HT_free (Some t))) = ht_n t).
Proof.
  intros Hreach. pose proof (reachable_inv t Hreach) as Hinv.
  assert (Hcount : Z.of_nat (length (HT_free (Some t)))
                   = ht_n t - Z.of_nat (length (null_valued t))).
  { unfold HT_free, null_valued.
    rewrite <- (inv_index_len t Hinv), buckets_upto_all.
    rewrite (inv_n t Hinv).
    pose proof (free_calls_length (ht_values t) (ht_index t)). lia. }
  split; [exact Hcount|].
  intros Hnull. rewrite Hcount, Hnull. simpl. lia.
Qed.

Open Scope string_scope.

Lemma free_calls_dealloc_per_non_null_value_witness :
  Z.of_nat (length (HT_free (Some (run (fresh_table 16)
                                     [put_str "a" 1; put_str "b" 2; put_str "null" NULL]))))
  = 3 - 1.
Proof.
  destruct (free_calls_dealloc_per_non_null_value _
              (reachable_run (fresh_table 16)
                 [put_str "a" 1; put_str "b" 2; put_str "null" NULL]
                 reachable_fresh_16)) as [H _].
  rewrite H. vm_compute. reflexivity.
Defined.

(** C9 fails for a live NULL handle: one element, no deallocator call. *)
Lemma free_skips_null_value :
  let t := run (fresh_table 16) [put_str "null" NULL] in
  reachable t /\ ht_n t = 1 /\ HT_free (Some t) = [].
Proof.
  split; [apply reachable_run; exact reachable_fresh_16|].
  vm_compute. split; reflexivity.
Qed.

(** ** Allocation failure at resize *)

Lemma _HT_expand_alloc_fails a t : resize_allocation_fails a t -> _HT_expand a t = None.
Proof.
  unfold resize_allocation_fails, _HT_expand. intros [H|H].
  - rewrite H. reflexivity.
  - rewrite H. destruct (calloc_ok (a_index a) _ _); reflexivity.
Qed.

(** C8.  When a put accepted by input validation triggers a resize and one
    of the resize's allocations fails, the put returns NULL and the table is
    the one it was given: counters, index and entries unchanged. *)
Theorem put_resize_failure_keeps_table a t key key_len value :
  key_len <= HT_MAX_KEY_LEN - 1 ->
  needs_expand t = true ->
  resize_allocation_fails a t ->
  HT_put a (Some t) (Some key) key_len value = (Some t, NULL).
Proof.
  intros Hlen Hneed Hfail. unfold HT_put.
  destruct (Z.gtb_spec key_len (HT_MAX_KEY_LEN - 1)) as [Hgt|_]; [lia|].
  rewrite Hneed, (_HT_expand_alloc_fails a t Hfail). reflexivity.
Qed.

Lemma put_resize_failure_keeps_table_witness :
  let t := run (fresh_table 16)
             (map (fun k => put_str k 7)
                ["a"; "b"; "c"; "d"; "e"; "f"; "g"; "h"; "i"; "j"; "k"; "l"; "m"]) in
  needs_expand t = true /\
  HT_put (mkAlloc true false true) (Some t) (Some (cstr "n")) 1 7 = (Some t, NULL).
Proof.
  assert (Hneed : needs_expand
            (run (fresh_table 16)
               (map (fun k => put_str k 7)
                  ["a"; "b"; "c"; "d"; "e"; "f"; "g"; "h"; "i"; "j"; "k"; "l"; "m"]))
            = true) by (vm_compute; reflexivity).
  split; [exact Hneed|].
  apply put_resize_failure_keeps_table.
  - vm_compute. discriminate.
  - exact Hneed.
  - right. vm_compute. reflexivity.
Defined.

Close Scope string_scope.

(** ** The default hasher *)

Lemma hash_step h c :
  wrap64 (wrap64 (wrap64 (Z.shiftl h 5) + h) + c) = wrap64 (h * 33 + c).
Proof.
  unfold wrap64. rewrite Z.shiftl_mul_pow2 by lia.
  rewrite Zplus_mod_idemp_l, <- Z.add_assoc, Zplus_mod_idemp_l.
  f_equal. change (2 ^ 5) with 32. lia.
Qed.

Lemma _HT_hash_loop_spec key key_len : forall n h (m : nat),
  Z.of_nat m = key_len + 1 - n ->
  _HT_hash_loop key key_len n h = DJB2_spec_loop key m h.
Proof.
  induction key as [|c key IH]; intros n h m Hm; simpl.
  - destruct m; reflexivity.
  - destruct m as [|m]; simpl.
    + destruct (c =? 0); [reflexivity|].
      destruct (Z.leb_spec n key_len); [lia|reflexivity].
    + destruct (c =? 0); [reflexivity|].
      destruct (Z.leb_spec n key_len); [|lia].
      rewrite hash_step. apply IH. lia.
Qed.

(** What the code computes: DJB2 over [key_len + 1] bytes. *)
Lemma _HT_hash_one_byte_more key key_len :
  0 <= key_len -> _HT_hash key key_len = DJB2_spec key (key_len + 1).
Proof.
  intros Hlen. unfold _HT_hash, DJB2_spec.
  apply _HT_hash_loop_spec. lia.
Qed.

Lemma DJB2_spec_loop_whole key : forall h (m m' : nat),
  (length key <= m)%nat -> (length key <= m')%nat ->
  DJB2_spec_loop key m h = DJB2_spec_loop key m' h.
Proof.
  induction key as [|c key IH]; intros h m m' Hm Hm'; simpl in *.
  - destruct m, m'; reflexivity.
  - destruct m as [|m], m' as [|m']; try lia. simpl.
    destruct (c =? 0); [reflexivity|]. apply IH; lia.
Qed.

(** On a terminated key no longer than [key_len] the extra byte is the
    terminator and the code agrees with the specification. *)
Lemma _HT_hash_terminated_key key key_len :
  Z.of_nat (length key) <= key_len -> _HT_hash key key_len = DJB2_spec key key_len.
Proof.
  intros Hlen. rewrite _HT_hash_one_byte_more by lia.
  unfold DJB2_spec. apply DJB2_spec_loop_whole; lia.
Qed.

Open Scope string_scope.

(** C5 at the failing input.  With [key_len = 1] the hasher consumes both
    bytes of "ab": its result is DJB2 of two bytes, differs from DJB2 of the
    first byte, and changes with the second byte. *)
Theorem hash_consumes_byte_at_key_len :
  _HT_hash (cstr "ab") 1 = DJB2_spec (cstr "ab") 2 /\
  _HT_hash (cstr "ab") 1 <> DJB2_spec (cstr "ab") 1 /\
  _HT_hash (cstr "ab") 1 <> _HT_hash (cstr "ac") 1.
Proof. vm_compute. repeat split; discriminate. Qed.

(** ** Stores into the key buffer *)

Lemma combine_fst_bound (l : list Z) (bytes : list Z) bound :
  Forall (fun i => 0 <= i < bound) l ->
  Forall (fun ic : Z * Z => 0 <= fst ic < bound) (combine l bytes).
Proof.
  intros Hl. revert bytes.
  induction Hl as [|i l Hi _ IH]; intros bytes; simpl; [constructor|].
  destruct bytes; constructor; [exact Hi|apply IH].
Qed.

(** Keys of at most 30 characters are stored inside the buffer. *)
Lemma stores_in_key_buffer_upto_30 key key_len :
  0 <= key_len <= HT_MAX_KEY_LEN - 2 -> stores_in_key_buffer key key_len.
Proof.
  unfold stores_in_key_buffer, key_stores, HT_MAX_KEY_LEN. intros Hlen.
  apply Forall_app. split.
  - apply combine_fst_bound. apply Forall_forall. intros i Hi.
    apply list_elem_of_fmap in Hi. destruct Hi as [j [-> Hj]].
    apply elem_of_seq in Hj. lia.
  - constructor; [|constructor]. simpl.
    rewrite wrap64_small by lia. lia.
Qed.

(** C6 at the failing input.  A put of a key of length 31 passes the input
    validation and returns the value, but its terminating-zero store goes to
    index 32, past the 32-byte key buffer; it lands on the low byte of
    [k_len], which the entry then records as 0. *)
Theorem terminator_store_past_key_buffer :
  snd (HT_put alloc_ok (Some (fresh_table 16)) (Some key31) 31 100) = 100 /\
  In (HT_MAX_KEY_LEN, 0) (key_stores key31 31) /\
  ~ stores_in_key_buffer key31 31 /\
  e_k_len (entry_at
             (ht_values (run (fresh_table 16) [OpPut alloc_ok (Some key31) 31 100]))
             0) = 0.
Proof.
  split; [vm_compute; reflexivity|].
  split; [unfold key_stores; apply in_or_app; right; left; reflexivity|].
  split; [|vm_compute; reflexivity].
  unfold stores_in_key_buffer. intros Hall.
  rewrite Forall_forall in Hall.
  specialize (Hall (HT_MAX_KEY_LEN, 0)). simpl in Hall.
  assert (0 <= HT_MAX_KEY_LEN < HT_MAX_KEY_LEN); [|lia].
  apply Hall. apply list_elem_of_In.
  unfold key_stores. apply in_or_app. right. left. reflexivity.
Qed.

(** ** Round trip *)

(** C1 at the failing input.  A key of length 31 put into a fresh table with
    the default strategies is accepted, yet is not found afterwards. *)
Theorem round_trip_fails_at_length_31 :
  let r := HT_put alloc_ok (Some (fresh_table 16)) (Some key31) 31 100 in
  Z.of_nat (length key31) = 31 /\
  snd r = 100 /\
  HT_get (fst r) (Some key31) 31 = NULL /\
  HT_exists (fst r) (Some key31) 31 = false.
Proof. vm_compute. repeat split. Qed.

Close Scope string_scope.

(** ** Steps of an insertion *)

Lemma HT_put_loop_skip (m : nat) : forall fuel t key key_len value h d,
  (forall d', d <= d' < d + Z.of_nat m ->
     is_occupied (bucket_at (ht_index t) (HT_CALC_LOC t (wrap64 (h + d')))) = true /\
     key_matches t key key_len h
       (bucket_at (ht_index t) (HT_CALC_LOC t (wrap64 (h + d')))) = false) ->
  HT_put_loop (m + fuel) t key key_len value h d =
  HT_put_loop fuel t key key_len value h (d + Z.of_nat m).
Proof.
  induction m as [|m IH]; intros fuel t key key_len value h d Hskip.
  - simpl. f_equal. lia.
  - destruct (Hskip d ltac:(lia)) as [Hocc Hno].
    cbn [Nat.add HT_put_loop].
    unfold key_matches in Hno. rewrite Hocc in *. simpl in Hno |- *.
    destruct (b_hashcode _ =? h); simpl in Hno |- *.
    + rewrite Hno. rewrite IH.
      * f_equal. lia.
      * intros d' Hd'. apply Hskip. lia.
    + rewrite IH.
      * f_equal. lia.
      * intros d' Hd'. apply Hskip. lia.
Qed.



Lemma entry_at_set_eq values i e :
  0 <= i < Z.of_nat (length values) -> entry_at (array_set values i e) i = e.
Proof.
  intros Hi. unfold entry_at, array_set.
  rewrite list_lookup_insert_eq by lia. reflexivity.
Qed.


(** ** Capacity *)

Lemma _HT_expand_bucket_cap t b : ht_cap (_HT_expand_bucket t b) = ht_cap t.
Proof.
  unfold _HT_expand_bucket. destruct (is_occupied b); [|reflexivity].
  destruct (_HT_expand_probe_spec (Z.to_nat (ht_cap t + 1)) t b (b_hashcode b) 0)
    as [[_ [d' [_ [_ [_ [_ [_ [Hc _]]]]]]]]|[_ [-> _]]]; [exact Hc|reflexivity].
Qed.

Lemma fold_expand_bucket_cap olds : forall t,
  ht_cap (fold_left _HT_expand_bucket olds t) = ht_cap t.
Proof.
  induction olds as [|b olds IH]; intros t; simpl; [reflexivity|].
  rewrite IH. apply _HT_expand_bucket_cap.
Qed.

(** The capacity a put leaves, whatever the contents of the arrays. *)
Lemma HT_put_cap_after_resize a t key key_len value :
  needs_expand t = true ->
  key_len <= HT_MAX_KEY_LEN - 1 ->
  calloc_ok (a_index a) (_HT_round_up (wrap64 (ht_cap t * 2))) sizeof_HT_BUCKET_T = true ->
  calloc_ok (a_values a) (_HT_round_up (wrap64 (ht_cap t * 2))) sizeof_HT_ENTRY_T = true ->
  ht_cap (apply_op t (OpPut a (Some key) key_len value)) =
  _HT_round_up (wrap64 (ht_cap t * 2)).
Proof.
  intros Hneed Hlen Hidx Hvals. unfold apply_op, HT_put.
  destruct (Z.gtb_spec key_len (HT_MAX_KEY_LEN - 1)) as [Hgt|_]; [lia|].
  rewrite Hneed. unfold _HT_expand. rewrite Hidx, Hvals.
  cbv zeta. cbn [negb fst default from_option id].
  rewrite HT_put_loop_cap, fold_expand_bucket_cap. reflexivity.
Qed.

(** The part of C7 the code keeps: the capacity of a reachable table is a
    power of two, at least the default capacity. *)
Lemma cap_power_of_two t :
  reachable t ->
  exists k, ht_cap t = 2 ^ k /\ 0 <= k /\ HT_DEFAULT_CAPACITY <= ht_cap t.
Proof.
  intros Hreach. pose proof (reachable_inv t Hreach) as Hinv.
  pose proof (inv_cap_range t Hinv) as Hrange.
  destruct (inv_cap t Hinv) as [k [Hk Hcap]].
  exists k. unfold HT_DEFAULT_CAPACITY. repeat split; [exact Hcap|lia|lia].
Qed.

(** The part of C7 the code keeps: no operation lowers the capacity. *)
Lemma cap_non_decreasing t o : reachable t -> ht_cap t <= ht_cap (apply_op t o).
Proof.
  intros Hreach. pose proof (reachable_inv t Hreach) as Hinv.
  pose proof (inv_cap_range t Hinv) as Hrange.
  destruct (apply_op_inv t o Hinv) as [_ [Hc|Hc]]; lia.
Qed.

(** A constructed table never exceeds the maximum capacity. *)
Lemma cap_at_construction a requested_capacity load_factor hashcode cmp dealloc t :
  HT_new_ex a requested_capacity load_factor hashcode cmp dealloc = Some t ->
  HT_DEFAULT_CAPACITY <= ht_cap t <= HT_MAX_CAPACITY.
Proof. intros Hnew. apply (HT_new_ex_inv _ _ _ _ _ _ _ Hnew). Qed.

(** *** A reachable table at the maximum capacity *)

Lemma digits_hash_key i : 0 <= i -> digits_hash (digits_key i) 4 = i.
Proof.
  intros Hi. unfold digits_hash, digits_key.
  change (255 * 255 * 255) with 16581375. change (255 * 255) with 65025.
  Z.div_mod_to_equations. lia.
Qed.

Lemma digits_table_bucket capacity (m : nat) :
  Z.of_nat m < capacity ->
  bucket_at (ht_index (digits_table capacity m)) (Z.of_nat m) = empty_bucket.
Proof.
  intros Hm. unfold bucket_at, digits_table. cbn [ht_index].
  rewrite Nat2Z.id, lookup_app_r by (rewrite length_fmap, length_seq; lia).
  rewrite length_fmap, length_seq, Nat.sub_diag.
  rewrite lookup_replicate_2 by lia. reflexivity.
Qed.

Lemma digits_table_entry capacity (m : nat) :
  Z.of_nat m < capacity ->
  entry_at (ht_values (digits_table capacity m)) (Z.of_nat m) = empty_entry.
Proof.
  intros Hm. unfold entry_at, digits_table. cbn [ht_values].
  rewrite Nat2Z.id, lookup_app_r by (rewrite length_fmap, length_seq; lia).
  rewrite length_fmap, length_seq, Nat.sub_diag.
  rewrite lookup_replicate_2 by lia. reflexivity.
Qed.

Lemma set_first_free {A} (f : nat -> A) (m c : nat) (e x : A) :
  (m < c)%nat -> x = f m ->
  array_set ((f <$> seq 0 m) ++ replicate (c - m) e) (Z.of_nat m) x =
  (f <$> seq 0 (S m)) ++ replicate (c - S m) e.
Proof.
  intros Hm ->. unfold array_set. rewrite Nat2Z.id.
  rewrite seq_S, fmap_app, <- app_assoc. simpl.
  replace (c - m)%nat with (S (c - S m)) by lia. simpl.
  rewrite insert_app_r_alt by (rewrite length_fmap, length_seq; lia).
  rewrite length_fmap, length_seq, Nat.sub_diag. reflexivity.
Qed.

(** One more key: it hashes to the first free bucket and is stored there. *)
Lemma digits_table_step k (m : nat) :
  0 <= k <= 62 ->
  Z.of_nat m <= _HT_calc_expansion HT_DEFAULT_LOAD_FACTOR (2 ^ k) ->
  _HT_calc_expansion HT_DEFAULT_LOAD_FACTOR (2 ^ k) < 2 ^ k ->
  apply_op (digits_table (2 ^ k) m) (put_digits m) = digits_table (2 ^ k) (S m).
Proof.
  intros Hk Hm Hexp.
  assert (Hpow : 0 < 2 ^ k <= 2 ^ 62).
  { split; [apply Z.pow_pos_nonneg; lia|apply Z.pow_le_mono_r; lia]. }
  change (2 ^ 62) with 4611686018427387904 in Hpow.
  unfold apply_op, put_digits, HT_put.
  destruct (Z.gtb_spec 4 (HT_MAX_KEY_LEN - 1)) as [Hgt|_];
    [unfold HT_MAX_KEY_LEN in Hgt; lia|].
  assert (Hneed : needs_expand (digits_table (2 ^ k) m) = false).
  { unfold needs_expand, digits_table. cbn [ht_n ht_expand ht_cap ht_ins_loc].
    destruct (Z.gtb_spec (Z.of_nat m)
                (_HT_calc_expansion HT_DEFAULT_LOAD_FACTOR (2 ^ k))); [lia|].
    destruct (Z.eqb_spec (Z.of_nat m) (2 ^ k)); [lia|]. reflexivity. }
  rewrite Hneed.
  replace (ht_hashcode (digits_table (2 ^ k) m)) with digits_hash by reflexivity.
  rewrite digits_hash_key by lia.
  assert (Hwrap : forall x, 0 <= x <= 2 ^ k -> wrap64 x = x).
  { intros x Hx. apply wrap64_small.
    change (2 ^ 64) with 18446744073709551616. lia. }
  rewrite (Hwrap (Z.of_nat m)) by lia.
  replace (Z.to_nat (ht_cap (digits_table (2 ^ k) m) + 1))
    with (S (Z.to_nat (2 ^ k))) by (cbn [ht_cap digits_table]; lia).
  cbn [HT_put_loop].
  replace (HT_CALC_LOC (digits_table (2 ^ k) m) (wrap64 (Z.of_nat m + 0)))
    with (Z.of_nat m).
  2:{ unfold HT_CALC_LOC. cbn [ht_cap digits_table].
      rewrite Z.add_0_r, (Hwrap (Z.of_nat m)) by lia.
      rewrite land_pow2_mod by lia. symmetry. apply Z.mod_small. lia. }
  rewrite digits_table_bucket, digits_table_entry by lia.
  cbn [is_occupied is_empty b_state empty_bucket andb negb fst default
       from_option id].
  unfold digits_table at 1 2 3 4 5 6 7 8 9 10 11 12.
  cbn [ht_index ht_values ht_n ht_cap ht_expand ht_max_probe ht_ins_loc
       ht_load_factor ht_cmp ht_hashcode ht_dealloc].
  unfold digits_table. f_equal.
  - apply set_first_free; [lia|reflexivity].
  - apply set_first_free; [lia|reflexivity].
  - rewrite Hwrap by lia. lia.
  - rewrite Hwrap by lia. lia.
Qed.

Lemma digits_table_run k (m : nat) :
  0 <= k <= 62 ->
  Z.of_nat m <= _HT_calc_expansion HT_DEFAULT_LOAD_FACTOR (2 ^ k) + 1 ->
  _HT_calc_expansion HT_DEFAULT_LOAD_FACTOR (2 ^ k) < 2 ^ k ->
  run (digits_table (2 ^ k) 0) (put_digits <$> seq 0 m) = digits_table (2 ^ k) m.
Proof.
  intros Hk Hm Hexp. induction m as [|m IH]; [reflexivity|].
  rewrite seq_S, fmap_app. unfold run in *. rewrite fold_left_app.
  rewrite IH by lia. simpl. apply digits_table_step; [exact Hk|lia|exact Hexp].
Qed.

Lemma digits_table_new k :
  4 <= k <= 30 ->
  HT_new_ex alloc_ok (2 ^ k) HT_DEFAULT_LOAD_FACTOR digits_hash strncmp libc_free
  = Some (digits_table (2 ^ k) 0).
Proof.
  intros Hk. unfold HT_new_ex.
  assert (Hpow : 16 <= 2 ^ k <= 2 ^ 30).
  { split; [change 16 with (2 ^ 4)|]; apply Z.pow_le_mono_r; lia. }
  change (2 ^ 30) with 1073741824 in Hpow.
  unfold HT_DEFAULT_CAPACITY, HT_MAX_CAPACITY.
  change (Z.shiftl 1 30) with 1073741824.
  destruct (Z.ltb_spec (2 ^ k) 16); [lia|].
  destruct (Z.gtb_spec (2 ^ k) 1073741824); [lia|].
  replace (float_lt HT_DEFAULT_LOAD_FACTOR DOUBLE_0_1
           || float_gt HT_DEFAULT_LOAD_FACTOR DOUBLE_1_0) with false by reflexivity.
  rewrite _HT_round_up_pow2 by lia.
  unfold calloc_ok, alloc_ok, sizeof_HT_BUCKET_T, sizeof_HT_ENTRY_T.
  cbn [a_index a_values a_table andb].
  change (2 ^ 64) with 18446744073709551616.
  destruct (Z.ltb_spec (2 ^ k * 24) 18446744073709551616); [|lia].
  destruct (Z.ltb_spec (2 ^ k * 48) 18446744073709551616); [|lia].
  cbn [negb]. unfold digits_table. rewrite Nat.sub_0_r. reflexivity.
Qed.

(** C7 at the failing input.  Construct a table of the maximum capacity
    [1 << 30] with the default load factor, put as many distinct keys as
    take [n] past the threshold, and put one more: the resize doubles the
    capacity to [2^31], beyond [HT_MAX_CAPACITY]. *)
Theorem capacity_exceeds_maximum :
  let t := run (digits_table HT_MAX_CAPACITY 0) (put_digits <$> seq 0 puts_to_threshold) in
  reachable t /\
  ht_cap t = HT_MAX_CAPACITY /\
  ht_cap (apply_op t (put_digits puts_to_threshold)) = 2 * HT_MAX_CAPACITY /\
  HT_MAX_CAPACITY < ht_cap (apply_op t (put_digits puts_to_threshold)).
Proof.
  assert (Hmax : HT_MAX_CAPACITY = 2 ^ 30) by reflexivity.
  assert (Hexp : _HT_calc_expansion HT_DEFAULT_LOAD_FACTOR (2 ^ 30) = 805306368)
    by (vm_compute; reflexivity).
  assert (Hputs : Z.of_nat puts_to_threshold = 805306369).
  { unfold puts_to_threshold. rewrite Hmax, Hexp. rewrite Z2Nat.id; lia. }
  cbv zeta. rewrite Hmax.
  split.
  { apply reachable_run.
    apply (reachable_new alloc_ok (2 ^ 30) HT_DEFAULT_LOAD_FACTOR digits_hash
             strncmp libc_free).
    apply digits_table_new. lia. }
  rewrite digits_table_run by (rewrite ?Hexp, ?Hputs; lia).
  split; [reflexivity|].
  assert (Hcap : ht_cap (apply_op (digits_table (2 ^ 30) puts_to_threshold)
                           (put_digits puts_to_threshold)) = 2 * 2 ^ 30).
  { unfold put_digits. rewrite HT_put_cap_after_resize.
    - reflexivity.
    - unfold needs_expand, digits_table. cbn [ht_n ht_expand].
      rewrite Hexp, Hputs. reflexivity.
    - unfold HT_MAX_KEY_LEN. lia.
    - reflexivity.
    - reflexivity. }
  split; [exact Hcap|]. rewrite Hcap. lia.
Qed.

(** ** Keys in entries *)

Section KeyStrings.

Variable lo : Z.
Hypothesis lo_range : -255 <= lo <= 0.

Lemma strncpy_bytes_whole key :
  wf_key lo key -> strncpy_bytes key (length key) = key.
Proof.
  induction 1 as [|c key [_ Hc] _ IH]; simpl; [reflexivity|].
  destruct (Z.eqb_spec c 0); [contradiction|]. f_equal. exact IH.
Qed.

Lemma strncmp_loop_same key rest :
  wf_key lo key -> strncmp_loop key (key ++ rest) (length key) = 0.
Proof.
  induction 1 as [|c key [Hr Hc] _ IH]; simpl; [reflexivity|].
  rewrite Z.eqb_refl. simpl.
  destruct (Z.eqb_spec (c mod 256) 0) as [Hz|_]; [|exact IH].
  exfalso. apply Hc. revert Hz. Z.div_mod_to_equations. lia.
Qed.

Lemma strncmp_loop_eq key key' rest :
  wf_key lo key -> wf_key lo key' -> length key = length key' ->
  strncmp_loop key' (key ++ rest) (length key') = 0 -> key = key'.
Proof.
  intros Hwf. revert key'.
  induction Hwf as [|c key [Hr Hc] _ IH]; intros key' Hwf' Hlen Hcmp.
  - destruct key'; [reflexivity|discriminate].
  - destruct Hwf' as [|c' key' [Hr' Hc'] Hwf']; [discriminate|].
    simpl in Hlen, Hcmp.
    destruct (Z.eqb_spec (c' mod 256) (c mod 256)) as [Heq|Hne]; simpl in Hcmp.
    + assert (c' = c) by (revert Heq; Z.div_mod_to_equations; lia). subst c'.
      destruct (Z.eqb_spec (c mod 256) 0) as [Hz|_].
      * exfalso. apply Hc. revert Hz. Z.div_mod_to_equations. lia.
      * f_equal. apply IH; [exact Hwf'|lia|exact Hcmp].
    + exfalso. apply Hne. lia.
Qed.

End KeyStrings.

Lemma combine_snoc {A B} (l1 : list A) (l2 : list B) a b :
  length l1 = length l2 ->
  combine (l1 ++ [a]) (l2 ++ [b]) = combine l1 l2 ++ [(a, b)].
Proof.
  revert l2. induction l1 as [|x l1 IH]; intros [|y l2] Hlen; simpl in *;
    try discriminate; [reflexivity|].
  f_equal. apply IH. lia.
Qed.

(** The stores of the length-bounded copy, when the source has no terminator
    among its first characters. *)
Lemma copy_stores key : forall e,
  (length key <= length (e_k e))%nat ->
  Z.of_nat (length key) <= HT_MAX_KEY_LEN ->
  let e' := fold_left (fun e ic => store_k e (fst ic) (snd ic))
              (combine (map Z.of_nat (seq 0 (length key))) key) e in
  e_k e' = key ++ drop (length key) (e_k e) /\
  e_k_len e' = e_k_len e /\ e_v e' = e_v e.
Proof.
  induction key as [|c key IH] using rev_ind; intros e Hlen Hmax; simpl.
  - rewrite drop_0. auto.
  - rewrite length_app in *. simpl in *.
    replace (length key + 1)%nat with (S (length key)) by lia.
    rewrite seq_S, map_app. simpl.
    rewrite combine_snoc by (rewrite length_map, length_seq; reflexivity).
    rewrite fold_left_app. simpl.
    destruct (IH e ltac:(lia) ltac:(lia)) as [Hk [Hl Hv]].
    set (e1 := fold_left _ _ e) in *.
    unfold store_k.
    destruct (Z.ltb_spec (Z.of_nat (length key)) HT_MAX_KEY_LEN) as [_|Hge]; [|lia].
    simpl. repeat split; try assumption.
    rewrite Hk. unfold array_set. rewrite Nat2Z.id.
    rewrite insert_app_r_alt by lia. rewrite Nat.sub_diag.
    rewrite <- app_assoc. f_equal.
    destruct (drop (length key) (e_k e)) as [|x rest] eqn:Hdrop.
    + apply (f_equal length) in Hdrop. rewrite length_drop in Hdrop. simpl in Hdrop. lia.
    + simpl. f_equal.
      change (S (length key)) with (1 + length key)%nat.
      rewrite Nat.add_comm, <- drop_drop, Hdrop. reflexivity.
Qed.

(** What [HT_put] leaves in the entry of a key of at most 30 characters. *)
Lemma write_key_stores lo key e :
  wf_key lo key ->
  Z.of_nat (length key) <= HT_MAX_KEY_LEN - 2 ->
  length (e_k e) = Z.to_nat HT_MAX_KEY_LEN ->
  let e' := write_key e key (Z.of_nat (length key)) in
  take (length key) (e_k e') = key /\ e_k_len e' = e_k_len e /\ e_v e' = e_v e /\
  length (e_k e') = Z.to_nat HT_MAX_KEY_LEN.
Proof.
  intros Hwf Hlen Hbuf. unfold write_key, key_stores.
  rewrite Nat2Z.id, (strncpy_bytes_whole lo key Hwf), fold_left_app.
  unfold HT_MAX_KEY_LEN in *.
  destruct (copy_stores key e ltac:(lia) ltac:(unfold HT_MAX_KEY_LEN; lia))
    as [Hk [Hl Hv]].
  set (e1 := fold_left _ _ e) in *.
  cbn [fold_left fst snd]. unfold store_k, HT_MAX_KEY_LEN.
  rewrite wrap64_small by (change (2 ^ 64) with 18446744073709551616; lia).
  destruct (Z.ltb_spec (Z.of_nat (length key) + 1) 32) as [_|Hge]; [|lia].
  cbn [e_k e_k_len e_v]. unfold array_set.
  repeat split; try assumption.
  - rewrite take_insert_ge by lia. rewrite Hk.
    rewrite take_app_length. reflexivity.
  - rewrite length_insert, Hk, length_app, length_drop. lia.
Qed.

(** ** Matching and binding *)

Lemma stores_key_inj e k1 k2 : stores_key e k1 -> stores_key e k2 -> k1 = k2.
Proof.
  intros [Hl1 Ht1] [Hl2 Ht2].
  assert (length k1 = length k2) as Hlen by lia.
  rewrite <- Ht1, <- Ht2, Hlen. reflexivity.
Qed.

Lemma binds_key_inj t i k1 v1 k2 v2 :
  binds t i k1 v1 -> binds t i k2 v2 -> k1 = k2 /\ v1 = v2.
Proof.
  intros (_ & _ & Hs1 & Hv1) (_ & _ & Hs2 & Hv2).
  split; [eapply stores_key_inj; eassumption|congruence].
Qed.

Lemma binds_matches lo t i k v :
  ht_cmp t = strncmp -> ht_hashcode t = _HT_hash -> wf_key lo k ->
  -255 <= lo <= 0 ->
  binds t i k v ->
  key_matches t k (Z.of_nat (length k)) (wrap64 (ht_hashcode t k (Z.of_nat (length k))))
    (bucket_at (ht_index t) i) = true.
Proof.
  intros Hcmp Hhash Hwf Hlo (Hocc & Hh & [Hlen Htake] & _).
  unfold key_matches. rewrite Hocc, Hh, Hhash, Hlen, Hcmp, !Z.eqb_refl. simpl.
  unfold strncmp. rewrite Nat2Z.id.
  rewrite <- (take_drop (length k) (e_k _)), Htake.
  rewrite (strncmp_loop_same lo) by assumption. reflexivity.
Qed.

Lemma matches_binds lo t i k k' v h :
  ht_cmp t = strncmp -> wf_key lo k -> wf_key lo k' -> -255 <= lo <= 0 ->
  binds t i k v ->
  key_matches t k' (Z.of_nat (length k')) h (bucket_at (ht_index t) i) = true ->
  k = k'.
Proof.
  intros Hcmp Hwf Hwf' Hlo (_ & _ & [Hlen Htake] & _) Hm.
  unfold key_matches in Hm. rewrite Hcmp in Hm.
  apply andb_true_iff in Hm. destruct Hm as [_ Hm].
  apply andb_true_iff in Hm. destruct Hm as [Hl Hc].
  apply Z.eqb_eq in Hl, Hc.
  assert (Hlen' : length k = length k') by lia.
  unfold strncmp in Hc. rewrite Nat2Z.id in Hc.
  rewrite <- (take_drop (length k) (e_k _)), Htake in Hc.
  eapply (strncmp_loop_eq lo); eassumption.
Qed.

(** ** Finding a bound key *)

Lemma probe_find_hit (m : nat) : forall fuel t key key_len h d,
  (forall d', d <= d' < d + Z.of_nat m ->
     is_empty (bucket_at (ht_index t) (HT_CALC_LOC t (wrap64 (h + d')))) = false /\
     key_matches t key key_len h
       (bucket_at (ht_index t) (HT_CALC_LOC t (wrap64 (h + d')))) = false) ->
  key_matches t key key_len h
    (bucket_at (ht_index t) (HT_CALC_LOC t (wrap64 (h + (d + Z.of_nat m))))) = true ->
  probe_find (m + S fuel) t key key_len h d
  = Some (HT_CALC_LOC t (wrap64 (h + (d + Z.of_nat m)))).
Proof.
  induction m as [|m IH]; intros fuel t key key_len h d Hskip Hhit.
  - simpl. replace (d + Z.of_nat 0) with d in Hhit |- * by lia.
    rewrite Hhit. reflexivity.
  - destruct (Hskip d ltac:(lia)) as [He Hno].
    cbn [Nat.add probe_find]. rewrite Hno, He.
    replace (d + Z.of_nat (S m)) with ((d + 1) + Z.of_nat m) in Hhit |- * by lia.
    apply IH; [|exact Hhit].
    intros d' Hd'. apply Hskip. lia.
Qed.

(** A key bound in a table that satisfies the round-trip invariant is found
    with its value. *)
Lemma RT_lookup lo t m k v :
  -255 <= lo <= 0 -> RT t m -> wf_contents lo m -> (k, v) ∈ m ->
  HT_get (Some t) (Some k) (Z.of_nat (length k)) = v /\
  HT_exists (Some t) (Some k) (Z.of_nat (length k)) = true.
Proof.
  intros Hlo Hrt [Hwf Hnodup] Hin.
  rewrite Forall_forall in Hwf.
  destruct (Hwf _ Hin) as [Hwfk Hlen]. simpl in Hwfk, Hlen.
  destruct (rt_bound t m Hrt k v Hin) as [i [Hi Hb]].
  pose proof Hb as (Hocc & Hh & Hstores & Hv).
  destruct (rt_paths t m Hrt i Hi Hocc) as [d [Hd [Hslot Hpath]]].
  rewrite Hh in Hslot, Hpath.
  set (h := wrap64 (_HT_hash k (Z.of_nat (length k)))) in *.
  assert (Hfind : probe_find (Z.to_nat (ht_max_probe t + 1)) t k
                    (Z.of_nat (length k)) h 0 = Some i).
  { replace (Z.to_nat (ht_max_probe t + 1))
      with (Z.to_nat d + S (Z.to_nat (ht_max_probe t - d)))%nat by lia.
    rewrite probe_find_hit.
    - f_equal. rewrite Hslot. f_equal. f_equal. lia.
    - intros d' Hd'. destruct (Hpath d' ltac:(lia)) as [Hocc' Hne].
      split; [apply is_occupied_not_empty; exact Hocc'|].
      destruct (key_matches t k _ h _) eqn:Hm; [exfalso|reflexivity].
      assert (Hr : 0 <= HT_CALC_LOC t (wrap64 (h + d')) < ht_cap t)
        by (apply calc_loc_range; apply (rt_inv t m Hrt)).
      destruct (rt_occupied t m Hrt _ Hr Hocc') as (k' & v' & Hin' & Hb').
      destruct (Hwf _ Hin') as [Hwfk' _]. simpl in Hwfk'.
      pose proof (matches_binds lo t _ k' k v' h (rt_cmp t m Hrt) Hwfk' Hwfk Hlo Hb' Hm).
      subst k'. apply Hne.
      eapply (rt_unique t m Hrt); eassumption.
    - replace (0 + Z.of_nat (Z.to_nat d)) with d by lia. rewrite <- Hslot.
      pose proof (binds_matches lo t i k v (rt_cmp t m Hrt) (rt_hash t m Hrt)
                    Hwfk Hlo Hb) as Hm.
      rewrite (rt_hash t m Hrt) in Hm. exact Hm. }
  unfold HT_get, HT_exists.
  destruct (Z.gtb_spec (Z.of_nat (length k)) (HT_MAX_KEY_LEN - 1)) as [Hgt|_]; [lia|].
  rewrite (rt_hash t m Hrt). fold h.
  rewrite HT_get_loop_find, HT_exists_loop_find, Hfind.
  split; [exact Hv|reflexivity].
Qed.

(** ** Inserting at the first free bucket of a probe path *)

Lemma paths_ok_insert t t' s nb d :
  (exists k, 0 <= k /\ ht_cap t = 2 ^ k) ->
  Z.of_nat (length (ht_index t)) = ht_cap t ->
  paths_ok t ->
  ht_cap t' = ht_cap t ->
  ht_index t' = array_set (ht_index t) s nb ->
  ht_max_probe t' = (if d >? ht_max_probe t then d else ht_max_probe t) ->
  0 <= d -> s = HT_CALC_LOC t (wrap64 (b_hashcode nb + d)) ->
  is_occupied (bucket_at (ht_index t) s) = false ->
  (forall d', 0 <= d' < d ->
     is_occupied (bucket_at (ht_index t)
                    (HT_CALC_LOC t (wrap64 (b_hashcode nb + d')))) = true) ->
  paths_ok t'.
Proof.
  intros [k [Hk Hcap]] Hlen Hpaths Hcap' Hidx Hmp Hd Hs Hfree Hbefore s2 Hs2 Hocc2.
  assert (Hloc : forall x, HT_CALC_LOC t' x = HT_CALC_LOC t x)
    by (intros x; unfold HT_CALC_LOC; rewrite Hcap'; reflexivity).
  assert (Hsr : 0 <= s < ht_cap t)
    by (rewrite Hs; apply (calc_loc_range_pow2 t _ k); assumption).
  assert (Hmp_le : ht_max_probe t <= ht_max_probe t' /\ d <= ht_max_probe t').
  { rewrite Hmp. destruct (Z.gtb_spec d (ht_max_probe t)); lia. }
  assert (Hkeep : forall x, 0 <= x < ht_cap t ->
            is_occupied (bucket_at (ht_index t) x) = true ->
            bucket_at (ht_index t') x = bucket_at (ht_index t) x /\ x <> s).
  { intros x Hx Hoccx.
    assert (x <> s) by (intros ->; congruence).
    split; [|assumption]. rewrite Hidx. apply bucket_at_set_ne; lia. }
  unfold path_ok. rewrite Hcap' in Hs2.
  destruct (Z.eq_dec s2 s) as [->|Hne].
  - assert (Hb : bucket_at (ht_index t') s = nb)
      by (rewrite Hidx; apply bucket_at_set_eq; lia).
    rewrite Hb. exists d. split; [lia|]. split; [rewrite Hloc; exact Hs|].
    intros d' Hd'. rewrite Hloc.
    assert (Hr : 0 <= HT_CALC_LOC t (wrap64 (b_hashcode nb + d')) < ht_cap t)
      by (apply (calc_loc_range_pow2 t _ k); assumption).
    destruct (Hkeep _ Hr (Hbefore d' Hd')) as [Heq Hnes].
    rewrite Heq. split; [apply Hbefore; exact Hd'|exact Hnes].
  - assert (Hb : bucket_at (ht_index t') s2 = bucket_at (ht_index t) s2)
      by (rewrite Hidx; apply bucket_at_set_ne; lia).
    rewrite Hb in Hocc2 |- *.
    destruct (Hpaths s2 Hs2 Hocc2) as [d2 [Hd2 [Hslot2 Hpath2]]].
    exists d2. split; [lia|]. split; [rewrite Hloc; exact Hslot2|].
    intros d' Hd'. rewrite Hloc.
    destruct (Hpath2 d' Hd') as [Hocc' Hne'].
    assert (Hr : 0 <= HT_CALC_LOC t
                        (wrap64 (b_hashcode (bucket_at (ht_index t) s2) + d'))
                 < ht_cap t)
      by (apply (calc_loc_range_pow2 t _ k); assumption).
    destruct (Hkeep _ Hr Hocc') as [Heq _].
    rewrite Heq. split; assumption.
Qed.

Lemma classic_first (n : nat) (P : Z -> bool) :
  (forall d', 0 <= d' < Z.of_nat n -> P d' = true) \/
  (exists d, 0 <= d < Z.of_nat n /\ P d = false).
Proof.
  induction n as [|n [Hall|[d [Hd HP]]]].
  - left. intros d' Hd'. lia.
  - destruct (P (Z.of_nat n)) eqn:HPn.
    + left. intros d' Hd'.
      destruct (Z.eq_dec d' (Z.of_nat n)) as [->|]; [exact HPn|apply Hall; lia].
    + right. exists (Z.of_nat n). split; [lia|exact HPn].
  - right. exists d. split; [lia|exact HP].
Qed.

Lemma first_false (P : Z -> bool) (n : nat) :
  (exists d, 0 <= d < Z.of_nat n /\ P d = false) ->
  exists d0, 0 <= d0 < Z.of_nat n /\ P d0 = false /\
             forall d', 0 <= d' < d0 -> P d' = true.
Proof.
  induction n as [|n IH]; intros [d [Hd HP]]; [lia|].
  destruct (classic_first n P) as [Hall|Hex].
  - exists (Z.of_nat n). split; [lia|]. split.
    + destruct (Z.eq_dec d (Z.of_nat n)) as [<-|]; [exact HP|].
      rewrite Hall in HP by lia. discriminate.
    + exact Hall.
  - destruct (IH Hex) as [d0 [Hd0 [HP0 Hmin]]].
    exists d0. split; [lia|]. split; assumption.
Qed.

(** A put of a key that no bucket matches writes at the first bucket of the
    key's probe path that is not OCCUPIED. *)
Lemma HT_put_loop_fresh t key key_len value h :
  HT_inv t -> ht_n t < ht_cap t ->
  (forall s, 0 <= s < ht_cap t ->
     key_matches t key key_len h (bucket_at (ht_index t) s) = false) ->
  exists d, 0 <= d < ht_cap t /\
    is_occupied (bucket_at (ht_index t) (HT_CALC_LOC t (wrap64 (h + d)))) = false /\
    (forall d', 0 <= d' < d ->
       is_occupied (bucket_at (ht_index t) (HT_CALC_LOC t (wrap64 (h + d')))) = true) /\
    HT_put_loop (Z.to_nat (ht_cap t + 1)) t key key_len value h 0
    = (insert_at t (HT_CALC_LOC t (wrap64 (h + d))) h key key_len value d, value).
Proof.
  intros Hinv Hn Hnomatch.
  pose proof (inv_cap_range t Hinv) as Hrange.
  destruct (inv_cap t Hinv) as [k [Hk Hcap]].
  pose proof (inv_index_len t Hinv) as Hlen.
  pose proof (inv_n t Hinv) as Hcount.
  destruct (not_all_occupied (ht_index t)) as [j [Hj Hfree]]; [lia|].
  destruct (probe_cover k h (Z.of_nat j) ltac:(lia) ltac:(lia)) as [dj [Hdj Hslot]].
  destruct (first_false
              (fun d => is_occupied (bucket_at (ht_index t)
                                       (HT_CALC_LOC t (wrap64 (h + d)))))
              (Z.to_nat (ht_cap t)))
    as [d0 [Hd0 [Hfree0 Hbefore]]].
  { exists dj. split; [lia|]. unfold HT_CALC_LOC. rewrite Hcap, Hslot. exact Hfree. }
  exists d0. split; [lia|]. split; [exact Hfree0|]. split; [exact Hbefore|].
  replace (Z.to_nat (ht_cap t + 1))
    with (Z.to_nat d0 + S (Z.to_nat (ht_cap t - d0)))%nat by lia.
  rewrite HT_put_loop_skip.
  - replace (0 + Z.of_nat (Z.to_nat d0)) with d0 by lia.
    cbn [HT_put_loop]. rewrite Hfree0. reflexivity.
  - intros d' Hd'. split; [apply Hbefore; lia|].
    apply Hnomatch. apply calc_loc_range. exact Hinv.
Qed.

Lemma not_occupied_no_match t key key_len h b :
  is_occupied b = false -> key_matches t key key_len h b = false.
Proof. intros Hocc. unfold key_matches. rewrite Hocc. reflexivity. Qed.

Lemma no_deleted_empty index i :
  Forall (fun b => is_deleted b = false) index ->
  0 <= i < Z.of_nat (length index) ->
  is_occupied (bucket_at index i) = false -> is_empty (bucket_at index i) = true.
Proof.
  intros Hdel Hi Hocc. rewrite Forall_forall in Hdel.
  assert (Hd : is_deleted (bucket_at index i) = false).
  { apply Hdel. eapply list_elem_of_lookup_2. apply bucket_at_lookup. exact Hi. }
  unfold is_deleted, is_occupied, is_empty in *.
  destruct (b_state (bucket_at index i)); congruence.
Qed.

(** A key that is not among the bindings matches no bucket. *)
Lemma RT_fresh_no_match lo t m k h :
  -255 <= lo <= 0 -> RT t m -> wf_contents lo m -> wf_key lo k ->
  k ∉ (fst <$> m) ->
  forall s, 0 <= s < ht_cap t ->
    key_matches t k (Z.of_nat (length k)) h (bucket_at (ht_index t) s) = false.
Proof.
  intros Hlo Hrt [Hwf _] Hwfk Hfresh s Hs.
  destruct (is_occupied (bucket_at (ht_index t) s)) eqn:Hocc;
    [|apply not_occupied_no_match; exact Hocc].
  destruct (key_matches t k _ h _) eqn:Hm; [exfalso|reflexivity].
  destruct (rt_occupied t m Hrt s Hs Hocc) as (k' & v' & Hin & Hb).
  rewrite Forall_forall in Hwf. destruct (Hwf _ Hin) as [Hwfk' _]. simpl in Hwfk'.
  pose proof (matches_binds lo t s k' k v' h (rt_cmp t m Hrt) Hwfk' Hwfk Hlo Hb Hm).
  subst k'. apply Hfresh. apply list_elem_of_fmap. exists (k, v'). split; [reflexivity|exact Hin].
Qed.

Lemma insert_at_empty t s h key key_len value d :
  is_empty (bucket_at (ht_index t) s) = true ->
  ht_index (insert_at t s h key key_len value d)
    = array_set (ht_index t) s (mkBucket h (ht_ins_loc t) HT_BUCKET_OCCUPIED) /\
  ht_values (insert_at t s h key key_len value d)
    = array_set (ht_values t) (ht_ins_loc t)
        (write_key (mkEntry (e_k (entry_at (ht_values t) (ht_ins_loc t))) key_len value)
           key key_len) /\
  ht_n (insert_at t s h key key_len value d) = wrap64 (ht_n t + 1) /\
  ht_cap (insert_at t s h key key_len value d) = ht_cap t /\
  ht_max_probe (insert_at t s h key key_len value d)
    = (if d >? ht_max_probe t then d else ht_max_probe t) /\
  ht_ins_loc (insert_at t s h key key_len value d) = wrap64 (ht_ins_loc t + 1) /\
  ht_cmp (insert_at t s h key key_len value d) = ht_cmp t /\
  ht_hashcode (insert_at t s h key key_len value d) = ht_hashcode t.
Proof.
  intros He. unfold insert_at.
  cbn [ht_index ht_values ht_n ht_cap ht_max_probe ht_ins_loc ht_cmp ht_hashcode].
  rewrite He. repeat split.
Qed.

(** The round-trip invariant gains the binding of a fresh key. *)
Lemma RT_insert lo t m k v d :
  -255 <= lo <= 0 -> RT t m -> wf_contents lo (m ++ [(k, v)]) ->
  ht_ins_loc t < ht_cap t -> 0 <= d ->
  is_occupied
    (bucket_at (ht_index t)
       (HT_CALC_LOC t (wrap64 (wrap64 (_HT_hash k (Z.of_nat (length k))) + d))))
  = false ->
  (forall d', 0 <= d' < d ->
     is_occupied
       (bucket_at (ht_index t)
          (HT_CALC_LOC t (wrap64 (wrap64 (_HT_hash k (Z.of_nat (length k))) + d'))))
     = true) ->
  RT (insert_at t
        (HT_CALC_LOC t (wrap64 (wrap64 (_HT_hash k (Z.of_nat (length k))) + d)))
        (wrap64 (_HT_hash k (Z.of_nat (length k)))) k (Z.of_nat (length k)) v d)
     (m ++ [(k, v)]).
Proof.
  intros Hlo Hrt [Hwf Hnodup] Hins Hd Hfree Hbefore.
  set (h := wrap64 (_HT_hash k (Z.of_nat (length k)))) in *.
  set (s := HT_CALC_LOC t (wrap64 (h + d))) in *.
  set (t' := insert_at t s h k (Z.of_nat (length k)) v d).
  pose proof (rt_inv t m Hrt) as Hinv.
  pose proof (inv_cap_range t Hinv) as Hrange.
  pose proof (inv_index_len t Hinv) as Hilen.
  pose proof (inv_values_len t Hinv) as Hvlen.
  pose proof (inv_used t Hinv) as Hused.
  assert (Hs : 0 <= s < ht_cap t) by (apply calc_loc_range; exact Hinv).
  assert (Hempty : is_empty (bucket_at (ht_index t) s) = true).
  { apply no_deleted_empty; [apply (rt_no_deleted t m Hrt)|lia|exact Hfree]. }
  destruct (insert_at_empty t s h k (Z.of_nat (length k)) v d Hempty)
    as (Hidx & Hvals & Hn & Hcap & Hmp & Hil & Hcmp & Hhash).
  fold t' in Hidx, Hvals, Hn, Hcap, Hmp, Hil, Hcmp, Hhash.
  (* the key, its freshness *)
  apply Forall_app in Hwf. destruct Hwf as [Hwfm Hwfk].
  apply Forall_inv in Hwfk. destruct Hwfk as [Hwfk Hlen]. simpl in Hwfk, Hlen.
  rewrite fmap_app in Hnodup. apply NoDup_app in Hnodup.
  destruct Hnodup as (Hnodupm & Hdisj & _).
  assert (Hfresh : k ∉ (fst <$> m)).
  { intros Hin. apply (Hdisj k Hin). simpl. apply list_elem_of_singleton. reflexivity. }
  (* the invariant of the structure *)
  destruct (HT_inv_insert t t' s h Hinv Hs Hfree Hins) as [Hinv' Hn'];
    try (rewrite ?Hidx, ?Hvals, ?Hn, ?Hcap, ?Hil, ?Hempty, ?array_set_length;
         reflexivity).
  (* the entry written *)
  assert (Hold : length (e_k (entry_at (ht_values t) (ht_ins_loc t)))
                 = Z.to_nat HT_MAX_KEY_LEN).
  { pose proof (rt_bufs t m Hrt) as Hb. rewrite Forall_forall in Hb.
    apply Hb. eapply list_elem_of_lookup_2. apply entry_at_lookup. lia. }
  destruct (write_key_stores lo k
              (mkEntry (e_k (entry_at (ht_values t) (ht_ins_loc t)))
                 (Z.of_nat (length k)) v) Hwfk Hlen Hold)
    as (Htake & Hklen & Hv & Hbuf).
  cbn [e_k_len e_v] in Hklen, Hv.
  set (e' := write_key _ k (Z.of_nat (length k))) in *.
  assert (Hbs : bucket_at (ht_index t') s = mkBucket h (ht_ins_loc t) HT_BUCKET_OCCUPIED)
    by (rewrite Hidx; apply bucket_at_set_eq; lia).
  assert (Hes : entry_at (ht_values t') (ht_ins_loc t) = e')
    by (rewrite Hvals; apply entry_at_set_eq; lia).
  assert (Hbinds_s : binds t' s k v).
  { unfold binds. rewrite Hbs. cbn [is_occupied b_state b_hashcode b_loc].
    rewrite Hes. split; [reflexivity|]. split; [reflexivity|].
    split; [split; assumption|assumption]. }
  (* the other buckets and their entries are untouched *)
  assert (Hother : forall i, 0 <= i < ht_cap t -> i <> s ->
            bucket_at (ht_index t') i = bucket_at (ht_index t) i).
  { intros i Hi Hne. rewrite Hidx. apply bucket_at_set_ne; lia. }
  assert (Hentry : forall i, 0 <= i < ht_cap t ->
            is_occupied (bucket_at (ht_index t) i) = true ->
            entry_at (ht_values t') (b_loc (bucket_at (ht_index t) i))
            = entry_at (ht_values t) (b_loc (bucket_at (ht_index t) i))).
  { intros i Hi Hocc.
    pose proof (used_loc_range t i Hinv Hi (is_occupied_not_empty _ Hocc)).
    rewrite Hvals. apply entry_at_set_ne; lia. }
  assert (Hbinds_old : forall i k0 v0, 0 <= i < ht_cap t -> i <> s ->
            (binds t' i k0 v0 <-> binds t i k0 v0)).
  { intros i k0 v0 Hi Hne. unfold binds. rewrite (Hother i Hi Hne).
    split; intros (Hocc & Hh & Hst & Hval);
      [rewrite (Hentry i Hi Hocc) in Hst, Hval
      |rewrite <- (Hentry i Hi Hocc) in Hst, Hval];
      exact (conj Hocc (conj Hh (conj Hst Hval))). }
  constructor.
  - exact Hinv'.
  - rewrite Hcmp. apply (rt_cmp t m Hrt).
  - rewrite Hhash. apply (rt_hash t m Hrt).
  - rewrite Hidx. apply Forall_insert; [apply (rt_no_deleted t m Hrt)|reflexivity].
  - rewrite Hvals. apply Forall_insert; [apply (rt_bufs t m Hrt)|exact Hbuf].
  - apply (paths_ok_insert t t' s (mkBucket h (ht_ins_loc t) HT_BUCKET_OCCUPIED) d);
      try assumption; try reflexivity.
    + destruct (inv_cap t Hinv) as [k0 [Hk0 Hc0]]. exists k0. split; [lia|exact Hc0].
    + apply (rt_paths t m Hrt).
  - rewrite Hcap. intros i Hi Hocc.
    destruct (Z.eq_dec i s) as [->|Hne].
    + exists k, v. split; [|exact Hbinds_s].
      apply elem_of_app. right. apply list_elem_of_singleton. reflexivity.
    + rewrite (Hother i Hi Hne) in Hocc.
      destruct (rt_occupied t m Hrt i Hi Hocc) as (k0 & v0 & Hin & Hb).
      exists k0, v0. split; [apply elem_of_app; left; exact Hin|].
      apply Hbinds_old; assumption.
  - rewrite Hcap. intros i j k0 v0 v0' Hi Hj Hbi Hbj.
    assert (Hold_key : forall x vx, 0 <= x < ht_cap t -> x <> s ->
              binds t' x k0 vx -> k0 ∈ (fst <$> m) /\ binds t x k0 vx).
    { intros x vx Hx Hne Hbx. apply Hbinds_old in Hbx; [|assumption..].
      split; [|exact Hbx].
      destruct (rt_occupied t m Hrt x Hx (proj1 Hbx)) as (k1 & v1 & Hin & Hb1).
      destruct (binds_key_inj t x k0 vx k1 v1 Hbx Hb1) as [-> _].
      apply list_elem_of_fmap. exists (k1, v1). split; [reflexivity|exact Hin]. }
    destruct (Z.eq_dec i s) as [->|Hnei], (Z.eq_dec j s) as [->|Hnej].
    + reflexivity.
    + destruct (binds_key_inj t' s k0 v0 k v Hbi Hbinds_s) as [-> _].
      destruct (Hold_key j v0' Hj Hnej Hbj) as [Hin _]. contradiction.
    + destruct (binds_key_inj t' s k0 v0' k v Hbj Hbinds_s) as [-> _].
      destruct (Hold_key i v0 Hi Hnei Hbi) as [Hin _]. contradiction.
    + destruct (Hold_key i v0 Hi Hnei Hbi) as [_ Hbi'].
      destruct (Hold_key j v0' Hj Hnej Hbj) as [_ Hbj'].
      eapply (rt_unique t m Hrt); eassumption.
  - rewrite Hcap. intros k0 v0 Hin. apply elem_of_app in Hin.
    destruct Hin as [Hin|Hin].
    + destruct (rt_bound t m Hrt k0 v0 Hin) as [i [Hi Hb]].
      exists i. split; [exact Hi|]. apply Hbinds_old; [exact Hi| |exact Hb].
      intros ->. destruct Hb as [Hocc _]. congruence.
    + apply list_elem_of_singleton in Hin. injection Hin as -> ->.
      exists s. split; [exact Hs|exact Hbinds_s].
Qed.

(** ** The rebuild keeps every bucket on its probe path *)

Lemma _HT_expand_probe_path fuel : forall t eb h d,
  let r := _HT_expand_probe fuel t eb h d in
  fst r = t \/
  exists d', d <= d' /\
    is_occupied (bucket_at (ht_index t) (HT_CALC_LOC t (wrap64 (h + d')))) = false /\
    (forall d'', d <= d'' < d' ->
       is_occupied (bucket_at (ht_index t) (HT_CALC_LOC t (wrap64 (h + d'')))) = true) /\
    ht_index (fst r) = array_set (ht_index t) (HT_CALC_LOC t (wrap64 (h + d'))) eb /\
    ht_cap (fst r) = ht_cap t /\
    ht_max_probe (fst r) = (if d' >? ht_max_probe t then d' else ht_max_probe t).
Proof.
  induction fuel as [|fuel IH]; intros t eb h d; simpl; [left; reflexivity|].
  destruct (is_occupied (bucket_at (ht_index t) (HT_CALC_LOC t (wrap64 (h + d)))))
    eqn:Hocc; simpl.
  - destruct (IH t eb h (d + 1)) as [Heq|[d' [Hd' [Hfree [Hbefore Hrest]]]]];
      [left; exact Heq|].
    right. exists d'. split; [lia|]. split; [exact Hfree|]. split; [|exact Hrest].
    intros d'' Hd''. destruct (Z.eq_dec d'' d) as [->|]; [exact Hocc|].
    apply Hbefore. lia.
  - right. exists d. split; [lia|]. split; [exact Hocc|].
    split; [intros d'' Hd''; lia|]. repeat split.
Qed.

Lemma _HT_expand_probe_strategies fuel : forall t eb h d,
  ht_cmp (fst (_HT_expand_probe fuel t eb h d)) = ht_cmp t /\
  ht_hashcode (fst (_HT_expand_probe fuel t eb h d)) = ht_hashcode t.
Proof.
  induction fuel as [|fuel IH]; intros t eb h d; simpl; [auto|].
  destruct (is_occupied _); simpl; [apply IH|auto].
Qed.

Lemma fold_expand_bucket_strategies olds : forall t,
  ht_cmp (fold_left _HT_expand_bucket olds t) = ht_cmp t /\
  ht_hashcode (fold_left _HT_expand_bucket olds t) = ht_hashcode t.
Proof.
  induction olds as [|b olds IH]; intros t; simpl; [auto|].
  destruct (IH (_HT_expand_bucket t b)) as [-> ->].
  unfold _HT_expand_bucket. destruct (is_occupied b); [|auto].
  apply _HT_expand_probe_strategies.
Qed.

Lemma _HT_expand_bucket_paths t0 t processed eb k :
  0 <= k <= 64 -> ht_cap t0 = 2 ^ k ->
  rebuild_inv t0 t processed -> paths_ok t ->
  paths_ok (_HT_expand_bucket t eb).
Proof.
  intros Hk Hcap0 Hrb Hpaths. unfold _HT_expand_bucket.
  destruct (is_occupied eb) eqn:Heb; [|exact Hpaths].
  destruct (_HT_expand_probe_path (Z.to_nat (ht_cap t + 1)) t eb (b_hashcode eb) 0)
    as [->|[d' [Hd' [Hfree [Hbefore [Hidx [Hcap Hmp]]]]]]]; [exact Hpaths|].
  apply (paths_ok_insert t _ (HT_CALC_LOC t (wrap64 (b_hashcode eb + d'))) eb d');
    try assumption; try reflexivity.
  - exists k. split; [lia|]. rewrite (rb_cap _ _ _ Hrb). exact Hcap0.
  - rewrite (rb_len _ _ _ Hrb), (rb_cap _ _ _ Hrb). reflexivity.
Qed.

Lemma rebuild_paths_fold t0 k : forall olds t processed,
  0 <= k <= 64 -> ht_cap t0 = 2 ^ k ->
  rebuild_inv t0 t processed -> paths_ok t ->
  Z.of_nat (length processed + length olds) <= ht_cap t0 ->
  paths_ok (fold_left _HT_expand_bucket olds t).
Proof.
  induction olds as [|eb olds IH]; intros t processed Hk Hcap Hrb Hpaths Hlen;
    simpl; [exact Hpaths|].
  apply (IH _ (processed ++ [eb])); try assumption.
  - apply (_HT_expand_bucket_inv t0 t processed eb k); try assumption.
    simpl in Hlen. lia.
  - apply (_HT_expand_bucket_paths t0 t processed eb k); assumption.
  - rewrite length_app. simpl in *. lia.
Qed.

(** ** The copy of the entries *)

Lemma copy_values_S vals old (c : nat) :
  copy_values vals old (Z.of_nat (S c))
  = array_set (copy_values vals old (Z.of_nat c)) (Z.of_nat c)
      (entry_at old (Z.of_nat c)).
Proof.
  unfold copy_values. rewrite !Nat2Z.id, seq_S, fold_left_app. reflexivity.
Qed.

Lemma copy_values_lookup old (c : nat) : forall vals i,
  (c <= length vals)%nat -> 0 <= i < Z.of_nat c ->
  entry_at (copy_values vals old (Z.of_nat c)) i = entry_at old i.
Proof.
  induction c as [|c IH]; intros vals i Hc Hi; [lia|].
  rewrite copy_values_S.
  destruct (Z.eq_dec i (Z.of_nat c)) as [->|Hne].
  - apply entry_at_set_eq. rewrite copy_values_length. lia.
  - rewrite entry_at_set_ne by lia. apply IH; lia.
Qed.

Lemma copy_values_Forall (P : HT_ENTRY_T -> Prop) old (c : nat) : forall vals,
  Forall P vals -> (forall i, P (entry_at old i)) ->
  Forall P (copy_values vals old (Z.of_nat c)).
Proof.
  induction c as [|c IH]; intros vals Hvals Hold; [exact Hvals|].
  rewrite copy_values_S. apply Forall_insert; [apply IH; assumption|apply Hold].
Qed.

Lemma entry_at_Forall (P : HT_ENTRY_T -> Prop) values i :
  Forall P values -> P empty_entry -> P (entry_at values i).
Proof.
  intros Hall He. unfold entry_at.
  destruct (values !! Z.to_nat i) as [e|] eqn:Hl; simpl; [|exact He].
  rewrite Forall_forall in Hall. apply Hall. eapply list_elem_of_lookup_2. exact Hl.
Qed.

(** ** The shape of a successful resize *)

Lemma _HT_expand_shape a t t' :
  HT_inv t -> _HT_expand a t = Some t' ->
  (exists k, 5 <= k <= 58 /\ 2 * ht_cap t = 2 ^ k) /\
  t' = fold_left _HT_expand_bucket (ht_index t) (resized_empty t (2 * ht_cap t)) /\
  rebuild_inv (resized_empty t (2 * ht_cap t)) t' (ht_index t).
Proof.
  intros Hinv Hexp.
  pose proof (inv_cap_range t Hinv) as Hrange.
  destruct Hinv as [[k [Hk Hcap]] Hil Hvl Hcount Hused Hlocs Hnodup].
  unfold _HT_expand in Hexp.
  assert (Hpow : 2 ^ (k + 1) = 2 * ht_cap t)
    by (rewrite Z.pow_add_r by lia; lia).
  assert (Hnew : _HT_round_up (wrap64 (ht_cap t * 2)) = 2 * ht_cap t).
  { rewrite wrap64_small by lia.
    replace (ht_cap t * 2) with (2 ^ (k + 1)) by lia.
    rewrite <- Hpow. apply _HT_round_up_pow2. lia. }
  rewrite Hnew in Hexp.
  destruct (calloc_ok (a_index a) (2 * ht_cap t) sizeof_HT_BUCKET_T); simpl in Hexp;
    [|discriminate].
  destruct (calloc_ok (a_values a) (2 * ht_cap t) sizeof_HT_ENTRY_T) eqn:Hcalloc;
    simpl in Hexp; [|discriminate].
  rewrite <- Hpow in Hcalloc. apply calloc_entries_bound in Hcalloc; [|lia].
  injection Hexp as Hexp.
  replace (buckets_upto (ht_index t) (ht_cap t)) with (ht_index t) in Hexp
    by (rewrite <- Hil; symmetry; apply buckets_upto_all).
  fold (resized_empty t (2 * ht_cap t)) in Hexp.
  split; [exists (k + 1); split; [lia|symmetry; exact Hpow]|].
  split; [symmetry; exact Hexp|].
  rewrite <- Hexp.
  apply (rebuild_fold (resized_empty t (2 * ht_cap t)) (k + 1) (ht_index t) _ []);
    [lia|simpl; lia| |simpl; lia].
  constructor; try reflexivity.
  - simpl. rewrite length_replicate. lia.
  - simpl. apply Forall_replicate. reflexivity.
  - simpl. rewrite occupied_replicate_empty. reflexivity.
Qed.

(** ** The resize keeps the round-trip invariant *)

Lemma bucket_at_replicate n s : bucket_at (replicate n empty_bucket) s = empty_bucket.
Proof.
  unfold bucket_at.
  destruct (replicate n empty_bucket !! Z.to_nat s) as [b|] eqn:Hl; [|reflexivity].
  apply lookup_replicate in Hl. simpl. apply Hl.
Qed.

Lemma bucket_correspondence index1 index2 i :
  occupied_buckets index1 ≡ₚ occupied_buckets index2 ->
  0 <= i < Z.of_nat (length index1) ->
  is_occupied (bucket_at index1 i) = true ->
  exists j, 0 <= j < Z.of_nat (length index2) /\
            bucket_at index2 j = bucket_at index1 i.
Proof.
  intros Hperm Hi Hocc.
  assert (Hin : bucket_at index1 i ∈ occupied_buckets index2).
  { rewrite <- Hperm. apply list_elem_of_filter. split; [rewrite Hocc; exact I|].
    eapply list_elem_of_lookup_2. apply bucket_at_lookup. exact Hi. }
  apply list_elem_of_filter in Hin. destruct Hin as [_ Hin].
  apply list_elem_of_lookup in Hin. destruct Hin as [j Hj].
  pose proof (lookup_lt_Some _ _ _ Hj) as Hlt.
  exists (Z.of_nat j). split; [lia|].
  unfold bucket_at. rewrite Nat2Z.id, Hj. reflexivity.
Qed.

Lemma empty_entry_buf : length (e_k empty_entry) = Z.to_nat HT_MAX_KEY_LEN.
Proof. reflexivity. Qed.

Lemma _HT_expand_RT a t t' m :
  RT t m -> _HT_expand a t = Some t' ->
  RT t' m /\ ht_cap t' = 2 * ht_cap t /\ ht_n t' = ht_n t /\
  ht_ins_loc t' = ht_ins_loc t.
Proof.
  intros Hrt Hexp.
  pose proof (rt_inv t m Hrt) as Hinv.
  pose proof (inv_cap_range t Hinv) as Hrange.
  pose proof (inv_index_len t Hinv) as Hilen.
  pose proof (inv_values_len t Hinv) as Hvlen.
  pose proof (inv_used t Hinv) as Hused.
  destruct (_HT_expand_inv a t t' Hinv Hexp) as (Hinv' & Hcap' & Hn' & Hins').
  destruct (_HT_expand_shape a t t' Hinv Hexp) as ([k [Hk Hpow]] & Hfold & Hrb).
  pose proof (inv_index_len t' Hinv') as Hilen'.
  pose proof (rb_values _ _ _ Hrb) as Hvals. simpl in Hvals.
  pose proof (rb_occupied _ _ _ Hrb) as Hperm.
  destruct (fold_expand_bucket_strategies (ht_index t) (resized_empty t (2 * ht_cap t)))
    as [Hcmp Hhash].
  rewrite <- Hfold in Hcmp, Hhash. simpl in Hcmp, Hhash.
  (* entries below the old capacity are copies *)
  assert (Hentry : forall l, 0 <= l < ht_cap t ->
            entry_at (ht_values t') l = entry_at (ht_values t) l).
  { intros l Hl. rewrite Hvals, <- Hvlen.
    apply copy_values_lookup; [rewrite length_replicate; lia|lia]. }
  (* buckets of the two indexes correspond *)
  assert (Hbinds : forall s j k0 v0, 0 <= j < ht_cap t ->
            bucket_at (ht_index t') s = bucket_at (ht_index t) j ->
            is_occupied (bucket_at (ht_index t) j) = true ->
            (binds t' s k0 v0 <-> binds t j k0 v0)).
  { intros s j k0 v0 Hj Heq Hocc.
    pose proof (used_loc_range t j Hinv Hj (is_occupied_not_empty _ Hocc)) as Hloc.
    unfold binds. rewrite Heq, Hentry by lia. reflexivity. }
  assert (Hback : forall s, 0 <= s < ht_cap t' ->
            is_occupied (bucket_at (ht_index t') s) = true ->
            exists j, 0 <= j < ht_cap t /\
              bucket_at (ht_index t) j = bucket_at (ht_index t') s).
  { intros s Hs Hocc. rewrite <- Hilen.
    apply bucket_correspondence; [exact Hperm|lia|exact Hocc]. }
  assert (Hforth : forall j, 0 <= j < ht_cap t ->
            is_occupied (bucket_at (ht_index t) j) = true ->
            exists s, 0 <= s < ht_cap t' /\
              bucket_at (ht_index t') s = bucket_at (ht_index t) j).
  { intros j Hj Hocc. rewrite <- Hilen'.
    apply bucket_correspondence; [symmetry; exact Hperm|lia|exact Hocc]. }
  split; [|auto].
  constructor.
  - exact Hinv'.
  - rewrite Hcmp. apply (rt_cmp t m Hrt).
  - rewrite Hhash. apply (rt_hash t m Hrt).
  - apply (rb_no_deleted _ _ _ Hrb).
  - rewrite Hvals, <- Hvlen. apply copy_values_Forall.
    + apply Forall_replicate. exact empty_entry_buf.
    + intros i. apply entry_at_Forall; [apply (rt_bufs t m Hrt)|].
      exact empty_entry_buf.
  - rewrite Hfold.
    apply (rebuild_paths_fold (resized_empty t (2 * ht_cap t)) k (ht_index t) _ []);
      [lia|exact Hpow| | |simpl; lia].
    + constructor; try reflexivity.
      * simpl. rewrite length_replicate. lia.
      * simpl. apply Forall_replicate. reflexivity.
      * simpl. rewrite occupied_replicate_empty. reflexivity.
    + intros s _ Hocc. simpl in Hocc. rewrite bucket_at_replicate in Hocc.
      discriminate.
  - intros s Hs Hocc.
    destruct (Hback s Hs Hocc) as [j [Hj Heq]].
    rewrite <- Heq in Hocc.
    destruct (rt_occupied t m Hrt j Hj Hocc) as (k0 & v0 & Hin & Hb).
    exists k0, v0. split; [exact Hin|].
    apply (Hbinds s j); [exact Hj|symmetry; exact Heq|exact Hocc|exact Hb].
  - intros s1 s2 k0 v0 v0' Hs1 Hs2 Hb1 Hb2.
    pose proof (proj1 Hb1) as Hocc1. pose proof (proj1 Hb2) as Hocc2.
    destruct (Hback s1 Hs1 Hocc1) as [j1 [Hj1 Heq1]].
    destruct (Hback s2 Hs2 Hocc2) as [j2 [Hj2 Heq2]].
    assert (Ho1 : is_occupied (bucket_at (ht_index t) j1) = true) by congruence.
    assert (Ho2 : is_occupied (bucket_at (ht_index t) j2) = true) by congruence.
    apply (Hbinds s1 j1) in Hb1; [|exact Hj1|symmetry; exact Heq1|exact Ho1].
    apply (Hbinds s2 j2) in Hb2; [|exact Hj2|symmetry; exact Heq2|exact Ho2].
    pose proof (rt_unique t m Hrt j1 j2 k0 v0 v0' Hj1 Hj2 Hb1 Hb2). subst j2.
    destruct (Z.eq_dec s1 s2) as [|Hne]; [assumption|exfalso].
    apply (used_loc_distinct t' s1 s2 Hinv' Hs1 Hs2
             (is_occupied_not_empty _ Hocc1) (is_occupied_not_empty _ Hocc2) Hne).
    congruence.
  - intros k0 v0 Hin.
    destruct (rt_bound t m Hrt k0 v0 Hin) as [j [Hj Hb]].
    destruct (Hforth j Hj (proj1 Hb)) as [s [Hs Heq]].
    exists s. split; [exact Hs|].
    apply (Hbinds s j); [exact Hj|exact Heq|exact (proj1 Hb)|exact Hb].
Qed.

(** ** Round trip for keys of at most 30 characters *)

Lemma occupied_le_cap t : HT_inv t -> ht_n t <= ht_cap t.
Proof.
  intros Hinv. rewrite (inv_n t Hinv), <- (inv_index_len t Hinv).
  pose proof (occupied_le_length (ht_index t)). lia.
Qed.

(** A put of a fresh key adds its binding. *)
Lemma HT_put_RT lo a t m k v :
  -255 <= lo <= 0 -> RT t m -> wf_contents lo (m ++ [(k, v)]) ->
  (needs_expand t = true -> _HT_expand a t <> None) ->
  RT (apply_op t (OpPut a (Some k) (Z.of_nat (length k)) v)) (m ++ [(k, v)]).
Proof.
  intros Hlo Hrt Hwf Halloc.
  assert (Hparts : wf_contents lo m /\ wf_key lo k
                   /\ Z.of_nat (length k) <= HT_MAX_KEY_LEN - 2 /\ k ∉ (fst <$> m)).
  { destruct Hwf as [Hall Hnodup].
    apply Forall_app in Hall. destruct Hall as [Hallm Hk].
    apply Forall_inv in Hk. destruct Hk as [Hwfk Hlen].
    rewrite fmap_app in Hnodup. apply NoDup_app in Hnodup.
    destruct Hnodup as (Hnodupm & Hdisj & _).
    repeat split; try assumption.
    intros Hin. apply (Hdisj k Hin). simpl. apply list_elem_of_singleton. reflexivity. }
  destruct Hparts as (Hwfm & Hwfk & Hlen & Hfresh).
  (* the table the probe loop runs on *)
  assert (Hstep : exists t1,
            (if needs_expand t then _HT_expand a t else Some t) = Some t1 /\
            RT t1 m /\ ht_n t1 < ht_cap t1 /\ ht_ins_loc t1 < ht_cap t1).
  { pose proof (rt_inv t m Hrt) as Hinv.
    pose proof (inv_cap_range t Hinv) as Hrange.
    pose proof (inv_used t Hinv) as Hused.
    pose proof (occupied_le_cap t Hinv) as Hle.
    destruct (needs_expand t) eqn:Hneed.
    - destruct (_HT_expand a t) as [t1|] eqn:Hexp; [|exfalso; apply Halloc; reflexivity].
      destruct (_HT_expand_RT a t t1 m Hrt Hexp) as (Hrt1 & Hc & Hn & Hi).
      exists t1. split; [reflexivity|]. split; [exact Hrt1|]. split; lia.
    - exists t. unfold needs_expand in Hneed.
      apply orb_false_iff in Hneed. destruct Hneed as [Hneed Hins].
      apply orb_false_iff in Hneed. destruct Hneed as [_ Hn].
      apply Z.eqb_neq in Hn, Hins.
      split; [reflexivity|]. split; [exact Hrt|]. split; lia. }
  destruct Hstep as (t1 & Ht1 & Hrt1 & Hn1 & Hins1).
  unfold apply_op, HT_put.
  destruct (Z.gtb_spec (Z.of_nat (length k)) (HT_MAX_KEY_LEN - 1)) as [Hgt|_]; [lia|].
  rewrite Ht1. rewrite (rt_hash t1 m Hrt1).
  destruct (HT_put_loop_fresh t1 k (Z.of_nat (length k)) v
              (wrap64 (_HT_hash k (Z.of_nat (length k))))
              (rt_inv t1 m Hrt1) Hn1
              (RT_fresh_no_match lo t1 m k _ Hlo Hrt1 Hwfm Hwfk Hfresh))
    as (d & Hd & Hfree & Hbefore & Hloop).
  rewrite Hloop. cbn [fst default from_option id].
  apply (RT_insert lo); try assumption. lia.
Qed.

Lemma HT_new_ex_fields a requested_capacity load_factor hashcode cmp dealloc t :
  HT_new_ex a requested_capacity load_factor hashcode cmp dealloc = Some t ->
  ht_cmp t = cmp /\ ht_hashcode t = hashcode /\
  exists c, ht_index t = replicate c empty_bucket /\
            ht_values t = replicate c empty_entry.
Proof.
  unfold HT_new_ex. intros Hnew.
  destruct (negb (calloc_ok _ _ _)); [discriminate|].
  destruct (negb (calloc_ok _ _ _)); [discriminate|].
  destruct (negb (a_table a)); [discriminate|].
  injection Hnew as <-. simpl. repeat split. eexists. split; reflexivity.
Qed.

Lemma RT_new a requested_capacity t :
  HT_new a requested_capacity = Some t -> RT t [].
Proof.
  intros Hnew. unfold HT_new in Hnew.
  destruct (HT_new_ex_inv _ _ _ _ _ _ _ Hnew) as [Hinv _].
  destruct (HT_new_ex_fields _ _ _ _ _ _ _ Hnew) as (Hcmp & Hhash & c & Hidx & Hvals).
  assert (Hnone : forall s, is_occupied (bucket_at (ht_index t) s) = false)
    by (intros s; rewrite Hidx, bucket_at_replicate; reflexivity).
  constructor; try assumption.
  - rewrite Hidx. apply Forall_replicate. reflexivity.
  - rewrite Hvals. apply Forall_replicate. exact empty_entry_buf.
  - intros s _ Hocc. rewrite Hnone in Hocc. discriminate.
  - intros i _ Hocc. rewrite Hnone in Hocc. discriminate.
  - intros i j k v v' _ _ [Hocc _]. rewrite Hnone in Hocc. discriminate.
  - intros k v Hin. inversion Hin.
Qed.

Lemma wf_contents_prefix lo (m1 m2 : list (list Z * ptr)) :
  wf_contents lo (m1 ++ m2) -> wf_contents lo m1.
Proof.
  intros [Hall Hnodup]. split.
  - apply Forall_app in Hall. apply Hall.
  - rewrite fmap_app in Hnodup. apply NoDup_app in Hnodup. apply Hnodup.
Qed.

Lemma RT_run lo : forall kvs t m,
  -255 <= lo <= 0 -> RT t m -> wf_contents lo (m ++ kvs) ->
  resizes_succeed t (puts_of kvs) = true ->
  RT (run t (puts_of kvs)) (m ++ kvs).
Proof.
  induction kvs as [|[k v] kvs IH]; intros t m Hlo Hrt Hwf Hok.
  - rewrite app_nil_r. exact Hrt.
  - replace (m ++ (k, v) :: kvs) with ((m ++ [(k, v)]) ++ kvs) in *
      by (rewrite <- app_assoc; reflexivity).
    cbn [puts_of map resizes_succeed fst snd] in Hok.
    apply andb_true_iff in Hok. destruct Hok as [Hhere Hrest].
    cbn [puts_of map run fold_left fst snd].
    apply IH; [exact Hlo| |exact Hwf|exact Hrest].
    apply (HT_put_RT lo); [exact Hlo|exact Hrt|exact (wf_contents_prefix _ _ _ Hwf)|].
    intros Hneed Hnone. rewrite Hneed, Hnone in Hhere.
    pose proof (wf_contents_prefix _ _ _ Hwf) as [Hall _].
    apply Forall_app in Hall. destruct Hall as [_ Hk].
    apply Forall_inv in Hk. destruct Hk as [_ Hlen]. simpl in Hlen.
    destruct (Z.leb_spec (Z.of_nat (length k)) (HT_MAX_KEY_LEN - 1)); [|lia].
    discriminate.
Qed.

(** The round trip the code does achieve: distinct terminated keys of at most
    30 characters, put with their values into a freshly constructed table
    with the default strategies, no resize failing, are each found again with
    their value. *)
Theorem round_trip_upto_30 lo a requested_capacity t0 kvs :
  -255 <= lo <= 0 ->
  HT_new a requested_capacity = Some t0 ->
  wf_contents lo kvs ->
  resizes_succeed t0 (puts_of kvs) = true ->
  forall k v, (k, v) ∈ kvs ->
    HT_get (Some (run t0 (puts_of kvs))) (Some k) (Z.of_nat (length k)) = v /\
    HT_exists (Some (run t0 (puts_of kvs))) (Some k) (Z.of_nat (length k)) = true.
Proof.
  intros Hlo Hnew Hwf Hok k v Hin.
  apply (RT_lookup lo _ kvs); try assumption.
  apply (RT_run lo kvs t0 []); try assumption.
  apply (RT_new a requested_capacity). exact Hnew.
Qed.

Example round_trip_twenty_keys :
  ht_cap (run (fresh_table 16) (puts_of twenty_bindings)) = 32 /\
  Forall
    (fun kv =>
       HT_get (Some (run (fresh_table 16) (puts_of twenty_bindings)))
         (Some (fst kv)) (Z.of_nat (length (fst kv))) = snd kv /\
       HT_exists (Some (run (fresh_table 16) (puts_of twenty_bindings)))
         (Some (fst kv)) (Z.of_nat (length (fst kv))) = true)
    twenty_bindings.
Proof.
  split; [vm_compute; reflexivity|].
  apply Forall_forall. intros [k v] Hin.
  apply (round_trip_upto_30 0 alloc_ok 16 (fresh_table 16)).
  - lia.
  - reflexivity.
  - apply (bool_decide_eq_true_1 (wf_contents 0 twenty_bindings)).
    vm_compute. reflexivity.
  - vm_compute. reflexivity.
  - exact Hin.
Qed.
(** * The table as a finite map *)

(** ** Lookups in a table that holds bindings *)

Lemma RT_MAP t m : RT t m -> MAP t m.
Proof.
  intros Hrt. constructor; try apply Hrt.
  intros s Hs Hocc.
  destruct (rt_paths t m Hrt s Hs Hocc) as [d [Hd [Hslot Hpath]]].
  exists d. split; [exact Hd|]. split; [exact Hslot|].
  intros d' Hd'. destruct (Hpath d' Hd') as [Ho Hne].
  split; [apply is_occupied_not_empty; exact Ho|exact Hne].
Qed.

(** A key the table holds is found in the bucket that binds it. *)
Lemma MAP_find lo t m k v :
  -255 <= lo <= 0 -> MAP t m -> wf_contents lo m -> (k, v) ∈ m ->
  exists i, 0 <= i < ht_cap t /\ binds t i k v /\
    probe_find (Z.to_nat (ht_max_probe t + 1)) t k (Z.of_nat (length k))
      (wrap64 (_HT_hash k (Z.of_nat (length k)))) 0 = Some i.
Proof.
  intros Hlo Hmp [Hwf Hnodup] Hin.
  rewrite Forall_forall in Hwf.
  destruct (Hwf _ Hin) as [Hwfk Hlen]. simpl in Hwfk, Hlen.
  destruct (mp_bound t m Hmp k v Hin) as [i [Hi Hb]].
  pose proof Hb as (Hocc & Hh & Hstores & Hv).
  destruct (mp_paths t m Hmp i Hi Hocc) as [d [Hd [Hslot Hpath]]].
  rewrite Hh in Hslot, Hpath.
  set (h := wrap64 (_HT_hash k (Z.of_nat (length k)))) in *.
  exists i. split; [exact Hi|]. split; [exact Hb|].
  replace (Z.to_nat (ht_max_probe t + 1))
    with (Z.to_nat d + S (Z.to_nat (ht_max_probe t - d)))%nat by lia.
  rewrite probe_find_hit.
  - f_equal. rewrite Hslot. f_equal. f_equal. lia.
  - intros d' Hd'. destruct (Hpath d' ltac:(lia)) as [Hne' Hne].
    split; [exact Hne'|].
    destruct (key_matches t k _ h _) eqn:Hm; [exfalso|reflexivity].
    assert (Hr : 0 <= HT_CALC_LOC t (wrap64 (h + d')) < ht_cap t)
      by (apply calc_loc_range; apply (mp_inv t m Hmp)).
    pose proof (key_matches_occupied _ _ _ _ _ Hm) as Hocc'.
    destruct (mp_occupied t m Hmp _ Hr Hocc') as (k' & v' & Hin' & Hb').
    destruct (Hwf _ Hin') as [Hwfk' _]. simpl in Hwfk'.
    pose proof (matches_binds lo t _ k' k v' h (mp_cmp t m Hmp) Hwfk' Hwfk Hlo Hb' Hm).
    subst k'. apply Hne.
    eapply (mp_unique t m Hmp); eassumption.
  - replace (0 + Z.of_nat (Z.to_nat d)) with d by lia. rewrite <- Hslot.
    pose proof (binds_matches lo t i k v (mp_cmp t m Hmp) (mp_hash t m Hmp)
                  Hwfk Hlo Hb) as Hm.
    rewrite (mp_hash t m Hmp) in Hm. exact Hm.
Qed.

(** A key the table does not hold matches no bucket. *)
Lemma MAP_fresh_no_match lo t m k h :
  -255 <= lo <= 0 -> MAP t m -> wf_contents lo m -> wf_key lo k ->
  k ∉ (fst <$> m) ->
  forall s, 0 <= s < ht_cap t ->
    key_matches t k (Z.of_nat (length k)) h (bucket_at (ht_index t) s) = false.
Proof.
  intros Hlo Hmp [Hwf _] Hwfk Hfresh s Hs.
  destruct (is_occupied (bucket_at (ht_index t) s)) eqn:Hocc;
    [|apply not_occupied_no_match; exact Hocc].
  destruct (key_matches t k _ h _) eqn:Hm; [exfalso|reflexivity].
  destruct (mp_occupied t m Hmp s Hs Hocc) as (k' & v' & Hin & Hb).
  rewrite Forall_forall in Hwf. destruct (Hwf _ Hin) as [Hwfk' _]. simpl in Hwfk'.
  pose proof (matches_binds lo t s k' k v' h (mp_cmp t m Hmp) Hwfk' Hwfk Hlo Hb Hm).
  subst k'. apply Hfresh. apply list_elem_of_fmap. exists (k, v').
  split; [reflexivity|exact Hin].
Qed.

Lemma MAP_fresh_not_found lo t m k fuel :
  -255 <= lo <= 0 -> MAP t m -> wf_contents lo m -> wf_key lo k ->
  k ∉ (fst <$> m) ->
  probe_find fuel t k (Z.of_nat (length k))
    (wrap64 (_HT_hash k (Z.of_nat (length k)))) 0 = None.
Proof.
  intros Hlo Hmp Hwf Hwfk Hfresh. apply probe_find_None. intros d'.
  apply (MAP_fresh_no_match lo t m); try assumption.
  apply calc_loc_range. apply (mp_inv t m Hmp).
Qed.

(** *** The reference map *)

Lemma m_get_Some m k v : NoDup (fst <$> m) -> (k, v) ∈ m -> m_get m k = Some v.
Proof.
  induction m as [|[k' v'] m IH]; intros Hnd Hin; [inversion Hin|].
  rewrite fmap_cons in Hnd. apply NoDup_cons in Hnd. destruct Hnd as [Hnotin Hnd].
  simpl. apply elem_of_cons in Hin. destruct Hin as [Heq|Hin].
  - injection Heq as -> ->. rewrite decide_True by reflexivity. reflexivity.
  - destruct (decide (k' = k)) as [->|Hne]; [|apply IH; assumption].
    exfalso. apply Hnotin. simpl. apply list_elem_of_fmap. exists (k, v).
    split; [reflexivity|exact Hin].
Qed.

Lemma m_get_None m k : k ∉ (fst <$> m) -> m_get m k = None.
Proof.
  induction m as [|[k' v'] m IH]; intros Hnotin; [reflexivity|].
  simpl. rewrite fmap_cons in Hnotin. apply not_elem_of_cons in Hnotin.
  destruct Hnotin as [Hne Hnotin]. simpl in Hne.
  rewrite decide_False by congruence. apply IH. exact Hnotin.
Qed.

Lemma m_get_elem m k v : m_get m k = Some v -> (k, v) ∈ m.
Proof.
  induction m as [|[k' v'] m IH]; intros Hget; [discriminate|].
  simpl in Hget. destruct (decide (k' = k)) as [->|Hne].
  - injection Hget as ->. apply elem_of_cons. left. reflexivity.
  - apply elem_of_cons. right. apply IH. exact Hget.
Qed.

Lemma m_get_keys m k : is_Some (m_get m k) <-> k ∈ (fst <$> m).
Proof.
  split.
  - intros [v Hv]. apply list_elem_of_fmap. exists (k, v).
    split; [reflexivity|apply m_get_elem; exact Hv].
  - intros Hin. destruct (m_get m k) as [v|] eqn:Hget; [eexists; reflexivity|].
    exfalso. revert Hin Hget. induction m as [|[k' v'] m IH]; intros Hin Hget.
    + inversion Hin.
    + simpl in Hget. destruct (decide (k' = k)) as [->|Hne]; [discriminate|].
      rewrite fmap_cons in Hin. apply elem_of_cons in Hin.
      destruct Hin as [Heq|Hin]; [simpl in Heq; congruence|].
      apply IH; assumption.
Qed.

(** What the lookups return on a table that holds [m]. *)
Lemma MAP_get lo t m k :
  -255 <= lo <= 0 -> MAP t m -> wf_contents lo m -> wf_key lo k ->
  HT_get (Some t) (Some k) (Z.of_nat (length k)) = default NULL (m_get m k) /\
  HT_exists (Some t) (Some k) (Z.of_nat (length k)) = bool_decide (k ∈ (fst <$> m)).
Proof.
  intros Hlo Hmp Hwf Hwfk.
  unfold HT_get, HT_exists.
  destruct (decide (k ∈ (fst <$> m))) as [Hin|Hnotin].
  - apply list_elem_of_fmap in Hin. destruct Hin as [[k' v] [Heq Hin]].
    simpl in Heq. subst k'.
    pose proof Hwf as [Hall Hnd].
    rewrite Forall_forall in Hall. destruct (Hall _ Hin) as [_ Hlen]. simpl in Hlen.
    destruct (Z.gtb_spec (Z.of_nat (length k)) (HT_MAX_KEY_LEN - 1)) as [Hgt|_]; [lia|].
    destruct (MAP_find lo t m k v Hlo Hmp Hwf Hin) as (i & Hi & Hb & Hfind).
    rewrite (mp_hash t m Hmp), HT_get_loop_find, HT_exists_loop_find, Hfind.
    rewrite (m_get_Some m k v Hnd Hin). simpl.
    split; [apply Hb|].
    symmetry. apply bool_decide_eq_true_2. apply list_elem_of_fmap.
    exists (k, v). split; [reflexivity|exact Hin].
  - rewrite (m_get_None m k Hnotin). simpl.
    rewrite (bool_decide_eq_false_2 _ Hnotin).
    destruct (Z.of_nat (length k) >? HT_MAX_KEY_LEN - 1); [split; reflexivity|].
    rewrite (mp_hash t m Hmp), HT_get_loop_find, HT_exists_loop_find.
    rewrite (MAP_fresh_not_found lo t m k _ Hlo Hmp Hwf Hwfk Hnotin).
    split; reflexivity.
Qed.

(** ** Writing a bucket *)

Lemma probe_paths_ok_set t t' s nb :
  (exists k, 0 <= k /\ ht_cap t = 2 ^ k) ->
  Z.of_nat (length (ht_index t)) = ht_cap t ->
  0 <= s < ht_cap t ->
  probe_paths_ok t ->
  ht_cap t' = ht_cap t ->
  ht_index t' = array_set (ht_index t) s nb ->
  ht_max_probe t <= ht_max_probe t' ->
  is_empty nb = false ->
  (is_occupied nb = true ->
     exists d, 0 <= d <= ht_max_probe t' /\
       s = HT_CALC_LOC t (wrap64 (b_hashcode nb + d)) /\
       forall d', 0 <= d' < d ->
         is_empty (bucket_at (ht_index t)
                     (HT_CALC_LOC t (wrap64 (b_hashcode nb + d')))) = false /\
         HT_CALC_LOC t (wrap64 (b_hashcode nb + d')) <> s) ->
  probe_paths_ok t'.
Proof.
  intros [k [Hk Hcap]] Hlen Hs Hpaths Hcap' Hidx Hmp Hnb Hnew s2 Hs2 Hocc2.
  assert (Hloc : forall x, HT_CALC_LOC t' x = HT_CALC_LOC t x)
    by (intros x; unfold HT_CALC_LOC; rewrite Hcap'; reflexivity).
  assert (Hbs : bucket_at (ht_index t') s = nb)
    by (rewrite Hidx; apply bucket_at_set_eq; lia).
  assert (Hkeep : forall x, 0 <= x < ht_cap t ->
            is_empty (bucket_at (ht_index t) x) = false ->
            is_empty (bucket_at (ht_index t') x) = false).
  { intros x Hx He. destruct (Z.eq_dec x s) as [->|Hne]; [rewrite Hbs; exact Hnb|].
    rewrite Hidx, bucket_at_set_ne by lia. exact He. }
  unfold probe_path_ok. rewrite Hcap' in Hs2.
  destruct (Z.eq_dec s2 s) as [->|Hne].
  - rewrite Hbs in Hocc2 |- *.
    destruct (Hnew Hocc2) as [d [Hd [Hslot Hpath]]].
    exists d. split; [exact Hd|]. split; [rewrite Hloc; exact Hslot|].
    intros d' Hd'. rewrite Hloc. destruct (Hpath d' Hd') as [He Hnes].
    split; [|exact Hnes]. apply Hkeep; [|exact He].
    apply (calc_loc_range_pow2 t _ k); assumption.
  - assert (Hb : bucket_at (ht_index t') s2 = bucket_at (ht_index t) s2)
      by (rewrite Hidx; apply bucket_at_set_ne; lia).
    rewrite Hb in Hocc2 |- *.
    destruct (Hpaths s2 Hs2 Hocc2) as [d2 [Hd2 [Hslot2 Hpath2]]].
    exists d2. split; [lia|]. split; [rewrite Hloc; exact Hslot2|].
    intros d' Hd'. rewrite Hloc. destruct (Hpath2 d' Hd') as [He Hne'].
    split; [|exact Hne']. apply Hkeep; [|exact He].
    apply (calc_loc_range_pow2 t _ k); assumption.
Qed.

(** ** Inserting a key the table does not hold *)

Lemma MAP_insert lo t m k v d :
  -255 <= lo <= 0 -> MAP t m -> wf_contents lo (m ++ [(k, v)]) ->
  ht_ins_loc t < ht_cap t -> 0 <= d ->
  is_occupied
    (bucket_at (ht_index t)
       (HT_CALC_LOC t (wrap64 (wrap64 (_HT_hash k (Z.of_nat (length k))) + d))))
  = false ->
  (forall d', 0 <= d' < d ->
     is_occupied
       (bucket_at (ht_index t)
          (HT_CALC_LOC t (wrap64 (wrap64 (_HT_hash k (Z.of_nat (length k))) + d'))))
     = true) ->
  MAP (insert_at t
        (HT_CALC_LOC t (wrap64 (wrap64 (_HT_hash k (Z.of_nat (length k))) + d)))
        (wrap64 (_HT_hash k (Z.of_nat (length k)))) k (Z.of_nat (length k)) v d)
     (m ++ [(k, v)]).
Proof.
  intros Hlo Hmp [Hwf Hnodup] Hins Hd Hfree Hbefore.
  set (h := wrap64 (_HT_hash k (Z.of_nat (length k)))) in *.
  set (s := HT_CALC_LOC t (wrap64 (h + d))) in *.
  set (t' := insert_at t s h k (Z.of_nat (length k)) v d).
  pose proof (mp_inv t m Hmp) as Hinv.
  pose proof (inv_cap_range t Hinv) as Hrange.
  pose proof (inv_index_len t Hinv) as Hilen.
  pose proof (inv_values_len t Hinv) as Hvlen.
  pose proof (inv_used t Hinv) as Hused.
  assert (Hs : 0 <= s < ht_cap t) by (apply calc_loc_range; exact Hinv).
  set (L := if is_empty (bucket_at (ht_index t) s) then ht_ins_loc t
            else b_loc (bucket_at (ht_index t) s)).
  assert (HL : 0 <= L < ht_cap t).
  { subst L. destruct (is_empty (bucket_at (ht_index t) s)) eqn:He; [lia|].
    pose proof (used_loc_range t s Hinv Hs He). lia. }
  assert (Hidx : ht_index t' = array_set (ht_index t) s (mkBucket h L HT_BUCKET_OCCUPIED))
    by reflexivity.
  assert (Hvals : ht_values t' =
            array_set (ht_values t) L
              (write_key (mkEntry (e_k (entry_at (ht_values t) L)) (Z.of_nat (length k)) v)
                 k (Z.of_nat (length k)))) by reflexivity.
  assert (Hcap : ht_cap t' = ht_cap t) by reflexivity.
  assert (Hmpr : ht_max_probe t' = if d >? ht_max_probe t then d else ht_max_probe t)
    by reflexivity.
  (* the key, its freshness *)
  apply Forall_app in Hwf. destruct Hwf as [Hwfm Hwfk].
  apply Forall_inv in Hwfk. destruct Hwfk as [Hwfk Hlen]. simpl in Hwfk, Hlen.
  rewrite fmap_app in Hnodup. apply NoDup_app in Hnodup.
  destruct Hnodup as (Hnodupm & Hdisj & _).
  assert (Hfresh : k ∉ (fst <$> m)).
  { intros Hin. apply (Hdisj k Hin). simpl. apply list_elem_of_singleton. reflexivity. }
  (* the invariant of the structure *)
  destruct (HT_inv_insert t t' s h Hinv Hs Hfree Hins) as [Hinv' Hn'];
    try reflexivity.
  { rewrite Hvals, array_set_length. reflexivity. }
  (* the entry written *)
  assert (Hold : length (e_k (entry_at (ht_values t) L)) = Z.to_nat HT_MAX_KEY_LEN).
  { pose proof (mp_bufs t m Hmp) as Hb. rewrite Forall_forall in Hb.
    apply Hb. eapply list_elem_of_lookup_2. apply entry_at_lookup. lia. }
  destruct (write_key_stores lo k
              (mkEntry (e_k (entry_at (ht_values t) L)) (Z.of_nat (length k)) v)
              Hwfk Hlen Hold)
    as (Htake & Hklen & Hv & Hbuf).
  cbn [e_k_len e_v] in Hklen, Hv.
  set (e' := write_key _ k (Z.of_nat (length k))) in *.
  assert (Hbs : bucket_at (ht_index t') s = mkBucket h L HT_BUCKET_OCCUPIED)
    by (rewrite Hidx; apply bucket_at_set_eq; lia).
  assert (Hes : entry_at (ht_values t') L = e')
    by (rewrite Hvals; apply entry_at_set_eq; lia).
  assert (Hbinds_s : binds t' s k v).
  { unfold binds. rewrite Hbs. cbn [is_occupied b_state b_hashcode b_loc].
    rewrite Hes. split; [reflexivity|]. split; [reflexivity|].
    split; [split; assumption|assumption]. }
  (* the other buckets and their entries are untouched *)
  assert (Hother : forall i, 0 <= i < ht_cap t -> i <> s ->
            bucket_at (ht_index t') i = bucket_at (ht_index t) i).
  { intros i Hi Hne. rewrite Hidx. apply bucket_at_set_ne; lia. }
  assert (Hentry : forall i, 0 <= i < ht_cap t -> i <> s ->
            is_occupied (bucket_at (ht_index t) i) = true ->
            entry_at (ht_values t') (b_loc (bucket_at (ht_index t) i))
            = entry_at (ht_values t) (b_loc (bucket_at (ht_index t) i))).
  { intros i Hi Hne Hocc.
    pose proof (used_loc_range t i Hinv Hi (is_occupied_not_empty _ Hocc)) as Hr.
    rewrite Hvals. apply entry_at_set_ne; [lia|lia|].
    subst L. destruct (is_empty (bucket_at (ht_index t) s)) eqn:He; [lia|].
    intros Heq. apply (used_loc_distinct t s i Hinv Hs Hi He
                         (is_occupied_not_empty _ Hocc)); [congruence|exact Heq]. }
  assert (Hbinds_old : forall i k0 v0, 0 <= i < ht_cap t -> i <> s ->
            (binds t' i k0 v0 <-> binds t i k0 v0)).
  { intros i k0 v0 Hi Hne. unfold binds. rewrite (Hother i Hi Hne).
    split; intros (Hocc & Hh & Hst & Hval);
      [rewrite (Hentry i Hi Hne Hocc) in Hst, Hval
      |rewrite <- (Hentry i Hi Hne Hocc) in Hst, Hval];
      exact (conj Hocc (conj Hh (conj Hst Hval))). }
  constructor.
  - exact Hinv'.
  - apply (mp_cmp t m Hmp).
  - apply (mp_hash t m Hmp).
  - rewrite Hvals. apply Forall_insert; [apply (mp_bufs t m Hmp)|exact Hbuf].
  - apply (probe_paths_ok_set t t' s (mkBucket h L HT_BUCKET_OCCUPIED));
      try assumption; try reflexivity.
    + destruct (inv_cap t Hinv) as [k0 [Hk0 Hc0]]. exists k0. split; [lia|exact Hc0].
    + apply (mp_paths t m Hmp).
    + rewrite Hmpr. destruct (Z.gtb_spec d (ht_max_probe t)); lia.
    + intros _. exists d. cbn [b_hashcode].
      split; [rewrite Hmpr; destruct (Z.gtb_spec d (ht_max_probe t)); lia|].
      split; [reflexivity|].
      intros d' Hd'. pose proof (Hbefore d' Hd') as Ho.
      split; [apply is_occupied_not_empty; exact Ho|].
      intros Heq. rewrite Heq in Ho. congruence.
  - rewrite Hcap. intros i Hi Hocc.
    destruct (Z.eq_dec i s) as [->|Hne].
    + exists k, v. split; [|exact Hbinds_s].
      apply elem_of_app. right. apply list_elem_of_singleton. reflexivity.
    + rewrite (Hother i Hi Hne) in Hocc.
      destruct (mp_occupied t m Hmp i Hi Hocc) as (k0 & v0 & Hin & Hb).
      exists k0, v0. split; [apply elem_of_app; left; exact Hin|].
      apply Hbinds_old; assumption.
  - rewrite Hcap. intros i j k0 v0 v0' Hi Hj Hbi Hbj.
    assert (Hold_key : forall x vx, 0 <= x < ht_cap t -> x <> s ->
              binds t' x k0 vx -> k0 ∈ (fst <$> m) /\ binds t x k0 vx).
    { intros x vx Hx Hne Hbx. apply Hbinds_old in Hbx; [|assumption..].
      split; [|exact Hbx].
      destruct (mp_occupied t m Hmp x Hx (proj1 Hbx)) as (k1 & v1 & Hin & Hb1).
      destruct (binds_key_inj t x k0 vx k1 v1 Hbx Hb1) as [-> _].
      apply list_elem_of_fmap. exists (k1, v1). split; [reflexivity|exact Hin]. }
    destruct (Z.eq_dec i s) as [->|Hnei], (Z.eq_dec j s) as [->|Hnej].
    + reflexivity.
    + destruct (binds_key_inj t' s k0 v0 k v Hbi Hbinds_s) as [-> _].
      destruct (Hold_key j v0' Hj Hnej Hbj) as [Hin _]. contradiction.
    + destruct (binds_key_inj t' s k0 v0' k v Hbj Hbinds_s) as [-> _].
      destruct (Hold_key i v0 Hi Hnei Hbi) as [Hin _]. contradiction.
    + destruct (Hold_key i v0 Hi Hnei Hbi) as [_ Hbi'].
      destruct (Hold_key j v0' Hj Hnej Hbj) as [_ Hbj'].
      eapply (mp_unique t m Hmp); eassumption.
  - rewrite Hcap. intros k0 v0 Hin. apply elem_of_app in Hin.
    destruct Hin as [Hin|Hin].
    + destruct (mp_bound t m Hmp k0 v0 Hin) as [i [Hi Hb]].
      exists i. split; [exact Hi|]. apply Hbinds_old; [exact Hi| |exact Hb].
      intros ->. destruct Hb as [Hocc _]. congruence.
    + apply list_elem_of_singleton in Hin. injection Hin as -> ->.
      exists s. split; [exact Hs|exact Hbinds_s].
Qed.

(** ** Removing a key *)

Lemma m_remove_absent m k : k ∉ (fst <$> m) -> m_remove m k = m.
Proof.
  unfold m_remove. induction m as [|[k' v'] m IH]; intros Hnotin; [reflexivity|].
  rewrite fmap_cons in Hnotin. apply not_elem_of_cons in Hnotin.
  destruct Hnotin as [Hne Hnotin]. simpl in Hne.
  rewrite filter_cons_True by (simpl; congruence).
  f_equal. apply IH. exact Hnotin.
Qed.

Lemma elem_of_m_remove m k k0 v0 :
  (k0, v0) ∈ m_remove m k <-> k0 <> k /\ (k0, v0) ∈ m.
Proof. unfold m_remove. rewrite list_elem_of_filter. reflexivity. Qed.

Lemma m_remove_keys m k : k ∉ (fst <$> m_remove m k).
Proof.
  intros Hin. apply list_elem_of_fmap in Hin. destruct Hin as [[k0 v0] [Heq Hin]].
  simpl in Heq. subst k0. apply elem_of_m_remove in Hin. destruct Hin as [Hne _].
  congruence.
Qed.

Lemma wf_contents_remove lo m k : wf_contents lo m -> wf_contents lo (m_remove m k).
Proof.
  intros [Hall Hnd]. split.
  - rewrite Forall_forall in *. intros [k0 v0] Hin.
    apply elem_of_m_remove in Hin. apply Hall. apply Hin.
  - apply (sublist_NoDup _ (fst <$> m)); [exact Hnd|].
    apply fmap_sublist. apply sublist_filter.
Qed.

Lemma wf_contents_put lo m k v :
  wf_contents lo m -> wf_key lo k -> Z.of_nat (length k) <= HT_MAX_KEY_LEN - 2 ->
  wf_contents lo (m_put m k v).
Proof.
  intros Hwf Hwfk Hlen. destruct (wf_contents_remove lo m k Hwf) as [Hall Hnd].
  unfold m_put. split.
  - apply Forall_app. split; [exact Hall|].
    apply Forall_singleton. split; assumption.
  - rewrite fmap_app. apply NoDup_app. split; [exact Hnd|]. split.
    + intros x Hx Hin. simpl in Hin. apply list_elem_of_singleton in Hin. subst x.
      apply (m_remove_keys m k). exact Hx.
    + simpl. apply NoDup_singleton.
Qed.

Lemma MAP_remove_at t m k v i :
  MAP t m -> 0 <= i < ht_cap t -> binds t i k v ->
  MAP (remove_at t i) (m_remove m k).
Proof.
  intros Hmp Hi Hb.
  pose proof (mp_inv t m Hmp) as Hinv.
  pose proof (inv_cap_range t Hinv) as Hrange.
  pose proof (inv_index_len t Hinv) as Hilen.
  pose proof (inv_values_len t Hinv) as Hvlen.
  pose proof (inv_used t Hinv) as Hused.
  pose proof (proj1 Hb) as Hocc.
  set (t' := remove_at t i).
  set (b := bucket_at (ht_index t) i) in *.
  assert (Hidx : ht_index t' =
            array_set (ht_index t) i (mkBucket 0 (b_loc b) HT_DELETED_BUCKET))
    by reflexivity.
  assert (Hvals : ht_values t' =
            array_set (ht_values t) (b_loc b)
              (mkEntry (array_set (e_k (entry_at (ht_values t) (b_loc b))) 0 0) 0 NULL))
    by reflexivity.
  assert (Hcap : ht_cap t' = ht_cap t) by reflexivity.
  destruct (HT_inv_remove t t' i Hinv Hi Hocc) as [Hinv' Hn']; try reflexivity.
  { rewrite Hvals, array_set_length. reflexivity. }
  assert (Hbi : bucket_at (ht_index t') i = mkBucket 0 (b_loc b) HT_DELETED_BUCKET)
    by (rewrite Hidx; apply bucket_at_set_eq; lia).
  assert (Hother : forall j, 0 <= j < ht_cap t -> j <> i ->
            bucket_at (ht_index t') j = bucket_at (ht_index t) j).
  { intros j Hj Hne. rewrite Hidx. apply bucket_at_set_ne; lia. }
  assert (Hentry : forall j, 0 <= j < ht_cap t -> j <> i ->
            is_occupied (bucket_at (ht_index t) j) = true ->
            entry_at (ht_values t') (b_loc (bucket_at (ht_index t) j))
            = entry_at (ht_values t) (b_loc (bucket_at (ht_index t) j))).
  { intros j Hj Hne Hoccj.
    pose proof (used_loc_range t j Hinv Hj (is_occupied_not_empty _ Hoccj)) as Hrj.
    pose proof (used_loc_range t i Hinv Hi (is_occupied_not_empty _ Hocc)) as Hri.
    rewrite Hvals. apply entry_at_set_ne; [fold b in Hri; lia|lia|].
    apply (used_loc_distinct t i j Hinv Hi Hj (is_occupied_not_empty _ Hocc)
             (is_occupied_not_empty _ Hoccj)). congruence. }
  assert (Hbinds_old : forall j k0 v0, 0 <= j < ht_cap t -> j <> i ->
            (binds t' j k0 v0 <-> binds t j k0 v0)).
  { intros j k0 v0 Hj Hne. unfold binds. rewrite (Hother j Hj Hne).
    split; intros (Ho & Hh & Hst & Hval);
      [rewrite (Hentry j Hj Hne Ho) in Hst, Hval
      |rewrite <- (Hentry j Hj Hne Ho) in Hst, Hval];
      exact (conj Ho (conj Hh (conj Hst Hval))). }
  assert (Hnot_i : forall j, is_occupied (bucket_at (ht_index t') j) = true -> j <> i).
  { intros j Ho ->. rewrite Hbi in Ho. discriminate. }
  constructor.
  - exact Hinv'.
  - apply (mp_cmp t m Hmp).
  - apply (mp_hash t m Hmp).
  - rewrite Hvals. apply Forall_insert; [apply (mp_bufs t m Hmp)|].
    cbn [e_k]. rewrite array_set_length.
    apply (entry_at_Forall _ (ht_values t) (b_loc b) (mp_bufs t m Hmp) empty_entry_buf).
  - apply (probe_paths_ok_set t t' i (mkBucket 0 (b_loc b) HT_DELETED_BUCKET));
      try assumption; try reflexivity.
    + destruct (inv_cap t Hinv) as [k0 [Hk0 Hc0]]. exists k0. split; [lia|exact Hc0].
    + apply (mp_paths t m Hmp).
    + intros Hcontra. discriminate.
  - rewrite Hcap. intros j Hj Ho.
    pose proof (Hnot_i j Ho) as Hne.
    rewrite (Hother j Hj Hne) in Ho.
    destruct (mp_occupied t m Hmp j Hj Ho) as (k0 & v0 & Hin & Hbj).
    exists k0, v0. split; [|apply Hbinds_old; assumption].
    apply elem_of_m_remove. split; [|exact Hin].
    intros ->. apply Hne. eapply (mp_unique t m Hmp); eassumption.
  - rewrite Hcap. intros j1 j2 k0 v0 v0' Hj1 Hj2 Hb1 Hb2.
    pose proof (Hnot_i j1 (proj1 Hb1)) as Hne1.
    pose proof (Hnot_i j2 (proj1 Hb2)) as Hne2.
    apply Hbinds_old in Hb1; [|assumption..].
    apply Hbinds_old in Hb2; [|assumption..].
    eapply (mp_unique t m Hmp); eassumption.
  - rewrite Hcap. intros k0 v0 Hin. apply elem_of_m_remove in Hin.
    destruct Hin as [Hnek Hin].
    destruct (mp_bound t m Hmp k0 v0 Hin) as [j [Hj Hbj]].
    exists j. split; [exact Hj|]. apply Hbinds_old; [exact Hj| |exact Hbj].
    intros ->. destruct (binds_key_inj t i k0 v0 k v Hbj Hb) as [-> _]. congruence.
Qed.

(** A removal takes the key off the map the table holds. *)
Lemma MAP_remove lo t m k :
  -255 <= lo <= 0 -> MAP t m -> wf_contents lo m -> wf_key lo k ->
  MAP (apply_op t (OpRemove (Some k) (Z.of_nat (length k)))) (m_remove m k).
Proof.
  intros Hlo Hmp Hwf Hwfk. unfold apply_op, HT_remove.
  destruct (decide (k ∈ (fst <$> m))) as [Hin|Hnotin].
  - apply list_elem_of_fmap in Hin. destruct Hin as [[k' v] [Heq Hin]].
    simpl in Heq. subst k'.
    pose proof Hwf as [Hall Hnd].
    rewrite Forall_forall in Hall. destruct (Hall _ Hin) as [_ Hlen]. simpl in Hlen.
    destruct (Z.gtb_spec (Z.of_nat (length k)) (HT_MAX_KEY_LEN - 1)) as [Hgt|_]; [lia|].
    destruct (MAP_find lo t m k v Hlo Hmp Hwf Hin) as (i & Hi & Hb & Hfind).
    rewrite (mp_hash t m Hmp), HT_remove_loop_find, Hfind.
    cbn [fst default from_option id].
    apply (MAP_remove_at t m k v i); assumption.
  - rewrite (m_remove_absent m k Hnotin).
    destruct (Z.of_nat (length k) >? HT_MAX_KEY_LEN - 1); [exact Hmp|].
    rewrite (mp_hash t m Hmp), HT_remove_loop_find.
    rewrite (MAP_fresh_not_found lo t m k _ Hlo Hmp Hwf Hwfk Hnotin).
    exact Hmp.
Qed.

(** ** The resize drops the tombstones and keeps the bindings *)

Lemma _HT_expand_MAP a t t' m :
  MAP t m -> _HT_expand a t = Some t' ->
  RT t' m /\ ht_cap t' = 2 * ht_cap t /\ ht_n t' = ht_n t /\
  ht_ins_loc t' = ht_ins_loc t.
Proof.
  intros Hmp Hexp.
  pose proof (mp_inv t m Hmp) as Hinv.
  pose proof (inv_cap_range t Hinv) as Hrange.
  pose proof (inv_index_len t Hinv) as Hilen.
  pose proof (inv_values_len t Hinv) as Hvlen.
  pose proof (inv_used t Hinv) as Hused.
  destruct (_HT_expand_inv a t t' Hinv Hexp) as (Hinv' & Hcap' & Hn' & Hins').
  destruct (_HT_expand_shape a t t' Hinv Hexp) as ([k [Hk Hpow]] & Hfold & Hrb).
  pose proof (inv_index_len t' Hinv') as Hilen'.
  pose proof (rb_values _ _ _ Hrb) as Hvals. simpl in Hvals.
  pose proof (rb_occupied _ _ _ Hrb) as Hperm.
  destruct (fold_expand_bucket_strategies (ht_index t) (resized_empty t (2 * ht_cap t)))
    as [Hcmp Hhash].
  rewrite <- Hfold in Hcmp, Hhash. simpl in Hcmp, Hhash.
  assert (Hentry : forall l, 0 <= l < ht_cap t ->
            entry_at (ht_values t') l = entry_at (ht_values t) l).
  { intros l Hl. rewrite Hvals, <- Hvlen.
    apply copy_values_lookup; [rewrite length_replicate; lia|lia]. }
  assert (Hbinds : forall s j k0 v0, 0 <= j < ht_cap t ->
            bucket_at (ht_index t') s = bucket_at (ht_index t) j ->
            is_occupied (bucket_at (ht_index t) j) = true ->
            (binds t' s k0 v0 <-> binds t j k0 v0)).
  { intros s j k0 v0 Hj Heq Hocc.
    pose proof (used_loc_range t j Hinv Hj (is_occupied_not_empty _ Hocc)) as Hloc.
    unfold binds. rewrite Heq, Hentry by lia. reflexivity. }
  assert (Hback : forall s, 0 <= s < ht_cap t' ->
            is_occupied (bucket_at (ht_index t') s) = true ->
            exists j, 0 <= j < ht_cap t /\
              bucket_at (ht_index t) j = bucket_at (ht_index t') s).
  { intros s Hs Hocc. rewrite <- Hilen.
    apply bucket_correspondence; [exact Hperm|lia|exact Hocc]. }
  assert (Hforth : forall j, 0 <= j < ht_cap t ->
            is_occupied (bucket_at (ht_index t) j) = true ->
            exists s, 0 <= s < ht_cap t' /\
              bucket_at (ht_index t') s = bucket_at (ht_index t) j).
  { intros j Hj Hocc. rewrite <- Hilen'.
    apply bucket_correspondence; [symmetry; exact Hperm|lia|exact Hocc]. }
  split; [|auto].
  constructor.
  - exact Hinv'.
  - rewrite Hcmp. apply (mp_cmp t m Hmp).
  - rewrite Hhash. apply (mp_hash t m Hmp).
  - apply (rb_no_deleted _ _ _ Hrb).
  - rewrite Hvals, <- Hvlen. apply copy_values_Forall.
    + apply Forall_replicate. exact empty_entry_buf.
    + intros i. apply entry_at_Forall; [apply (mp_bufs t m Hmp)|].
      exact empty_entry_buf.
  - rewrite Hfold.
    apply (rebuild_paths_fold (resized_empty t (2 * ht_cap t)) k (ht_index t) _ []);
      [lia|exact Hpow| | |simpl; lia].
    + constructor; try reflexivity.
      * simpl. rewrite length_replicate. lia.
      * simpl. apply Forall_replicate. reflexivity.
      * simpl. rewrite occupied_replicate_empty. reflexivity.
    + intros s _ Hocc. simpl in Hocc. rewrite bucket_at_replicate in Hocc.
      discriminate.
  - intros s Hs Hocc.
    destruct (Hback s Hs Hocc) as [j [Hj Heq]].
    rewrite <- Heq in Hocc.
    destruct (mp_occupied t m Hmp j Hj Hocc) as (k0 & v0 & Hin & Hb).
    exists k0, v0. split; [exact Hin|].
    apply (Hbinds s j); [exact Hj|symmetry; exact Heq|exact Hocc|exact Hb].
  - intros s1 s2 k0 v0 v0' Hs1 Hs2 Hb1 Hb2.
    pose proof (proj1 Hb1) as Hocc1. pose proof (proj1 Hb2) as Hocc2.
    destruct (Hback s1 Hs1 Hocc1) as [j1 [Hj1 Heq1]].
    destruct (Hback s2 Hs2 Hocc2) as [j2 [Hj2 Heq2]].
    assert (Ho1 : is_occupied (bucket_at (ht_index t) j1) = true) by congruence.
    assert (Ho2 : is_occupied (bucket_at (ht_index t) j2) = true) by congruence.
    apply (Hbinds s1 j1) in Hb1; [|exact Hj1|symmetry; exact Heq1|exact Ho1].
    apply (Hbinds s2 j2) in Hb2; [|exact Hj2|symmetry; exact Heq2|exact Ho2].
    pose proof (mp_unique t m Hmp j1 j2 k0 v0 v0' Hj1 Hj2 Hb1 Hb2). subst j2.
    destruct (Z.eq_dec s1 s2) as [|Hne]; [assumption|exfalso].
    apply (used_loc_distinct t' s1 s2 Hinv' Hs1 Hs2
             (is_occupied_not_empty _ Hocc1) (is_occupied_not_empty _ Hocc2) Hne).
    congruence.
  - intros k0 v0 Hin.
    destruct (mp_bound t m Hmp k0 v0 Hin) as [j [Hj Hb]].
    destruct (Hforth j Hj (proj1 Hb)) as [s [Hs Heq]].
    exists s. split; [exact Hs|].
    apply (Hbinds s j); [exact Hj|exact Heq|exact (proj1 Hb)|exact Hb].
Qed.

(** The table a put probes: the table itself, or the resized one. *)
Lemma put_start_MAP a t m :
  MAP t m ->
  (needs_expand t = true -> _HT_expand a t <> None) ->
  exists t1,
    (if needs_expand t then _HT_expand a t else Some t) = Some t1 /\
    MAP t1 m /\ ht_n t1 = ht_n t /\ ht_n t1 < ht_cap t1 /\ ht_ins_loc t1 < ht_cap t1 /\
    (Forall (fun b => is_deleted b = false) (ht_index t) ->
     Forall (fun b => is_deleted b = false) (ht_index t1)).
Proof.
  intros Hmp Halloc.
  pose proof (mp_inv t m Hmp) as Hinv.
  pose proof (inv_cap_range t Hinv) as Hrange.
  pose proof (inv_used t Hinv) as Hused.
  pose proof (occupied_le_cap t Hinv) as Hle.
  destruct (needs_expand t) eqn:Hneed.
  - destruct (_HT_expand a t) as [t1|] eqn:Hexp; [|exfalso; apply Halloc; reflexivity].
    destruct (_HT_expand_MAP a t t1 m Hmp Hexp) as (Hrt1 & Hc & Hn & Hi).
    exists t1. split; [reflexivity|]. split; [apply RT_MAP; exact Hrt1|].
    split; [exact Hn|]. split; [lia|]. split; [lia|].
    intros _. apply (rt_no_deleted t1 m Hrt1).
  - exists t. unfold needs_expand in Hneed.
    apply orb_false_iff in Hneed. destruct Hneed as [Hneed Hins].
    apply orb_false_iff in Hneed. destruct Hneed as [_ Hn].
    apply Z.eqb_neq in Hn, Hins.
    split; [reflexivity|]. split; [exact Hmp|]. split; [reflexivity|].
    split; [lia|]. split; [lia|]. auto.
Qed.

(** A put of a key the table does not hold adds its binding. *)
Lemma MAP_put_fresh lo a t m k v :
  -255 <= lo <= 0 -> MAP t m -> wf_contents lo (m ++ [(k, v)]) ->
  (needs_expand t = true -> _HT_expand a t <> None) ->
  MAP (apply_op t (OpPut a (Some k) (Z.of_nat (length k)) v)) (m ++ [(k, v)]) /\
  (Forall (fun b => is_deleted b = false) (ht_index t) ->
   Forall (fun b => is_deleted b = false)
     (ht_index (apply_op t (OpPut a (Some k) (Z.of_nat (length k)) v)))).
Proof.
  intros Hlo Hmp Hwf Halloc.
  assert (Hparts : wf_contents lo m /\ wf_key lo k
                   /\ Z.of_nat (length k) <= HT_MAX_KEY_LEN - 2 /\ k ∉ (fst <$> m)).
  { destruct Hwf as [Hall Hnodup].
    apply Forall_app in Hall. destruct Hall as [Hallm Hk].
    apply Forall_inv in Hk. destruct Hk as [Hwfk Hlen].
    rewrite fmap_app in Hnodup. apply NoDup_app in Hnodup.
    destruct Hnodup as (Hnodupm & Hdisj & _).
    split; [split; assumption|]. split; [exact Hwfk|]. split; [exact Hlen|].
    intros Hin. apply (Hdisj k Hin). simpl. apply list_elem_of_singleton. reflexivity. }
  destruct Hparts as (Hwfm & Hwfk & Hlen & Hfresh).
  destruct (put_start_MAP a t m Hmp Halloc)
    as (t1 & Ht1 & Hmp1 & _ & Hn1 & Hins1 & Hdel1).
  unfold apply_op, HT_put.
  destruct (Z.gtb_spec (Z.of_nat (length k)) (HT_MAX_KEY_LEN - 1)) as [Hgt|_]; [lia|].
  rewrite Ht1. rewrite (mp_hash t1 m Hmp1).
  destruct (HT_put_loop_fresh t1 k (Z.of_nat (length k)) v
              (wrap64 (_HT_hash k (Z.of_nat (length k))))
              (mp_inv t1 m Hmp1) Hn1
              (MAP_fresh_no_match lo t1 m k _ Hlo Hmp1 Hwfm Hwfk Hfresh))
    as (d & Hd & Hfree & Hbefore & Hloop).
  rewrite Hloop. cbn [fst default from_option id].
  split; [apply (MAP_insert lo); try assumption; lia|].
  intros Hdel. cbn [insert_at ht_index].
  apply Forall_insert; [apply Hdel1; exact Hdel|reflexivity].
Qed.

(** ** Putting a key the table holds *)

Lemma calc_loc_mod t x k :
  0 <= k <= 64 -> ht_cap t = 2 ^ k -> HT_CALC_LOC t (wrap64 x) = x mod 2 ^ k.
Proof.
  intros Hk Hcap. unfold HT_CALC_LOC, wrap64. rewrite Hcap, land_pow2_mod by lia.
  apply Z.mod_mod_divide.
  exists (2 ^ (64 - k)). rewrite <- Z.pow_add_r by lia. f_equal. lia.
Qed.

(** A probe path that does not meet its last slot before its end is shorter
    than the capacity. *)
Lemma probe_path_short t h d k :
  0 <= k <= 64 -> ht_cap t = 2 ^ k -> 0 <= d ->
  (forall d', 0 <= d' < d ->
     HT_CALC_LOC t (wrap64 (h + d')) <> HT_CALC_LOC t (wrap64 (h + d))) ->
  d < ht_cap t.
Proof.
  intros Hk Hcap Hd Hpath.
  destruct (Z_lt_dec d (ht_cap t)) as [|Hge]; [assumption|exfalso].
  assert (Hpos : 0 < 2 ^ k) by (apply Z.pow_pos_nonneg; lia).
  apply (Hpath (d - ht_cap t)); [lia|].
  rewrite !(calc_loc_mod t _ k) by assumption.
  replace (h + (d - ht_cap t)) with (h + d + (-1) * 2 ^ k) by lia.
  apply Z.mod_add. lia.
Qed.

Lemma not_deleted_occupied index i :
  Forall (fun b => is_deleted b = false) index ->
  0 <= i < Z.of_nat (length index) ->
  is_empty (bucket_at index i) = false -> is_occupied (bucket_at index i) = true.
Proof.
  intros Hdel Hi He.
  destruct (is_occupied (bucket_at index i)) eqn:Ho; [reflexivity|].
  rewrite (no_deleted_empty index i Hdel Hi Ho) in He. discriminate.
Qed.

(** The table after the value of the entry of bucket [i] has been
    replaced. *)
Lemma MAP_set_value t m k v0 v i :
  MAP t m -> 0 <= i < ht_cap t -> binds t i k v0 ->
  let b := bucket_at (ht_index t) i in
  let e := entry_at (ht_values t) (b_loc b) in
  MAP {| ht_index := ht_index t;
         ht_values := array_set (ht_values t) (b_loc b) (mkEntry (e_k e) (e_k_len e) v);
         ht_n := ht_n t; ht_cap := ht_cap t;
         ht_expand := ht_expand t; ht_max_probe := ht_max_probe t;
         ht_ins_loc := ht_ins_loc t;
         ht_load_factor := ht_load_factor t; ht_cmp := ht_cmp t;
         ht_hashcode := ht_hashcode t; ht_dealloc := ht_dealloc t |}
      (m_put m k v).
Proof.
  intros Hmp Hi Hb b e.
  set (t' := {| ht_index := ht_index t |}).
  pose proof (mp_inv t m Hmp) as Hinv.
  pose proof (inv_cap_range t Hinv) as Hrange.
  pose proof (inv_values_len t Hinv) as Hvlen.
  pose proof (inv_used t Hinv) as Hused.
  pose proof (proj1 Hb) as Hocc.
  pose proof (used_loc_range t i Hinv Hi (is_occupied_not_empty _ Hocc)) as Hri.
  fold b in Hri.
  assert (Hei : entry_at (ht_values t') (b_loc b) = mkEntry (e_k e) (e_k_len e) v)
    by (apply entry_at_set_eq; lia).
  assert (Hentry : forall j, 0 <= j < ht_cap t -> j <> i ->
            is_occupied (bucket_at (ht_index t) j) = true ->
            entry_at (ht_values t') (b_loc (bucket_at (ht_index t) j))
            = entry_at (ht_values t) (b_loc (bucket_at (ht_index t) j))).
  { intros j Hj Hne Hoccj.
    pose proof (used_loc_range t j Hinv Hj (is_occupied_not_empty _ Hoccj)) as Hrj.
    apply entry_at_set_ne; [lia|lia|].
    apply (used_loc_distinct t i j Hinv Hi Hj (is_occupied_not_empty _ Hocc)
             (is_occupied_not_empty _ Hoccj)). congruence. }
  assert (Hbinds_old : forall j k0 v0', 0 <= j < ht_cap t -> j <> i ->
            (binds t' j k0 v0' <-> binds t j k0 v0')).
  { intros j k0 v0' Hj Hne. unfold binds. cbn [ht_index t'].
    split; intros (Ho & Hh & Hst & Hval);
      [rewrite (Hentry j Hj Hne Ho) in Hst, Hval
      |rewrite <- (Hentry j Hj Hne Ho) in Hst, Hval];
      exact (conj Ho (conj Hh (conj Hst Hval))). }
  assert (Hbinds_i : forall k0 vx, binds t' i k0 vx -> k0 = k /\ vx = v).
  { intros k0 vx (Ho & Hh & Hst & Hval). cbn [ht_index t'] in *. fold b in Hst, Hval.
    rewrite Hei in Hst, Hval. cbn [e_v] in Hval.
    destruct Hb as (_ & _ & Hst0 & _). fold b e in Hst0.
    split; [|congruence].
    apply (stores_key_inj e); [|exact Hst0].
    destruct Hst as [H1 H2]. split; assumption. }
  assert (Hbi : binds t' i k v).
  { destruct Hb as (Ho & Hh & [Hst1 Hst2] & _). fold b e in Hst1, Hst2.
    unfold binds. cbn [ht_index t']. fold b. rewrite Hei.
    split; [exact Ho|]. split; [exact Hh|]. split; [split; assumption|reflexivity]. }
  constructor.
  - apply (HT_inv_frame t t' Hinv); try reflexivity.
    cbn [t' ht_values]. rewrite array_set_length. reflexivity.
  - apply (mp_cmp t m Hmp).
  - apply (mp_hash t m Hmp).
  - cbn [t' ht_values]. apply Forall_insert; [apply (mp_bufs t m Hmp)|].
    cbn [e_k]. apply (entry_at_Forall _ (ht_values t) (b_loc b) (mp_bufs t m Hmp)
                        empty_entry_buf).
  - exact (mp_paths t m Hmp).
  - intros j Hj Ho.
    destruct (Z.eq_dec j i) as [->|Hne].
    + exists k, v. split; [|exact Hbi].
      apply elem_of_app. right. apply list_elem_of_singleton. reflexivity.
    + destruct (mp_occupied t m Hmp j Hj Ho) as (k0 & v0' & Hin & Hbj).
      exists k0, v0'. split; [|apply Hbinds_old; assumption].
      apply elem_of_app. left. apply elem_of_m_remove. split; [|exact Hin].
      intros ->. apply Hne. eapply (mp_unique t m Hmp); eassumption.
  - intros j1 j2 k0 v1 v2 Hj1 Hj2 Hb1 Hb2.
    assert (Hold : forall j vx, 0 <= j < ht_cap t -> binds t' j k0 vx ->
              exists vy, binds t j k0 vy).
    { intros j vx Hj Hbj. destruct (Z.eq_dec j i) as [->|Hne].
      - destruct (Hbinds_i k0 vx Hbj) as [-> _]. exists v0. exact Hb.
      - exists vx. apply Hbinds_old; assumption. }
    destruct (Hold j1 v1 Hj1 Hb1) as [w1 Hw1].
    destruct (Hold j2 v2 Hj2 Hb2) as [w2 Hw2].
    eapply (mp_unique t m Hmp); eassumption.
  - intros k0 v0' Hin. apply elem_of_app in Hin. destruct Hin as [Hin|Hin].
    + apply elem_of_m_remove in Hin. destruct Hin as [Hnek Hin].
      destruct (mp_bound t m Hmp k0 v0' Hin) as [j [Hj Hbj]].
      exists j. split; [exact Hj|]. apply Hbinds_old; [exact Hj| |exact Hbj].
      intros ->. destruct (binds_key_inj t i k0 v0' k v0 Hbj Hb) as [-> _]. congruence.
    + apply list_elem_of_singleton in Hin. injection Hin as -> ->.
      exists i. split; [exact Hi|exact Hbi].
Qed.

(** In a table without tombstones, a put of a key the table holds replaces
    the value of its binding. *)
Lemma MAP_put_update lo a t m k v0 v :
  -255 <= lo <= 0 -> MAP t m -> wf_contents lo m -> (k, v0) ∈ m ->
  Forall (fun b => is_deleted b = false) (ht_index t) ->
  (needs_expand t = true -> _HT_expand a t <> None) ->
  MAP (apply_op t (OpPut a (Some k) (Z.of_nat (length k)) v)) (m_put m k v) /\
  Forall (fun b => is_deleted b = false)
    (ht_index (apply_op t (OpPut a (Some k) (Z.of_nat (length k)) v))).
Proof.
  intros Hlo Hmp Hwf Hin Hdel Halloc.
  destruct (put_start_MAP a t m Hmp Halloc)
    as (t1 & Ht1 & Hmp1 & _ & Hn1 & Hins1 & Hdel1).
  specialize (Hdel1 Hdel).
  pose proof Hwf as [Hall Hnd].
  rewrite Forall_forall in Hall.
  destruct (Hall _ Hin) as [Hwfk Hlen]. simpl in Hwfk, Hlen.
  pose proof (mp_inv t1 m Hmp1) as Hinv1.
  pose proof (inv_cap_range t1 Hinv1) as Hrange1.
  pose proof (inv_index_len t1 Hinv1) as Hilen1.
  destruct (inv_cap t1 Hinv1) as [kc [Hkc Hcap1]].
  destruct (mp_bound t1 m Hmp1 k v0 Hin) as [i [Hi Hb]].
  pose proof Hb as (Hocc & Hh & Hstores & Hv).
  destruct (mp_paths t1 m Hmp1 i Hi Hocc) as [d [Hd [Hslot Hpath]]].
  rewrite Hh in Hslot, Hpath.
  set (h := wrap64 (_HT_hash k (Z.of_nat (length k)))) in *.
  assert (Hshort : d < ht_cap t1).
  { apply (probe_path_short t1 h d kc); [lia|exact Hcap1|lia|].
    intros d' Hd'. rewrite <- Hslot. apply Hpath. exact Hd'. }
  assert (Hmatch : key_matches t1 k (Z.of_nat (length k)) h (bucket_at (ht_index t1) i)
                   = true).
  { pose proof (binds_matches lo t1 i k v0 (mp_cmp t1 m Hmp1) (mp_hash t1 m Hmp1)
                  Hwfk Hlo Hb) as Hm.
    rewrite (mp_hash t1 m Hmp1) in Hm. exact Hm. }
  unfold apply_op, HT_put.
  destruct (Z.gtb_spec (Z.of_nat (length k)) (HT_MAX_KEY_LEN - 1)) as [Hgt|_]; [lia|].
  rewrite Ht1, (mp_hash t1 m Hmp1). fold h.
  replace (Z.to_nat (ht_cap t1 + 1))
    with (Z.to_nat d + S (Z.to_nat (ht_cap t1 - d)))%nat by lia.
  rewrite HT_put_loop_skip.
  2:{ intros d' Hd'. destruct (Hpath d' ltac:(lia)) as [Hne' Hne].
      assert (Hr : 0 <= HT_CALC_LOC t1 (wrap64 (h + d')) < ht_cap t1)
        by (apply calc_loc_range; exact Hinv1).
      split; [apply not_deleted_occupied; [exact Hdel1|lia|exact Hne']|].
      destruct (key_matches t1 k (Z.of_nat (length k)) h
                  (bucket_at (ht_index t1) (HT_CALC_LOC t1 (wrap64 (h + d')))))
        eqn:Hm; [exfalso|reflexivity].
      pose proof (key_matches_occupied _ _ _ _ _ Hm) as Hocc'.
      destruct (mp_occupied t1 m Hmp1 _ Hr Hocc') as (k' & v' & Hin' & Hb').
      destruct (Hall _ Hin') as [Hwfk' _]. simpl in Hwfk'.
      pose proof (matches_binds lo t1 _ k' k v' h (mp_cmp t1 m Hmp1) Hwfk' Hwfk Hlo
                    Hb' Hm).
      subst k'. apply Hne. eapply (mp_unique t1 m Hmp1); eassumption. }
  replace (0 + Z.of_nat (Z.to_nat d)) with d by lia.
  cbn [HT_put_loop]. rewrite <- Hslot.
  unfold key_matches in Hmatch.
  apply andb_true_iff in Hmatch. destruct Hmatch as [Hm1 Hm2].
  rewrite Hm1, Hm2. cbn [fst default from_option id].
  split; [apply (MAP_set_value t1 m k v0 v i); assumption|exact Hdel1].
Qed.

(** ** The reference map under puts *)

Lemma m_get_app m1 m2 k :
  m_get (m1 ++ m2) k = from_option Some (m_get m2 k) (m_get m1 k).
Proof.
  induction m1 as [|[k' v'] m1 IH]; [reflexivity|].
  simpl. destruct (decide (k' = k)); [reflexivity|exact IH].
Qed.

Lemma m_get_remove m kx k :
  m_get (m_remove m kx) k = if decide (kx = k) then None else m_get m k.
Proof.
  unfold m_remove. induction m as [|[k' v'] m IH].
  - destruct (decide (kx = k)); reflexivity.
  - destruct (decide (k' = kx)) as [->|Hne].
    + rewrite filter_cons_False by (simpl; intros H; apply H; reflexivity).
      rewrite IH. simpl. destruct (decide (kx = k)); reflexivity.
    + rewrite filter_cons_True by (simpl; exact Hne).
      simpl. rewrite IH.
      destruct (decide (k' = k)) as [->|]; [|reflexivity].
      rewrite decide_False by congruence. reflexivity.
Qed.

Lemma m_get_put m kx vx k :
  m_get (m_put m kx vx) k = if decide (kx = k) then Some vx else m_get m k.
Proof.
  unfold m_put. rewrite m_get_app, m_get_remove. simpl.
  destruct (decide (kx = k)); [reflexivity|].
  destruct (m_get m k); reflexivity.
Qed.

Lemma m_get_fold_put kvs : forall m k,
  m_get (fold_left (fun m kv => m_put m (fst kv) (snd kv)) kvs m) k
  = from_option Some (m_get m k) (m_get (reverse kvs) k).
Proof.
  induction kvs as [|[kx vx] kvs IH]; intros m k; [reflexivity|].
  cbn [fold_left fst snd]. rewrite IH, reverse_cons, m_get_app, m_get_put.
  destruct (m_get (reverse kvs) k); [reflexivity|].
  simpl. destruct (decide (kx = k)); reflexivity.
Qed.

Lemma m_get_model_of_puts kvs k : m_get (model_of_puts kvs) k = m_get (reverse kvs) k.
Proof.
  unfold model_of_puts. rewrite m_get_fold_put.
  destruct (m_get (reverse kvs) k); reflexivity.
Qed.

Lemma model_of_puts_keys kvs k : k ∈ (fst <$> model_of_puts kvs) <-> k ∈ (fst <$> kvs).
Proof.
  rewrite <- (m_get_keys (model_of_puts kvs)), m_get_model_of_puts, m_get_keys,
    fmap_reverse.
  apply elem_of_reverse.
Qed.

(** ** The bindings read off the buckets *)

Lemma binds_binding_of t i k v :
  binds t i k v -> binding_of t (bucket_at (ht_index t) i) = (k, v).
Proof.
  intros (_ & _ & [Hlen Htake] & Hv). unfold binding_of.
  rewrite Hlen, Nat2Z.id, Htake, Hv. reflexivity.
Qed.

Lemma elem_of_occupied_buckets index b :
  b ∈ occupied_buckets index <->
  exists i, 0 <= i < Z.of_nat (length index) /\ bucket_at index i = b /\
            is_occupied b = true.
Proof.
  unfold occupied_buckets. rewrite list_elem_of_filter. split.
  - intros [Ho Hin]. apply list_elem_of_lookup in Hin. destruct Hin as [i Hi].
    pose proof (lookup_lt_Some _ _ _ Hi) as Hlt.
    exists (Z.of_nat i). split; [lia|].
    split; [unfold bucket_at; rewrite Nat2Z.id, Hi; reflexivity|].
    destruct (is_occupied b); [reflexivity|contradiction].
  - intros (i & Hi & Hb & Ho). split; [rewrite Ho; exact I|].
    rewrite <- Hb. eapply list_elem_of_lookup_2. apply bucket_at_lookup. exact Hi.
Qed.

Lemma occupied_buckets_NoDup t : HT_inv t -> NoDup (occupied_buckets (ht_index t)).
Proof.
  intros Hinv. apply (NoDup_fmap_1 b_loc).
  apply (sublist_NoDup _ (used_locs (ht_index t))); [apply (inv_nodup t Hinv)|].
  apply occupied_locs_sublist.
Qed.

(** The bindings of the OCCUPIED buckets are those of the map, each once. *)
Lemma contents_perm t m : MAP t m -> NoDup (fst <$> m) -> contents t ≡ₚ m.
Proof.
  intros Hmp Hnd.
  pose proof (mp_inv t m Hmp) as Hinv.
  pose proof (inv_index_len t Hinv) as Hilen.
  assert (Hslot : forall b, b ∈ occupied_buckets (ht_index t) ->
            exists i k v, 0 <= i < ht_cap t /\ bucket_at (ht_index t) i = b /\
              (k, v) ∈ m /\ binds t i k v /\ binding_of t b = (k, v)).
  { intros b Hb. apply elem_of_occupied_buckets in Hb.
    destruct Hb as (i & Hi & Hbi & Ho). rewrite Hilen in Hi. rewrite <- Hbi in Ho.
    destruct (mp_occupied t m Hmp i Hi Ho) as (k & v & Hin & Hbinds).
    exists i, k, v. split; [exact Hi|]. split; [exact Hbi|]. split; [exact Hin|].
    split; [exact Hbinds|]. rewrite <- Hbi. apply binds_binding_of. exact Hbinds. }
  apply NoDup_Permutation.
  - apply NoDup_fmap_2_strong; [|apply occupied_buckets_NoDup; exact Hinv].
    intros b1 b2 Hb1 Hb2 Heq.
    destruct (Hslot b1 Hb1) as (i1 & k1 & v1 & Hi1 & Hbi1 & _ & Hbinds1 & Hbo1).
    destruct (Hslot b2 Hb2) as (i2 & k2 & v2 & Hi2 & Hbi2 & _ & Hbinds2 & Hbo2).
    rewrite Hbo1, Hbo2 in Heq. injection Heq as -> ->.
    rewrite <- Hbi1, <- Hbi2. f_equal.
    eapply (mp_unique t m Hmp); eassumption.
  - apply (NoDup_fmap_1 fst). exact Hnd.
  - intros [k v]. unfold contents. rewrite list_elem_of_fmap. split.
    + intros [b [Heq Hb]].
      destruct (Hslot b Hb) as (i & k' & v' & _ & _ & Hin & _ & Hbo).
      rewrite Heq, Hbo. exact Hin.
    + intros Hin. destruct (mp_bound t m Hmp k v Hin) as [i [Hi Hbinds]].
      exists (bucket_at (ht_index t) i).
      split; [symmetry; apply binds_binding_of; exact Hbinds|].
      apply elem_of_occupied_buckets. exists i.
      split; [lia|]. split; [reflexivity|apply Hbinds].
Qed.

Lemma MAP_count t m : MAP t m -> NoDup (fst <$> m) -> ht_n t = Z.of_nat (length m).
Proof.
  intros Hmp Hnd. rewrite (inv_n t (mp_inv t m Hmp)).
  rewrite <- (Permutation_length (contents_perm t m Hmp Hnd)).
  unfold contents. rewrite length_fmap. reflexivity.
Qed.

Lemma free_calls_contents t (index : list HT_BUCKET_T) :
  flat_map
    (fun b =>
       if is_occupied b then
         if negb (e_v (entry_at (ht_values t) (b_loc b)) =? NULL)
         then [e_v (entry_at (ht_values t) (b_loc b))] else []
       else []) index
  = filter (fun v => v <> NULL) (snd <$> (binding_of t <$> occupied_buckets index)).
Proof.
  unfold occupied_buckets. induction index as [|b index IH]; [reflexivity|].
  cbn [flat_map]. rewrite IH.
  destruct (is_occupied b) eqn:Ho.
  - rewrite (filter_cons_True (fun b => is_occupied b)) by (rewrite Ho; exact I).
    rewrite !fmap_cons. cbn [binding_of snd].
    destruct (Z.eqb_spec (e_v (entry_at (ht_values t) (b_loc b))) NULL) as [Heq|Hne];
      cbn [negb app].
    + rewrite filter_cons_False by (intros H; apply H; exact Heq). reflexivity.
    + rewrite filter_cons_True by exact Hne. reflexivity.
  - rewrite (filter_cons_False (fun b => is_occupied b)) by (rewrite Ho; exact id).
    reflexivity.
Qed.

Lemma MAP_free t m :
  MAP t m -> NoDup (fst <$> m) ->
  HT_free (Some t) ≡ₚ filter (fun v => v <> NULL) (snd <$> m).
Proof.
  intros Hmp Hnd. unfold HT_free.
  pose proof (inv_index_len t (mp_inv t m Hmp)) as Hilen.
  rewrite <- Hilen, buckets_upto_all, free_calls_contents.
  fold (contents t). rewrite (contents_perm t m Hmp Hnd). reflexivity.
Qed.

(** ** Sequences of calls *)

Lemma MAP_new a requested_capacity t :
  HT_new a requested_capacity = Some t -> MAP t [] /\ no_tombstone t.
Proof.
  intros Hnew. pose proof (RT_new a requested_capacity t Hnew) as Hrt.
  split; [apply RT_MAP; exact Hrt|apply (rt_no_deleted t [] Hrt)].
Qed.

Lemma wf_contents_nil lo : wf_contents lo [].
Proof. split; [apply Forall_nil_2|simpl; apply NoDup_nil_2]. Qed.

Lemma resizes_succeed_put t k v ops :
  Z.of_nat (length k) <= HT_MAX_KEY_LEN - 2 ->
  resizes_succeed t (OpPut alloc_ok (Some k) (Z.of_nat (length k)) v :: ops) = true ->
  (needs_expand t = true -> _HT_expand alloc_ok t <> None) /\
  resizes_succeed (apply_op t (OpPut alloc_ok (Some k) (Z.of_nat (length k)) v)) ops
  = true.
Proof.
  intros Hlen Hok. cbn [resizes_succeed] in Hok.
  apply andb_true_iff in Hok. destruct Hok as [Hhere Hrest].
  split; [|exact Hrest].
  intros Hneed Hnone. rewrite Hneed, Hnone in Hhere.
  destruct (Z.leb_spec (Z.of_nat (length k)) (HT_MAX_KEY_LEN - 1)); [|lia].
  discriminate.
Qed.

Lemma MAP_run lo : forall cs t m,
  -255 <= lo <= 0 -> MAP t m -> wf_contents lo m ->
  Forall (wf_call lo) cs -> puts_absent m cs ->
  resizes_succeed t (op_of_call <$> cs) = true ->
  MAP (run t (op_of_call <$> cs)) (model_run m cs) /\
  wf_contents lo (model_run m cs).
Proof.
  induction cs as [|c cs IH]; intros t m Hlo Hmp Hwf Hcalls Habs Hok;
    [split; assumption|].
  apply Forall_cons in Hcalls. destruct Hcalls as [Hc Hcalls].
  destruct Habs as [Hhere Habs].
  rewrite fmap_cons in Hok |- *. cbn [run fold_left model_run].
  destruct c as [k v|k]; cbn [op_of_call model_step wf_call] in *.
  - destruct Hc as [Hwfk Hlen].
    destruct (resizes_succeed_put t k v _ Hlen Hok) as [Halloc Hrest].
    pose proof (wf_contents_put lo m k v Hwf Hwfk Hlen) as Hwf'.
    apply IH; try assumption.
    unfold m_put in *. rewrite (m_remove_absent m k Hhere) in *.
    apply (MAP_put_fresh lo); assumption.
  - apply IH; try assumption.
    + apply (MAP_remove lo); assumption.
    + apply wf_contents_remove. exact Hwf.
Qed.

Lemma MAP_puts_run lo : forall kvs t m,
  -255 <= lo <= 0 -> MAP t m -> no_tombstone t -> wf_contents lo m ->
  Forall (fun kv => wf_key lo (fst kv)
                    /\ Z.of_nat (length (fst kv)) <= HT_MAX_KEY_LEN - 2) kvs ->
  resizes_succeed t (puts_of kvs) = true ->
  MAP (run t (puts_of kvs))
    (fold_left (fun m kv => m_put m (fst kv) (snd kv)) kvs m) /\
  wf_contents lo (fold_left (fun m kv => m_put m (fst kv) (snd kv)) kvs m).
Proof.
  induction kvs as [|[k v] kvs IH]; intros t m Hlo Hmp Hclean Hwf Hkeys Hok;
    [split; assumption|].
  apply Forall_cons in Hkeys. destruct Hkeys as [[Hwfk Hlen] Hkeys].
  cbn [fst snd] in Hwfk, Hlen.
  cbn [puts_of map fst snd] in Hok |- *.
  destruct (resizes_succeed_put t k v _ Hlen Hok) as [Halloc Hrest].
  pose proof (wf_contents_put lo m k v Hwf Hwfk Hlen) as Hwf'.
  cbn [run fold_left fst snd].
  assert (Hstep : MAP (apply_op t (OpPut alloc_ok (Some k) (Z.of_nat (length k)) v))
                    (m_put m k v) /\
                  no_tombstone
                    (apply_op t (OpPut alloc_ok (Some k) (Z.of_nat (length k)) v))).
  { destruct (decide (k ∈ (fst <$> m))) as [Hin|Hnotin].
    - apply list_elem_of_fmap in Hin. destruct Hin as [[k' v0] [Heq Hin]].
      simpl in Heq. subst k'.
      apply (MAP_put_update lo alloc_ok t m k v0 v); assumption.
    - unfold m_put in *. rewrite (m_remove_absent m k Hnotin) in *.
      destruct (MAP_put_fresh lo alloc_ok t m k v Hlo Hmp Hwf' Halloc) as [H1 H2].
      split; [exact H1|apply H2; exact Hclean]. }
  destruct Hstep as [Hmp' Hclean'].
  apply IH; assumption.
Qed.

(** ** The table against the reference map *)

(** X1.  After any sequence of puts of terminated keys of at most 30
    characters into a freshly constructed table, no resize failing, a lookup
    of a key returns the value of the last put of that key, and NULL if the
    key was never put; [HT_exists] tells the two apart; and the count is the
    number of distinct keys. *)
Theorem puts_keep_last_value lo a requested_capacity t0 kvs :
  -255 <= lo <= 0 ->
  HT_new a requested_capacity = Some t0 ->
  Forall (fun kv => wf_key lo (fst kv)
                    /\ Z.of_nat (length (fst kv)) <= HT_MAX_KEY_LEN - 2) kvs ->
  resizes_succeed t0 (puts_of kvs) = true ->
  ht_n (run t0 (puts_of kvs)) = Z.of_nat (length (remove_dups (fst <$> kvs))) /\
  forall k, wf_key lo k ->
    HT_get (Some (run t0 (puts_of kvs))) (Some k) (Z.of_nat (length k))
    = last_value kvs k /\
    HT_exists (Some (run t0 (puts_of kvs))) (Some k) (Z.of_nat (length k))
    = bool_decide (k ∈ (fst <$> kvs)).
Proof.
  intros Hlo Hnew Hkeys Hok.
  destruct (MAP_new a requested_capacity t0 Hnew) as [Hmp0 Hclean0].
  destruct (MAP_puts_run lo kvs t0 [] Hlo Hmp0 Hclean0 (wf_contents_nil lo) Hkeys Hok)
    as [Hmp Hwf].
  fold (model_of_puts kvs) in Hmp, Hwf.
  split.
  - rewrite (MAP_count _ _ Hmp (proj2 Hwf)).
    rewrite <- (length_fmap fst). f_equal. apply Permutation_length.
    apply NoDup_Permutation; [apply Hwf|apply NoDup_remove_dups|].
    intros k. rewrite elem_of_remove_dups. apply model_of_puts_keys.
  - intros k Hwfk.
    destruct (MAP_get lo _ _ k Hlo Hmp Hwf Hwfk) as [Hget Hex].
    rewrite Hget, Hex. unfold last_value. rewrite m_get_model_of_puts.
    split; [reflexivity|].
    apply bool_decide_ext. apply model_of_puts_keys.
Qed.

Lemma puts_keep_last_value_witness :
  ht_n (run (fresh_table 16) (puts_of sample_puts))
  = Z.of_nat (length (remove_dups (fst <$> sample_puts))) /\
  forall k, wf_key 0 k ->
    HT_get (Some (run (fresh_table 16) (puts_of sample_puts))) (Some k)
      (Z.of_nat (length k))
    = last_value sample_puts k /\
    HT_exists (Some (run (fresh_table 16) (puts_of sample_puts))) (Some k)
      (Z.of_nat (length k))
    = bool_decide (k ∈ (fst <$> sample_puts)).
Proof.
  apply (puts_keep_last_value 0 alloc_ok 16 (fresh_table 16) sample_puts).
  - lia.
  - reflexivity.
  - apply (bool_decide_eq_true_1
             (Forall (fun kv => wf_key 0 (fst kv)
                                /\ Z.of_nat (length (fst kv)) <= HT_MAX_KEY_LEN - 2)
                sample_puts)).
    vm_compute. reflexivity.
  - vm_compute. reflexivity.
Defined.

(** X2.  Take any sequence of puts and removals of terminated keys, the
    keys put being of at most 30 characters, in which no put names a key
    that is in the table at that point, no resize failing.  After it the
    table agrees with the association list the same calls build: the count
    is its length, a lookup of a key returns its value in the list, NULL if
    it has none, and [HT_exists] tells whether it has one. *)
Theorem table_agrees_with_map lo a requested_capacity t0 cs :
  -255 <= lo <= 0 ->
  HT_new a requested_capacity = Some t0 ->
  Forall (wf_call lo) cs ->
  puts_absent [] cs ->
  resizes_succeed t0 (op_of_call <$> cs) = true ->
  ht_n (run t0 (op_of_call <$> cs)) = Z.of_nat (length (model_run [] cs)) /\
  forall k, wf_key lo k ->
    HT_get (Some (run t0 (op_of_call <$> cs))) (Some k) (Z.of_nat (length k))
    = default NULL (m_get (model_run [] cs) k) /\
    HT_exists (Some (run t0 (op_of_call <$> cs))) (Some k) (Z.of_nat (length k))
    = bool_decide (k ∈ (fst <$> model_run [] cs)).
Proof.
  intros Hlo Hnew Hcalls Habs Hok.
  destruct (MAP_new a requested_capacity t0 Hnew) as [Hmp0 _].
  destruct (MAP_run lo cs t0 [] Hlo Hmp0 (wf_contents_nil lo) Hcalls Habs Hok)
    as [Hmp Hwf].
  split; [apply (MAP_count _ _ Hmp (proj2 Hwf))|].
  intros k Hwfk. apply (MAP_get lo); assumption.
Qed.

Lemma table_agrees_with_map_witness :
  ht_n (run (fresh_table 16) (op_of_call <$> sample_calls))
  = Z.of_nat (length (model_run [] sample_calls)) /\
  forall k, wf_key 0 k ->
    HT_get (Some (run (fresh_table 16) (op_of_call <$> sample_calls))) (Some k)
      (Z.of_nat (length k))
    = default NULL (m_get (model_run [] sample_calls) k) /\
    HT_exists (Some (run (fresh_table 16) (op_of_call <$> sample_calls))) (Some k)
      (Z.of_nat (length k))
    = bool_decide (k ∈ (fst <$> model_run [] sample_calls)).
Proof.
  apply (table_agrees_with_map 0 alloc_ok 16 (fresh_table 16) sample_calls).
  - lia.
  - reflexivity.
  - apply (bool_decide_eq_true_1 (Forall (wf_call 0) sample_calls)).
    vm_compute. reflexivity.
  - apply (bool_decide_eq_true_1 (puts_absent [] sample_calls)).
    vm_compute. reflexivity.
  - vm_compute. reflexivity.
Defined.

(** X3.  After such a sequence of calls [HT_free] hands to the
    deallocator the values the association list holds that are not NULL,
    each once: a value that was removed or replaced is not among them. *)
Theorem free_releases_stored_values lo a requested_capacity t0 cs :
  -255 <= lo <= 0 ->
  HT_new a requested_capacity = Some t0 ->
  Forall (wf_call lo) cs ->
  puts_absent [] cs ->
  resizes_succeed t0 (op_of_call <$> cs) = true ->
  HT_free (Some (run t0 (op_of_call <$> cs)))
  ≡ₚ filter (fun v => v <> NULL) (snd <$> model_run [] cs).
Proof.
  intros Hlo Hnew Hcalls Habs Hok.
  destruct (MAP_new a requested_capacity t0 Hnew) as [Hmp0 _].
  destruct (MAP_run lo cs t0 [] Hlo Hmp0 (wf_contents_nil lo) Hcalls Habs Hok)
    as [Hmp Hwf].
  apply (MAP_free _ _ Hmp (proj2 Hwf)).
Qed.

Lemma free_releases_stored_values_witness :
  HT_free (Some (run (fresh_table 16) (op_of_call <$> sample_calls)))
  ≡ₚ filter (fun v => v <> NULL) (snd <$> model_run [] sample_calls).
Proof.
  apply (free_releases_stored_values 0 alloc_ok 16 (fresh_table 16) sample_calls).
  - lia.
  - reflexivity.
  - apply (bool_decide_eq_true_1 (Forall (wf_call 0) sample_calls)).
    vm_compute. reflexivity.
  - apply (bool_decide_eq_true_1 (puts_absent [] sample_calls)).
    vm_compute. reflexivity.
  - vm_compute. reflexivity.
Defined.
(** * Laws on every reachable table *)

(** ** The outcomes of the probe loop of a put *)

Lemma HT_put_loop_cases fuel : forall t key key_len value h d0,
  (HT_put_loop fuel t key key_len value h d0 = (t, NULL) /\
   forall d', d0 <= d' < d0 + Z.of_nat fuel ->
     is_occupied (bucket_at (ht_index t) (HT_CALC_LOC t (wrap64 (h + d')))) = true /\
     key_matches t key key_len h
       (bucket_at (ht_index t) (HT_CALC_LOC t (wrap64 (h + d')))) = false)
  \/
  exists d, d0 <= d < d0 + Z.of_nat fuel /\
    (forall d', d0 <= d' < d ->
       is_occupied (bucket_at (ht_index t) (HT_CALC_LOC t (wrap64 (h + d')))) = true /\
       key_matches t key key_len h
         (bucket_at (ht_index t) (HT_CALC_LOC t (wrap64 (h + d')))) = false) /\
    ((key_matches t key key_len h
        (bucket_at (ht_index t) (HT_CALC_LOC t (wrap64 (h + d)))) = true /\
      HT_put_loop fuel t key key_len value h d0
      = (set_value t (HT_CALC_LOC t (wrap64 (h + d))) value, value))
     \/
     (is_occupied (bucket_at (ht_index t) (HT_CALC_LOC t (wrap64 (h + d)))) = false /\
      HT_put_loop fuel t key key_len value h d0
      = (insert_at t (HT_CALC_LOC t (wrap64 (h + d))) h key key_len value d, value))).
Proof.
  induction fuel as [|fuel IH]; intros t key key_len value h d0.
  - left. split; [reflexivity|]. intros d' Hd'. lia.
  - cbn [HT_put_loop].
    set (s := HT_CALC_LOC t (wrap64 (h + d0))).
    set (b := bucket_at (ht_index t) s).
    assert (Hkm : key_matches t key key_len h b
                  = is_occupied b && (b_hashcode b =? h)
                    && ((e_k_len (entry_at (ht_values t) (b_loc b)) =? key_len)
                        && (ht_cmp t key (e_k (entry_at (ht_values t) (b_loc b))) key_len
                            =? 0))) by reflexivity.
    assert (Hcont :
      is_occupied b = true -> key_matches t key key_len h b = false ->
      (HT_put_loop fuel t key key_len value h (d0 + 1) = (t, NULL) /\
       forall d', d0 <= d' < d0 + Z.of_nat (S fuel) ->
         is_occupied (bucket_at (ht_index t) (HT_CALC_LOC t (wrap64 (h + d')))) = true /\
         key_matches t key key_len h
           (bucket_at (ht_index t) (HT_CALC_LOC t (wrap64 (h + d')))) = false)
      \/
      exists d, d0 <= d < d0 + Z.of_nat (S fuel) /\
        (forall d', d0 <= d' < d ->
           is_occupied (bucket_at (ht_index t) (HT_CALC_LOC t (wrap64 (h + d')))) = true /\
           key_matches t key key_len h
             (bucket_at (ht_index t) (HT_CALC_LOC t (wrap64 (h + d')))) = false) /\
        ((key_matches t key key_len h
            (bucket_at (ht_index t) (HT_CALC_LOC t (wrap64 (h + d)))) = true /\
          HT_put_loop fuel t key key_len value h (d0 + 1)
          = (set_value t (HT_CALC_LOC t (wrap64 (h + d))) value, value))
         \/
         (is_occupied (bucket_at (ht_index t) (HT_CALC_LOC t (wrap64 (h + d)))) = false /\
          HT_put_loop fuel t key key_len value h (d0 + 1)
          = (insert_at t (HT_CALC_LOC t (wrap64 (h + d))) h key key_len value d, value)))).
    { intros Ho Hno.
      assert (Hhere : forall d', d0 <= d' < d0 + 1 ->
                is_occupied (bucket_at (ht_index t) (HT_CALC_LOC t (wrap64 (h + d'))))
                = true /\
                key_matches t key key_len h
                  (bucket_at (ht_index t) (HT_CALC_LOC t (wrap64 (h + d')))) = false).
      { intros d' Hd'. replace d' with d0 by lia. split; assumption. }
      destruct (IH t key key_len value h (d0 + 1))
        as [[Hr Hall]|[d [Hd [Hbefore Hcase]]]].
      - left. split; [exact Hr|]. intros d' Hd'.
        destruct (Z_lt_dec d' (d0 + 1)); [apply Hhere; lia|apply Hall; lia].
      - right. exists d. split; [lia|]. split; [|exact Hcase].
        intros d' Hd'.
        destruct (Z_lt_dec d' (d0 + 1)); [apply Hhere; lia|apply Hbefore; lia]. }
    destruct (is_occupied b) eqn:Ho.
    + destruct (b_hashcode b =? h) eqn:Hh; cbn [andb negb].
      * destruct (_ && _) eqn:Hin.
        -- right. exists d0. split; [lia|]. split; [intros d' Hd'; lia|].
           left. fold s b. split; [|reflexivity].
           rewrite Hkm, ?Ho, ?Hh, ?Hin. reflexivity.
        -- apply Hcont; [reflexivity|]. rewrite Hkm, ?Ho, ?Hh, ?Hin. reflexivity.
      * apply Hcont; [reflexivity|]. rewrite Hkm, ?Ho, ?Hh. reflexivity.
    + cbn [andb negb]. right. exists d0. split; [lia|].
      split; [intros d' Hd'; lia|]. right. fold s b. split; [exact Ho|reflexivity].
Qed.

(** ** The shape is kept by every operation *)

Lemma store_k_length e i c : length (e_k (store_k e i c)) = length (e_k e).
Proof.
  unfold store_k. destruct (i <? HT_MAX_KEY_LEN); [apply array_set_length|].
  destruct (i <? HT_MAX_KEY_LEN + 4); reflexivity.
Qed.

Lemma write_key_length e key key_len :
  length (e_k (write_key e key key_len)) = length (e_k e).
Proof.
  unfold write_key. generalize (key_stores key key_len). intros stores.
  revert e. induction stores as [|ic stores IH]; intros e; [reflexivity|].
  simpl. rewrite IH. apply store_k_length.
Qed.

Lemma paths_ok_probe_paths_ok t : paths_ok t -> probe_paths_ok t.
Proof.
  intros Hpaths s Hs Hocc.
  destruct (Hpaths s Hs Hocc) as [d [Hd [Hslot Hpath]]].
  exists d. split; [exact Hd|]. split; [exact Hslot|].
  intros d' Hd'. destruct (Hpath d' Hd') as [Ho Hne].
  split; [apply is_occupied_not_empty; exact Ho|exact Hne].
Qed.

Lemma entry_buf_length t l :
  Forall (fun e => length (e_k e) = Z.to_nat HT_MAX_KEY_LEN) (ht_values t) ->
  length (e_k (entry_at (ht_values t) l)) = Z.to_nat HT_MAX_KEY_LEN.
Proof.
  intros Hbufs.
  apply (entry_at_Forall (fun e => length (e_k e) = Z.to_nat HT_MAX_KEY_LEN)
           (ht_values t) l Hbufs empty_entry_buf).
Qed.

Lemma shape_set_value t i v : HT_shape t -> HT_shape (set_value t i v).
Proof.
  intros [Hinv Hpaths Hbufs]. constructor.
  - apply (HT_inv_frame t _ Hinv); try reflexivity.
    cbn [set_value ht_values]. rewrite array_set_length. reflexivity.
  - exact Hpaths.
  - cbn [set_value ht_values]. apply Forall_insert; [exact Hbufs|].
    cbn [e_k]. apply entry_buf_length. exact Hbufs.
Qed.

Lemma shape_insert_at t h key key_len value d :
  HT_shape t -> ht_ins_loc t < ht_cap t -> 0 <= d ->
  is_occupied (bucket_at (ht_index t) (HT_CALC_LOC t (wrap64 (h + d)))) = false ->
  (forall d', 0 <= d' < d ->
     is_occupied (bucket_at (ht_index t) (HT_CALC_LOC t (wrap64 (h + d')))) = true) ->
  HT_shape (insert_at t (HT_CALC_LOC t (wrap64 (h + d))) h key key_len value d).
Proof.
  intros [Hinv Hpaths Hbufs] Hins Hd Hfree Hbefore.
  set (s := HT_CALC_LOC t (wrap64 (h + d))) in *.
  set (t' := insert_at t s h key key_len value d).
  pose proof (inv_index_len t Hinv) as Hilen.
  assert (Hs : 0 <= s < ht_cap t) by (apply calc_loc_range; exact Hinv).
  set (L := if is_empty (bucket_at (ht_index t) s) then ht_ins_loc t
            else b_loc (bucket_at (ht_index t) s)).
  assert (Hvals : ht_values t' =
            array_set (ht_values t) L
              (write_key (mkEntry (e_k (entry_at (ht_values t) L)) key_len value)
                 key key_len)) by reflexivity.
  assert (Hmpr : ht_max_probe t' = if d >? ht_max_probe t then d else ht_max_probe t)
    by reflexivity.
  constructor.
  - destruct (HT_inv_insert t t' s h Hinv Hs Hfree Hins) as [Hinv' _];
      try reflexivity; [|exact Hinv'].
    rewrite Hvals, array_set_length. reflexivity.
  - apply (probe_paths_ok_set t t' s (mkBucket h L HT_BUCKET_OCCUPIED));
      try assumption; try reflexivity.
    + destruct (inv_cap t Hinv) as [k0 [Hk0 Hc0]]. exists k0. split; [lia|exact Hc0].
    + rewrite Hmpr. destruct (Z.gtb_spec d (ht_max_probe t)); lia.
    + intros _. exists d. cbn [b_hashcode].
      split; [rewrite Hmpr; destruct (Z.gtb_spec d (ht_max_probe t)); lia|].
      split; [reflexivity|].
      intros d' Hd'. pose proof (Hbefore d' Hd') as Ho.
      split; [apply is_occupied_not_empty; exact Ho|].
      intros Heq. rewrite Heq in Ho. fold s in Hfree. congruence.
  - rewrite Hvals. apply Forall_insert; [exact Hbufs|].
    rewrite write_key_length. cbn [e_k]. apply entry_buf_length. exact Hbufs.
Qed.

Lemma shape_remove_at t i :
  HT_shape t -> 0 <= i < ht_cap t ->
  is_occupied (bucket_at (ht_index t) i) = true ->
  HT_shape (remove_at t i).
Proof.
  intros [Hinv Hpaths Hbufs] Hi Hocc.
  set (t' := remove_at t i).
  pose proof (inv_index_len t Hinv) as Hilen.
  assert (Hvals : ht_values t' =
            array_set (ht_values t) (b_loc (bucket_at (ht_index t) i))
              (mkEntry
                 (array_set
                    (e_k (entry_at (ht_values t) (b_loc (bucket_at (ht_index t) i))))
                    0 0) 0 NULL))
    by reflexivity.
  constructor.
  - destruct (HT_inv_remove t t' i Hinv Hi Hocc) as [Hinv' _];
      try reflexivity; [|exact Hinv'].
    rewrite Hvals, array_set_length. reflexivity.
  - apply (probe_paths_ok_set t t' i
             (mkBucket 0 (b_loc (bucket_at (ht_index t) i)) HT_DELETED_BUCKET));
      try assumption; try reflexivity.
    + destruct (inv_cap t Hinv) as [k0 [Hk0 Hc0]]. exists k0. split; [lia|exact Hc0].
    + intros Hcontra. discriminate.
  - rewrite Hvals. apply Forall_insert; [exact Hbufs|].
    cbn [e_k]. rewrite array_set_length. apply entry_buf_length. exact Hbufs.
Qed.

Lemma shape_expand a t t' :
  HT_shape t -> _HT_expand a t = Some t' -> HT_shape t'.
Proof.
  intros [Hinv Hpaths Hbufs] Hexp.
  pose proof (inv_cap_range t Hinv) as Hrange.
  pose proof (inv_index_len t Hinv) as Hilen.
  pose proof (inv_values_len t Hinv) as Hvlen.
  destruct (_HT_expand_inv a t t' Hinv Hexp) as (Hinv' & _).
  destruct (_HT_expand_shape a t t' Hinv Hexp) as ([k [Hk Hpow]] & Hfold & Hrb).
  pose proof (rb_values _ _ _ Hrb) as Hvals. simpl in Hvals.
  constructor.
  - exact Hinv'.
  - apply paths_ok_probe_paths_ok. rewrite Hfold.
    apply (rebuild_paths_fold (resized_empty t (2 * ht_cap t)) k (ht_index t) _ []);
      [lia|exact Hpow| | |simpl; lia].
    + constructor; try reflexivity.
      * simpl. rewrite length_replicate. lia.
      * simpl. apply Forall_replicate. reflexivity.
      * simpl. rewrite occupied_replicate_empty. reflexivity.
    + intros s _ Hocc. simpl in Hocc. rewrite bucket_at_replicate in Hocc.
      discriminate.
  - rewrite Hvals, <- Hvlen. apply copy_values_Forall.
    + apply Forall_replicate. exact empty_entry_buf.
    + intros i. apply entry_at_Forall; [exact Hbufs|exact empty_entry_buf].
Qed.

Lemma shape_new a requested_capacity load_factor hashcode cmp dealloc t :
  HT_new_ex a requested_capacity load_factor hashcode cmp dealloc = Some t ->
  HT_shape t.
Proof.
  intros Hnew.
  destruct (HT_new_ex_inv _ _ _ _ _ _ _ Hnew) as [Hinv _].
  destruct (HT_new_ex_fields _ _ _ _ _ _ _ Hnew) as (_ & _ & c & Hidx & Hvals).
  constructor.
  - exact Hinv.
  - intros s _ Hocc. rewrite Hidx, bucket_at_replicate in Hocc. discriminate.
  - rewrite Hvals. apply Forall_replicate. exact empty_entry_buf.
Qed.

(** The table the probe loop of a put runs on. *)
Lemma put_start_shape a t :
  HT_shape t ->
  (if needs_expand t then _HT_expand a t else Some t) = None \/
  exists t1,
    (if needs_expand t then _HT_expand a t else Some t) = Some t1 /\
    HT_shape t1 /\ ht_n t1 < ht_cap t1 /\ ht_ins_loc t1 < ht_cap t1 /\
    ht_cmp t1 = ht_cmp t /\ ht_hashcode t1 = ht_hashcode t.
Proof.
  intros Hsh. pose proof (sh_inv t Hsh) as Hinv.
  pose proof (inv_cap_range t Hinv) as Hrange.
  pose proof (inv_used t Hinv) as Hused.
  pose proof (occupied_le_cap t Hinv) as Hle.
  destruct (needs_expand t) eqn:Hneed.
  - destruct (_HT_expand a t) as [t1|] eqn:Hexp; [right|left; reflexivity].
    destruct (_HT_expand_inv a t t1 Hinv Hexp) as (_ & Hc & Hn & Hi).
    destruct (_HT_expand_shape a t t1 Hinv Hexp) as (_ & Hfold & _).
    destruct (fold_expand_bucket_strategies (ht_index t)
                (resized_empty t (2 * ht_cap t))) as [Hcmp Hhash].
    rewrite <- Hfold in Hcmp, Hhash.
    exists t1. split; [reflexivity|]. split; [apply (shape_expand a t t1 Hsh Hexp)|].
    split; [lia|]. split; [lia|]. split; [exact Hcmp|exact Hhash].
  - right. exists t. unfold needs_expand in Hneed.
    apply orb_false_iff in Hneed. destruct Hneed as [Hneed Hins].
    apply orb_false_iff in Hneed. destruct Hneed as [_ Hn].
    apply Z.eqb_neq in Hn, Hins.
    split; [reflexivity|]. split; [exact Hsh|]. split; [lia|]. split; [lia|].
    split; reflexivity.
Qed.

Lemma apply_op_shape t o : HT_shape t -> HT_shape (apply_op t o).
Proof.
  intros Hsh.
  destruct o as [a key key_len value|key key_len|key key_len|key key_len];
    cbn [apply_op]; try exact Hsh.
  - unfold HT_put.
    destruct key as [key|]; [|exact Hsh].
    destruct (key_len >? HT_MAX_KEY_LEN - 1); [exact Hsh|].
    destruct (put_start_shape a t Hsh) as [->|(t1 & -> & Hsh1 & Hn1 & Hins1 & _)];
      [exact Hsh|].
    cbn [fst default from_option id].
    destruct (HT_put_loop_cases (Z.to_nat (ht_cap t1 + 1)) t1 key key_len value
                (wrap64 (ht_hashcode t1 key key_len)) 0)
      as [[-> _]|[d [Hd [Hbefore [[_ ->]|[Hfree ->]]]]]]; cbn [fst].
    + exact Hsh1.
    + apply shape_set_value. exact Hsh1.
    + apply shape_insert_at; try assumption; [lia|].
      intros d' Hd'. apply Hbefore. lia.
  - unfold HT_remove.
    destruct key as [key|]; [|exact Hsh].
    destruct (key_len >? HT_MAX_KEY_LEN - 1); [exact Hsh|].
    rewrite HT_remove_loop_find.
    destruct (probe_find _ t key key_len _ 0) as [i|] eqn:Hfind;
      cbn [fst default from_option id]; [|exact Hsh].
    destruct (probe_find_Some _ _ _ _ _ _ _ Hfind) as [Hm [d Hd]].
    apply shape_remove_at; [exact Hsh| |apply (key_matches_occupied _ _ _ _ _ Hm)].
    rewrite Hd. apply calc_loc_range. apply (sh_inv t Hsh).
Qed.

Lemma reachable_shape t : reachable t -> HT_shape t.
Proof.
  induction 1 as [a rc lf h c d t Hnew|t o _ IH].
  - apply (shape_new _ _ _ _ _ _ _ Hnew).
  - apply apply_op_shape. exact IH.
Qed.

(** ** A lookup finds a key exactly when a bucket holds it *)

Lemma probe_find_reaches fuel : forall t key key_len h d0 d,
  d0 <= d < d0 + Z.of_nat fuel ->
  (forall d', d0 <= d' < d ->
     is_empty (bucket_at (ht_index t) (HT_CALC_LOC t (wrap64 (h + d')))) = false) ->
  key_matches t key key_len h
    (bucket_at (ht_index t) (HT_CALC_LOC t (wrap64 (h + d)))) = true ->
  exists j, probe_find fuel t key key_len h d0 = Some j.
Proof.
  induction fuel as [|fuel IH]; intros t key key_len h d0 d Hd Hpath Hm; [lia|].
  cbn [probe_find].
  destruct (key_matches t key key_len h
              (bucket_at (ht_index t) (HT_CALC_LOC t (wrap64 (h + d0))))) eqn:Hm0;
    [eexists; reflexivity|].
  destruct (Z.eq_dec d d0) as [->|Hne]; [congruence|].
  rewrite (Hpath d0) by lia.
  apply (IH t key key_len h (d0 + 1) d); [lia| |exact Hm].
  intros d' Hd'. apply Hpath. lia.
Qed.

(** The slot a lookup stops at is the first on the probe path whose bucket
    matches, behind buckets that are not EMPTY. *)
Lemma probe_find_first fuel : forall t key key_len h d0 j,
  probe_find fuel t key key_len h d0 = Some j ->
  exists d, d0 <= d < d0 + Z.of_nat fuel /\
    j = HT_CALC_LOC t (wrap64 (h + d)) /\
    key_matches t key key_len h (bucket_at (ht_index t) j) = true /\
    forall d', d0 <= d' < d ->
      is_empty (bucket_at (ht_index t) (HT_CALC_LOC t (wrap64 (h + d')))) = false /\
      key_matches t key key_len h
        (bucket_at (ht_index t) (HT_CALC_LOC t (wrap64 (h + d')))) = false.
Proof.
  induction fuel as [|fuel IH]; intros t key key_len h d0 j Hfind; [discriminate|].
  cbn [probe_find] in Hfind.
  destruct (key_matches t key key_len h
              (bucket_at (ht_index t) (HT_CALC_LOC t (wrap64 (h + d0))))) eqn:Hm0.
  - injection Hfind as <-. exists d0. split; [lia|]. split; [reflexivity|].
    split; [exact Hm0|]. intros d' Hd'. lia.
  - destruct (is_empty (bucket_at (ht_index t) (HT_CALC_LOC t (wrap64 (h + d0)))))
      eqn:He0; [discriminate|].
    destruct (IH t key key_len h (d0 + 1) j Hfind) as [d [Hd [Hj [Hm Hbefore]]]].
    exists d. split; [lia|]. split; [exact Hj|]. split; [exact Hm|].
    intros d' Hd'.
    destruct (Z.eq_dec d' d0) as [->|Hne]; [split; assumption|apply Hbefore; lia].
Qed.

Lemma shape_holds_found t key key_len i :
  HT_shape t -> 0 <= i < ht_cap t -> holds t key key_len i = true ->
  exists j,
    probe_find (Z.to_nat (ht_max_probe t + 1)) t key key_len
      (wrap64 (ht_hashcode t key key_len)) 0 = Some j.
Proof.
  intros Hsh Hi Hholds. unfold holds in Hholds.
  set (h := wrap64 (ht_hashcode t key key_len)) in *.
  pose proof (key_matches_occupied _ _ _ _ _ Hholds) as Hocc.
  assert (Hh : b_hashcode (bucket_at (ht_index t) i) = h).
  { unfold key_matches in Hholds.
    apply andb_true_iff in Hholds. destruct Hholds as [Hholds _].
    apply andb_true_iff in Hholds. destruct Hholds as [_ Hholds].
    apply Z.eqb_eq. exact Hholds. }
  destruct (sh_paths t Hsh i Hi Hocc) as [d [Hd [Hslot Hpath]]].
  rewrite Hh in Hslot, Hpath.
  apply (probe_find_reaches _ t key key_len h 0 d); [lia| |rewrite <- Hslot; exact Hholds].
  intros d' Hd'. apply Hpath. lia.
Qed.

Lemma shape_exists_iff t key key_len :
  HT_shape t -> key_len <= HT_MAX_KEY_LEN - 1 ->
  HT_exists (Some t) (Some key) key_len = true <->
  exists i, 0 <= i < ht_cap t /\ holds t key key_len i = true.
Proof.
  intros Hsh Hlen. unfold HT_exists.
  destruct (Z.gtb_spec key_len (HT_MAX_KEY_LEN - 1)) as [Hgt|_]; [lia|].
  rewrite HT_exists_loop_find. split.
  - destruct (probe_find _ t key key_len _ 0) as [j|] eqn:Hfind; [|discriminate].
    intros _. destruct (probe_find_Some _ _ _ _ _ _ _ Hfind) as [Hm [d Hd]].
    exists j. split; [|exact Hm].
    rewrite Hd. apply calc_loc_range. apply (sh_inv t Hsh).
  - intros [i [Hi Hholds]].
    destruct (shape_holds_found t key key_len i Hsh Hi Hholds) as [j ->].
    reflexivity.
Qed.

(** X4.  On every reachable table, whatever its hasher and comparator,
    and for every key and length of at most 31, [HT_exists] returns 1
    exactly when some bucket of the index holds the key: OCCUPIED, with the
    key's hash, the key's length, and an entry the comparator reports equal.
    No binding is out of reach of a probe, and none is found that is not
    there. *)
Theorem exists_iff_some_bucket_holds t key key_len :
  reachable t ->
  key_len <= HT_MAX_KEY_LEN - 1 ->
  HT_exists (Some t) (Some key) key_len = true <->
  exists i, 0 <= i < ht_cap t /\ holds t key key_len i = true.
Proof.
  intros Hreach Hlen. apply shape_exists_iff; [|exact Hlen].
  apply reachable_shape. exact Hreach.
Qed.

Open Scope string_scope.

Lemma exists_iff_some_bucket_holds_witness :
  HT_exists (Some (run (fresh_table 16) [put_str "a" 1; put_str "q" 2; remove_str "a"]))
    (Some (cstr "q")) 1 = true <->
  exists i,
    0 <= i < ht_cap (run (fresh_table 16) [put_str "a" 1; put_str "q" 2; remove_str "a"])
    /\ holds (run (fresh_table 16) [put_str "a" 1; put_str "q" 2; remove_str "a"])
         (cstr "q") 1 i = true.
Proof.
  apply (exists_iff_some_bucket_holds
           (run (fresh_table 16) [put_str "a" 1; put_str "q" 2; remove_str "a"])
           (cstr "q") 1).
  - apply reachable_run. exact reachable_fresh_16.
  - vm_compute. discriminate.
Defined.

Close Scope string_scope.

(** ** A put is read back *)

Lemma get_at_first_match t key key_len d :
  HT_shape t -> key_len <= HT_MAX_KEY_LEN - 1 -> 0 <= d ->
  key_matches t key key_len (wrap64 (ht_hashcode t key key_len))
    (bucket_at (ht_index t)
       (HT_CALC_LOC t (wrap64 (wrap64 (ht_hashcode t key key_len) + d)))) = true ->
  (forall d', 0 <= d' < d ->
     key_matches t key key_len (wrap64 (ht_hashcode t key key_len))
       (bucket_at (ht_index t)
          (HT_CALC_LOC t (wrap64 (wrap64 (ht_hashcode t key key_len) + d')))) = false) ->
  HT_get (Some t) (Some key) key_len
  = e_v (entry_at (ht_values t)
           (b_loc (bucket_at (ht_index t)
                     (HT_CALC_LOC t (wrap64 (wrap64 (ht_hashcode t key key_len) + d))))))
  /\ HT_exists (Some t) (Some key) key_len = true.
Proof.
  intros Hsh Hlen Hd Hm Hbefore.
  set (h := wrap64 (ht_hashcode t key key_len)) in *.
  assert (Hr : 0 <= HT_CALC_LOC t (wrap64 (h + d)) < ht_cap t)
    by (apply calc_loc_range; apply (sh_inv t Hsh)).
  destruct (shape_holds_found t key key_len _ Hsh Hr Hm) as [j Hfind].
  fold h in Hfind.
  destruct (probe_find_first _ _ _ _ _ _ _ Hfind) as [dj [Hdj [Hj [Hmj Hbj]]]].
  assert (Heq : dj = d).
  { destruct (Z_lt_dec dj d) as [Hlt|Hge].
    - rewrite Hj, (Hbefore dj) in Hmj by lia. discriminate.
    - destruct (Z.eq_dec dj d) as [|Hne]; [assumption|exfalso].
      destruct (Hbj d ltac:(lia)) as [_ Hno]. congruence. }
  subst dj. unfold HT_get, HT_exists.
  destruct (Z.gtb_spec key_len (HT_MAX_KEY_LEN - 1)) as [Hgt|_]; [lia|].
  fold h. rewrite HT_get_loop_find, HT_exists_loop_find, Hfind, Hj.
  split; reflexivity.
Qed.

Lemma stores_key_cmp lo e key :
  -255 <= lo <= 0 -> wf_key lo key -> stores_key e key ->
  (e_k_len e =? Z.of_nat (length key))
  && (strncmp key (e_k e) (Z.of_nat (length key)) =? 0) = true.
Proof.
  intros Hlo Hwf [Hlen Htake]. rewrite Hlen, Z.eqb_refl. simpl.
  unfold strncmp. rewrite Nat2Z.id.
  rewrite <- (take_drop (length key) (e_k e)), Htake.
  rewrite (strncmp_loop_same lo) by assumption. reflexivity.
Qed.

Lemma key_matches_frame t t' key key_len h b :
  ht_cmp t' = ht_cmp t ->
  entry_at (ht_values t') (b_loc b) = entry_at (ht_values t) (b_loc b) ->
  key_matches t' key key_len h b = key_matches t key key_len h b.
Proof. intros Hcmp He. unfold key_matches. rewrite Hcmp, He. reflexivity. Qed.

(** Replacing a value changes what no key matches. *)
Lemma key_matches_set_value t i v key key_len h x :
  HT_inv t -> 0 <= i < ht_cap t -> is_occupied (bucket_at (ht_index t) i) = true ->
  0 <= x < ht_cap t ->
  key_matches (set_value t i v) key key_len h (bucket_at (ht_index t) x)
  = key_matches t key key_len h (bucket_at (ht_index t) x).
Proof.
  intros Hinv Hi Hocc Hx.
  pose proof (inv_used t Hinv) as Hused.
  pose proof (inv_values_len t Hinv) as Hvlen.
  pose proof (used_loc_range t i Hinv Hi (is_occupied_not_empty _ Hocc)) as Hri.
  destruct (is_occupied (bucket_at (ht_index t) x)) eqn:Hox;
    [|rewrite !not_occupied_no_match by exact Hox; reflexivity].
  pose proof (used_loc_range t x Hinv Hx (is_occupied_not_empty _ Hox)) as Hrx.
  unfold key_matches. cbn [set_value ht_values ht_cmp].
  destruct (Z.eq_dec (b_loc (bucket_at (ht_index t) x)) (b_loc (bucket_at (ht_index t) i)))
    as [Heq|Hne].
  - rewrite Heq, entry_at_set_eq by lia. reflexivity.
  - rewrite entry_at_set_ne by lia. reflexivity.
Qed.

(** The bucket and the entry an insertion writes. *)
Lemma insert_at_written t s h key key_len value d :
  HT_inv t -> 0 <= s < ht_cap t -> ht_ins_loc t < ht_cap t ->
  is_occupied (bucket_at (ht_index t) s) = false ->
  let L := if is_empty (bucket_at (ht_index t) s) then ht_ins_loc t
           else b_loc (bucket_at (ht_index t) s) in
  let t' := insert_at t s h key key_len value d in
  0 <= L < ht_cap t /\
  bucket_at (ht_index t') s = mkBucket h L HT_BUCKET_OCCUPIED /\
  entry_at (ht_values t') L
  = write_key (mkEntry (e_k (entry_at (ht_values t) L)) key_len value) key key_len /\
  forall x, 0 <= x < ht_cap t -> x <> s ->
    bucket_at (ht_index t') x = bucket_at (ht_index t) x /\
    (is_occupied (bucket_at (ht_index t) x) = true ->
     entry_at (ht_values t') (b_loc (bucket_at (ht_index t) x))
     = entry_at (ht_values t) (b_loc (bucket_at (ht_index t) x))).
Proof.
  intros Hinv Hs Hins Hfree L t'.
  pose proof (inv_index_len t Hinv) as Hilen.
  pose proof (inv_values_len t Hinv) as Hvlen.
  pose proof (inv_used t Hinv) as Hused.
  assert (HL : 0 <= L < ht_cap t).
  { subst L. destruct (is_empty (bucket_at (ht_index t) s)) eqn:He; [lia|].
    pose proof (used_loc_range t s Hinv Hs He). lia. }
  split; [exact HL|].
  split; [apply bucket_at_set_eq; lia|].
  split; [apply entry_at_set_eq; lia|].
  intros x Hx Hne. split; [apply bucket_at_set_ne; lia|].
  intros Hox.
  pose proof (used_loc_range t x Hinv Hx (is_occupied_not_empty _ Hox)) as Hrx.
  apply entry_at_set_ne; [lia|lia|].
  subst L. destruct (is_empty (bucket_at (ht_index t) s)) eqn:He; [lia|].
  intros Heq. apply (used_loc_distinct t s x Hinv Hs Hx He
                       (is_occupied_not_empty _ Hox)); [congruence|exact Heq].
Qed.

(** X5.  On every reachable table whose comparator is [strncmp], whatever
    its history and its hasher, a put of a terminated key of at most 30
    characters that does not fail on a resize is read back: [HT_get] returns
    the value just put and [HT_exists] returns 1. *)
Theorem put_then_get lo a t key value :
  reachable t ->
  ht_cmp t = strncmp ->
  -255 <= lo <= 0 -> wf_key lo key ->
  Z.of_nat (length key) <= HT_MAX_KEY_LEN - 2 ->
  (needs_expand t = true -> _HT_expand a t <> None) ->
  HT_get (Some (apply_op t (OpPut a (Some key) (Z.of_nat (length key)) value)))
    (Some key) (Z.of_nat (length key)) = value /\
  HT_exists (Some (apply_op t (OpPut a (Some key) (Z.of_nat (length key)) value)))
    (Some key) (Z.of_nat (length key)) = true.
Proof.
  intros Hreach Hcmp Hlo Hwf Hlen Halloc.
  pose proof (reachable_shape t Hreach) as Hsh.
  destruct (put_start_shape a t Hsh)
    as [Hnone|(t1 & Ht1 & Hsh1 & Hn1 & Hins1 & Hcmp1 & Hhash1)].
  { exfalso. destruct (needs_expand t); [|discriminate].
    apply Halloc; [reflexivity|exact Hnone]. }
  rewrite Hcmp in Hcmp1.
  pose proof (sh_inv t1 Hsh1) as Hinv1.
  pose proof (inv_cap_range t1 Hinv1) as Hrange1.
  pose proof (inv_index_len t1 Hinv1) as Hilen1.
  pose proof (inv_n t1 Hinv1) as Hcount1.
  destruct (inv_cap t1 Hinv1) as [kc [Hkc Hcap1]].
  unfold apply_op, HT_put.
  destruct (Z.gtb_spec (Z.of_nat (length key)) (HT_MAX_KEY_LEN - 1)) as [Hgt|_]; [lia|].
  rewrite Ht1. cbn [fst default from_option id].
  set (len := Z.of_nat (length key)) in *.
  set (h := wrap64 (ht_hashcode t1 key len)).
  destruct (HT_put_loop_cases (Z.to_nat (ht_cap t1 + 1)) t1 key len value h 0)
    as [[_ Hall]|[d [Hd [Hbefore [[Hm ->]|[Hfree ->]]]]]]; cbn [fst].
  - exfalso.
    destruct (not_all_occupied (ht_index t1)) as [j [Hj Hfreej]]; [lia|].
    destruct (probe_cover kc h (Z.of_nat j) ltac:(lia) ltac:(lia)) as [dj [Hdj Hslot]].
    destruct (Hall dj ltac:(lia)) as [Ho _].
    unfold HT_CALC_LOC in Ho. rewrite Hcap1, Hslot in Ho. congruence.
  - (* the value of a matching entry was replaced *)
    set (s := HT_CALC_LOC t1 (wrap64 (h + d))) in *.
    assert (Hs : 0 <= s < ht_cap t1) by (apply calc_loc_range; exact Hinv1).
    pose proof (key_matches_occupied _ _ _ _ _ Hm) as Hocc.
    pose proof (used_loc_range t1 s Hinv1 Hs (is_occupied_not_empty _ Hocc)) as Hrs.
    pose proof (inv_used t1 Hinv1) as Hused1.
    pose proof (inv_values_len t1 Hinv1) as Hvlen1.
    destruct (get_at_first_match (set_value t1 s value) key len d
                (shape_set_value t1 s value Hsh1) ltac:(lia) ltac:(lia))
      as [Hget Hex].
    + change (ht_index (set_value t1 s value)) with (ht_index t1).
      change (HT_CALC_LOC (set_value t1 s value)) with (HT_CALC_LOC t1).
      change (wrap64 (ht_hashcode (set_value t1 s value) key len)) with h.
      fold s. rewrite key_matches_set_value by assumption. exact Hm.
    + intros d' Hd'.
      change (ht_index (set_value t1 s value)) with (ht_index t1).
      change (HT_CALC_LOC (set_value t1 s value)) with (HT_CALC_LOC t1).
      change (wrap64 (ht_hashcode (set_value t1 s value) key len)) with h.
      rewrite key_matches_set_value;
        [apply Hbefore; lia|exact Hinv1|exact Hs|exact Hocc|].
      apply calc_loc_range. exact Hinv1.
    + rewrite Hget, Hex. split; [|reflexivity].
      change (ht_index (set_value t1 s value)) with (ht_index t1).
      change (HT_CALC_LOC (set_value t1 s value)) with (HT_CALC_LOC t1).
      change (wrap64 (ht_hashcode (set_value t1 s value) key len)) with h.
      fold s. cbn [set_value ht_values].
      rewrite entry_at_set_eq by lia. reflexivity.
  - (* a new bucket was written *)
    set (s := HT_CALC_LOC t1 (wrap64 (h + d))) in *.
    assert (Hs : 0 <= s < ht_cap t1) by (apply calc_loc_range; exact Hinv1).
    set (t' := insert_at t1 s h key len value d).
    destruct (insert_at_written t1 s h key len value d Hinv1 Hs Hins1 Hfree)
      as (HL & Hbs & Hes & Hothers).
    set (L := if is_empty (bucket_at (ht_index t1) s) then ht_ins_loc t1
              else b_loc (bucket_at (ht_index t1) s)) in *.
    fold t' in Hbs, Hes, Hothers.
    assert (Hsh' : HT_shape t').
    { apply shape_insert_at; try assumption; [lia|].
      intros d' Hd'. apply Hbefore. lia. }
    pose proof (write_key_stores lo key
                  (mkEntry (e_k (entry_at (ht_values t1) L)) len value)
                  Hwf Hlen (entry_buf_length t1 L (sh_bufs t1 Hsh1)))
      as (Htake & Hklen & Hv & _).
    cbn [e_k_len e_v] in Hklen, Hv. fold len in Htake, Hklen, Hv.
    destruct (get_at_first_match t' key len d Hsh' ltac:(lia) ltac:(lia))
      as [Hget Hex].
    + change (HT_CALC_LOC t') with (HT_CALC_LOC t1).
      change (wrap64 (ht_hashcode t' key len)) with h. fold s.
      unfold key_matches. rewrite Hbs.
      cbn [is_occupied b_state b_hashcode b_loc]. rewrite Hes, Z.eqb_refl.
      change (ht_cmp t') with (ht_cmp t1). rewrite Hcmp1.
      cbn [andb]. apply (stores_key_cmp lo); [exact Hlo|exact Hwf|].
      split; [exact Hklen|exact Htake].
    + intros d' Hd'.
      change (HT_CALC_LOC t') with (HT_CALC_LOC t1).
      change (wrap64 (ht_hashcode t' key len)) with h.
      destruct (Hbefore d' ltac:(lia)) as [Ho Hno].
      assert (Hr : 0 <= HT_CALC_LOC t1 (wrap64 (h + d')) < ht_cap t1)
        by (apply calc_loc_range; exact Hinv1).
      assert (Hne : HT_CALC_LOC t1 (wrap64 (h + d')) <> s).
      { intros Heq. rewrite Heq in Ho. congruence. }
      destruct (Hothers _ Hr Hne) as [Hb He].
      rewrite Hb, (key_matches_frame t1 t') by (try reflexivity; apply He; exact Ho).
      exact Hno.
    + rewrite Hget, Hex. split; [|reflexivity].
      change (HT_CALC_LOC t') with (HT_CALC_LOC t1).
      change (wrap64 (ht_hashcode t' key len)) with h. fold s.
      rewrite Hbs. cbn [b_loc]. rewrite Hes. exact Hv.
Qed.

(** *** The strategies never change *)

Lemma HT_put_loop_strategies fuel : forall t key key_len value h d,
  ht_cmp (fst (HT_put_loop fuel t key key_len value h d)) = ht_cmp t /\
  ht_hashcode (fst (HT_put_loop fuel t key key_len value h d)) = ht_hashcode t.
Proof.
  induction fuel as [|fuel IH]; intros t key key_len value h d; [auto|].
  cbn [HT_put_loop].
  destruct (is_occupied _ && _).
  - destruct (_ && _); [auto|apply IH].
  - destruct (negb _); [auto|apply IH].
Qed.

Lemma _HT_expand_strategies a t t' :
  _HT_expand a t = Some t' ->
  ht_cmp t' = ht_cmp t /\ ht_hashcode t' = ht_hashcode t.
Proof.
  unfold _HT_expand. intros Hexp.
  destruct (negb (calloc_ok _ _ _)); [discriminate|].
  destruct (negb (calloc_ok _ _ _)); [discriminate|].
  injection Hexp as <-.
  match goal with
  | |- context [fold_left _HT_expand_bucket ?olds ?t0] =>
      destruct (fold_expand_bucket_strategies olds t0) as [-> ->]
  end.
  split; reflexivity.
Qed.

Lemma apply_op_strategies t o :
  ht_cmp (apply_op t o) = ht_cmp t /\ ht_hashcode (apply_op t o) = ht_hashcode t.
Proof.
  destruct o as [a key key_len value|key key_len|key key_len|key key_len];
    cbn [apply_op]; [|auto|auto|].
  - unfold HT_put.
    destruct key as [key|]; [|auto].
    destruct (key_len >? HT_MAX_KEY_LEN - 1); [auto|].
    destruct (needs_expand t).
    + destruct (_HT_expand a t) as [t1|] eqn:Hexp; [|auto].
      cbn [fst default from_option id].
      destruct (HT_put_loop_strategies (Z.to_nat (ht_cap t1 + 1)) t1 key key_len value
                  (wrap64 (ht_hashcode t1 key key_len)) 0) as [-> ->].
      apply (_HT_expand_strategies a t t1 Hexp).
    + cbn [fst default from_option id]. apply HT_put_loop_strategies.
  - unfold HT_remove.
    destruct key as [key|]; [|auto].
    destruct (key_len >? HT_MAX_KEY_LEN - 1); [auto|].
    rewrite HT_remove_loop_find.
    destruct (probe_find _ _ _ _ _ _); auto.
Qed.

Lemma run_strategies ops : forall t,
  ht_cmp (run t ops) = ht_cmp t /\ ht_hashcode (run t ops) = ht_hashcode t.
Proof.
  induction ops as [|o ops IH]; intros t; [auto|].
  cbn [run fold_left]. destruct (IH (apply_op t o)) as [H1 H2].
  unfold run in H1, H2. rewrite H1, H2. apply apply_op_strategies.
Qed.

Open Scope string_scope.

Lemma put_then_get_witness :
  HT_get
    (Some (apply_op
             (run (fresh_table 16) [put_str "a" 1; put_str "q" 2; remove_str "a"])
             (OpPut alloc_ok (Some (cstr "q")) (Z.of_nat (length (cstr "q"))) 3)))
    (Some (cstr "q")) (Z.of_nat (length (cstr "q"))) = 3 /\
  HT_exists
    (Some (apply_op
             (run (fresh_table 16) [put_str "a" 1; put_str "q" 2; remove_str "a"])
             (OpPut alloc_ok (Some (cstr "q")) (Z.of_nat (length (cstr "q"))) 3)))
    (Some (cstr "q")) (Z.of_nat (length (cstr "q"))) = true.
Proof.
  apply (put_then_get 0 alloc_ok
           (run (fresh_table 16) [put_str "a" 1; put_str "q" 2; remove_str "a"])
           (cstr "q") 3).
  - apply reachable_run. exact reachable_fresh_16.
  - apply (proj1 (run_strategies _ (fresh_table 16))).
  - lia.
  - apply (bool_decide_eq_true_1 (wf_key 0 (cstr "q"))). vm_compute. reflexivity.
  - vm_compute. discriminate.
  - intros H. exfalso. revert H. vm_compute. discriminate.
Defined.

Close Scope string_scope.

(** ** Lookups of the other keys *)

Lemma strncmp_loop_inj lo k : forall k' buf,
  -255 <= lo <= 0 -> wf_key lo k -> wf_key lo k' -> length k = length k' ->
  strncmp_loop k buf (length k) = 0 -> strncmp_loop k' buf (length k') = 0 ->
  k = k'.
Proof.
  induction k as [|c k IH]; intros k' buf Hlo Hwf Hwf' Hlen Hc Hc'.
  - destruct k'; [reflexivity|discriminate].
  - destruct k' as [|c' k']; [discriminate|].
    apply Forall_cons in Hwf, Hwf'.
    destruct Hwf as [[Hr Hnz] Hwf], Hwf' as [[Hr' Hnz'] Hwf'].
    cbn [length strncmp_loop hd tl] in Hc, Hc'.
    destruct (Z.eqb_spec (c mod 256) (hd 0 buf mod 256)) as [Heq|Hne];
      cbn [negb] in Hc; [|exfalso; lia].
    destruct (Z.eqb_spec (c' mod 256) (hd 0 buf mod 256)) as [Heq'|Hne'];
      cbn [negb] in Hc'; [|exfalso; lia].
    assert (c = c') by (revert Heq Heq'; Z.div_mod_to_equations; lia). subst c'.
    destruct (Z.eqb_spec (c mod 256) 0) as [Hz|_].
    + exfalso. apply Hnz. revert Hz. Z.div_mod_to_equations. lia.
    + f_equal. apply (IH k' (tl buf)); try assumption. simpl in Hlen. lia.
Qed.

(** With [strncmp], a bucket matches one terminated key at most. *)
Lemma one_key_per_bucket lo t k k' h h' b :
  -255 <= lo <= 0 -> ht_cmp t = strncmp -> wf_key lo k -> wf_key lo k' ->
  key_matches t k (Z.of_nat (length k)) h b = true ->
  key_matches t k' (Z.of_nat (length k')) h' b = true ->
  k = k'.
Proof.
  intros Hlo Hcmp Hwf Hwf' Hm Hm'. unfold key_matches in Hm, Hm'.
  rewrite Hcmp in Hm, Hm'.
  apply andb_true_iff in Hm, Hm'. destruct Hm as [_ Hm], Hm' as [_ Hm'].
  apply andb_true_iff in Hm, Hm'. destruct Hm as [Hl Hc], Hm' as [Hl' Hc'].
  apply Z.eqb_eq in Hl, Hc, Hl', Hc'.
  unfold strncmp in Hc, Hc'. rewrite Nat2Z.id in Hc, Hc'.
  apply (strncmp_loop_inj lo k k' (e_k (entry_at (ht_values t) (b_loc b))));
    try assumption. lia.
Qed.

(** Lookups agree on two tables in which the same buckets match the key,
    with the same values. *)
Lemma lookup_frame t t' key key_len :
  HT_shape t -> HT_shape t' ->
  ht_cap t' = ht_cap t -> ht_hashcode t' = ht_hashcode t ->
  (forall x, 0 <= x < ht_cap t ->
     key_matches t' key key_len (wrap64 (ht_hashcode t key key_len))
       (bucket_at (ht_index t') x)
     = key_matches t key key_len (wrap64 (ht_hashcode t key key_len))
         (bucket_at (ht_index t) x)) ->
  (forall x, 0 <= x < ht_cap t ->
     key_matches t key key_len (wrap64 (ht_hashcode t key key_len))
       (bucket_at (ht_index t) x) = true ->
     e_v (entry_at (ht_values t') (b_loc (bucket_at (ht_index t') x)))
     = e_v (entry_at (ht_values t) (b_loc (bucket_at (ht_index t) x)))) ->
  HT_get (Some t') (Some key) key_len = HT_get (Some t) (Some key) key_len /\
  HT_exists (Some t') (Some key) key_len = HT_exists (Some t) (Some key) key_len.
Proof.
  intros Hsh Hsh' Hcap Hhash Hsame Hvals.
  destruct (Z.gtb_spec key_len (HT_MAX_KEY_LEN - 1)) as [Hgt|Hle].
  { unfold HT_get, HT_exists.
    destruct (Z.gtb_spec key_len (HT_MAX_KEY_LEN - 1)); [split; reflexivity|lia]. }
  set (h := wrap64 (ht_hashcode t key key_len)) in *.
  assert (Hh' : wrap64 (ht_hashcode t' key key_len) = h)
    by (subst h; rewrite Hhash; reflexivity).
  assert (Hloc : forall x, HT_CALC_LOC t' x = HT_CALC_LOC t x)
    by (intros x; unfold HT_CALC_LOC; rewrite Hcap; reflexivity).
  destruct (probe_find (Z.to_nat (ht_max_probe t + 1)) t key key_len h 0) as [j|]
    eqn:Hfind.
  - destruct (probe_find_first _ _ _ _ _ _ _ Hfind) as [dj [Hdj [Hj [Hmj Hbj]]]].
    assert (Hr : forall d, 0 <= HT_CALC_LOC t (wrap64 (h + d)) < ht_cap t)
      by (intros d; apply calc_loc_range; apply (sh_inv t Hsh)).
    destruct (get_at_first_match t' key key_len dj Hsh' Hle ltac:(lia)) as [Hget Hex].
    + rewrite Hh', Hloc, Hsame by apply Hr. rewrite <- Hj. exact Hmj.
    + intros d' Hd'. rewrite Hh', Hloc, Hsame by apply Hr. apply Hbj. lia.
    + rewrite Hget, Hex. rewrite Hh', Hloc, <- Hj.
      rewrite Hvals; [|rewrite Hj; apply Hr|exact Hmj].
      unfold HT_get, HT_exists.
      destruct (Z.gtb_spec key_len (HT_MAX_KEY_LEN - 1)); [lia|].
      fold h. rewrite HT_get_loop_find, HT_exists_loop_find, Hfind.
      split; reflexivity.
  - assert (Hnone' : probe_find (Z.to_nat (ht_max_probe t' + 1)) t' key key_len h 0
                     = None).
    { destruct (probe_find _ t' key key_len h 0) as [j'|] eqn:Hfind'; [exfalso|reflexivity].
      destruct (probe_find_Some _ _ _ _ _ _ _ Hfind') as [Hm' [d' Hd']].
      assert (Hr' : 0 <= j' < ht_cap t).
      { rewrite Hd', Hloc. apply calc_loc_range. apply (sh_inv t Hsh). }
      rewrite Hsame in Hm' by exact Hr'.
      destruct (shape_holds_found t key key_len j' Hsh Hr' Hm') as [j Hj].
      fold h in Hj. congruence. }
    unfold HT_get, HT_exists.
    destruct (Z.gtb_spec key_len (HT_MAX_KEY_LEN - 1)); [lia|].
    rewrite Hh'. fold h.
    rewrite !HT_get_loop_find, !HT_exists_loop_find, Hfind, Hnone'.
    split; reflexivity.
Qed.

(** X6.  On every reachable table whose comparator is [strncmp], the
    removal of a terminated key changes the result of no lookup of another
    terminated key: the tombstone it leaves keeps every probe path whole. *)
Theorem remove_keeps_other_keys lo t key key' :
  reachable t ->
  ht_cmp t = strncmp ->
  -255 <= lo <= 0 -> wf_key lo key -> wf_key lo key' ->
  key <> key' ->
  HT_get (Some (apply_op t (OpRemove (Some key) (Z.of_nat (length key)))))
    (Some key') (Z.of_nat (length key'))
  = HT_get (Some t) (Some key') (Z.of_nat (length key')) /\
  HT_exists (Some (apply_op t (OpRemove (Some key) (Z.of_nat (length key)))))
    (Some key') (Z.of_nat (length key'))
  = HT_exists (Some t) (Some key') (Z.of_nat (length key')).
Proof.
  intros Hreach Hcmp Hlo Hwf Hwf' Hne.
  pose proof (reachable_shape t Hreach) as Hsh.
  pose proof (sh_inv t Hsh) as Hinv.
  unfold apply_op, HT_remove.
  destruct (Z.of_nat (length key) >? HT_MAX_KEY_LEN - 1); [split; reflexivity|].
  rewrite HT_remove_loop_find.
  destruct (probe_find _ t key _ _ 0) as [r|] eqn:Hfind;
    cbn [fst default from_option id]; [|split; reflexivity].
  destruct (probe_find_Some _ _ _ _ _ _ _ Hfind) as [Hm [d Hd]].
  assert (Hr : 0 <= r < ht_cap t) by (rewrite Hd; apply calc_loc_range; exact Hinv).
  pose proof (key_matches_occupied _ _ _ _ _ Hm) as Hocc.
  pose proof (inv_index_len t Hinv) as Hilen.
  pose proof (inv_values_len t Hinv) as Hvlen.
  pose proof (inv_used t Hinv) as Hused.
  pose proof (used_loc_range t r Hinv Hr (is_occupied_not_empty _ Hocc)) as Hlr.
  set (h' := wrap64 (ht_hashcode t key' (Z.of_nat (length key')))).
  assert (Hnot : key_matches t key' (Z.of_nat (length key')) h'
                   (bucket_at (ht_index t) r) = false).
  { destruct (key_matches t key' _ h' _) eqn:Hm'; [exfalso|reflexivity].
    apply Hne. apply (one_key_per_bucket lo t key key' _ h' _ Hlo Hcmp Hwf Hwf' Hm Hm'). }
  assert (Hother : forall x, 0 <= x < ht_cap t -> x <> r ->
            bucket_at (ht_index (remove_at t r)) x = bucket_at (ht_index t) x /\
            (is_occupied (bucket_at (ht_index t) x) = true ->
             entry_at (ht_values (remove_at t r)) (b_loc (bucket_at (ht_index t) x))
             = entry_at (ht_values t) (b_loc (bucket_at (ht_index t) x)))).
  { intros x Hx Hxr. split; [apply bucket_at_set_ne; lia|].
    intros Hox.
    pose proof (used_loc_range t x Hinv Hx (is_occupied_not_empty _ Hox)) as Hlx.
    apply entry_at_set_ne; [lia|lia|].
    apply (used_loc_distinct t r x Hinv Hr Hx (is_occupied_not_empty _ Hocc)
             (is_occupied_not_empty _ Hox)). congruence. }
  apply lookup_frame; try reflexivity.
  - exact Hsh.
  - apply shape_remove_at; assumption.
  - intros x Hx. fold h'.
    destruct (Z.eq_dec x r) as [->|Hxr].
    + rewrite Hnot. apply not_occupied_no_match.
      cbn [remove_at ht_index]. rewrite bucket_at_set_eq by lia. reflexivity.
    + destruct (Hother x Hx Hxr) as [Hb He]. rewrite Hb.
      destruct (is_occupied (bucket_at (ht_index t) x)) eqn:Hox;
        [|rewrite !not_occupied_no_match by exact Hox; reflexivity].
      apply key_matches_frame; [reflexivity|apply He; reflexivity].
  - intros x Hx Hmx. fold h' in Hmx.
    assert (Hxr : x <> r) by (intros ->; congruence).
    destruct (Hother x Hx Hxr) as [Hb He]. rewrite Hb, He; [reflexivity|].
    apply (key_matches_occupied _ _ _ _ _ Hmx).
Qed.

Open Scope string_scope.

Lemma remove_keeps_other_keys_witness :
  HT_get
    (Some (apply_op (run (fresh_table 16) [put_str "a" 1; put_str "q" 2])
             (OpRemove (Some (cstr "a")) (Z.of_nat (length (cstr "a"))))))
    (Some (cstr "q")) (Z.of_nat (length (cstr "q")))
  = HT_get (Some (run (fresh_table 16) [put_str "a" 1; put_str "q" 2]))
      (Some (cstr "q")) (Z.of_nat (length (cstr "q"))) /\
  HT_exists
    (Some (apply_op (run (fresh_table 16) [put_str "a" 1; put_str "q" 2])
             (OpRemove (Some (cstr "a")) (Z.of_nat (length (cstr "a"))))))
    (Some (cstr "q")) (Z.of_nat (length (cstr "q")))
  = HT_exists (Some (run (fresh_table 16) [put_str "a" 1; put_str "q" 2]))
      (Some (cstr "q")) (Z.of_nat (length (cstr "q"))).
Proof.
  apply (remove_keeps_other_keys 0
           (run (fresh_table 16) [put_str "a" 1; put_str "q" 2])
           (cstr "a") (cstr "q")).
  - apply reachable_run. exact reachable_fresh_16.
  - apply (proj1 (run_strategies _ (fresh_table 16))).
  - lia.
  - apply (bool_decide_eq_true_1 (wf_key 0 (cstr "a"))). vm_compute. reflexivity.
  - apply (bool_decide_eq_true_1 (wf_key 0 (cstr "q"))). vm_compute. reflexivity.
  - vm_compute. discriminate.
Defined.

Close Scope string_scope.

(** *** The probe loop of a put and the other keys *)

Lemma insert_at_matches lo t s h key value d :
  HT_shape t -> ht_cmp t = strncmp -> -255 <= lo <= 0 -> wf_key lo key ->
  Z.of_nat (length key) <= HT_MAX_KEY_LEN - 2 ->
  0 <= s < ht_cap t -> ht_ins_loc t < ht_cap t ->
  is_occupied (bucket_at (ht_index t) s) = false ->
  key_matches (insert_at t s h key (Z.of_nat (length key)) value d) key
    (Z.of_nat (length key)) h
    (bucket_at (ht_index (insert_at t s h key (Z.of_nat (length key)) value d)) s)
  = true.
Proof.
  intros Hsh Hcmp Hlo Hwf Hlen Hs Hins Hfree.
  destruct (insert_at_written t s h key (Z.of_nat (length key)) value d
              (sh_inv t Hsh) Hs Hins Hfree) as (HL & Hbs & Hes & _).
  set (L := if is_empty (bucket_at (ht_index t) s) then ht_ins_loc t
            else b_loc (bucket_at (ht_index t) s)) in *.
  pose proof (write_key_stores lo key
                (mkEntry (e_k (entry_at (ht_values t) L)) (Z.of_nat (length key)) value)
                Hwf Hlen (entry_buf_length t L (sh_bufs t Hsh)))
    as (Htake & Hklen & _ & _).
  cbn [e_k_len] in Hklen.
  unfold key_matches. rewrite Hbs.
  cbn [is_occupied b_state b_hashcode b_loc]. rewrite Hes, Z.eqb_refl.
  change (ht_cmp (insert_at t s h key (Z.of_nat (length key)) value d))
    with (ht_cmp t).
  rewrite Hcmp. cbn [andb]. apply (stores_key_cmp lo); [exact Hlo|exact Hwf|].
  split; [exact Hklen|exact Htake].
Qed.

Lemma put_loop_frame lo t key value key' :
  HT_shape t -> ht_cmp t = strncmp -> -255 <= lo <= 0 ->
  wf_key lo key -> Z.of_nat (length key) <= HT_MAX_KEY_LEN - 2 ->
  wf_key lo key' -> key <> key' ->
  ht_ins_loc t < ht_cap t ->
  HT_get
    (Some (fst (HT_put_loop (Z.to_nat (ht_cap t + 1)) t key (Z.of_nat (length key)) value
                  (wrap64 (ht_hashcode t key (Z.of_nat (length key)))) 0)))
    (Some key') (Z.of_nat (length key'))
  = HT_get (Some t) (Some key') (Z.of_nat (length key')) /\
  HT_exists
    (Some (fst (HT_put_loop (Z.to_nat (ht_cap t + 1)) t key (Z.of_nat (length key)) value
                  (wrap64 (ht_hashcode t key (Z.of_nat (length key)))) 0)))
    (Some key') (Z.of_nat (length key'))
  = HT_exists (Some t) (Some key') (Z.of_nat (length key')).
Proof.
  intros Hsh Hcmp Hlo Hwf Hlen Hwf' Hne Hins.
  pose proof (sh_inv t Hsh) as Hinv.
  pose proof (inv_used t Hinv) as Hused.
  pose proof (inv_values_len t Hinv) as Hvlen.
  set (len := Z.of_nat (length key)) in *.
  set (h := wrap64 (ht_hashcode t key len)).
  set (h' := wrap64 (ht_hashcode t key' (Z.of_nat (length key')))).
  destruct (HT_put_loop_cases (Z.to_nat (ht_cap t + 1)) t key len value h 0)
    as [[-> _]|[d [Hd [Hbefore [[Hm ->]|[Hfree ->]]]]]]; cbn [fst].
  - split; reflexivity.
  - set (s := HT_CALC_LOC t (wrap64 (h + d))) in *.
    assert (Hs : 0 <= s < ht_cap t) by (apply calc_loc_range; exact Hinv).
    pose proof (key_matches_occupied _ _ _ _ _ Hm) as Hocc.
    pose proof (used_loc_range t s Hinv Hs (is_occupied_not_empty _ Hocc)) as Hls.
    apply lookup_frame; try reflexivity.
    + exact Hsh.
    + apply shape_set_value. exact Hsh.
    + intros x Hx. change (ht_index (set_value t s value)) with (ht_index t).
      apply key_matches_set_value; assumption.
    + intros x Hx Hmx. fold h' in Hmx.
      change (ht_index (set_value t s value)) with (ht_index t).
      pose proof (key_matches_occupied _ _ _ _ _ Hmx) as Hox.
      pose proof (used_loc_range t x Hinv Hx (is_occupied_not_empty _ Hox)) as Hlx.
      assert (Hxs : x <> s).
      { intros ->. apply Hne.
        apply (one_key_per_bucket lo t key key' h h' _ Hlo Hcmp Hwf Hwf' Hm Hmx). }
      cbn [set_value ht_values]. rewrite entry_at_set_ne; [reflexivity|lia|lia|].
      apply (used_loc_distinct t s x Hinv Hs Hx (is_occupied_not_empty _ Hocc)
               (is_occupied_not_empty _ Hox)). congruence.
  - set (s := HT_CALC_LOC t (wrap64 (h + d))) in *.
    assert (Hs : 0 <= s < ht_cap t) by (apply calc_loc_range; exact Hinv).
    set (t' := insert_at t s h key len value d).
    destruct (insert_at_written t s h key len value d Hinv Hs Hins Hfree)
      as (_ & _ & _ & Hothers).
    fold t' in Hothers.
    pose proof (insert_at_matches lo t s h key value d Hsh Hcmp Hlo Hwf Hlen Hs Hins
                  Hfree) as Hnew.
    fold len t' in Hnew.
    apply lookup_frame; try reflexivity.
    + exact Hsh.
    + apply shape_insert_at; try assumption; [lia|].
      intros d' Hd'. apply Hbefore. lia.
    + intros x Hx. fold h'.
      destruct (Z.eq_dec x s) as [->|Hxs].
      * rewrite (not_occupied_no_match t _ _ _ _ Hfree).
        destruct (key_matches t' key' _ h' _) eqn:Hm'; [exfalso|reflexivity].
        apply Hne.
        apply (one_key_per_bucket lo t' key key' h h' _ Hlo Hcmp Hwf Hwf' Hnew Hm').
      * destruct (Hothers x Hx Hxs) as [Hb He]. rewrite Hb.
        destruct (is_occupied (bucket_at (ht_index t) x)) eqn:Hox;
          [|rewrite !not_occupied_no_match by exact Hox; reflexivity].
        apply key_matches_frame; [reflexivity|apply He; reflexivity].
    + intros x Hx Hmx. fold h' in Hmx.
      pose proof (key_matches_occupied _ _ _ _ _ Hmx) as Hox.
      assert (Hxs : x <> s) by (intros ->; congruence).
      destruct (Hothers x Hx Hxs) as [Hb He]. rewrite Hb, He; [reflexivity|exact Hox].
Qed.

(** *** The resize and the keys *)

Lemma expand_buckets a t t' :
  HT_inv t -> _HT_expand a t = Some t' ->
  (forall s, 0 <= s < ht_cap t' ->
     is_occupied (bucket_at (ht_index t') s) = true ->
     exists j, 0 <= j < ht_cap t /\
       bucket_at (ht_index t) j = bucket_at (ht_index t') s /\
       entry_at (ht_values t') (b_loc (bucket_at (ht_index t') s))
       = entry_at (ht_values t) (b_loc (bucket_at (ht_index t) j))) /\
  (forall j, 0 <= j < ht_cap t ->
     is_occupied (bucket_at (ht_index t) j) = true ->
     exists s, 0 <= s < ht_cap t' /\
       bucket_at (ht_index t') s = bucket_at (ht_index t) j /\
       entry_at (ht_values t') (b_loc (bucket_at (ht_index t') s))
       = entry_at (ht_values t) (b_loc (bucket_at (ht_index t) j))).
Proof.
  intros Hinv Hexp.
  pose proof (inv_cap_range t Hinv) as Hrange.
  pose proof (inv_index_len t Hinv) as Hilen.
  pose proof (inv_values_len t Hinv) as Hvlen.
  pose proof (inv_used t Hinv) as Hused.
  destruct (_HT_expand_inv a t t' Hinv Hexp) as (Hinv' & Hcap' & Hn' & Hins').
  destruct (_HT_expand_shape a t t' Hinv Hexp) as ([k [Hk Hpow]] & Hfold & Hrb).
  pose proof (inv_index_len t' Hinv') as Hilen'.
  pose proof (rb_values _ _ _ Hrb) as Hvals. simpl in Hvals.
  pose proof (rb_occupied _ _ _ Hrb) as Hperm.
  assert (Hentry : forall l, 0 <= l < ht_cap t ->
            entry_at (ht_values t') l = entry_at (ht_values t) l).
  { intros l Hl. rewrite Hvals, <- Hvlen.
    apply copy_values_lookup; [rewrite length_replicate; lia|lia]. }
  split.
  - intros s Hs Hocc.
    destruct (bucket_correspondence (ht_index t') (ht_index t) s Hperm ltac:(lia) Hocc)
      as [j [Hj Heq]].
    exists j. split; [lia|]. split; [exact Heq|].
    rewrite <- Heq in Hocc |- *.
    pose proof (used_loc_range t j Hinv ltac:(lia) (is_occupied_not_empty _ Hocc)).
    apply Hentry. lia.
  - intros j Hj Hocc.
    destruct (bucket_correspondence (ht_index t) (ht_index t') j
                ltac:(symmetry; exact Hperm) ltac:(lia) Hocc) as [s [Hs Heq]].
    exists s. split; [lia|]. split; [exact Heq|].
    rewrite Heq.
    pose proof (used_loc_range t j Hinv Hj (is_occupied_not_empty _ Hocc)).
    apply Hentry. lia.
Qed.

Lemma expand_lookup a t t' key key_len :
  HT_shape t -> _HT_expand a t = Some t' ->
  HT_exists (Some t') (Some key) key_len = HT_exists (Some t) (Some key) key_len /\
  (single_binding t key key_len ->
   HT_get (Some t') (Some key) key_len = HT_get (Some t) (Some key) key_len).
Proof.
  intros Hsh Hexp.
  pose proof (sh_inv t Hsh) as Hinv.
  pose proof (shape_expand a t t' Hsh Hexp) as Hsh'.
  destruct (_HT_expand_strategies a t t' Hexp) as [Hcmp Hhash].
  destruct (expand_buckets a t t' Hinv Hexp) as [Hback Hforth].
  destruct (Z.gtb_spec key_len (HT_MAX_KEY_LEN - 1)) as [Hgt|Hle].
  { unfold HT_get, HT_exists.
    destruct (Z.gtb_spec key_len (HT_MAX_KEY_LEN - 1)); [split; reflexivity|lia]. }
  assert (Hholds : forall s j,
            bucket_at (ht_index t) j = bucket_at (ht_index t') s ->
            entry_at (ht_values t') (b_loc (bucket_at (ht_index t') s))
            = entry_at (ht_values t) (b_loc (bucket_at (ht_index t) j)) ->
            holds t' key key_len s = holds t key key_len j).
  { intros s j Hb He. unfold holds, key_matches.
    rewrite Hcmp, Hhash, He, Hb. reflexivity. }
  assert (Hiff : (exists s, 0 <= s < ht_cap t' /\ holds t' key key_len s = true) <->
                 (exists j, 0 <= j < ht_cap t /\ holds t key key_len j = true)).
  { split.
    - intros [s [Hs Hh]].
      destruct (Hback s Hs (key_matches_occupied _ _ _ _ _ Hh)) as (j & Hj & Hb & He).
      exists j. split; [exact Hj|]. rewrite <- (Hholds s j Hb He). exact Hh.
    - intros [j [Hj Hh]].
      destruct (Hforth j Hj (key_matches_occupied _ _ _ _ _ Hh)) as (s & Hs & Hb & He).
      exists s. split; [exact Hs|]. rewrite (Hholds s j (eq_sym Hb)); [exact Hh|].
      rewrite He. reflexivity. }
  assert (Hex : HT_exists (Some t') (Some key) key_len
                = HT_exists (Some t) (Some key) key_len).
  { apply eq_true_iff_eq.
    rewrite (shape_exists_iff t' key key_len Hsh' Hle).
    rewrite (shape_exists_iff t key key_len Hsh Hle). exact Hiff. }
  split; [exact Hex|].
  intros Hsingle. revert Hex. unfold HT_get, HT_exists.
  destruct (Z.gtb_spec key_len (HT_MAX_KEY_LEN - 1)); [lia|].
  rewrite !HT_get_loop_find, !HT_exists_loop_find.
  destruct (probe_find _ t key key_len _ 0) as [j0|] eqn:Hfind;
    destruct (probe_find _ t' key key_len _ 0) as [s1|] eqn:Hfind';
    try discriminate; [|reflexivity].
  intros _.
  destruct (probe_find_Some _ _ _ _ _ _ _ Hfind) as [Hm0 [d0 Hd0]].
  destruct (probe_find_Some _ _ _ _ _ _ _ Hfind') as [Hm1 [d1 Hd1]].
  assert (Hr0 : 0 <= j0 < ht_cap t) by (rewrite Hd0; apply calc_loc_range; exact Hinv).
  assert (Hr1 : 0 <= s1 < ht_cap t')
    by (rewrite Hd1; apply calc_loc_range; apply (sh_inv t' Hsh')).
  destruct (Hback s1 Hr1 (key_matches_occupied _ _ _ _ _ Hm1)) as (j & Hj & Hb & He).
  assert (Hhj : holds t key key_len j = true)
    by (rewrite <- (Hholds s1 j Hb He); exact Hm1).
  rewrite (single_binding_inj t key key_len j0 j Hsingle Hr0 Hj Hm0 Hhj).
  rewrite He. reflexivity.
Qed.

(** X7.  On every reachable table whose comparator is [strncmp], a put of
    a terminated key of at most 30 characters changes the answer of
    [HT_exists] for no other terminated key, whether the put resizes, fails
    or succeeds. *)
Theorem put_keeps_presence_of_other_keys lo a t key value key' :
  reachable t ->
  ht_cmp t = strncmp ->
  -255 <= lo <= 0 -> wf_key lo key ->
  Z.of_nat (length key) <= HT_MAX_KEY_LEN - 2 ->
  wf_key lo key' -> key <> key' ->
  HT_exists (Some (apply_op t (OpPut a (Some key) (Z.of_nat (length key)) value)))
    (Some key') (Z.of_nat (length key'))
  = HT_exists (Some t) (Some key') (Z.of_nat (length key')).
Proof.
  intros Hreach Hcmp Hlo Hwf Hlen Hwf' Hne.
  pose proof (reachable_shape t Hreach) as Hsh.
  unfold apply_op, HT_put.
  destruct (Z.of_nat (length key) >? HT_MAX_KEY_LEN - 1); [reflexivity|].
  destruct (put_start_shape a t Hsh)
    as [->|(t1 & Ht1 & Hsh1 & Hn1 & Hins1 & Hcmp1 & Hhash1)]; [reflexivity|].
  rewrite Ht1. cbn [fst default from_option id].
  rewrite Hcmp in Hcmp1.
  destruct (put_loop_frame lo t1 key value key' Hsh1 Hcmp1 Hlo Hwf Hlen Hwf' Hne Hins1)
    as [_ ->].
  destruct (needs_expand t); [|injection Ht1 as <-; reflexivity].
  apply (expand_lookup a t t1 key' _ Hsh Ht1).
Qed.

(** X8.  Under the same conditions the put changes the result of
    [HT_get] for no other terminated key either, provided it does not
    resize or the other key is held by one bucket at most: a resize may
    exchange two bindings of one key. *)
Theorem put_keeps_value_of_other_keys lo a t key value key' :
  reachable t ->
  ht_cmp t = strncmp ->
  -255 <= lo <= 0 -> wf_key lo key ->
  Z.of_nat (length key) <= HT_MAX_KEY_LEN - 2 ->
  wf_key lo key' -> key <> key' ->
  needs_expand t = false \/ single_binding t key' (Z.of_nat (length key')) ->
  HT_get (Some (apply_op t (OpPut a (Some key) (Z.of_nat (length key)) value)))
    (Some key') (Z.of_nat (length key'))
  = HT_get (Some t) (Some key') (Z.of_nat (length key')).
Proof.
  intros Hreach Hcmp Hlo Hwf Hlen Hwf' Hne Hcond.
  pose proof (reachable_shape t Hreach) as Hsh.
  unfold apply_op, HT_put.
  destruct (Z.of_nat (length key) >? HT_MAX_KEY_LEN - 1); [reflexivity|].
  destruct (put_start_shape a t Hsh)
    as [->|(t1 & Ht1 & Hsh1 & Hn1 & Hins1 & Hcmp1 & Hhash1)]; [reflexivity|].
  rewrite Ht1. cbn [fst default from_option id].
  rewrite Hcmp in Hcmp1.
  destruct (put_loop_frame lo t1 key value key' Hsh1 Hcmp1 Hlo Hwf Hlen Hwf' Hne Hins1)
    as [-> _].
  destruct (needs_expand t) eqn:Hneed; [|injection Ht1 as <-; reflexivity].
  destruct Hcond as [Hno|Hsingle]; [discriminate|].
  apply (expand_lookup a t t1 key' _ Hsh Ht1). exact Hsingle.
Qed.

Open Scope string_scope.

Lemma put_keeps_presence_of_other_keys_witness :
  HT_exists
    (Some (apply_op
             (run (fresh_table 16) [put_str "a" 1; put_str "q" 2; remove_str "a"])
             (OpPut alloc_ok (Some (cstr "a")) (Z.of_nat (length (cstr "a"))) 5)))
    (Some (cstr "q")) (Z.of_nat (length (cstr "q")))
  = HT_exists
      (Some (run (fresh_table 16) [put_str "a" 1; put_str "q" 2; remove_str "a"]))
      (Some (cstr "q")) (Z.of_nat (length (cstr "q"))).
Proof.
  apply (put_keeps_presence_of_other_keys 0 alloc_ok
           (run (fresh_table 16) [put_str "a" 1; put_str "q" 2; remove_str "a"])
           (cstr "a") 5 (cstr "q")).
  - apply reachable_run. exact reachable_fresh_16.
  - apply (proj1 (run_strategies _ (fresh_table 16))).
  - lia.
  - apply (bool_decide_eq_true_1 (wf_key 0 (cstr "a"))). vm_compute. reflexivity.
  - vm_compute. discriminate.
  - apply (bool_decide_eq_true_1 (wf_key 0 (cstr "q"))). vm_compute. reflexivity.
  - vm_compute. discriminate.
Defined.

Lemma put_keeps_value_of_other_keys_witness :
  HT_get
    (Some (apply_op
             (run (fresh_table 16) [put_str "a" 1; put_str "q" 2; remove_str "a"])
             (OpPut alloc_ok (Some (cstr "a")) (Z.of_nat (length (cstr "a"))) 5)))
    (Some (cstr "q")) (Z.of_nat (length (cstr "q")))
  = HT_get
      (Some (run (fresh_table 16) [put_str "a" 1; put_str "q" 2; remove_str "a"]))
      (Some (cstr "q")) (Z.of_nat (length (cstr "q"))).
Proof.
  apply (put_keeps_value_of_other_keys 0 alloc_ok
           (run (fresh_table 16) [put_str "a" 1; put_str "q" 2; remove_str "a"])
           (cstr "a") 5 (cstr "q")).
  - apply reachable_run. exact reachable_fresh_16.
  - apply (proj1 (run_strategies _ (fresh_table 16))).
  - lia.
  - apply (bool_decide_eq_true_1 (wf_key 0 (cstr "a"))). vm_compute. reflexivity.
  - vm_compute. discriminate.
  - apply (bool_decide_eq_true_1 (wf_key 0 (cstr "q"))). vm_compute. reflexivity.
  - vm_compute. discriminate.
  - left. vm_compute. reflexivity.
Defined.

Close Scope string_scope.
(** * Growth *)

Lemma apply_op_ins_loc t o :
  HT_shape t -> ht_ins_loc t <= ht_ins_loc (apply_op t o) <= ht_ins_loc t + 1.
Proof.
  intros Hsh. pose proof (sh_inv t Hsh) as Hinv.
  destruct o as [a key key_len value|key key_len|key key_len|key key_len];
    cbn [apply_op]; try lia.
  - unfold HT_put.
    destruct key as [key|]; [|cbn [fst default from_option id]; lia].
    destruct (key_len >? HT_MAX_KEY_LEN - 1); [cbn [fst default from_option id]; lia|].
    assert (Hstart : (if needs_expand t then _HT_expand a t else Some t) = None \/
              exists t1, (if needs_expand t then _HT_expand a t else Some t) = Some t1 /\
                HT_inv t1 /\ ht_ins_loc t1 = ht_ins_loc t /\ ht_ins_loc t1 < ht_cap t1).
    { pose proof (inv_cap_range t Hinv) as Hrange.
      pose proof (inv_used t Hinv) as Hused.
      destruct (needs_expand t) eqn:Hneed.
      - destruct (_HT_expand a t) as [t1|] eqn:Hexp; [right|left; reflexivity].
        destruct (_HT_expand_inv a t t1 Hinv Hexp) as (Hinv1 & Hc & _ & Hi).
        exists t1. split; [reflexivity|]. split; [exact Hinv1|]. split; [exact Hi|lia].
      - right. exists t. unfold needs_expand in Hneed.
        apply orb_false_iff in Hneed. destruct Hneed as [_ Hins].
        apply Z.eqb_neq in Hins.
        split; [reflexivity|]. split; [exact Hinv|]. split; [reflexivity|lia]. }
    destruct Hstart as [->|(t1 & -> & Hinv1 & Hi1 & Hlt1)];
      cbn [fst default from_option id]; [lia|].
    pose proof (inv_cap_range t1 Hinv1) as Hrange1.
    pose proof (inv_used t1 Hinv1) as Hused1.
    destruct (HT_put_loop_cases (Z.to_nat (ht_cap t1 + 1)) t1 key key_len value
                (wrap64 (ht_hashcode t1 key key_len)) 0)
      as [[-> _]|[d [Hd [Hbefore [[_ ->]|[Hfree ->]]]]]]; cbn [fst].
    + lia.
    + cbn [set_value ht_ins_loc]. lia.
    + cbn [insert_at ht_ins_loc].
      destruct (is_empty _); [|lia].
      rewrite wrap64_small; [lia|].
      change (2 ^ 58) with 288230376151711744 in Hrange1.
      change (2 ^ 64) with 18446744073709551616. lia.
  - unfold HT_remove.
    destruct key as [key|]; [|cbn [fst default from_option id]; lia].
    destruct (key_len >? HT_MAX_KEY_LEN - 1); [cbn [fst default from_option id]; lia|].
    rewrite HT_remove_loop_find.
    destruct (probe_find _ _ _ _ _ _); cbn [fst default from_option id remove_at ht_ins_loc];
      lia.
Qed.

(** X9.  In every reachable table the capacity is a power of two, at
    least 16.  An operation leaves the capacity as it is or doubles it, and
    leaves the cursor [ins_loc] of the entries array as it is or moves it
    one cell forward: no operation shrinks the table, and no removal gives
    an entry cell back. *)
Theorem capacity_grows_by_doubling t o :
  reachable t ->
  (exists k, 4 <= k /\ ht_cap t = 2 ^ k) /\
  (ht_cap (apply_op t o) = ht_cap t \/ ht_cap (apply_op t o) = 2 * ht_cap t) /\
  ht_ins_loc t <= ht_ins_loc (apply_op t o) <= ht_ins_loc t + 1 /\
  ht_ins_loc (apply_op t o) <= ht_cap (apply_op t o).
Proof.
  intros Hreach. pose proof (reachable_shape t Hreach) as Hsh.
  pose proof (sh_inv t Hsh) as Hinv.
  destruct (inv_cap t Hinv) as [k [Hk Hcap]].
  destruct (apply_op_inv t o Hinv) as [Hinv' Hc].
  split; [exists k; split; [lia|exact Hcap]|].
  split; [exact Hc|]. split; [apply apply_op_ins_loc; exact Hsh|].
  apply (inv_used _ Hinv').
Qed.

Open Scope string_scope.

Lemma capacity_grows_by_doubling_witness :
  ht_cap (apply_op
            (run (fresh_table 16)
               (map (fun k => put_str k 7)
                  ["a"; "b"; "c"; "d"; "e"; "f"; "g"; "h"; "i"; "j"; "k"; "l"; "m"]))
            (put_str "n" 7))
  = ht_cap (run (fresh_table 16)
              (map (fun k => put_str k 7)
                 ["a"; "b"; "c"; "d"; "e"; "f"; "g"; "h"; "i"; "j"; "k"; "l"; "m"]))
  \/
  ht_cap (apply_op
            (run (fresh_table 16)
               (map (fun k => put_str k 7)
                  ["a"; "b"; "c"; "d"; "e"; "f"; "g"; "h"; "i"; "j"; "k"; "l"; "m"]))
            (put_str "n" 7))
  = 2 * ht_cap (run (fresh_table 16)
                  (map (fun k => put_str k 7)
                     ["a"; "b"; "c"; "d"; "e"; "f"; "g"; "h"; "i"; "j"; "k"; "l"; "m"])).
Proof.
  apply (capacity_grows_by_doubling
           (run (fresh_table 16)
              (map (fun k => put_str k 7)
                 ["a"; "b"; "c"; "d"; "e"; "f"; "g"; "h"; "i"; "j"; "k"; "l"; "m"]))
           (put_str "n" 7)).
  apply reachable_run. exact reachable_fresh_16.
Defined.

Close Scope string_scope.

(** * A removal takes one binding away *)

Lemma filter_without (P Q : Z -> Prop) `{forall x, Decision (P x)}
    `{forall x, Decision (Q x)} (l : list Z) (r : Z) :
  NoDup l -> r ∈ l -> P r -> ~ Q r ->
  (forall x, x ∈ l -> x <> r -> (Q x <-> P x)) ->
  filter P l ≡ₚ r :: filter Q l.
Proof.
  induction l as [|x l IH]; intros Hnd Hin HPr HQr Hsame; [inversion Hin|].
  apply NoDup_cons in Hnd. destruct Hnd as [Hx Hnd].
  destruct (decide (x = r)) as [->|Hne].
  - rewrite filter_cons_True by exact HPr.
    rewrite filter_cons_False by exact HQr.
    apply Permutation_cons; [reflexivity|].
    apply NoDup_Permutation.
    + apply NoDup_filter. exact Hnd.
    + apply NoDup_filter. exact Hnd.
    + intros y. rewrite !list_elem_of_filter. split; intros [Hy Hyl]; split;
        try exact Hyl.
      * apply Hsame; [apply elem_of_cons; right; exact Hyl| |exact Hy].
        intros ->. contradiction.
      * apply Hsame; [apply elem_of_cons; right; exact Hyl| |exact Hy].
        intros ->. contradiction.
  - apply elem_of_cons in Hin. destruct Hin as [Heq|Hin]; [congruence|].
    assert (IH' : filter P l ≡ₚ r :: filter Q l).
    { apply IH; try assumption.
      intros y Hy Hyr. apply Hsame; [apply elem_of_cons; right; exact Hy|exact Hyr]. }
    destruct (decide (P x)) as [HPx|HPx].
    + rewrite filter_cons_True by exact HPx.
      rewrite (filter_cons_True Q)
        by (apply Hsame; [apply elem_of_cons; left; reflexivity|exact Hne|exact HPx]).
      rewrite IH'. apply perm_swap.
    + rewrite filter_cons_False by exact HPx.
      rewrite (filter_cons_False Q); [exact IH'|].
      intros HQx. apply HPx.
      apply Hsame; [apply elem_of_cons; left; reflexivity|exact Hne|exact HQx].
Qed.

Lemma slots_NoDup t : NoDup (slots t).
Proof.
  unfold slots. apply NoDup_fmap_2; [|apply NoDup_seq].
  intros x y Hxy. lia.
Qed.

Lemma elem_of_slots_range t i : i ∈ slots t -> 0 <= i < ht_cap t.
Proof.
  unfold slots. intros Hin. apply list_elem_of_fmap in Hin.
  destruct Hin as [n [-> Hn]]. apply elem_of_seq in Hn. lia.
Qed.

(** X10.  On every reachable table, whatever its strategies, a removal
    that finds its key takes exactly one of the buckets that hold the key
    out of the index, the first on the probe path, and touches no other; so
    the key is still found afterwards exactly when two buckets or more held
    it. *)
Theorem remove_takes_one_binding t key key_len :
  reachable t ->
  HT_exists (Some t) (Some key) key_len = true ->
  length (holders t key key_len)
  = S (length (holders (apply_op t (OpRemove (Some key) key_len)) key key_len)) /\
  (HT_exists (Some (apply_op t (OpRemove (Some key) key_len))) (Some key) key_len = true
   <-> (2 <= length (holders t key key_len))%nat).
Proof.
  intros Hreach Hex.
  pose proof (reachable_shape t Hreach) as Hsh.
  pose proof (sh_inv t Hsh) as Hinv.
  assert (Hlen : key_len <= HT_MAX_KEY_LEN - 1).
  { unfold HT_exists in Hex.
    destruct (Z.gtb_spec key_len (HT_MAX_KEY_LEN - 1)); [discriminate|lia]. }
  assert (Hsh' : HT_shape (apply_op t (OpRemove (Some key) key_len)))
    by (apply apply_op_shape; exact Hsh).
  revert Hsh'. unfold apply_op, HT_remove, HT_exists in *.
  destruct (Z.gtb_spec key_len (HT_MAX_KEY_LEN - 1)) as [Hgt|_]; [lia|].
  rewrite HT_exists_loop_find in Hex. rewrite HT_remove_loop_find.
  set (h := wrap64 (ht_hashcode t key key_len)) in *.
  destruct (probe_find _ t key key_len h 0) as [r|] eqn:Hfind; [|discriminate].
  cbn [fst default from_option id]. intros Hsh'.
  destruct (probe_find_Some _ _ _ _ _ _ _ Hfind) as [Hm [d Hd]].
  assert (Hr : 0 <= r < ht_cap t) by (rewrite Hd; apply calc_loc_range; exact Hinv).
  pose proof (key_matches_occupied _ _ _ _ _ Hm) as Hocc.
  pose proof (inv_index_len t Hinv) as Hilen.
  pose proof (inv_values_len t Hinv) as Hvlen.
  pose proof (inv_used t Hinv) as Hused.
  pose proof (used_loc_range t r Hinv Hr (is_occupied_not_empty _ Hocc)) as Hlr.
  assert (Hperm : holders t key key_len ≡ₚ r :: holders (remove_at t r) key key_len).
  { unfold holders. change (slots (remove_at t r)) with (slots t).
    apply filter_without.
    - apply slots_NoDup.
    - apply elem_of_slots. exact Hr.
    - unfold holds. fold h. rewrite Hm. exact I.
    - unfold holds. rewrite not_occupied_no_match; [exact id|].
      cbn [remove_at ht_index]. rewrite bucket_at_set_eq by lia. reflexivity.
    - intros x Hx Hxr. apply elem_of_slots_range in Hx.
      assert (Heq : holds (remove_at t r) key key_len x = holds t key key_len x).
      { unfold holds.
        change (ht_hashcode (remove_at t r)) with (ht_hashcode t). fold h.
        cbn [remove_at ht_index]. rewrite bucket_at_set_ne by lia.
        destruct (is_occupied (bucket_at (ht_index t) x)) eqn:Hox;
          [|rewrite !not_occupied_no_match by exact Hox; reflexivity].
        apply key_matches_frame; [reflexivity|].
        pose proof (used_loc_range t x Hinv Hx (is_occupied_not_empty _ Hox)) as Hlx.
        apply entry_at_set_ne; [lia|lia|].
        apply (used_loc_distinct t r x Hinv Hr Hx (is_occupied_not_empty _ Hocc)
                 (is_occupied_not_empty _ Hox)). congruence. }
      rewrite Heq. reflexivity. }
  split; [rewrite Hperm; reflexivity|].
  rewrite (Permutation_length Hperm). cbn [length].
  pose proof (shape_exists_iff (remove_at t r) key key_len Hsh' Hlen) as Hiff.
  unfold HT_exists in Hiff.
  destruct (Z.gtb_spec key_len (HT_MAX_KEY_LEN - 1)) as [Hgt|_]; [lia|].
  rewrite Hiff. split.
  - intros [i [Hi Hholds]].
    assert (Hin : i ∈ holders (remove_at t r) key key_len).
    { unfold holders. apply list_elem_of_filter.
      split; [rewrite Hholds; exact I|apply elem_of_slots; exact Hi]. }
    destruct (holders (remove_at t r) key key_len); [inversion Hin|simpl; lia].
  - intros Hge.
    destruct (holders (remove_at t r) key key_len) as [|i rest] eqn:Hh;
      [simpl in Hge; lia|].
    assert (Hin : i ∈ holders (remove_at t r) key key_len)
      by (rewrite Hh; apply elem_of_cons; left; reflexivity).
    unfold holders in Hin. apply list_elem_of_filter in Hin.
    destruct Hin as [Hholds Hi]. exists i.
    split; [apply (elem_of_slots_range (remove_at t r)); exact Hi|].
    destruct (holds (remove_at t r) key key_len i); [reflexivity|contradiction].
Qed.

Open Scope string_scope.

Lemma remove_takes_one_binding_witness :
  length (holders
            (run (fresh_table 16)
               [put_str "a" 1; put_str "q" 2; remove_str "a"; put_str "q" 3])
            (cstr "q") 1)
  = S (length (holders
                 (apply_op
                    (run (fresh_table 16)
                       [put_str "a" 1; put_str "q" 2; remove_str "a"; put_str "q" 3])
                    (OpRemove (Some (cstr "q")) 1))
                 (cstr "q") 1)).
Proof.
  apply (remove_takes_one_binding
           (run (fresh_table 16)
              [put_str "a" 1; put_str "q" 2; remove_str "a"; put_str "q" 3])
           (cstr "q") 1).
  - apply reachable_run. exact reachable_fresh_16.
  - vm_compute. reflexivity.
Defined.

Close Scope string_scope.

(** * A resize *)

(** X11.  A resize of a reachable table, whatever its strategies, doubles
    the capacity, keeps the count and the cursor, leaves no tombstone, and
    changes the answer of [HT_exists] for no key; it changes the result of
    [HT_get] for no key that one bucket at most holds. *)
Theorem resize_keeps_bindings a t t' key key_len :
  reachable t ->
  _HT_expand a t = Some t' ->
  ht_cap t' = 2 * ht_cap t /\ ht_n t' = ht_n t /\ ht_ins_loc t' = ht_ins_loc t /\
  no_tombstone t' /\
  HT_exists (Some t') (Some key) key_len = HT_exists (Some t) (Some key) key_len /\
  (single_binding t key key_len ->
   HT_get (Some t') (Some key) key_len = HT_get (Some t) (Some key) key_len).
Proof.
  intros Hreach Hexp.
  pose proof (reachable_shape t Hreach) as Hsh.
  pose proof (sh_inv t Hsh) as Hinv.
  destruct (_HT_expand_inv a t t' Hinv Hexp) as (_ & Hcap & Hn & Hins).
  destruct (_HT_expand_shape a t t' Hinv Hexp) as (_ & _ & Hrb).
  split; [exact Hcap|]. split; [exact Hn|]. split; [exact Hins|].
  split; [apply (rb_no_deleted _ _ _ Hrb)|].
  apply (expand_lookup a t t' key key_len Hsh Hexp).
Qed.

Open Scope string_scope.

Lemma resize_keeps_bindings_witness :
  ht_cap (default (fresh_table 16)
            (_HT_expand alloc_ok
               (run (fresh_table 16) [put_str "a" 1; put_str "q" 2; remove_str "a"])))
  = 2 * ht_cap (run (fresh_table 16) [put_str "a" 1; put_str "q" 2; remove_str "a"]).
Proof.
  assert (H1 : reachable
                 (run (fresh_table 16) [put_str "a" 1; put_str "q" 2; remove_str "a"]))
    by (apply reachable_run; exact reachable_fresh_16).
  assert (H2 : _HT_expand alloc_ok
                 (run (fresh_table 16) [put_str "a" 1; put_str "q" 2; remove_str "a"])
               = Some (default (fresh_table 16)
                         (_HT_expand alloc_ok
                            (run (fresh_table 16)
                               [put_str "a" 1; put_str "q" 2; remove_str "a"])))).
  { destruct (_HT_expand alloc_ok
                (run (fresh_table 16) [put_str "a" 1; put_str "q" 2; remove_str "a"]))
      as [t'|] eqn:Hexp; [reflexivity|exfalso].
    assert (Hsome : match _HT_expand alloc_ok
                            (run (fresh_table 16)
                               [put_str "a" 1; put_str "q" 2; remove_str "a"]) with
                    | Some _ => true
                    | None => false
                    end = true) by (vm_compute; reflexivity).
    rewrite Hexp in Hsome. discriminate. }
  exact (proj1 (resize_keeps_bindings alloc_ok
                  (run (fresh_table 16) [put_str "a" 1; put_str "q" 2; remove_str "a"])
                  (default (fresh_table 16)
                     (_HT_expand alloc_ok
                        (run (fresh_table 16)
                           [put_str "a" 1; put_str "q" 2; remove_str "a"])))
                  (cstr "q") 1 H1 H2)).
Defined.

Close Scope string_scope.

(** ** Insertion over a tombstone *)


Open Scope string_scope.



Close Scope string_scope.
(** * Further properties of the operations *)

(** ** The three lookups agree *)

(** X12.  On any table and for any arguments, [HT_remove] returns the
    pointer [HT_get] returns.  Either [HT_exists] reports the key present,
    and the removal takes one element off the count; or it reports the key
    absent, [HT_get] returns NULL, and [HT_remove] returns NULL and leaves
    the table as it is. *)
Theorem remove_returns_what_get_finds (t : HT_T) (key : option (list Z)) (key_len : Z) :
  snd (HT_remove (Some t) key key_len) = HT_get (Some t) key key_len /\
  ((HT_exists (Some t) key key_len = true /\
    exists t', fst (HT_remove (Some t) key key_len) = Some t' /\
               ht_n t' = wrap64 (ht_n t - 1) /\ ht_cap t' = ht_cap t)
   \/
   (HT_exists (Some t) key key_len = false /\
    HT_get (Some t) key key_len = NULL /\
    HT_remove (Some t) key key_len = (Some t, NULL))).
Proof.
  unfold HT_remove, HT_get, HT_exists.
  destruct key as [key|]; [|split; [reflexivity|right; repeat split]].
  destruct (key_len >? HT_MAX_KEY_LEN - 1); [split; [reflexivity|right; repeat split]|].
  rewrite HT_remove_loop_find, HT_get_loop_find, HT_exists_loop_find.
  destruct (probe_find _ t key key_len _ 0) as [i|]; cbn [fst snd].
  - split; [reflexivity|]. left. split; [reflexivity|].
    exists (remove_at t i). repeat split.
  - split; [reflexivity|]. right. repeat split.
Qed.

(** ** A put finds a place *)

(** X13.  On a reachable table a put with a key and a length of at most 31
    whose resize, if one is due, succeeds does not fail for want of room.
    On the table [t1] it probes, within [cap] steps it stops at the first
    bucket of the key's path that holds the key, whose value it replaces, or
    is not OCCUPIED, which it takes for the binding, the count growing by
    one; the buckets before are OCCUPIED and hold other keys.  It returns
    the value it was given. *)
Theorem put_finds_a_place a t key key_len value :
  reachable t ->
  key_len <= HT_MAX_KEY_LEN - 1 ->
  (needs_expand t = true -> _HT_expand a t <> None) ->
  snd (HT_put a (Some t) (Some key) key_len value) = value /\
  (ht_n (apply_op t (OpPut a (Some key) key_len value)) = ht_n t \/
   ht_n (apply_op t (OpPut a (Some key) key_len value)) = ht_n t + 1) /\
  exists t1 d,
    (if needs_expand t then _HT_expand a t else Some t) = Some t1 /\
    0 <= d < ht_cap t1 /\
    (forall d', 0 <= d' < d ->
       is_occupied (bucket_at (ht_index t1) (probe_slot t1 key key_len d')) = true /\
       holds t1 key key_len (probe_slot t1 key key_len d') = false) /\
    ((holds t1 key key_len (probe_slot t1 key key_len d) = true /\
      HT_put a (Some t) (Some key) key_len value
      = (Some (set_value t1 (probe_slot t1 key key_len d) value), value) /\
      ht_n (apply_op t (OpPut a (Some key) key_len value)) = ht_n t)
     \/
     (is_occupied (bucket_at (ht_index t1) (probe_slot t1 key key_len d)) = false /\
      HT_put a (Some t) (Some key) key_len value
      = (Some (insert_at t1 (probe_slot t1 key key_len d)
                 (wrap64 (ht_hashcode t1 key key_len)) key key_len value d), value) /\
      ht_n (apply_op t (OpPut a (Some key) key_len value)) = ht_n t + 1)).
Proof.
  intros Hreach Hlen Halloc.
  pose proof (reachable_inv t Hreach) as Hinv.
  assert (Hstep : exists t1,
            (if needs_expand t then _HT_expand a t else Some t) = Some t1 /\
            HT_inv t1 /\ ht_n t1 = ht_n t /\ ht_n t1 < ht_cap t1).
  { pose proof (inv_cap_range t Hinv) as Hrange.
    pose proof (occupied_le_cap t Hinv) as Hle.
    destruct (needs_expand t) eqn:Hneed.
    - destruct (_HT_expand a t) as [t1|] eqn:Hexp; [|exfalso; apply Halloc; reflexivity].
      destruct (_HT_expand_inv a t t1 Hinv Hexp) as (Hinv1 & Hc & Hn & Hi).
      exists t1. split; [reflexivity|]. split; [exact Hinv1|]. split; [exact Hn|lia].
    - exists t. unfold needs_expand in Hneed.
      apply orb_false_iff in Hneed. destruct Hneed as [Hneed _].
      apply orb_false_iff in Hneed. destruct Hneed as [_ Hn].
      apply Z.eqb_neq in Hn.
      split; [reflexivity|]. split; [exact Hinv|]. split; [reflexivity|lia]. }
  destruct Hstep as (t1 & Ht1 & Hinv1 & Hn1 & Hlt1).
  unfold apply_op, HT_put.
  destruct (Z.gtb_spec key_len (HT_MAX_KEY_LEN - 1)) as [Hgt|_]; [lia|].
  rewrite Ht1. cbn [fst snd default from_option id].
  pose proof (inv_cap_range t1 Hinv1) as Hrange1.
  destruct (inv_cap t1 Hinv1) as [k [Hk Hcap]].
  pose proof (inv_index_len t1 Hinv1) as Hilen.
  pose proof (inv_n t1 Hinv1) as Hcount.
  destruct (not_all_occupied (ht_index t1)) as [j [Hj Hfree]]; [lia|].
  set (h := wrap64 (ht_hashcode t1 key key_len)).
  destruct (probe_cover k h (Z.of_nat j) ltac:(lia) ltac:(lia)) as [dj [Hdj Hslot]].
  assert (Hfreej : is_occupied (bucket_at (ht_index t1) (HT_CALC_LOC t1 (wrap64 (h + dj))))
                   = false).
  { unfold HT_CALC_LOC. rewrite Hcap, Hslot. exact Hfree. }
  assert (Hwrap : wrap64 (ht_n t1 + 1) = ht_n t + 1).
  { rewrite Hn1. apply wrap64_small.
    pose proof (occupied_le_cap t1 Hinv1).
    change (2 ^ 58) with 288230376151711744 in Hrange1.
    change (2 ^ 64) with 18446744073709551616. lia. }
  destruct (HT_put_loop_cases (Z.to_nat (ht_cap t1 + 1)) t1 key key_len value h 0)
    as [[_ Hall]|(d & Hd & Hbefore & Hcase)].
  { exfalso. destruct (Hall dj ltac:(lia)) as [Hocc _]. congruence. }
  assert (Hdlt : 0 <= d < ht_cap t1).
  { split; [lia|].
    destruct (Z_lt_ge_dec dj d) as [Hlt|Hge]; [|lia].
    destruct (Hbefore dj ltac:(lia)) as [Hocc _]. congruence. }
  destruct Hcase as [[Hm Hput]|[Hfr Hput]]; rewrite Hput; cbn [fst snd].
  - split; [reflexivity|]. split; [left; cbn [set_value ht_n]; exact Hn1|].
    exists t1, d. split; [reflexivity|]. split; [exact Hdlt|].
    split; [intros d' Hd'; apply Hbefore; lia|].
    left. split; [exact Hm|]. split; [reflexivity|].
    cbn [set_value ht_n]. exact Hn1.
  - split; [reflexivity|]. split; [right; cbn [insert_at ht_n]; exact Hwrap|].
    exists t1, d. split; [reflexivity|]. split; [exact Hdlt|].
    split; [intros d' Hd'; apply Hbefore; lia|].
    right. split; [exact Hfr|]. split; [reflexivity|].
    cbn [insert_at ht_n]. exact Hwrap.
Qed.

Open Scope string_scope.

Lemma put_finds_a_place_witness :
  snd (HT_put alloc_ok
         (Some (run (fresh_table 16) [put_str "a" 1; put_str "q" 2; remove_str "a"]))
         (Some (cstr "q")) 1 3) = 3 /\
  (ht_n (apply_op
           (run (fresh_table 16) [put_str "a" 1; put_str "q" 2; remove_str "a"])
           (OpPut alloc_ok (Some (cstr "q")) 1 3))
   = ht_n (run (fresh_table 16) [put_str "a" 1; put_str "q" 2; remove_str "a"]) \/
   ht_n (apply_op
           (run (fresh_table 16) [put_str "a" 1; put_str "q" 2; remove_str "a"])
           (OpPut alloc_ok (Some (cstr "q")) 1 3))
   = ht_n (run (fresh_table 16) [put_str "a" 1; put_str "q" 2; remove_str "a"]) + 1).
Proof.
  assert (Hreach : reachable
            (run (fresh_table 16) [put_str "a" 1; put_str "q" 2; remove_str "a"]))
    by (apply reachable_run; exact reachable_fresh_16).
  assert (Hlen : 1 <= HT_MAX_KEY_LEN - 1) by (vm_compute; discriminate).
  assert (Hneed : needs_expand
            (run (fresh_table 16) [put_str "a" 1; put_str "q" 2; remove_str "a"])
          = true ->
          _HT_expand alloc_ok
            (run (fresh_table 16) [put_str "a" 1; put_str "q" 2; remove_str "a"])
          <> None).
  { intros H. exfalso. revert H. vm_compute. discriminate. }
  destruct (put_finds_a_place alloc_ok
              (run (fresh_table 16) [put_str "a" 1; put_str "q" 2; remove_str "a"])
              (cstr "q") 1 3 Hreach Hlen Hneed) as (Hret & Hcnt & _).
  split; [exact Hret|exact Hcnt].
Defined.

Close Scope string_scope.

(** ** Array accesses *)

(** X14.  In every reachable table both arrays have [cap] cells; the slot
    the probe macro computes is the hash code modulo the capacity, a cell of
    the index array; every bucket that is not EMPTY refers to a cell of the
    entries array; and the cell a put takes for a new entry, [ins_loc], is
    one as long as no resize is due. *)
Theorem array_accesses_in_bounds t :
  reachable t ->
  Z.of_nat (length (ht_index t)) = ht_cap t /\
  Z.of_nat (length (ht_values t)) = ht_cap t /\
  (forall hashcode,
     HT_CALC_LOC t hashcode = hashcode mod ht_cap t /\
     0 <= HT_CALC_LOC t hashcode < ht_cap t) /\
  (forall i, 0 <= i < ht_cap t ->
     is_empty (bucket_at (ht_index t) i) = true \/
     0 <= b_loc (bucket_at (ht_index t) i) < ht_cap t) /\
  0 <= ht_ins_loc t <= ht_cap t /\
  (needs_expand t = true \/ ht_ins_loc t < ht_cap t).
Proof.
  intros Hreach. pose proof (reachable_inv t Hreach) as Hinv.
  pose proof (inv_used t Hinv) as Hused.
  split; [apply (inv_index_len t Hinv)|].
  split; [apply (inv_values_len t Hinv)|].
  split.
  { intros h. split; [|apply calc_loc_range; exact Hinv].
    destruct (inv_cap t Hinv) as [k [Hk Hcap]].
    unfold HT_CALC_LOC. rewrite Hcap. apply land_pow2_mod. lia. }
  split.
  - intros i Hi.
    destruct (is_empty (bucket_at (ht_index t) i)) eqn:He; [left; reflexivity|right].
    pose proof (used_loc_range t i Hinv Hi He). lia.
  - split; [lia|].
    unfold needs_expand.
    destruct (Z.eqb_spec (ht_ins_loc t) (ht_cap t)) as [Heq|Hne].
    + left. rewrite orb_true_r. reflexivity.
    + right. lia.
Qed.

Open Scope string_scope.

Lemma array_accesses_in_bounds_witness :
  Z.of_nat (length (ht_index (run (fresh_table 16) [put_str "a" 1; remove_str "a"])))
  = ht_cap (run (fresh_table 16) [put_str "a" 1; remove_str "a"]).
Proof.
  apply array_accesses_in_bounds.
  apply reachable_run. exact reachable_fresh_16.
Defined.

Close Scope string_scope.

(** ** When a put resizes *)

(** X15.  A put with a key and a length of at most 31 on a reachable table
    doubles the capacity when the count is above the threshold [expand], or
    equals the capacity, or the insertion cursor has reached the capacity,
    and the two allocations succeed; it leaves the capacity alone
    otherwise. *)
Theorem put_resizes_when_due a t key key_len value :
  reachable t ->
  key_len <= HT_MAX_KEY_LEN - 1 ->
  ht_cap (apply_op t (OpPut a (Some key) key_len value)) =
    (if ((ht_n t >? ht_expand t) || (ht_n t =? ht_cap t)
         || (ht_ins_loc t =? ht_cap t))
        && calloc_ok (a_index a) (2 * ht_cap t) sizeof_HT_BUCKET_T
        && calloc_ok (a_values a) (2 * ht_cap t) sizeof_HT_ENTRY_T
     then 2 * ht_cap t else ht_cap t).
Proof.
  intros Hreach Hlen. pose proof (reachable_inv t Hreach) as Hinv.
  pose proof (inv_cap_range t Hinv) as Hrange.
  destruct (inv_cap t Hinv) as [k [Hk Hcap]].
  assert (Hnew : _HT_round_up (wrap64 (ht_cap t * 2)) = 2 * ht_cap t).
  { rewrite wrap64_small by lia.
    replace (ht_cap t * 2) with (2 ^ (k + 1)) by (rewrite Z.pow_add_r by lia; lia).
    replace (2 * ht_cap t) with (2 ^ (k + 1)) by (rewrite Z.pow_add_r by lia; lia).
    apply _HT_round_up_pow2. lia. }
  fold (needs_expand t).
  unfold apply_op, HT_put.
  destruct (Z.gtb_spec key_len (HT_MAX_KEY_LEN - 1)) as [Hgt|_]; [lia|].
  destruct (needs_expand t) eqn:Hneed; cbn [andb].
  - unfold _HT_expand. rewrite Hnew.
    destruct (calloc_ok (a_index a) _ _); cbn [negb andb fst default from_option id];
      [|reflexivity].
    destruct (calloc_ok (a_values a) _ _); cbn [negb andb fst default from_option id];
      [|reflexivity].
    rewrite HT_put_loop_cap, fold_expand_bucket_cap. reflexivity.
  - cbn [fst default from_option id]. apply HT_put_loop_cap.
Qed.

Open Scope string_scope.

Lemma put_resizes_when_due_witness :
  ht_cap (apply_op
            (run (fresh_table 16)
               (map (fun k => put_str k 7)
                  ["a"; "b"; "c"; "d"; "e"; "f"; "g"; "h"; "i"; "j"; "k"; "l"; "m"]))
            (OpPut alloc_ok (Some (cstr "n")) 1 7)) = 32.
Proof.
  rewrite put_resizes_when_due.
  - vm_compute. reflexivity.
  - apply reachable_run. exact reachable_fresh_16.
  - vm_compute. discriminate.
Defined.

Close Scope string_scope.

(** ** Construction *)

Lemma clamp_capacity requested_capacity :
  (if (if requested_capacity <? HT_DEFAULT_CAPACITY then HT_DEFAULT_CAPACITY
       else requested_capacity) >? HT_MAX_CAPACITY
   then HT_MAX_CAPACITY
   else if requested_capacity <? HT_DEFAULT_CAPACITY then HT_DEFAULT_CAPACITY
        else requested_capacity)
  = Z.min (Z.max requested_capacity HT_DEFAULT_CAPACITY) HT_MAX_CAPACITY.
Proof.
  unfold HT_DEFAULT_CAPACITY, HT_MAX_CAPACITY.
  change (Z.shiftl 1 30) with 1073741824.
  destruct (Z.ltb_spec requested_capacity 16);
    match goal with |- context [?x >? ?y] => destruct (Z.gtb_spec x y) end; lia.
Qed.

Lemma probe_find_all_empty fuel t key key_len h d :
  Forall (fun b => is_empty b = true) (ht_index t) ->
  probe_find fuel t key key_len h d = None.
Proof.
  intros Hall. apply probe_find_None. intros d'.
  apply not_occupied_no_match.
  assert (He : is_empty (bucket_at (ht_index t) (HT_CALC_LOC t (wrap64 (h + d')))) = true).
  { unfold bucket_at.
    destruct (ht_index t !! _) as [b|] eqn:Hl; simpl; [|reflexivity].
    rewrite Forall_forall in Hall. apply Hall.
    eapply list_elem_of_lookup_2. exact Hl. }
  unfold is_empty, is_occupied in *.
  destruct (b_state _); congruence.
Qed.

(** X16.  A table [HT_new_ex] returns has for capacity the least power of
    two that is at least the requested capacity, the request being first
    raised to 16 and lowered to [2^30]; it holds no element, and every
    lookup in it fails. *)
Theorem HT_new_ex_capacity a requested_capacity load_factor hashcode cmp dealloc t :
  HT_new_ex a requested_capacity load_factor hashcode cmp dealloc = Some t ->
  (exists k, ht_cap t = 2 ^ k /\
     Z.min (Z.max requested_capacity HT_DEFAULT_CAPACITY) HT_MAX_CAPACITY <= 2 ^ k /\
     2 ^ k < 2 * Z.min (Z.max requested_capacity HT_DEFAULT_CAPACITY) HT_MAX_CAPACITY) /\
  ht_n t = 0 /\
  forall key key_len,
    HT_get (Some t) key key_len = NULL /\
    HT_exists (Some t) key key_len = false /\
    HT_remove (Some t) key key_len = (Some t, NULL).
Proof.
  intros Hnew.
  destruct (HT_new_ex_fields _ _ _ _ _ _ _ Hnew) as (_ & _ & c & Hidx & _).
  unfold HT_new_ex in Hnew. rewrite clamp_capacity in Hnew.
  set (r := Z.min (Z.max requested_capacity HT_DEFAULT_CAPACITY) HT_MAX_CAPACITY) in *.
  assert (Hr : 16 <= r <= 2 ^ 30).
  { subst r. unfold HT_DEFAULT_CAPACITY, HT_MAX_CAPACITY.
    change (Z.shiftl 1 30) with (2 ^ 30). lia. }
  destruct (_HT_round_up_spec r) as [k [Hk [Hround Hbounds]]]; [lia|].
  rewrite Hround in Hnew.
  destruct (negb (calloc_ok _ _ _)); [discriminate|].
  destruct (negb (calloc_ok _ _ _)); [discriminate|].
  destruct (negb (a_table a)); [discriminate|].
  split.
  { exists k. injection Hnew as <-. cbn [ht_cap]. split; [reflexivity|].
    split; [lia|].
    replace (2 ^ k) with (2 * 2 ^ (k - 1)) by (rewrite <- Z.pow_succ_r by lia; f_equal; lia).
    lia. }
  split; [injection Hnew as <-; reflexivity|].
  assert (Hall : Forall (fun b => is_empty b = true) (ht_index t))
    by (rewrite Hidx; apply Forall_replicate; reflexivity).
  intros key key_len. unfold HT_get, HT_exists, HT_remove.
  destruct key as [key|]; [|repeat split].
  destruct (key_len >? HT_MAX_KEY_LEN - 1); [repeat split|].
  rewrite HT_get_loop_find, HT_exists_loop_find, HT_remove_loop_find.
  rewrite probe_find_all_empty by exact Hall. repeat split.
Qed.

Lemma HT_new_ex_capacity_witness :
  exists t, HT_new alloc_ok 30 = Some t /\ ht_cap t = 32 /\ ht_n t = 0.
Proof.
  exists (fresh_table 32).
  assert (Hnew : HT_new_ex alloc_ok 30 HT_DEFAULT_LOAD_FACTOR _HT_hash strncmp libc_free
                 = Some (fresh_table 32)) by reflexivity.
  destruct (HT_new_ex_capacity _ _ _ _ _ _ _ Hnew) as (_ & Hn & _).
  split; [exact Hnew|]. split; [reflexivity|exact Hn].
Defined.

(** X17.  [HT_new_ex] returns NULL exactly when one of its three
    allocations fails: the clamped capacity always fits the two arrays. *)
Theorem HT_new_ex_fails_on_allocation_only a requested_capacity load_factor
    hashcode cmp dealloc :
  HT_new_ex a requested_capacity load_factor hashcode cmp dealloc = None <->
  a_index a = false \/ a_values a = false \/ a_table a = false.
Proof.
  unfold HT_new_ex. rewrite clamp_capacity.
  set (r := Z.min (Z.max requested_capacity HT_DEFAULT_CAPACITY) HT_MAX_CAPACITY) in *.
  assert (Hr : 16 <= r <= 2 ^ 30).
  { subst r. unfold HT_DEFAULT_CAPACITY, HT_MAX_CAPACITY.
    change (Z.shiftl 1 30) with (2 ^ 30). lia. }
  destruct (_HT_round_up_spec r) as [k [Hk [Hround Hbounds]]]; [lia|].
  rewrite Hround.
  assert (Hk30 : 2 ^ k <= 2 ^ 30).
  { destruct (Z_le_dec k 30); [apply Z.pow_le_mono_r; lia|exfalso].
    assert (2 ^ 30 <= 2 ^ (k - 1)) by (apply Z.pow_le_mono_r; lia). lia. }
  assert (Hfit : forall g size, 0 <= size <= 48 ->
            calloc_ok g (2 ^ k) size = g).
  { intros g size Hsize. unfold calloc_ok.
    destruct g; [|reflexivity]. simpl. apply Z.ltb_lt.
    assert (0 < 2 ^ k) by (apply Z.pow_pos_nonneg; lia).
    change (2 ^ 64) with (2 ^ 30 * 2 ^ 34). change (2 ^ 34) with 17179869184.
    change (2 ^ 30) with 1073741824 in *. nia. }
  rewrite !Hfit by (unfold sizeof_HT_BUCKET_T, sizeof_HT_ENTRY_T; lia).
  destruct (a_index a), (a_values a), (a_table a); simpl; split;
    try discriminate; try tauto; try (intros [H|[H|H]]; discriminate).
Qed.
(** ** Rounding and hashing *)

(** X18.  [_HT_round_up] maps a size between 1 and [2^32] to the least
    power of two that is not below it, and zero to zero. *)
Theorem _HT_round_up_least_power_of_two v :
  0 <= v <= 2 ^ 32 ->
  (v = 0 /\ _HT_round_up v = 0) \/
  exists k, 0 <= k <= 32 /\ _HT_round_up v = 2 ^ k /\ v <= 2 ^ k /\ 2 ^ k < 2 * v.
Proof.
  intros Hv.
  destruct (Z.eq_dec v 0) as [->|Hne0]; [left; split; reflexivity|right].
  destruct (Z.eq_dec v 1) as [->|Hne1].
  - exists 0. split; [lia|]. split; [reflexivity|]. simpl. lia.
  - destruct (_HT_round_up_spec v) as [k [Hk [Hround Hbounds]]]; [lia|].
    exists k. split; [lia|]. split; [exact Hround|]. split; [lia|].
    replace (2 ^ k) with (2 * 2 ^ (k - 1))
      by (rewrite <- Z.pow_succ_r by lia; f_equal; lia).
    lia.
Qed.

Lemma _HT_round_up_least_power_of_two_witness :
  (30 = 0 /\ _HT_round_up 30 = 0) \/
  exists k, 0 <= k <= 32 /\ _HT_round_up 30 = 2 ^ k /\ 30 <= 2 ^ k /\ 2 ^ k < 2 * 30.
Proof. apply _HT_round_up_least_power_of_two. lia. Defined.

Lemma _HT_hash_loop_fold key key_len : forall n h,
  Forall (fun c => c <> 0) key ->
  n + Z.of_nat (length key) <= key_len + 1 ->
  _HT_hash_loop key key_len n h = fold_left (fun h c => wrap64 (h * 33 + c)) key h.
Proof.
  induction key as [|c key IH]; intros n h Hnz Hlen; [reflexivity|].
  apply Forall_cons in Hnz. destruct Hnz as [Hc Hnz].
  cbn [_HT_hash_loop fold_left length] in *.
  destruct (Z.eqb_spec c 0) as [|_]; [contradiction|].
  destruct (Z.leb_spec n key_len); [|lia].
  rewrite hash_step. apply IH; [exact Hnz|lia].
Qed.

(** X19.  On a key whose characters number at most [key_len + 1],
    [_HT_hash] is the hash of the whole string: from 5381, each character
    [c] in turn takes [h] to [h * 33 + c] modulo [2^64].  So it does not
    depend on [key_len] beyond that bound. *)
Theorem _HT_hash_whole_key key key_len :
  Forall (fun c => c <> 0) key ->
  Z.of_nat (length key) <= key_len + 1 ->
  _HT_hash key key_len = fold_left (fun h c => wrap64 (h * 33 + c)) key 5381.
Proof.
  intros Hnz Hlen. unfold _HT_hash. apply _HT_hash_loop_fold; [exact Hnz|lia].
Qed.

Open Scope string_scope.

Lemma _HT_hash_whole_key_witness :
  _HT_hash (cstr "key1") 4
  = fold_left (fun h c => wrap64 (h * 33 + c)) (cstr "key1") 5381.
Proof.
  apply _HT_hash_whole_key.
  - repeat constructor; discriminate.
  - vm_compute. discriminate.
Defined.

Close Scope string_scope.

(** ** The resize threshold *)

Lemma HT_put_loop_threshold fuel : forall t key key_len value h d,
  ht_expand (fst (HT_put_loop fuel t key key_len value h d)) = ht_expand t /\
  ht_load_factor (fst (HT_put_loop fuel t key key_len value h d)) = ht_load_factor t.
Proof.
  induction fuel as [|fuel IH]; intros t key key_len value h d; [auto|].
  cbn [HT_put_loop].
  destruct (is_occupied _ && _).
  - destruct (_ && _); [auto|apply IH].
  - destruct (negb _); [auto|apply IH].
Qed.

Lemma HT_remove_loop_threshold fuel : forall t key key_len h d,
  ht_expand (fst (HT_remove_loop fuel t key key_len h d)) = ht_expand t /\
  ht_load_factor (fst (HT_remove_loop fuel t key key_len h d)) = ht_load_factor t.
Proof.
  intros t key key_len h d. rewrite HT_remove_loop_find.
  destruct (probe_find _ _ _ _ _ _); auto.
Qed.

Lemma _HT_expand_probe_threshold fuel : forall t eb h d,
  ht_expand (fst (_HT_expand_probe fuel t eb h d)) = ht_expand t /\
  ht_load_factor (fst (_HT_expand_probe fuel t eb h d)) = ht_load_factor t.
Proof.
  induction fuel as [|fuel IH]; intros t eb h d; simpl; [auto|].
  destruct (is_occupied _); simpl; [apply IH|auto].
Qed.

Lemma fold_expand_bucket_threshold olds : forall t,
  ht_expand (fold_left _HT_expand_bucket olds t) = ht_expand t /\
  ht_load_factor (fold_left _HT_expand_bucket olds t) = ht_load_factor t.
Proof.
  induction olds as [|b olds IH]; intros t; simpl; [auto|].
  destruct (IH (_HT_expand_bucket t b)) as [-> ->].
  unfold _HT_expand_bucket. destruct (is_occupied b); [|auto].
  apply _HT_expand_probe_threshold.
Qed.

Lemma threshold_step t o :
  HT_inv t ->
  ht_expand t = _HT_calc_expansion (ht_load_factor t) (ht_cap t) ->
  ht_expand (apply_op t o)
    = _HT_calc_expansion (ht_load_factor (apply_op t o)) (ht_cap (apply_op t o)) /\
  ht_load_factor (apply_op t o) = ht_load_factor t.
Proof.
  intros Hinv Hthr.
  destruct o as [a key key_len value|key key_len|key key_len|key key_len];
    cbn [apply_op]; [|auto|auto|].
  - unfold HT_put.
    destruct key as [key|]; [|auto].
    destruct (key_len >? HT_MAX_KEY_LEN - 1); [auto|].
    destruct (needs_expand t).
    + destruct (_HT_expand a t) as [t1|] eqn:Hexp; [|auto].
      cbn [fst default from_option id].
      destruct (HT_put_loop_threshold (Z.to_nat (ht_cap t1 + 1)) t1 key key_len value
                  (wrap64 (ht_hashcode t1 key key_len)) 0) as [-> ->].
      rewrite HT_put_loop_cap.
      unfold _HT_expand in Hexp.
      destruct (negb (calloc_ok _ _ _)); [discriminate|].
      destruct (negb (calloc_ok _ _ _)); [discriminate|].
      injection Hexp as <-.
      rewrite fold_expand_bucket_cap.
      destruct (fold_expand_bucket_threshold
                  (buckets_upto (ht_index t) (ht_cap t))
                  {| ht_index := replicate
                       (Z.to_nat (_HT_round_up (wrap64 (ht_cap t * 2)))) empty_bucket;
                     ht_values := copy_values
                       (replicate (Z.to_nat (_HT_round_up (wrap64 (ht_cap t * 2))))
                          empty_entry) (ht_values t) (ht_cap t);
                     ht_n := ht_n t;
                     ht_cap := _HT_round_up (wrap64 (ht_cap t * 2));
                     ht_expand := _HT_calc_expansion (ht_load_factor t)
                                    (_HT_round_up (wrap64 (ht_cap t * 2)));
                     ht_max_probe := 0; ht_ins_loc := ht_ins_loc t;
                     ht_load_factor := ht_load_factor t; ht_cmp := ht_cmp t;
                     ht_hashcode := ht_hashcode t; ht_dealloc := ht_dealloc t |})
        as [-> ->].
      cbn [ht_expand ht_load_factor ht_cap]. auto.
    + cbn [fst default from_option id].
      destruct (HT_put_loop_threshold (Z.to_nat (ht_cap t + 1)) t key key_len value
                  (wrap64 (ht_hashcode t key key_len)) 0) as [-> ->].
      rewrite HT_put_loop_cap. auto.
  - unfold HT_remove.
    destruct key as [key|]; [|auto].
    destruct (key_len >? HT_MAX_KEY_LEN - 1); [auto|].
    cbn [fst default from_option id].
    destruct (HT_remove_loop_threshold (Z.to_nat (ht_max_probe t + 1)) t key key_len
                (wrap64 (ht_hashcode t key key_len)) 0) as [-> ->].
    rewrite HT_remove_loop_cap. auto.
Qed.

(** The float arithmetic of the threshold. *)

Lemma digits2_pos_size m : digits2_pos m = Pos.size m.
Proof. induction m as [m IH|m IH|]; simpl; rewrite ?IH; reflexivity. Qed.

Lemma digits2_pos_bounds m :
  2 ^ (Z.pos (digits2_pos m) - 1) <= Z.pos m < 2 ^ Z.pos (digits2_pos m).
Proof.
  rewrite digits2_pos_size. split.
  - pose proof (Pos.size_le m) as H.
    assert (H2 : 2 ^ Z.pos (Pos.size m) <= 2 * Z.pos m).
    { rewrite <- Pos2Z.inj_pow. change (2 * Z.pos m) with (Z.pos m~0). exact H. }
    replace (Z.pos (Pos.size m)) with (Z.pos (Pos.size m) - 1 + 1) in H2 by lia.
    rewrite Z.pow_add_r in H2 by lia. lia.
  - rewrite <- Pos2Z.inj_pow. apply Pos.size_gt.
Qed.

Lemma two_power_pos e : (0 < (2 # 1) ^ e)%Q.
Proof. apply Qpower_0_lt. reflexivity. Qed.

(** A valid float between 0.1 and 1 is a normal number with an exponent
    between -27 and -23. *)
Lemma load_factor_normal (lf : float) :
  (DOUBLE_0_1 <= float_value (f_val lf))%Q -> (float_value (f_val lf) <= 1)%Q ->
  exists m e, f_val lf = S754_finite false m e /\
    digits2_pos m = 24%positive /\ -27 <= e <= -23.
Proof.
  destruct lf as [v Hv]. cbn [f_val]. intros Hlo Hhi.
  destruct v as [s|s| |s m e]; try (exfalso; vm_compute in Hlo; apply Hlo; reflexivity).
  pose proof (two_power_pos e) as Hpow.
  destruct s.
  { exfalso. cbn [float_value] in Hlo.
    assert (Hneg : (- inject_Z (Z.pos m) * (2 # 1) ^ e <= 0)%Q).
    { rewrite <- (Qmult_0_l ((2 # 1) ^ e)).
      apply Qmult_le_compat_r; [|apply Qlt_le_weak; exact Hpow].
      unfold Qle. simpl. lia. }
    apply (Qle_not_lt _ _ (Qle_trans _ _ _ Hlo Hneg)). reflexivity. }
  exists m, e. split; [reflexivity|].
  cbn [float_value] in Hlo, Hhi.
  unfold valid_binary, bounded, canonical_mantissa, fexp, emin,
    FLT_MANT_DIG, FLT_MAX_EXP in Hv.
  apply andb_true_iff in Hv. destruct Hv as [Hcan Hemax].
  apply Z.eqb_eq in Hcan. apply Z.leb_le in Hemax.
  pose proof (digits2_pos_bounds m) as [Hmlo Hmhi].
  assert (Hd : Z.pos (digits2_pos m) <= 24) by lia.
  assert (Hm24 : Z.pos m < 2 ^ 24).
  { eapply Z.lt_le_trans; [exact Hmhi|]. apply Z.pow_le_mono_r; lia. }
  assert (He1 : -27 <= e).
  { destruct (Z_le_gt_dec (-27) e) as [|Hlt]; [assumption|exfalso].
    assert (Hp : ((2 # 1) ^ e <= (2 # 1) ^ (-28))%Q).
    { apply Qpower_le_compat_l; [lia|]. unfold Qle. simpl. lia. }
    assert (Hv1 : (inject_Z (Z.pos m) * (2 # 1) ^ e
                   <= inject_Z (2 ^ 24) * (2 # 1) ^ (-28))%Q).
    { apply Qle_trans with (inject_Z (Z.pos m) * (2 # 1) ^ (-28))%Q.
      - apply Qmult_le_l; [reflexivity|exact Hp].
      - apply Qmult_le_compat_r; [|apply Qlt_le_weak; apply two_power_pos].
        rewrite <- Zle_Qle. lia. }
    apply (Qle_not_lt _ _ (Qle_trans _ _ _ Hlo Hv1)). reflexivity. }
  assert (Hd24 : Z.pos (digits2_pos m) = 24) by lia.
  split; [lia|]. split; [exact He1|].
  destruct (Z_le_gt_dec e (-23)) as [|Hgt]; [assumption|exfalso].
  rewrite Hd24 in Hmlo.
  assert (Hp : ((2 # 1) ^ (-22) <= (2 # 1) ^ e)%Q).
  { apply Qpower_le_compat_l; [lia|]. unfold Qle. simpl. lia. }
  assert (Hv1 : (inject_Z (2 ^ 23) * (2 # 1) ^ (-22)
                 <= inject_Z (Z.pos m) * (2 # 1) ^ e)%Q).
  { apply Qle_trans with (inject_Z (2 ^ 23) * (2 # 1) ^ e)%Q.
    - apply Qmult_le_l; [reflexivity|exact Hp].
    - apply Qmult_le_compat_r; [|apply Qlt_le_weak; exact Hpow].
      rewrite <- Zle_Qle. exact Hmlo. }
  apply (Qle_not_lt _ _ (Qle_trans _ _ _ Hv1 Hhi)). reflexivity.
Qed.

(** A capacity of the table, a power of two, is a float. *)
Lemma float_of_size_t_pow2 k :
  4 <= k <= 58 -> float_of_size_t (2 ^ k) = S754_finite false 8388608 (k - 23).
Proof.
  intros Hk.
  assert (H : exists n : nat, (n <= 54)%nat /\ k = 4 + Z.of_nat n)
    by (exists (Z.to_nat (k - 4)); lia).
  destruct H as [n [Hn ->]].
  do 55 (destruct n as [|n]; [vm_compute; reflexivity|]). lia.
Qed.

(** The product of a load factor and a capacity is exact: the capacity
    only shifts the exponent. *)
Lemma SFmul_pow2_exact m e k :
  digits2_pos m = 24%positive -> -27 <= e <= -23 -> 4 <= k <= 58 ->
  SFmul FLT_MANT_DIG FLT_MAX_EXP (S754_finite false m e)
    (S754_finite false 8388608 (k - 23))
  = S754_finite false m (e + k).
Proof.
  intros Hd He Hk. unfold SFmul. cbn [xorb].
  rewrite Pos.mul_comm.
  change (8388608 * m)%positive with m~0~0~0~0~0~0~0~0~0~0~0~0~0~0~0~0~0~0~0~0~0~0~0%positive.
  set (M := m~0~0~0~0~0~0~0~0~0~0~0~0~0~0~0~0~0~0~0~0~0~0~0%positive).
  assert (HdM : digits2_pos M = 47%positive)
    by (subst M; cbn [digits2_pos]; rewrite Hd; reflexivity).
  unfold binary_round_aux, shr_fexp, FLT_MANT_DIG, FLT_MAX_EXP.
  cbn [Zdigits2 shr_record_of_loc]. rewrite HdM.
  unfold fexp, emin.
  replace (Z.max (47 + (e + (k - 23)) - 24) (3 - 128 - 24) - (e + (k - 23)))
    with 23 by lia.
  assert (Hshift : SpecFloat.iter_pos shr_1 23
                     {| shr_m := Z.pos M; shr_r := false; shr_s := false |}
                   = {| shr_m := Z.pos m; shr_r := false; shr_s := false |})
    by reflexivity.
  cbn [shr]. rewrite Hshift.
  cbn [shr_m loc_of_shr_record round_nearest_even Zdigits2 shr_record_of_loc].
  rewrite Hd.
  replace (Z.max (24 + (e + (k - 23) + 23) - 24) (3 - 128 - 24)
           - (e + (k - 23) + 23)) with 0 by lia.
  cbn [shr shr_m].
  destruct (Z.leb_spec (e + (k - 23) + 23) (128 - 24)) as [_|Hgt]; [|lia].
  f_equal. lia.
Qed.

Lemma _HT_calc_expansion_exact (lf : float) k :
  4 <= k <= 58 ->
  (DOUBLE_0_1 <= float_value (f_val lf))%Q -> (float_value (f_val lf) <= 1)%Q ->
  _HT_calc_expansion lf (2 ^ k) = Qfloor (float_value (f_val lf) * inject_Z (2 ^ k)) /\
  1 <= Qfloor (float_value (f_val lf) * inject_Z (2 ^ k)) <= 2 ^ k.
Proof.
  intros Hk Hlo Hhi.
  destruct (load_factor_normal lf Hlo Hhi) as (m & e & Hv & Hd & He).
  unfold _HT_calc_expansion. rewrite Hv in Hlo, Hhi |- *. clear Hv.
  set (v := S754_finite false m e) in *.
  assert (Hpow : 16 <= 2 ^ k <= 2 ^ 58) by (apply pow2_range; exact Hk).
  assert (Hup : Qfloor (float_value v * inject_Z (2 ^ k)) <= 2 ^ k).
  { rewrite <- (Qfloor_Z (2 ^ k)) at 2. apply Qfloor_resp_le.
    rewrite <- (Qmult_1_l (inject_Z (2 ^ k))) at 2.
    apply Qmult_le_compat_r; [exact Hhi|].
    change 0%Q with (inject_Z 0). rewrite <- Zle_Qle. lia. }
  assert (Hdown : 1 <= Qfloor (float_value v * inject_Z (2 ^ k))).
  { rewrite <- (Qfloor_Z 1). apply Qfloor_resp_le.
    apply Qle_trans with (DOUBLE_0_1 * inject_Z 16)%Q; [vm_compute; discriminate|].
    apply Qle_trans with (DOUBLE_0_1 * inject_Z (2 ^ k))%Q.
    - apply Qmult_le_l; [reflexivity|]. rewrite <- Zle_Qle. lia.
    - apply Qmult_le_compat_r; [exact Hlo|].
      change 0%Q with (inject_Z 0). rewrite <- Zle_Qle. lia. }
  split; [|lia].
  subst v. rewrite float_of_size_t_pow2, SFmul_pow2_exact by assumption.
  assert (Heq : (float_value (S754_finite false m (e + k))
                 == float_value (S754_finite false m e) * inject_Z (2 ^ k))%Q).
  { cbn [float_value].
    rewrite Qpower_plus by (intros H; discriminate H).
    rewrite Zpower_Qpower by lia. change (inject_Z 2) with (2 # 1).
    ring. }
  unfold size_t_of_float. rewrite (Qfloor_comp _ _ Heq).
  change (2 ^ 58) with 288230376151711744 in Hpow.
  change (2 ^ 64) with 18446744073709551616.
  destruct (Z.ltb_spec (Qfloor (float_value (S754_finite false m e) * inject_Z (2 ^ k)))
              18446744073709551616) as [_|Hge]; [reflexivity|lia].
Qed.

(** What the range test of [HT_new_ex] leaves: the NaN, or a value between
    0.1 and 1. *)
Lemma load_factor_sanitised (load_factor : float) :
  let lf := if float_lt load_factor DOUBLE_0_1 || float_gt load_factor DOUBLE_1_0
            then HT_DEFAULT_LOAD_FACTOR else load_factor in
  f_val lf = S754_nan \/
  ((DOUBLE_0_1 <= float_value (f_val lf))%Q /\ (float_value (f_val lf) <= 1)%Q).
Proof.
  cbv zeta.
  assert (Hdef : (DOUBLE_0_1 <= float_value (f_val HT_DEFAULT_LOAD_FACTOR))%Q /\
                 (float_value (f_val HT_DEFAULT_LOAD_FACTOR) <= 1)%Q)
    by (split; vm_compute; discriminate).
  destruct (float_lt load_factor DOUBLE_0_1) eqn:Hlt; cbn [orb]; [right; exact Hdef|].
  destruct (float_gt load_factor DOUBLE_1_0) eqn:Hgt; [right; exact Hdef|].
  unfold float_lt in Hlt. unfold float_gt in Hgt.
  destruct (f_val load_factor) as [s|s| |s m e] eqn:Hv.
  - right. apply negb_false_iff in Hlt, Hgt.
    split; apply Qle_bool_iff; assumption.
  - destruct s; discriminate.
  - left. reflexivity.
  - right. apply negb_false_iff in Hlt, Hgt.
    split; apply Qle_bool_iff; assumption.
Qed.

(** X20.  In every reachable table the load factor is the NaN or lies
    between 0.1 and 1.  In the second case the threshold [expand] is the
    integer part of the load factor times the current capacity, the product
    of the two floats being exact, and lies between 1 and the capacity.  With
    the NaN it is [2^63], which no count exceeds. *)
Theorem threshold_follows_capacity t :
  reachable t ->
  (f_val (ht_load_factor t) = S754_nan /\ ht_expand t = 2 ^ 63) \/
  ((DOUBLE_0_1 <= float_value (f_val (ht_load_factor t)))%Q /\
   (float_value (f_val (ht_load_factor t)) <= 1)%Q /\
   ht_expand t
   = Qfloor (float_value (f_val (ht_load_factor t)) * inject_Z (ht_cap t)) /\
   1 <= ht_expand t <= ht_cap t).
Proof.
  intros Hreach.
  assert (Hfields :
            (f_val (ht_load_factor t) = S754_nan \/
             ((DOUBLE_0_1 <= float_value (f_val (ht_load_factor t)))%Q /\
              (float_value (f_val (ht_load_factor t)) <= 1)%Q)) /\
            ht_expand t = _HT_calc_expansion (ht_load_factor t) (ht_cap t)).
  { induction Hreach as [a rc lf h c d t Hnew|t o Hreach IH].
    - unfold HT_new_ex in Hnew.
      destruct (negb (calloc_ok _ _ _)); [discriminate|].
      destruct (negb (calloc_ok _ _ _)); [discriminate|].
      destruct (negb (a_table a)); [discriminate|].
      injection Hnew as <-. cbn [ht_load_factor ht_expand ht_cap].
      split; [apply load_factor_sanitised|reflexivity].
    - destruct IH as (H1 & H3).
      destruct (threshold_step t o (reachable_inv t Hreach) H3) as [Hthr Hlf].
      rewrite Hlf. split; [exact H1|].
      rewrite Hthr, Hlf. reflexivity. }
  destruct Hfields as (H1 & H3).
  destruct (inv_cap t (reachable_inv t Hreach)) as [k [Hk Hcap]].
  destruct H1 as [Hnan|[Hlo Hhi]].
  - left. split; [exact Hnan|].
    rewrite H3. unfold _HT_calc_expansion. rewrite Hnan. reflexivity.
  - right. split; [exact Hlo|]. split; [exact Hhi|].
    rewrite H3, Hcap.
    destruct (_HT_calc_expansion_exact (ht_load_factor t) k Hk Hlo Hhi) as [-> Hr].
    split; [reflexivity|exact Hr].
Qed.

Open Scope string_scope.

Lemma threshold_follows_capacity_witness :
  1 <= ht_expand (run (fresh_table 16) [put_str "a" 1; remove_str "a"])
    <= ht_cap (run (fresh_table 16) [put_str "a" 1; remove_str "a"]) /\
  ht_expand (default (fresh_table 16)
               (HT_new_ex alloc_ok 16 float_nan _HT_hash strncmp libc_free))
  = 2 ^ 63.
Proof.
  split.
  - destruct (threshold_follows_capacity
                (run (fresh_table 16) [put_str "a" 1; remove_str "a"])
                (reachable_run _ _ reachable_fresh_16))
      as [[Hnan _]|(_ & _ & _ & H)].
    + vm_compute in Hnan. discriminate Hnan.
    + exact H.
  - assert (Hlf : match HT_new_ex alloc_ok 16 float_nan _HT_hash strncmp libc_free with
                  | Some t => f_val (ht_load_factor t)
                  | None => S754_nan
                  end = S754_nan) by (vm_compute; reflexivity).
    assert (Hsome : match HT_new_ex alloc_ok 16 float_nan _HT_hash strncmp libc_free with
                    | Some _ => true
                    | None => false
                    end = true) by (vm_compute; reflexivity).
    destruct (HT_new_ex alloc_ok 16 float_nan _HT_hash strncmp libc_free)
      as [t|] eqn:Hnew; [|discriminate Hsome].
    cbn [default from_option id].
    destruct (threshold_follows_capacity t
                (reachable_new alloc_ok 16 float_nan _HT_hash strncmp libc_free t Hnew))
      as [[_ H]|(Hlo & _)]; [exact H|].
    rewrite Hlf in Hlo. vm_compute in Hlo. exfalso. apply Hlo. reflexivity.
Defined.

Close Scope string_scope.
(** * The driver *)

(** X21.  [main] returns 0 when the allocations of the table succeed,
    whatever addresses [malloc] hands out: every test of the driver passes.
    It returns 1 when the table cannot be made. *)
Theorem main_exit_status (a : alloc) (heap : nat -> positive) :
  main a heap = if a_index a && a_values a && a_table a then 0 else 1.
Proof.
  destruct a as [[|] [|] [|]]; vm_compute; reflexivity.
Qed.

Open Scope string_scope.

(** X22.  [do_sample] with a table and a value: the key is reported
    present, the value is got and removed, and [HT_free] then has nothing to
    hand to the deallocator, the value being left to the caller.  With a NULL
    value the put is reported failed although the key is then present.
    When the table cannot be made every call fails quietly. *)
Theorem do_sample_messages :
  (forall p,
     do_sample alloc_ok (Z.pos p)
     = (["Sample usage" ++ nl;
         tab ++ "Create a new table with an initial capacity of 30" ++ nl;
         tab ++ "Create a Value to be added to the table" ++ nl;
         tab ++ "Add a value to the table" ++ nl;
         tab ++ "Check if the key is in the table - ";
         "Key exists" ++ nl;
         tab ++ "Retrieve a Value - ";
         "Got the value" ++ nl;
         tab ++ "Remove an item - ";
         "Value was removed from the table" ++ nl;
         tab ++ "Free the table" ++ nl], [])) /\
  do_sample alloc_ok NULL
  = (["Sample usage" ++ nl;
      tab ++ "Create a new table with an initial capacity of 30" ++ nl;
      tab ++ "Create a Value to be added to the table" ++ nl;
      tab ++ "Add a value to the table" ++ nl;
      "Put failed" ++ nl;
      tab ++ "Check if the key is in the table - ";
      "Key exists" ++ nl;
      tab ++ "Retrieve a Value - ";
      "Value not found or is NULL" ++ nl;
      tab ++ "Remove an item - ";
      "Value not found or is NULL" ++ nl;
      tab ++ "Free the table" ++ nl], []) /\
  (forall a value,
     a_index a && a_values a && a_table a = false ->
     do_sample a value
     = (["Sample usage" ++ nl;
         tab ++ "Create a new table with an initial capacity of 30" ++ nl;
         "Could not create hash table";
         tab ++ "Create a Value to be added to the table" ++ nl;
         tab ++ "Add a value to the table" ++ nl;
         "Put failed" ++ nl;
         tab ++ "Check if the key is in the table - ";
         "Key does not exists" ++ nl;
         tab ++ "Retrieve a Value - ";
         "Value not found or is NULL" ++ nl;
         tab ++ "Remove an item - ";
         "Value not found or is NULL" ++ nl;
         tab ++ "Free the table" ++ nl], [])).
Proof.
  split; [intros p; vm_compute; reflexivity|].
  split; [vm_compute; reflexivity|].
  intros a value Hfail.
  destruct a as [[|] [|] [|]]; try discriminate; vm_compute; reflexivity.
Qed.

Close Scope string_scope.
